(** * aglio (olio theme): MSON inheritance, JSON Schema and example rendering

    A shallow embedding of [src/inherit.js], [src/schema.js] and
    [src/example.js].  The three functions work on refracted MSON elements,
    which reach them as parsed JSON, so the embedding is untyped: one type
    [value] of JavaScript values, property reads that throw on [undefined] and
    [null], and results that record how a call completes.

    Conventions of the model.
    - Numbers are integers ([Z]); the code performs no arithmetic on the
      numbers of its input.
    - Objects are association lists of their own properties, in
      property-enumeration order (array indices first, ascending; then
      strings in insertion order).  What a plain object inherits from
      [Object.prototype] ([constructor], [__proto__], ...) counts where the
      code reads or writes under a name that comes from its input: the table
      of data structures ([inherited], [inherit_inherited]), the assignments
      under a computed key ([assign]), the known parameters and the cache of
      slugs.  The names that the source itself spells out ([element],
      [content], [meta], ...) are none of them, and read as [undefined] on an
      object that does not hold them.
    - Strings are sequences of one-byte characters.
    - In the value model two distinct occurrences of an object are distinct
      objects: [===] on objects and arrays is [false].  Sharing and mutation are
      the subject of the store model in [Module Store].
    - [Unmodelled] marks the places where the code leaves this fragment (a
      number used as a property name, a property written on an array, ...). *)

From Stdlib Require Import String Ascii List ZArith NArith Bool Lia.
From Stdlib Require Import DecimalString.
From Stdlib Require DecimalN.
Import ListNotations.
Open Scope string_scope.
Open Scope list_scope.

(** ** Values *)

#[local] Set Warnings "-register-all".

Inductive value : Type :=
| VUndefined
| VNull
| VBool (b : bool)
| VNum (n : Z)
| VStr (s : string)
| VArr (items : list value)
| VObj (fields : list (string * value)).

Definition obj : Type := list (string * value).

(** ** Completions *)

Inductive error : Type := TypeError | ReferenceError | SyntaxError.

Inductive result (A : Type) : Type :=
| Ok (a : A)          (* normal completion *)
| Throw (e : error)   (* an exception leaves the function *)
| OutOfFuel           (* the bound on recursion and iteration was reached *)
| Unmodelled.         (* the code left the modelled fragment *)

Arguments Ok {A} a.
Arguments Throw {A} e.
Arguments OutOfFuel {A}.
Arguments Unmodelled {A}.

Definition bind {A B : Type} (m : result A) (k : A -> result B) : result B :=
  match m with
  | Ok a => k a
  | Throw e => Throw e
  | OutOfFuel => OutOfFuel
  | Unmodelled => Unmodelled
  end.

Declare Scope result_scope.
Delimit Scope result_scope with result.
Notation "x <- m ;; k" := (bind m (fun x => k))
  (at level 100, m at next level, right associativity) : result_scope.
Notation "' pat <- m ;; k" := (bind m (fun x => match x with pat => k end))
  (at level 100, pat pattern, m at next level, right associativity) : result_scope.
Open Scope result_scope.

Fixpoint mapM {A B : Type} (f : A -> result B) (l : list A) : result (list B) :=
  match l with
  | [] => Ok []
  | x :: l' => y <- f x ;; ys <- mapM f l' ;; Ok (y :: ys)
  end.

Fixpoint foldM {A S : Type} (f : S -> A -> result S) (l : list A) (s : S) : result S :=
  match l with
  | [] => Ok s
  | x :: l' => s' <- f s x ;; foldM f l' s'
  end.

(** ** JavaScript primitives used by the three files *)

(** [if (v)], [v || d], [!v]. *)
Definition truthy (v : value) : bool :=
  match v with
  | VUndefined | VNull => false
  | VBool b => b
  | VNum n => negb (n =? 0)%Z
  | VStr s => negb (s =? "")
  | VArr _ | VObj _ => true
  end.

(** [v == null], so also [undefined]. *)
Definition nullish (v : value) : bool :=
  match v with
  | VUndefined | VNull => true
  | _ => false
  end.

(** [a === b]. *)
Definition strict_eq (a b : value) : bool :=
  match a, b with
  | VUndefined, VUndefined => true
  | VNull, VNull => true
  | VBool x, VBool y => Bool.eqb x y
  | VNum x, VNum y => (x =? y)%Z
  | VStr x, VStr y => (x =? y)
  | _, _ => false
  end.

Definition is_str (v : value) (s : string) : bool := strict_eq v (VStr s).

Fixpoint lookup (k : string) (fs : obj) : value :=
  match fs with
  | [] => VUndefined
  | (k', v) :: fs' => if k =? k' then v else lookup k fs'
  end.

Fixpoint has_key {V : Type} (k : string) (fs : list (string * V)) : bool :=
  match fs with
  | [] => false
  | (k', _) :: fs' => (k =? k') || has_key k fs'
  end.

(** An array index is a canonical decimal numeral below 2^32 - 1; such keys
    are enumerated first, in ascending order. *)
Definition digit_of (c : ascii) : option N :=
  let n := N_of_ascii c in
  if ((48 <=? n) && (n <=? 57))%N then Some (n - 48)%N else None.

Fixpoint digits_value (s : string) (acc : N) : option N :=
  match s with
  | EmptyString => Some acc
  | String c s' =>
      match digit_of c with
      | Some d => digits_value s' (10 * acc + d)%N
      | None => None
      end
  end.

Definition array_index (k : string) : option N :=
  match k with
  | EmptyString => None
  | String c rest =>
      if (c =? "0")%char then
        match rest with EmptyString => Some 0%N | _ => None end
      else
        match digits_value k 0 with
        | Some n => if (n <? 2 ^ 32 - 1)%N then Some n else None
        | None => None
        end
  end.

Fixpoint obj_replace {V : Type} (k : string) (v : V) (fs : list (string * V))
    : list (string * V) :=
  match fs with
  | [] => []
  | (k', v') :: fs' =>
      if k =? k' then (k', v) :: fs' else (k', v') :: obj_replace k v fs'
  end.

Fixpoint obj_insert_index {V : Type} (n : N) (k : string) (v : V)
    (fs : list (string * V)) : list (string * V) :=
  match fs with
  | [] => [(k, v)]
  | (k', v') :: fs' =>
      match array_index k' with
      | Some n' =>
          if (n' <? n)%N then (k', v') :: obj_insert_index n k v fs'
          else (k, v) :: fs
      | None => (k, v) :: fs
      end
  end.

(** [o[k] = v] on an ordinary object. *)
Definition obj_set {V : Type} (fs : list (string * V)) (k : string) (v : V)
    : list (string * V) :=
  if has_key k fs then obj_replace k v fs
  else match array_index k with
       | Some n => obj_insert_index n k v fs
       | None => fs ++ [(k, v)]
       end.

Definition obj_keys {V : Type} (fs : list (string * V)) : list string :=
  map fst fs.

Definition string_of_nat (n : nat) : string :=
  NilZero.string_of_uint (Nat.to_uint n).

Fixpoint chars (s : string) : list value :=
  match s with
  | EmptyString => []
  | String c s' => VStr (String c EmptyString) :: chars s'
  end.

(** [v.name] for the property names written in the source ([element],
    [content], [meta], [attributes], [key], [value], [href], [description],
    [typeAttributes], [default], [properties], [type], [allOf]): none of them
    is [length], an index, or a method of arrays, strings, numbers or
    booleans, so on those values the read gives [undefined]. *)
Definition get (v : value) (name : string) : result value :=
  match v with
  | VUndefined | VNull => Throw TypeError
  | VObj fs => Ok (lookup name fs)
  | _ => Ok VUndefined
  end.

(** ToPropertyKey, for the values whose string form the model fixes. *)
Definition to_key (k : value) : result string :=
  match k with
  | VStr s => Ok s
  | VUndefined => Ok "undefined"
  | VNull => Ok "null"
  | VBool true => Ok "true"
  | VBool false => Ok "false"
  | VNum _ | VArr _ | VObj _ => Unmodelled
  end.

(** [v[k]] with a computed string key. *)
Definition get_dyn (v : value) (k : string) : result value :=
  match v with
  | VUndefined | VNull => Throw TypeError
  | VObj fs => Ok (lookup k fs)
  | VArr l =>
      match array_index k with
      | Some n => Ok (nth (N.to_nat n) l VUndefined)
      | None => if k =? "length" then Ok (VNum (Z.of_nat (length l))) else Unmodelled
      end
  | VStr s =>
      match array_index k with
      | Some n => Ok (nth (N.to_nat n) (chars s) VUndefined)
      | None => if k =? "length" then Ok (VNum (Z.of_nat (String.length s))) else Unmodelled
      end
  | VBool _ | VNum _ => Unmodelled
  end.

(** [v.name = x], for the names written in the source, and the write of an
    own property in general.  The files are not in strict mode: a write on a
    primitive is ignored. *)
Definition set (v : value) (k : string) (x : value) : result value :=
  match v with
  | VUndefined | VNull => Throw TypeError
  | VObj fs => Ok (VObj (obj_set fs k x))
  | VArr _ => Unmodelled
  | VBool _ | VNum _ | VStr _ => Ok v
  end.

(** [v[k] = x] for a key [k] that the code computes from its input.  Under
    the name [__proto__], on an object that does not hold that name itself,
    the assignment reaches the setter of [Object.prototype]: the object gets
    no property, and may get another prototype, which this model does not
    follow. *)
Definition assign (v : value) (k : string) (x : value) : result value :=
  match v with
  | VObj fs =>
      if (k =? "__proto__") && negb (has_key k fs) then Unmodelled
      else set v k x
  | _ => set v k x
  end.

(** [v[0]]. *)
Definition first (v : value) : result value :=
  match v with
  | VUndefined | VNull => Throw TypeError
  | VArr l => Ok (hd VUndefined l)
  | VStr s => Ok (hd VUndefined (chars s))
  | VObj fs => Ok (lookup "0" fs)
  | VBool _ | VNum _ => Ok VUndefined
  end.

(** [v.length]. *)
Definition length_of (v : value) : result value :=
  match v with
  | VUndefined | VNull => Throw TypeError
  | VArr l => Ok (VNum (Z.of_nat (length l)))
  | VStr s => Ok (VNum (Z.of_nat (String.length s)))
  | VObj fs => Ok (lookup "length" fs)
  | VBool _ | VNum _ => Ok VUndefined
  end.

(** [Array.from(v)]: arrays and strings are iterable; an object without a
    [length] is an empty array-like, and so are numbers and booleans. *)
Definition array_from (v : value) : result (list value) :=
  match v with
  | VUndefined | VNull => Throw TypeError
  | VArr l => Ok l
  | VStr s => Ok (chars s)
  | VObj fs => if has_key "length" fs then Unmodelled else Ok []
  | VBool _ | VNum _ => Ok []
  end.

(** [Object.keys(v)] and the keys visited by [for (key in v)]. *)
Definition own_keys (v : value) : list string :=
  match v with
  | VObj fs => obj_keys fs
  | VArr l => map string_of_nat (seq 0 (length l))
  | VStr s => map string_of_nat (seq 0 (String.length s))
  | _ => []
  end.

(** [v.indexOf(x) !== -1]: strict equality on an array, substring search on
    a string; other values have no [indexOf]. *)
Definition includes (v x : value) : result bool :=
  match v with
  | VArr l => Ok (existsb (strict_eq x) l)
  | VStr s =>
      match x with
      | VStr t => Ok (match String.index 0 t s with Some _ => true | None => false end)
      | _ => Unmodelled
      end
  | VUndefined | VNull => Throw TypeError
  | VBool _ | VNum _ | VObj _ => Throw TypeError
  end.

(** [v.slice(0)]. *)
Definition slice0 (v : value) : result (list value) :=
  match v with
  | VArr l => Ok l
  | VStr s => Ok (chars s)
  | _ => Throw TypeError
  end.

(** [[i, 1].concat(v)] past its first two entries: an array is spread, any
    other value is appended as it is. *)
Definition concat_arg (v : value) : list value :=
  match v with
  | VArr l => l
  | _ => [v]
  end.

(** [JSON.parse(JSON.stringify(v))]. Inside an array [undefined] is written
    as [null]; a property whose value is [undefined] is left out; at the top
    [JSON.stringify(undefined)] is [undefined], which does not parse. *)
Fixpoint json_copy (v : value) : value :=
  match v with
  | VArr l =>
      VArr (map (fun x => match x with VUndefined => VNull | _ => json_copy x end) l)
  | VObj fs =>
      VObj ((fix fields (fs : obj) : obj :=
               match fs with
               | [] => []
               | (k, VUndefined) :: fs' => fields fs'
               | (k, x) :: fs' => (k, json_copy x) :: fields fs'
               end) fs)
  | _ => v
  end.

Definition json_roundtrip (v : value) : result value :=
  match v with
  | VUndefined => Throw SyntaxError
  | _ => Ok (json_copy v)
  end.

(** ** inherit.js *)

(** [content.splice(i, 1)]. *)
Definition splice1 (i : nat) (content : list value) : list value :=
  firstn i content ++ skipn (S i) content.

(** The [while (i >= 0)] loop of [uniqueMembers].  [content] is the array
    that the loop splices, [known] the keys met so far.  A duplicate is
    spliced out and the loop continues without moving [i]. *)
Fixpoint uniqueMembers_loop (fuel : nat) (content : list value) (i : Z)
    (known : list value) : result (list value) :=
  match fuel with
  | O => OutOfFuel
  | S fuel' =>
      if (i <? 0)%Z then Ok content
      else
        let item := nth (Z.to_nat i) content VUndefined in
        kind <- get item "element" ;;
        if is_str kind "member" then
          c <- get item "content" ;;
          k <- get c "key" ;;
          key <- get k "content" ;;
          if existsb (strict_eq key) known then
            uniqueMembers_loop fuel' (splice1 (Z.to_nat i) content) i known
          else
            uniqueMembers_loop fuel' content (i - 1) (known ++ [key])
        else
          uniqueMembers_loop fuel' content (i - 1) known
  end.

(** [uniqueMembers(content)], as the array it leaves behind (its caller drops
    the list of indices it returns).  Every iteration lowers [i] or shortens
    the array, so twice the length bounds the loop. *)
Definition uniqueMembers (content : value) : result value :=
  match content with
  | VArr l =>
      l' <- uniqueMembers_loop (2 * length l + 1) l (Z.of_nat (length l) - 1) [] ;;
      Ok (VArr l')
  | _ => Unmodelled
  end.

(** The truth value of [v != null ? v.push : undefined]. *)
Definition has_push (v : value) : bool :=
  match v with
  | VArr _ => true
  | VObj fs => truthy (lookup "push" fs)
  | _ => false
  end.

(** [arr.push(item)]: only an array has a callable [push]. *)
Definition push (arr item : value) : result value :=
  match arr with
  | VArr l => Ok (VArr (l ++ [item]))
  | _ => Throw TypeError
  end.

(** The two blocks that copy [element.meta] and [element.attributes] over
    [combined]; [name] is ["meta"] or ["attributes"], [src] the value read
    from [element]. *)
Definition merge_into (combined : value) (name : string) (src : value)
    : result value :=
  if truthy src then
    cur <- get combined name ;;
    combined <- (if nullish cur then set combined name (VObj []) else Ok combined) ;;
    foldM (fun combined key =>
             value <- get_dyn src key ;;
             target <- get combined name ;;
             target' <- assign target key value ;;
             set combined name target')
          (own_keys src) combined
  else Ok combined.

(** [module.exports = function(base, element)]. The last branch assigns to
    [combine], a name declared nowhere: evaluating it throws a
    [ReferenceError]. *)
Definition inherit (base element : value) : result value :=
  combined <- json_roundtrip base ;;
  emeta <- get element "meta" ;;
  combined <- merge_into combined "meta" emeta ;;
  eattributes <- get element "attributes" ;;
  combined <- merge_into combined "attributes" eattributes ;;
  econtent <- get element "content" ;;
  if truthy econtent then
    ccontent <- get combined "content" ;;
    if has_push ccontent || has_push econtent then
      combined <- (if nullish ccontent then set combined "content" (VArr [])
                   else Ok combined) ;;
      items <- array_from econtent ;;
      combined <- foldM (fun combined item =>
                           c <- get combined "content" ;;
                           c' <- push c item ;;
                           set combined "content" c')
                        items combined ;;
      c <- get combined "content" ;;
      len <- length_of c ;;
      if truthy len then
        x <- first c ;;
        kind <- get x "element" ;;
        if is_str kind "member" then
          c' <- uniqueMembers c ;;
          set combined "content" c'
        else Ok combined
      else Ok combined
    else Throw ReferenceError
  else Ok combined.

(** Builders for the examples. *)
Definition element (kind : string) (content : value) : value :=
  VObj [("element", VStr kind); ("content", content)].

Definition member (key : string) (v : value) : value :=
  element "member" (VObj [("key", element "string" (VStr key)); ("value", v)]).

Definition prim (kind : string) : value := VObj [("element", VStr kind)].

(** ** Names that every plain object has *)

(** The properties of [Object.prototype].  A plain object shows them under
    every name that it does not hold itself: eleven functions, and under
    [__proto__] the prototype itself.  All of them are truthy. *)
Definition object_prototype : list string :=
  ["constructor"; "hasOwnProperty"; "isPrototypeOf"; "propertyIsEnumerable";
   "toLocaleString"; "toString"; "valueOf"; "__proto__"; "__defineGetter__";
   "__defineSetter__"; "__lookupGetter__"; "__lookupSetter__"].

Definition inherited (key : string) : bool :=
  existsb (String.eqb key) object_prototype.

(** [inherit(ref, root)] for a [ref] that the table of data structures
    inherits under [name].  A function has no JSON text:
    [JSON.stringify] gives [undefined], and [JSON.parse] throws on it before
    [inherit] reads anything else.  The prototype itself has no enumerable
    property, so its copy is the empty object. *)
Definition inherit_inherited (name : string) (element : value) : result value :=
  if name =? "__proto__" then inherit (VObj []) element else Throw SyntaxError.

(** ** schema.js and example.js *)

Section Renderers.

(** [deepEqual] of Node's [assert] module, as the one thing the code uses of
    it: whether the call returns ([true]) or throws an [AssertionError]
    ([false]). *)
Variable deepEqual : value -> value -> bool.

(** [items.reduce((l, r) => deepEqual(l, r) || r)] inside its [try]: [None]
    when a comparison throws.  A comparison that returns gives [undefined],
    so the accumulator becomes [r]. *)
Fixpoint reduce_deepEqual (l : value) (rest : list value) : option value :=
  match rest with
  | [] => Some l
  | r :: rest' => if deepEqual l r then reduce_deepEqual r rest' else None
  end.

(** [x.meta != null ? x.meta.description : undefined]. *)
Definition description_of (x : value) : result value :=
  meta <- get x "meta" ;;
  if nullish meta then Ok VUndefined else get meta "description".

(** [x.attributes != null ? x.attributes.typeAttributes : undefined]. *)
Definition typeAttributes_of (x : value) : result value :=
  attributes <- get x "attributes" ;;
  if nullish attributes then Ok VUndefined else get attributes "typeAttributes".

(** [x.attributes != null ? x.attributes.default : undefined]. *)
Definition default_of (x : value) : result value :=
  attributes <- get x "attributes" ;;
  if nullish attributes then Ok VUndefined else get attributes "default".

(** The statements after the [switch] of [renderSchema]. *)
Definition afterSwitch (root schema : value) : result value :=
  description <- description_of root ;;
  schema <- (if nullish description then Ok schema
             else set schema "description" description) ;;
  typeAttr <- typeAttributes_of root ;;
  if truthy typeAttr then
    nullable <- includes typeAttr (VStr "nullable") ;;
    if (nullable : bool) then
      t <- get schema "type" ;;
      set schema "type" (VArr [t; VStr "null"])
    else Ok schema
  else Ok schema.

(** [schema.properties[key] = f(schema.properties[key])]: a write on the
    schema stored under [key], which [set_property] has made an own
    property. *)
Definition update_property (schema : value) (key : string)
    (f : value -> result value) : result value :=
  properties <- get schema "properties" ;;
  p <- get_dyn properties key ;;
  p' <- f p ;;
  properties' <- set properties key p' ;;
  set schema "properties" properties'.

(** [schema.properties[key] = prop]. *)
Definition set_property (schema : value) (key : string) (prop : value)
    : result value :=
  properties <- get schema "properties" ;;
  properties' <- assign properties key prop ;;
  set schema "properties" properties'.

Section Body.

(** The recursive calls [renderSchema(item, dataStructures)]. *)
Variable rec : value -> result value.
Variable dataStructures : obj.

(** The [select] branch: every option is rendered and its properties are
    copied over [schema.properties]; the state is the schema and the array
    [exclusive]. *)
Definition selectOption (st : value * list value) (option : value)
    : result (value * list value) :=
  optionSchema <- rec option ;;
  properties <- get optionSchema "properties" ;;
  foldM (fun '(schema, exclusive) key =>
           prop <- get_dyn properties key ;;
           schema' <- set_property schema key prop ;;
           Ok (schema', exclusive ++ [VStr key]))
        (own_keys properties) st.

Definition selectMember (schema member : value) : result value :=
  content <- get member "content" ;;
  options <- array_from content ;;
  '(schema, exclusive) <- foldM selectOption options (schema, []) ;;
  allOf <- get schema "allOf" ;;
  schema <- (if truthy allOf then Ok schema else set schema "allOf" (VArr [])) ;;
  allOf <- get schema "allOf" ;;
  allOf' <- push allOf (VObj [("not", VObj [("required", VArr exclusive)])]) ;;
  set schema "allOf" allOf'.

(** An ordinary member: the part of the loop body after the two special
    cases. *)
Definition plainMember (schema : value) (required : list value) (member : value)
    : result (value * list value) :=
  content <- get member "content" ;;
  k <- get content "key" ;;
  key <- get k "content" ;;
  v <- get content "value" ;;
  rendered <- rec v ;;
  name <- to_key key ;;
  schema <- set_property schema name rendered ;;
  description <- description_of member ;;
  schema <- (if nullish description then Ok schema
             else update_property schema name
                    (fun p => set p "description" description)) ;;
  typeAttr <- typeAttributes_of member ;;
  if truthy typeAttr then
    isRequired <- includes typeAttr (VStr "required") ;;
    let required :=
      if (isRequired : bool) then
        if existsb (strict_eq key) required then required else required ++ [key]
      else required in
    nullable <- includes typeAttr (VStr "nullable") ;;
    if (nullable : bool) then
      schema <- update_property schema name
                  (fun p => t <- get p "type" ;; set p "type" (VArr [t; VStr "null"])) ;;
      Ok (schema, required)
    else Ok (schema, required)
  else Ok (schema, required).

(** The [while (i < properties.length)] loop.  The entries below [i] are
    never read again, so the state keeps [work], the entries from [i] on: a
    [ref] member is replaced by the content of its target and the loop looks
    at the same position again.  A target that the table does not hold
    throws a [TypeError] on [ref.content]; so does, one turn later, a target
    that the table only inherits, whose [content] is [undefined]: the loop
    puts [undefined] in the place of the member and throws on its
    [element].  The two complete with the same exception and write nothing
    in between, and the model does not tell them apart. *)
Fixpoint schemaMembers (fuel : nat) (work : list value) (schema : value)
    (required : list value) : result (value * list value) :=
  match work with
  | [] => Ok (schema, required)
  | member :: rest =>
      match fuel with
      | O => OutOfFuel
      | S fuel' =>
          kind <- get member "element" ;;
          if is_str kind "ref" then
            content <- get member "content" ;;
            href <- get content "href" ;;
            name <- to_key href ;;
            let ref := lookup name dataStructures in
            refContent <- get ref "content" ;;
            schemaMembers fuel' (concat_arg refContent ++ rest) schema required
          else if is_str kind "select" then
            schema <- selectMember schema member ;;
            schemaMembers fuel' rest schema required
          else
            '(schema, required) <- plainMember schema required member ;;
            schemaMembers fuel' rest schema required
      end
  end.

(** The [switch] of [renderSchema]; [fuel] bounds the member loop.  In the
    default branch [dataStructures[root.element]] is what the table holds
    under the name, or, for a name that it does not hold, what
    [Object.prototype] has under it. *)
Definition schemaSwitch (fuel : nat) (root : value) : result value :=
  kind <- get root "element" ;;
  if is_str kind "boolean" || is_str kind "string" || is_str kind "number" then
    let schema := VObj [("type", kind)] in
    default <- default_of root ;;
    if nullish default then Ok schema else set schema "default" default
  else if is_str kind "enum" then
    content <- get root "content" ;;
    items <- array_from (if truthy content then content else VArr []) ;;
    values <- mapM (fun item => get item "content") items ;;
    Ok (VObj [("enum", VArr values)])
  else if is_str kind "array" then
    let schema := VObj [("type", VStr "array")] in
    content <- get root "content" ;;
    children <- array_from (if truthy content then content else VArr []) ;;
    items <- mapM rec children ;;
    match items with
    | [] => Ok schema
    | [item] => set schema "items" item
    | item :: others =>
        match reduce_deepEqual item others with
        | Some last => set schema "items" last
        | None => set schema "items" (VObj [("anyOf", VArr items)])
        end
    end
  else if is_str kind "object" || is_str kind "option" then
    let schema := VObj [("type", VStr "object"); ("properties", VObj [])] in
    content <- get root "content" ;;
    properties <- slice0 content ;;
    '(schema, required) <- schemaMembers fuel properties schema [] ;;
    match required with
    | [] => Ok schema
    | _ => set schema "required" (VArr required)
    end
  else
    name <- to_key kind ;;
    if has_key name dataStructures || negb (inherited name) then
      let ref := lookup name dataStructures in
      if truthy ref then
        combined <- inherit ref root ;;
        rec combined
      else Ok (VObj [])
    else
      combined <- inherit_inherited name root ;;
      rec combined.

End Body.

(** [module.exports = renderSchema = function(root, dataStructures)]:
    [fuel] bounds the depth of the recursion and the length of each member
    loop. *)
Fixpoint renderSchema (fuel : nat) (root : value) (dataStructures : obj)
    : result value :=
  match fuel with
  | O => OutOfFuel
  | S fuel' =>
      schema <- schemaSwitch (fun item => renderSchema fuel' item dataStructures)
                  dataStructures fuel' root ;;
      afterSwitch root schema
  end.

(** [defaultValue(type)]; the [switch] has no default branch. *)
Definition defaultValue (type : value) : value :=
  if is_str type "boolean" then VBool true
  else if is_str type "number" then VNum 1
  else if is_str type "string" then VStr "Hello, world!"
  else VUndefined.

Section ExampleBody.

Variable rec : value -> result value.
Variable dataStructures : obj.

(** The member loop of [renderExample], on the entries from [i] on. *)
Fixpoint exampleMembers (fuel : nat) (work : list value) (o : value)
    : result value :=
  match work with
  | [] => Ok o
  | member :: rest =>
      match fuel with
      | O => OutOfFuel
      | S fuel' =>
          kind <- get member "element" ;;
          if is_str kind "ref" then
            content <- get member "content" ;;
            href <- get content "href" ;;
            name <- to_key href ;;
            let ref := lookup name dataStructures in
            refContent <- get ref "content" ;;
            exampleMembers fuel' (concat_arg refContent ++ rest) o
          else
            member <- (if is_str kind "select" then
                         options <- get member "content" ;;
                         option <- first options ;;
                         members <- get option "content" ;;
                         first members
                       else Ok member) ;;
            content <- get member "content" ;;
            k <- get content "key" ;;
            key <- get k "content" ;;
            v <- get content "value" ;;
            rendered <- rec v ;;
            name <- to_key key ;;
            o <- assign o name rendered ;;
            exampleMembers fuel' rest o
      end
  end.

(** The [switch] of [renderExample]; the default branch reads the table as
    that of [renderSchema] does. *)
Definition exampleSwitch (fuel : nat) (root : value) : result value :=
  kind <- get root "element" ;;
  if is_str kind "boolean" || is_str kind "string" || is_str kind "number" then
    content <- get root "content" ;;
    if nullish content then Ok (defaultValue kind) else Ok content
  else if is_str kind "enum" then
    content <- get root "content" ;;
    choice <- first content ;;
    rec choice
  else if is_str kind "array" then
    content <- get root "content" ;;
    children <- array_from (if truthy content then content else VArr []) ;;
    items <- mapM rec children ;;
    Ok (VArr items)
  else if is_str kind "object" then
    content <- get root "content" ;;
    properties <- slice0 content ;;
    exampleMembers fuel properties (VObj [])
  else
    name <- to_key kind ;;
    if has_key name dataStructures || negb (inherited name) then
      let ref := lookup name dataStructures in
      if truthy ref then
        combined <- inherit ref root ;;
        rec combined
      else Ok VUndefined
    else
      combined <- inherit_inherited name root ;;
      rec combined.

End ExampleBody.

(** [module.exports = renderExample = function(root, dataStructures)]. *)
Fixpoint renderExample (fuel : nat) (root : value) (dataStructures : obj)
    : result value :=
  match fuel with
  | O => OutOfFuel
  | S fuel' =>
      exampleSwitch (fun item => renderExample fuel' item dataStructures)
        dataStructures fuel' root
  end.

End Renderers.

(** Builders for the examples. *)
Definition option_ (members : list value) : value := element "option" (VArr members).
Definition select (options : list value) : value := element "select" (VArr options).
Definition ref (href : string) : value := element "ref" (VObj [("href", VStr href)]).

(** * The store model

    The same three files over a heap, for the claims about mutation and
    sharing.  A [val] is what a variable or a property holds: a primitive, or
    a reference to an object or an array of the heap.  Every write of the
    source is a write to the cell that the written object occupies; a local
    array that never leaves the function ([properties], [required], [items],
    [exclusive], [known]) is a list until the function stores it. *)

Module Store.

Inductive val : Type :=
| Undefined
| Null
| Bool (b : bool)
| Num (n : Z)
| Str (s : string)
| Ref (l : nat).

Inductive cell : Type :=
| Object (fields : list (string * val))
| Array (items : list val).

(** The cells allocated so far are those below [next]. *)
Record heap : Type := Heap { next : nat; cells : nat -> option cell }.

Definition upd (h : heap) (l : nat) (c : cell) : heap :=
  Heap (next h) (fun l' => if (l' =? l)%nat then Some c else cells h l').

Definition extend (h : heap) (c : cell) : heap :=
  Heap (S (next h)) (fun l' => if (l' =? next h)%nat then Some c else cells h l').

(** A computation: a completion and the heap it leaves, also when it
    throws. *)
Definition M (A : Type) : Type := heap -> result A * heap.

Definition ret {A : Type} (a : A) : M A := fun h => (Ok a, h).
Definition throw {A : Type} (e : error) : M A := fun h => (Throw e, h).
Definition outOfFuel {A : Type} : M A := fun h => (OutOfFuel, h).
Definition unmodelled {A : Type} : M A := fun h => (Unmodelled, h).

Definition bind {A B : Type} (m : M A) (k : A -> M B) : M B :=
  fun h =>
    match m h with
    | (Ok a, h') => k a h'
    | (Throw e, h') => (Throw e, h')
    | (OutOfFuel, h') => (OutOfFuel, h')
    | (Unmodelled, h') => (Unmodelled, h')
    end.

Declare Scope store_scope.
Delimit Scope store_scope with store.
Notation "x <- m ;; k" := (bind m (fun x => k))
  (at level 100, m at next level, right associativity) : store_scope.
#[local] Open Scope store_scope.

Fixpoint mapM {A B : Type} (f : A -> M B) (l : list A) : M (list B) :=
  match l with
  | [] => ret []
  | x :: l' => y <- f x ;; ys <- mapM f l' ;; ret (y :: ys)
  end.

Fixpoint foldM {A S : Type} (f : S -> A -> M S) (l : list A) (s : S) : M S :=
  match l with
  | [] => ret s
  | x :: l' => s' <- f s x ;; foldM f l' s'
  end.

Fixpoint iterM {A : Type} (f : A -> M unit) (l : list A) : M unit :=
  match l with
  | [] => ret tt
  | x :: l' => _ <- f x ;; iterM f l'
  end.

(** ** The heap *)

Definition cell_at (l : nat) : M cell :=
  fun h => match cells h l with
           | Some c => (Ok c, h)
           | None => (Unmodelled, h)
           end.

(** An object or array literal. *)
Definition alloc (c : cell) : M val :=
  fun h => (Ok (Ref (next h)), extend h c).

Definition store (l : nat) (c : cell) : M unit :=
  fun h => (Ok tt, upd h l c).

(** ** JavaScript primitives *)

Definition truthy (v : val) : bool :=
  match v with
  | Undefined | Null => false
  | Bool b => b
  | Num n => negb (n =? 0)%Z
  | Str s => negb (s =? "")
  | Ref _ => true
  end.

Definition nullish (v : val) : bool :=
  match v with
  | Undefined | Null => true
  | _ => false
  end.

(** [a === b]: two references are equal when they are the same object. *)
Definition strict_eq (a b : val) : bool :=
  match a, b with
  | Undefined, Undefined => true
  | Null, Null => true
  | Bool x, Bool y => Bool.eqb x y
  | Num x, Num y => (x =? y)%Z
  | Str x, Str y => (x =? y)
  | Ref x, Ref y => (x =? y)%nat
  | _, _ => false
  end.

Definition is_str (v : val) (s : string) : bool := strict_eq v (Str s).

Fixpoint lookup (k : string) (fs : list (string * val)) : val :=
  match fs with
  | [] => Undefined
  | (k', v) :: fs' => if k =? k' then v else lookup k fs'
  end.

Fixpoint chars (s : string) : list val :=
  match s with
  | EmptyString => []
  | String c s' => Str (String c EmptyString) :: chars s'
  end.

Definition get (v : val) (name : string) : M val :=
  match v with
  | Undefined | Null => throw TypeError
  | Ref l =>
      c <- cell_at l ;;
      match c with
      | Object fs => ret (lookup name fs)
      | Array _ => ret Undefined
      end
  | _ => ret Undefined
  end.

Definition to_key (k : val) : M string :=
  match k with
  | Str s => ret s
  | Undefined => ret "undefined"
  | Null => ret "null"
  | Bool true => ret "true"
  | Bool false => ret "false"
  | Num _ | Ref _ => unmodelled
  end.

Definition get_dyn (v : val) (k : string) : M val :=
  match v with
  | Undefined | Null => throw TypeError
  | Ref l =>
      c <- cell_at l ;;
      match c with
      | Object fs => ret (lookup k fs)
      | Array items =>
          match array_index k with
          | Some n => ret (nth (N.to_nat n) items Undefined)
          | None => if k =? "length" then ret (Num (Z.of_nat (length items)))
                    else unmodelled
          end
      end
  | Str s =>
      match array_index k with
      | Some n => ret (nth (N.to_nat n) (chars s) Undefined)
      | None => if k =? "length" then ret (Num (Z.of_nat (String.length s)))
                else unmodelled
      end
  | Bool _ | Num _ => unmodelled
  end.

(** Whether the table of data structures [v] holds [k] itself; the table is
    an object. *)
Definition has_own (v : val) (k : string) : M bool :=
  match v with
  | Undefined | Null => throw TypeError
  | Ref l =>
      c <- cell_at l ;;
      match c with
      | Object fs => ret (has_key k fs)
      | Array _ => unmodelled
      end
  | Str _ | Bool _ | Num _ => unmodelled
  end.

(** [inherit(ref, root)] for a [ref] that the table inherits under [name]:
    a function of [Object.prototype] has no JSON text, and copying it
    throws.  The prototype itself, under [__proto__], is no cell of this
    heap. *)
Definition inherit_inherited (name : string) : M val :=
  if name =? "__proto__" then unmodelled else throw SyntaxError.

(** [v.name = x], and the write of an own property in general: the one cell
    written is the cell of [v]. *)
Definition set (v : val) (k : string) (x : val) : M unit :=
  match v with
  | Undefined | Null => throw TypeError
  | Ref l =>
      c <- cell_at l ;;
      match c with
      | Object fs => store l (Object (obj_set fs k x))
      | Array _ => unmodelled
      end
  | Bool _ | Num _ | Str _ => ret tt
  end.

(** [v[k] = x] for a key [k] that the code computes from its input.  Under
    the name [__proto__], on an object that does not hold that name itself,
    the assignment reaches the setter of [Object.prototype], which this
    model does not follow. *)
Definition assign (v : val) (k : string) (x : val) : M unit :=
  if k =? "__proto__" then
    match v with
    | Ref l =>
        c <- cell_at l ;;
        match c with
        | Object fs => if has_key k fs then set v k x else unmodelled
        | Array _ => set v k x
        end
    | _ => set v k x
    end
  else set v k x.

Definition first (v : val) : M val :=
  match v with
  | Undefined | Null => throw TypeError
  | Ref l =>
      c <- cell_at l ;;
      match c with
      | Object fs => ret (lookup "0" fs)
      | Array items => ret (hd Undefined items)
      end
  | Str s => ret (hd Undefined (chars s))
  | Bool _ | Num _ => ret Undefined
  end.

Definition length_of (v : val) : M val :=
  match v with
  | Undefined | Null => throw TypeError
  | Ref l =>
      c <- cell_at l ;;
      match c with
      | Object fs => ret (lookup "length" fs)
      | Array items => ret (Num (Z.of_nat (length items)))
      end
  | Str s => ret (Num (Z.of_nat (String.length s)))
  | Bool _ | Num _ => ret Undefined
  end.

(** [Array.from(v)], as the list of its entries. *)
Definition array_from (v : val) : M (list val) :=
  match v with
  | Undefined | Null => throw TypeError
  | Ref l =>
      c <- cell_at l ;;
      match c with
      | Object fs => if has_key "length" fs then unmodelled else ret []
      | Array items => ret items
      end
  | Str s => ret (chars s)
  | Bool _ | Num _ => ret []
  end.

Definition own_keys (v : val) : M (list string) :=
  match v with
  | Ref l =>
      c <- cell_at l ;;
      match c with
      | Object fs => ret (obj_keys fs)
      | Array items => ret (map string_of_nat (seq 0 (length items)))
      end
  | Str s => ret (map string_of_nat (seq 0 (String.length s)))
  | _ => ret []
  end.

Definition includes (v x : val) : M bool :=
  match v with
  | Ref l =>
      c <- cell_at l ;;
      match c with
      | Object _ => throw TypeError
      | Array items => ret (existsb (strict_eq x) items)
      end
  | Str s =>
      match x with
      | Str t => ret (match String.index 0 t s with Some _ => true | None => false end)
      | _ => unmodelled
      end
  | _ => throw TypeError
  end.

(** [v.slice(0)]: the copy is a new array, here the list of its entries. *)
Definition slice0 (v : val) : M (list val) :=
  match v with
  | Ref l =>
      c <- cell_at l ;;
      match c with
      | Object _ => throw TypeError
      | Array items => ret items
      end
  | Str s => ret (chars s)
  | _ => throw TypeError
  end.

Definition concat_arg (v : val) : M (list val) :=
  match v with
  | Ref l =>
      c <- cell_at l ;;
      match c with
      | Object _ => ret [v]
      | Array items => ret items
      end
  | _ => ret [v]
  end.

Definition has_push (v : val) : M bool :=
  match v with
  | Ref l =>
      c <- cell_at l ;;
      match c with
      | Object fs => ret (truthy (lookup "push" fs))
      | Array _ => ret true
      end
  | _ => ret false
  end.

(** [arr.push(item)] writes the cell of [arr]. *)
Definition push (arr item : val) : M unit :=
  match arr with
  | Ref l =>
      c <- cell_at l ;;
      match c with
      | Object _ => throw TypeError
      | Array items => store l (Array (items ++ [item]))
      end
  | _ => throw TypeError
  end.

(** [JSON.parse(JSON.stringify(v))]: every object and array met is copied
    into a new cell.  A chain of references longer than the heap goes through
    one cell twice, and [JSON.stringify] throws a [TypeError] on a circular
    structure. *)
Fixpoint copy_fields (copy : val -> M val) (fs : list (string * val))
    : M (list (string * val)) :=
  match fs with
  | [] => ret []
  | (k, Undefined) :: fs' => copy_fields copy fs'
  | (k, x) :: fs' =>
      x' <- copy x ;;
      fs'' <- copy_fields copy fs' ;;
      ret ((k, x') :: fs'')
  end.

Fixpoint json_copy (fuel : nat) (v : val) : M val :=
  match v with
  | Ref l =>
      match fuel with
      | O => throw TypeError
      | S fuel' =>
          c <- cell_at l ;;
          match c with
          | Object fs =>
              fs' <- copy_fields (json_copy fuel') fs ;;
              alloc (Object fs')
          | Array items =>
              items' <- mapM (fun x => match x with
                                       | Undefined => ret Null
                                       | _ => json_copy fuel' x
                                       end) items ;;
              alloc (Array items')
          end
      end
  | _ => ret v
  end.

Definition json_roundtrip (v : val) : M val :=
  match v with
  | Undefined => throw SyntaxError
  | _ => fun h => json_copy (next h) v h
  end.

(** ** inherit.js *)

Definition splice1 (i : nat) (content : list val) : list val :=
  firstn i content ++ skipn (S i) content.

(** The loop of [uniqueMembers] on the array in the cell [l]: the array is
    read again in every iteration, and [content.splice(i, 1)] writes it. *)
Fixpoint uniqueMembers_loop (fuel : nat) (l : nat) (i : Z) (known : list val)
    : M unit :=
  match fuel with
  | O => outOfFuel
  | S fuel' =>
      if (i <? 0)%Z then ret tt
      else
        content <- array_from (Ref l) ;;
        let item := nth (Z.to_nat i) content Undefined in
        kind <- get item "element" ;;
        if is_str kind "member" then
          c <- get item "content" ;;
          k <- get c "key" ;;
          key <- get k "content" ;;
          if existsb (strict_eq key) known then
            _ <- store l (Array (splice1 (Z.to_nat i) content)) ;;
            uniqueMembers_loop fuel' l i known
          else
            uniqueMembers_loop fuel' l (i - 1) (known ++ [key])
        else
          uniqueMembers_loop fuel' l (i - 1) known
  end.

Definition uniqueMembers (content : val) : M unit :=
  match content with
  | Ref l =>
      c <- cell_at l ;;
      match c with
      | Array items =>
          uniqueMembers_loop (2 * length items + 1) l
            (Z.of_nat (length items) - 1) []
      | Object _ => unmodelled
      end
  | _ => unmodelled
  end.

Definition merge_into (combined : val) (name : string) (src : val) : M unit :=
  if truthy src then
    cur <- get combined name ;;
    _ <- (if nullish cur then
            o <- alloc (Object []) ;;
            set combined name o
          else ret tt) ;;
    keys <- own_keys src ;;
    iterM (fun key =>
             value <- get_dyn src key ;;
             target <- get combined name ;;
             assign target key value)
          keys
  else ret tt.

Definition inherit (base element : val) : M val :=
  combined <- json_roundtrip base ;;
  emeta <- get element "meta" ;;
  _ <- merge_into combined "meta" emeta ;;
  eattributes <- get element "attributes" ;;
  _ <- merge_into combined "attributes" eattributes ;;
  econtent <- get element "content" ;;
  _ <- (if truthy econtent then
          ccontent <- get combined "content" ;;
          cpush <- has_push ccontent ;;
          epush <- has_push econtent ;;
          if (cpush : bool) || epush then
            _ <- (if nullish ccontent then
                    a <- alloc (Array []) ;;
                    set combined "content" a
                  else ret tt) ;;
            items <- array_from econtent ;;
            _ <- iterM (fun item =>
                          c <- get combined "content" ;;
                          push c item)
                       items ;;
            c <- get combined "content" ;;
            len <- length_of c ;;
            if truthy len then
              x <- first c ;;
              kind <- get x "element" ;;
              if is_str kind "member" then
                c' <- get combined "content" ;;
                uniqueMembers c'
              else ret tt
            else ret tt
          else throw ReferenceError
        else ret tt) ;;
  ret combined.

(** ** schema.js and example.js *)

Section Renderers.

(** [deepEqual] reads the two schemas in the heap and writes nothing. *)
Variable deepEqual : heap -> val -> val -> bool.

Fixpoint reduce_deepEqual (l : val) (rest : list val) : M (option val) :=
  match rest with
  | [] => ret (Some l)
  | r :: rest' =>
      fun h => if deepEqual h l r then reduce_deepEqual r rest' h
               else (Ok None, h)
  end.

Definition description_of (x : val) : M val :=
  meta <- get x "meta" ;;
  if nullish meta then ret Undefined else get meta "description".

Definition typeAttributes_of (x : val) : M val :=
  attributes <- get x "attributes" ;;
  if nullish attributes then ret Undefined else get attributes "typeAttributes".

Definition default_of (x : val) : M val :=
  attributes <- get x "attributes" ;;
  if nullish attributes then ret Undefined else get attributes "default".

Definition afterSwitch (root schema : val) : M unit :=
  description <- description_of root ;;
  _ <- (if nullish description then ret tt
        else set schema "description" description) ;;
  typeAttr <- typeAttributes_of root ;;
  if truthy typeAttr then
    nullable <- includes typeAttr (Str "nullable") ;;
    if (nullable : bool) then
      t <- get schema "type" ;;
      pair <- alloc (Array [t; Str "null"]) ;;
      set schema "type" pair
    else ret tt
  else ret tt.

Section Body.

Variable rec : val -> M val.
Variable dataStructures : val.

Definition selectOption (schema : val) (exclusive : list val) (option : val)
    : M (list val) :=
  optionSchema <- rec option ;;
  properties <- get optionSchema "properties" ;;
  keys <- own_keys properties ;;
  foldM (fun exclusive key =>
           ps <- get optionSchema "properties" ;;
           prop <- get_dyn ps key ;;
           target <- get schema "properties" ;;
           _ <- assign target key prop ;;
           ret (exclusive ++ [Str key]))
        keys exclusive.

Definition selectMember (schema member : val) : M unit :=
  content <- get member "content" ;;
  options <- array_from content ;;
  exclusive <- foldM (selectOption schema) options [] ;;
  allOf <- get schema "allOf" ;;
  _ <- (if truthy allOf then ret tt
        else a <- alloc (Array []) ;; set schema "allOf" a) ;;
  allOf <- get schema "allOf" ;;
  names <- alloc (Array exclusive) ;;
  inner <- alloc (Object [("required", names)]) ;;
  clause <- alloc (Object [("not", inner)]) ;;
  push allOf clause.

Definition plainMember (schema : val) (required : list val) (member : val)
    : M (list val) :=
  content <- get member "content" ;;
  k <- get content "key" ;;
  key <- get k "content" ;;
  target <- get schema "properties" ;;
  v <- get content "value" ;;
  rendered <- rec v ;;
  name <- to_key key ;;
  _ <- assign target name rendered ;;
  description <- description_of member ;;
  _ <- (if nullish description then ret tt
        else
          ps <- get schema "properties" ;;
          p <- get_dyn ps name ;;
          set p "description" description) ;;
  typeAttr <- typeAttributes_of member ;;
  if truthy typeAttr then
    isRequired <- includes typeAttr (Str "required") ;;
    let required :=
      if (isRequired : bool) then
        if existsb (strict_eq key) required then required else required ++ [key]
      else required in
    nullable <- includes typeAttr (Str "nullable") ;;
    if (nullable : bool) then
      ps <- get schema "properties" ;;
      p <- get_dyn ps name ;;
      t <- get p "type" ;;
      pair <- alloc (Array [t; Str "null"]) ;;
      _ <- set p "type" pair ;;
      ret required
    else ret required
  else ret required.

Fixpoint schemaMembers (fuel : nat) (work : list val) (schema : val)
    (required : list val) : M (list val) :=
  match work with
  | [] => ret required
  | member :: rest =>
      match fuel with
      | O => outOfFuel
      | S fuel' =>
          kind <- get member "element" ;;
          if is_str kind "ref" then
            content <- get member "content" ;;
            href <- get content "href" ;;
            name <- to_key href ;;
            ref <- get_dyn dataStructures name ;;
            refContent <- get ref "content" ;;
            expansion <- concat_arg refContent ;;
            schemaMembers fuel' (expansion ++ rest) schema required
          else if is_str kind "select" then
            _ <- selectMember schema member ;;
            schemaMembers fuel' rest schema required
          else
            required <- plainMember schema required member ;;
            schemaMembers fuel' rest schema required
      end
  end.

Definition schemaSwitch (fuel : nat) (root : val) : M val :=
  schema <- alloc (Object []) ;;
  kind <- get root "element" ;;
  if is_str kind "boolean" || is_str kind "string" || is_str kind "number" then
    _ <- set schema "type" kind ;;
    default <- default_of root ;;
    _ <- (if nullish default then ret tt else set schema "default" default) ;;
    ret schema
  else if is_str kind "enum" then
    e <- alloc (Array []) ;;
    _ <- set schema "enum" e ;;
    content <- get root "content" ;;
    items <- (if truthy content then array_from content else ret []) ;;
    _ <- iterM (fun item =>
                  target <- get schema "enum" ;;
                  c <- get item "content" ;;
                  push target c)
               items ;;
    ret schema
  else if is_str kind "array" then
    _ <- set schema "type" (Str "array") ;;
    content <- get root "content" ;;
    children <- (if truthy content then array_from content else ret []) ;;
    items <- mapM rec children ;;
    _ <- match items with
         | [] => ret tt
         | [item] => set schema "items" item
         | item :: others =>
             last <- reduce_deepEqual item others ;;
             match last with
             | Some s => set schema "items" s
             | None =>
                 all <- alloc (Array items) ;;
                 anyOf <- alloc (Object [("anyOf", all)]) ;;
                 set schema "items" anyOf
             end
         end ;;
    ret schema
  else if is_str kind "object" || is_str kind "option" then
    _ <- set schema "type" (Str "object") ;;
    p <- alloc (Object []) ;;
    _ <- set schema "properties" p ;;
    content <- get root "content" ;;
    properties <- slice0 content ;;
    required <- schemaMembers fuel properties schema [] ;;
    _ <- match required with
         | [] => ret tt
         | _ => r <- alloc (Array required) ;; set schema "required" r
         end ;;
    ret schema
  else
    name <- to_key kind ;;
    own <- has_own dataStructures name ;;
    if (own : bool) || negb (inherited name) then
      ref <- get_dyn dataStructures name ;;
      if truthy ref then
        combined <- inherit ref root ;;
        rec combined
      else ret schema
    else
      combined <- inherit_inherited name ;;
      rec combined.

End Body.

Fixpoint renderSchema (fuel : nat) (root dataStructures : val) : M val :=
  match fuel with
  | O => outOfFuel
  | S fuel' =>
      schema <- schemaSwitch (fun item => renderSchema fuel' item dataStructures)
                  dataStructures fuel' root ;;
      _ <- afterSwitch root schema ;;
      ret schema
  end.

Definition defaultValue (type : val) : val :=
  if is_str type "boolean" then Bool true
  else if is_str type "number" then Num 1
  else if is_str type "string" then Str "Hello, world!"
  else Undefined.

Section ExampleBody.

Variable rec : val -> M val.
Variable dataStructures : val.

Fixpoint exampleMembers (fuel : nat) (work : list val) (o : val) : M unit :=
  match work with
  | [] => ret tt
  | member :: rest =>
      match fuel with
      | O => outOfFuel
      | S fuel' =>
          kind <- get member "element" ;;
          if is_str kind "ref" then
            content <- get member "content" ;;
            href <- get content "href" ;;
            name <- to_key href ;;
            ref <- get_dyn dataStructures name ;;
            refContent <- get ref "content" ;;
            expansion <- concat_arg refContent ;;
            exampleMembers fuel' (expansion ++ rest) o
          else
            member <- (if is_str kind "select" then
                         options <- get member "content" ;;
                         option <- first options ;;
                         members <- get option "content" ;;
                         first members
                       else ret member) ;;
            content <- get member "content" ;;
            k <- get content "key" ;;
            key <- get k "content" ;;
            v <- get content "value" ;;
            rendered <- rec v ;;
            name <- to_key key ;;
            _ <- assign o name rendered ;;
            exampleMembers fuel' rest o
      end
  end.

Definition exampleSwitch (fuel : nat) (root : val) : M val :=
  kind <- get root "element" ;;
  if is_str kind "boolean" || is_str kind "string" || is_str kind "number" then
    content <- get root "content" ;;
    if nullish content then ret (defaultValue kind) else ret content
  else if is_str kind "enum" then
    content <- get root "content" ;;
    choice <- first content ;;
    rec choice
  else if is_str kind "array" then
    content <- get root "content" ;;
    children <- (if truthy content then array_from content else ret []) ;;
    items <- mapM rec children ;;
    alloc (Array items)
  else if is_str kind "object" then
    o <- alloc (Object []) ;;
    content <- get root "content" ;;
    properties <- slice0 content ;;
    _ <- exampleMembers fuel properties o ;;
    ret o
  else
    name <- to_key kind ;;
    own <- has_own dataStructures name ;;
    if (own : bool) || negb (inherited name) then
      ref <- get_dyn dataStructures name ;;
      if truthy ref then
        combined <- inherit ref root ;;
        rec combined
      else ret Undefined
    else
      combined <- inherit_inherited name ;;
      rec combined.

End ExampleBody.

Fixpoint renderExample (fuel : nat) (root dataStructures : val) : M val :=
  match fuel with
  | O => outOfFuel
  | S fuel' =>
      exampleSwitch (fun item => renderExample fuel' item dataStructures)
        dataStructures fuel' root
  end.

End Renderers.

(** ** Values in the heap *)

(** A value of the first model as parsed JSON in the heap: a tree, every
    object and array in a cell of its own. *)
Fixpoint load (v : value) : M val :=
  match v with
  | VUndefined => ret Undefined
  | VNull => ret Null
  | VBool b => ret (Bool b)
  | VNum n => ret (Num n)
  | VStr s => ret (Str s)
  | VArr l =>
      items <- (fix items (l : list value) : M (list val) :=
                  match l with
                  | [] => ret []
                  | x :: l' => y <- load x ;; ys <- items l' ;; ret (y :: ys)
                  end) l ;;
      alloc (Array items)
  | VObj fs =>
      fields <- (fix fields (fs : obj) : M (list (string * val)) :=
                   match fs with
                   | [] => ret []
                   | (k, x) :: fs' =>
                       y <- load x ;; ys <- fields fs' ;; ret ((k, y) :: ys)
                   end) fs ;;
      alloc (Object fields)
  end.

(** What a [val] stands for in a heap, read to the depth [fuel]. *)
Fixpoint reify (fuel : nat) (h : heap) (v : val) : value :=
  match v with
  | Undefined => VUndefined
  | Null => VNull
  | Bool b => VBool b
  | Num n => VNum n
  | Str s => VStr s
  | Ref l =>
      match fuel with
      | O => VUndefined
      | S fuel' =>
          match cells h l with
          | Some (Object fs) =>
              VObj (map (fun kv => (fst kv, reify fuel' h (snd kv))) fs)
          | Some (Array items) => VArr (map (reify fuel' h) items)
          | None => VUndefined
          end
      end
  end.

Definition empty : heap := Heap 0 (fun _ => None).

(** The completion of a computation, with the value read back from the heap
    it leaves. *)
Definition reified (m : M val) (h : heap) : result value :=
  match m h with
  | (Ok v, h') => Ok (reify (next h') h' v)
  | (Throw e, _) => Throw e
  | (OutOfFuel, _) => OutOfFuel
  | (Unmodelled, _) => Unmodelled
  end.

End Store.


(** * Properties *)

(** ** Assignments under computed keys *)

Lemma assign_set (v : value) (k : string) (x : value) :
  k <> "__proto__" -> assign v k x = set v k x.
Proof.
  intros H. apply String.eqb_neq in H. unfold assign.
  destruct v; try reflexivity. now rewrite H.
Qed.

Lemma assign_own (fs : obj) (k : string) (x : value) :
  has_key k fs = true -> assign (VObj fs) k x = set (VObj fs) k x.
Proof. intros H. unfold assign. now rewrite H, andb_false_r. Qed.

Lemma assign_ok (v : value) (k : string) (x out : value) :
  assign v k x = Ok out -> set v k x = Ok out.
Proof.
  unfold assign. destruct v; try (intros H; exact H).
  now destruct ((k =? "__proto__") && negb (has_key k fields)).
Qed.

(** ** Completions and fuel *)

(** [refines r r']: [r'] is what [r] becomes with more fuel. *)
Definition refines {A : Type} (r r' : result A) : Prop :=
  r = OutOfFuel \/ r = r'.

Lemma refines_refl {A : Type} (r : result A) : refines r r.
Proof. now right. Qed.

Lemma refines_out {A : Type} (r : result A) : refines OutOfFuel r.
Proof. now left. Qed.

Lemma refines_eq {A : Type} (r r' : result A) :
  refines r r' -> r <> OutOfFuel -> r' = r.
Proof. intros [H | H] Hne; congruence. Qed.

Lemma refines_bind {A B : Type} (m m' : result A) (k k' : A -> result B) :
  refines m m' -> (forall a, refines (k a) (k' a)) ->
  refines (bind m k) (bind m' k').
Proof.
  intros [-> | ->] Hk; [apply refines_out |].
  destruct m'; simpl; auto using refines_refl.
Qed.

Lemma refines_mapM {A B : Type} (f f' : A -> result B) (l : list A) :
  (forall a, refines (f a) (f' a)) -> refines (mapM f l) (mapM f' l).
Proof.
  intros Hf. induction l as [| x l IH]; simpl; [apply refines_refl |].
  apply refines_bind; [apply Hf | intros y].
  apply refines_bind; [apply IH | intros ys; apply refines_refl].
Qed.

Lemma refines_foldM {A S : Type} (f f' : S -> A -> result S) (l : list A) :
  (forall s a, refines (f s a) (f' s a)) ->
  forall s, refines (foldM f l s) (foldM f' l s).
Proof.
  intros Hf. induction l as [| x l IH]; intros s; simpl; [apply refines_refl |].
  apply refines_bind; [apply Hf | apply IH].
Qed.

(** One step of a monotonicity proof: peel a [bind], split a test, or close
    the goal when both sides are the same term. *)
Ltac refines_step :=
  match goal with
  | |- refines ?r ?r => apply refines_refl
  | |- refines (bind _ _) (bind _ _) => apply refines_bind; [| intros ?]
  | |- refines (if ?b then _ else _) (if ?b then _ else _) => destruct b
  | |- refines (match ?x with _ => _ end) (match ?x with _ => _ end) => destruct x
  | |- refines (mapM _ _) (mapM _ _) => apply refines_mapM; intros ?
  | |- refines (foldM _ _ _) (foldM _ _ _) => apply refines_foldM; intros ? ?
  end.

Section Monotone.

Variable deepEqual : value -> value -> bool.
Variable dataStructures : obj.
Variables rec rec' : value -> result value.
Hypothesis rec_refines : forall v, refines (rec v) (rec' v).

Lemma selectMember_refines (schema member : value) :
  refines (selectMember rec schema member) (selectMember rec' schema member).
Proof.
  unfold selectMember, selectOption.
  repeat first [refines_step | apply rec_refines].
Qed.

Lemma plainMember_refines (schema : value) (required : list value) (member : value) :
  refines (plainMember rec schema required member)
          (plainMember rec' schema required member).
Proof.
  unfold plainMember.
  repeat first [refines_step | apply rec_refines].
Qed.

Lemma schemaMembers_refines (fuel fuel' : nat) :
  fuel <= fuel' ->
  forall work schema required,
    refines (schemaMembers rec dataStructures fuel work schema required)
            (schemaMembers rec' dataStructures fuel' work schema required).
Proof.
  revert fuel'. induction fuel as [| fuel IH]; intros fuel' Hle work schema required.
  - destruct work; simpl; [destruct fuel'; apply refines_refl | apply refines_out].
  - destruct fuel' as [| fuel']; [lia |].
    destruct work as [| member rest]; simpl; [apply refines_refl |].
    assert (Hle' : fuel <= fuel') by lia.
    repeat first [ apply IH; assumption
                 | apply selectMember_refines
                 | apply plainMember_refines
                 | refines_step ].
Qed.

Lemma schemaSwitch_refines (fuel fuel' : nat) (root : value) :
  fuel <= fuel' ->
  refines (schemaSwitch deepEqual rec dataStructures fuel root)
          (schemaSwitch deepEqual rec' dataStructures fuel' root).
Proof.
  intros Hle. unfold schemaSwitch.
  repeat first [ apply schemaMembers_refines; assumption
               | apply rec_refines
               | refines_step ].
Qed.

Lemma exampleMembers_refines (fuel fuel' : nat) :
  fuel <= fuel' ->
  forall work o,
    refines (exampleMembers rec dataStructures fuel work o)
            (exampleMembers rec' dataStructures fuel' work o).
Proof.
  revert fuel'. induction fuel as [| fuel IH]; intros fuel' Hle work o.
  - destruct work; simpl; [destruct fuel'; apply refines_refl | apply refines_out].
  - destruct fuel' as [| fuel']; [lia |].
    destruct work as [| member rest]; simpl; [apply refines_refl |].
    assert (Hle' : fuel <= fuel') by lia.
    repeat first [ apply IH; assumption
                 | apply rec_refines
                 | refines_step ].
Qed.

Lemma exampleSwitch_refines (fuel fuel' : nat) (root : value) :
  fuel <= fuel' ->
  refines (exampleSwitch rec dataStructures fuel root)
          (exampleSwitch rec' dataStructures fuel' root).
Proof.
  intros Hle. unfold exampleSwitch.
  repeat first [ apply exampleMembers_refines; assumption
               | apply rec_refines
               | refines_step ].
Qed.

End Monotone.

Lemma renderSchema_refines (deepEqual : value -> value -> bool) (ds : obj)
    (fuel fuel' : nat) :
  fuel <= fuel' ->
  forall root, refines (renderSchema deepEqual fuel root ds)
                       (renderSchema deepEqual fuel' root ds).
Proof.
  revert fuel'. induction fuel as [| fuel IH]; intros fuel' Hle root.
  - apply refines_out.
  - destruct fuel' as [| fuel']; [lia |]. simpl.
    apply refines_bind; [| intros; apply refines_refl].
    apply schemaSwitch_refines; [| lia].
    intros v. apply IH. lia.
Qed.

Lemma renderExample_refines (ds : obj) (fuel fuel' : nat) :
  fuel <= fuel' ->
  forall root, refines (renderExample fuel root ds) (renderExample fuel' root ds).
Proof.
  revert fuel'. induction fuel as [| fuel IH]; intros fuel' Hle root.
  - apply refines_out.
  - destruct fuel' as [| fuel']; [lia |]. simpl.
    apply exampleSwitch_refines; [| lia].
    intros v. apply IH. lia.
Qed.

(** A render that completed with some fuel completes the same way with
    more. *)
Lemma renderSchema_more_fuel (deepEqual : value -> value -> bool) (ds : obj)
    (fuel fuel' : nat) (root : value) (r : result value) :
  renderSchema deepEqual fuel root ds = r -> r <> OutOfFuel -> fuel <= fuel' ->
  renderSchema deepEqual fuel' root ds = r.
Proof.
  intros <- Hne Hle. apply refines_eq; [apply renderSchema_refines |]; assumption.
Qed.

Lemma renderExample_more_fuel (ds : obj) (fuel fuel' : nat) (root : value)
    (r : result value) :
  renderExample fuel root ds = r -> r <> OutOfFuel -> fuel <= fuel' ->
  renderExample fuel' root ds = r.
Proof.
  intros <- Hne Hle. apply refines_eq; [apply renderExample_refines |]; assumption.
Qed.

(** ** Objects *)

Lemma has_key_of_lookup (k : string) (fs : obj) :
  lookup k fs <> VUndefined -> has_key k fs = true.
Proof.
  induction fs as [| [k' v] fs IH]; simpl; [congruence |].
  destruct (k =? k'); simpl; auto.
Qed.

Lemma lookup_absent (k : string) (fs : obj) :
  has_key k fs = false -> lookup k fs = VUndefined.
Proof.
  induction fs as [| [k' v] fs IH]; simpl; [reflexivity |].
  destruct (k =? k'); simpl; [discriminate | auto].
Qed.

Lemma lookup_obj_replace (k k' : string) (v : value) (fs : obj) :
  has_key k' fs = true ->
  lookup k (obj_replace k' v fs) = if k =? k' then v else lookup k fs.
Proof.
  induction fs as [| [k0 v0] fs IH]; simpl; [discriminate |].
  destruct (k' =? k0) eqn:E; simpl.
  - apply String.eqb_eq in E. subst k0. intros _.
    destruct (k =? k'); reflexivity.
  - intros H. destruct (k =? k0) eqn:E0.
    + apply String.eqb_eq in E0. subst k0.
      rewrite String.eqb_sym, E. reflexivity.
    + auto.
Qed.

Lemma lookup_obj_insert_index (k k' : string) (n : N) (v : value) (fs : obj) :
  has_key k' fs = false ->
  lookup k (obj_insert_index n k' v fs) = if k =? k' then v else lookup k fs.
Proof.
  induction fs as [| [k0 v0] fs IH]; simpl.
  - intros _. destruct (k =? k'); reflexivity.
  - destruct (k' =? k0) eqn:E; simpl; [discriminate |]. intros H.
    assert (Hk : (if k =? k' then v else if k =? k0 then v0 else lookup k fs)
                 = lookup k ((k', v) :: (k0, v0) :: fs)) by reflexivity.
    destruct (array_index k0) as [n0 |]; [destruct (n0 <? n)%N |]; simpl;
      try reflexivity.
    rewrite IH by assumption.
    destruct (k =? k0) eqn:E0; [| reflexivity].
    apply String.eqb_eq in E0. subst k0.
    rewrite String.eqb_sym, E. reflexivity.
Qed.

Lemma lookup_app_one (k k' : string) (v : value) (fs : obj) :
  has_key k' fs = false ->
  lookup k (fs ++ [(k', v)]) = if k =? k' then v else lookup k fs.
Proof.
  induction fs as [| [k0 v0] fs IH]; simpl.
  - intros _. destruct (k =? k'); reflexivity.
  - destruct (k' =? k0) eqn:E; simpl; [discriminate |]. intros H.
    rewrite IH by assumption.
    destruct (k =? k0) eqn:E0; [| reflexivity].
    apply String.eqb_eq in E0. subst k0.
    rewrite String.eqb_sym, E. reflexivity.
Qed.

(** Reading after writing. *)
Lemma lookup_obj_set (k k' : string) (v : value) (fs : obj) :
  lookup k (obj_set fs k' v) = if k =? k' then v else lookup k fs.
Proof.
  unfold obj_set. destruct (has_key k' fs) eqn:H.
  - apply lookup_obj_replace, H.
  - destruct (array_index k').
    + apply lookup_obj_insert_index, H.
    + apply lookup_app_one, H.
Qed.

Lemma lookup_obj_set_same (k : string) (v : value) (fs : obj) :
  lookup k (obj_set fs k v) = v.
Proof. rewrite lookup_obj_set, String.eqb_refl. reflexivity. Qed.

Lemma obj_set_nil (k : string) (v : value) : obj_set [] k v = [(k, v)].
Proof. unfold obj_set. simpl. destruct (array_index k); reflexivity. Qed.

Lemma has_key_obj_replace (k k' : string) (v : value) (fs : obj) :
  has_key k (obj_replace k' v fs) = has_key k fs.
Proof.
  induction fs as [| [k0 v0] fs IH]; simpl; [reflexivity |].
  destruct (k' =? k0); simpl; [reflexivity | now rewrite IH].
Qed.

Lemma has_key_obj_insert_index (k k' : string) (n : N) (v : value) (fs : obj) :
  has_key k (obj_insert_index n k' v fs) = (k =? k') || has_key k fs.
Proof.
  induction fs as [| [k0 v0] fs IH]; simpl; [reflexivity |].
  destruct (array_index k0) as [n0 |]; [destruct (n0 <? n)%N |]; simpl;
    try reflexivity.
  rewrite IH. destruct (k =? k'), (k =? k0); reflexivity.
Qed.

Lemma has_key_app_one (k k' : string) (v : value) (fs : obj) :
  has_key k (fs ++ [(k', v)]) = (k =? k') || has_key k fs.
Proof.
  induction fs as [| [k0 v0] fs IH]; simpl; [now rewrite orb_false_r |].
  rewrite IH. destruct (k =? k'), (k =? k0); reflexivity.
Qed.

Lemma has_key_obj_set (k k' : string) (v : value) (fs : obj) :
  has_key k (obj_set fs k' v) = (k =? k') || has_key k fs.
Proof.
  unfold obj_set. destruct (has_key k' fs) eqn:H.
  - rewrite has_key_obj_replace. destruct (k =? k') eqn:E; [| reflexivity].
    apply String.eqb_eq in E. subst k'. now rewrite H.
  - destruct (array_index k').
    + apply has_key_obj_insert_index.
    + apply has_key_app_one.
Qed.

Lemma obj_replace_twice (k : string) (a b : value) (fs : obj) :
  obj_replace k b (obj_replace k a fs) = obj_replace k b fs.
Proof.
  induction fs as [| [k0 v0] fs IH]; simpl; [reflexivity |].
  destruct (k =? k0) eqn:E; simpl; rewrite E; [reflexivity | now rewrite IH].
Qed.

Lemma obj_replace_insert_index (k : string) (n : N) (a b : value) (fs : obj) :
  has_key k fs = false ->
  obj_replace k b (obj_insert_index n k a fs) = obj_insert_index n k b fs.
Proof.
  induction fs as [| [k0 v0] fs IH]; simpl.
  - intros _. now rewrite String.eqb_refl.
  - destruct (k =? k0) eqn:E; simpl; [discriminate |]. intros H.
    destruct (array_index k0) as [n0 |]; [destruct (n0 <? n)%N |]; simpl;
      rewrite ?String.eqb_refl, ?E, ?IH; auto.
Qed.

Lemma obj_replace_app_one (k : string) (a b : value) (fs : obj) :
  has_key k fs = false ->
  obj_replace k b (fs ++ [(k, a)]) = fs ++ [(k, b)].
Proof.
  induction fs as [| [k0 v0] fs IH]; simpl.
  - intros _. now rewrite String.eqb_refl.
  - destruct (k =? k0) eqn:E; simpl; [discriminate |]. intros H.
    now rewrite IH.
Qed.

(** Writing the same property twice keeps the second value, at the place the
    first write gave the property. *)
Lemma obj_set_twice (k : string) (a b : value) (fs : obj) :
  obj_set (obj_set fs k a) k b = obj_set fs k b.
Proof.
  unfold obj_set at 1. rewrite has_key_obj_set, String.eqb_refl. simpl.
  unfold obj_set. destruct (has_key k fs) eqn:H.
  - apply obj_replace_twice.
  - destruct (array_index k).
    + apply obj_replace_insert_index, H.
    + apply obj_replace_app_one, H.
Qed.

(** ** Unfolding *)

Lemma renderSchema_S (deepEqual : value -> value -> bool) (fuel : nat)
    (root : value) (ds : obj) :
  renderSchema deepEqual (S fuel) root ds
  = (schema <- schemaSwitch deepEqual
                 (fun item => renderSchema deepEqual fuel item ds) ds fuel root ;;
     afterSwitch root schema).
Proof. reflexivity. Qed.

Lemma renderExample_S (fuel : nat) (root : value) (ds : obj) :
  renderExample (S fuel) root ds
  = exampleSwitch (fun item => renderExample fuel item ds) ds fuel root.
Proof. reflexivity. Qed.

Lemma schemaMembers_nil (rec : value -> result value) (ds : obj) (fuel : nat)
    (schema : value) (required : list value) :
  schemaMembers rec ds fuel [] schema required = Ok (schema, required).
Proof. now destruct fuel. Qed.

Lemma exampleMembers_nil (rec : value -> result value) (ds : obj) (fuel : nat)
    (o : value) :
  exampleMembers rec ds fuel [] o = Ok o.
Proof. now destruct fuel. Qed.

(** ** The statements after the switch *)

(** An element that the statements after the [switch] leave alone: no
    description, and no type attributes or none that says [nullable]. *)
Definition undecorated (root : value) : Prop :=
  exists description typeAttr,
    description_of root = Ok description /\ nullish description = true /\
    typeAttributes_of root = Ok typeAttr /\
    (truthy typeAttr = false \/ includes typeAttr (VStr "nullable") = Ok false).

Lemma afterSwitch_undecorated (root schema : value) :
  undecorated root -> afterSwitch root schema = Ok schema.
Proof.
  intros (d & t & Hd & Hn & Ht & Hnull). unfold afterSwitch.
  rewrite Hd. simpl. rewrite Hn, Ht. simpl.
  destruct Hnull as [-> | Hinc]; [reflexivity |].
  rewrite Hinc. simpl. now destruct (truthy t).
Qed.

(** The statements after the [switch] write [description] and [type] only. *)
Lemma afterSwitch_other (root : value) (fs : obj) (out : value) (name : string) :
  afterSwitch root (VObj fs) = Ok out ->
  name <> "description" -> name <> "type" ->
  get out name = Ok (lookup name fs).
Proof.
  unfold afterSwitch. intros H Hd Ht.
  apply String.eqb_neq in Hd, Ht.
  destruct (description_of root) as [d | | |]; try discriminate.
  cbv beta iota delta [bind] in H.
  set (fs' := if nullish d then fs else obj_set fs "description" d).
  assert (Hfs' : lookup name fs' = lookup name fs).
  { subst fs'. destruct (nullish d); [reflexivity |].
    now rewrite lookup_obj_set, Hd. }
  assert (Hs : (if nullish d then Ok (VObj fs)
                else set (VObj fs) "description" d) = Ok (VObj fs')).
  { subst fs'. now destruct (nullish d). }
  rewrite Hs in H. clear Hs.
  destruct (typeAttributes_of root) as [t | | |]; try discriminate.
  destruct (truthy t); [| injection H as <-; simpl; congruence].
  destruct (includes t (VStr "nullable")) as [[|] | | |];
    try discriminate; simpl in H; injection H as <-; simpl; [| congruence].
  now rewrite lookup_obj_set, Ht, Hfs'.
Qed.

(** ** Elements of a kind the switch does not list (C4) *)

(** The kinds that both renderers, or [renderSchema] alone ([option]), treat
    in a branch of their own. *)
Definition handled (kind : value) : bool :=
  is_str kind "boolean" || is_str kind "string" || is_str kind "number"
  || is_str kind "enum" || is_str kind "array" || is_str kind "object"
  || is_str kind "option".

Lemma handled_false (kind : value) :
  handled kind = false ->
  is_str kind "boolean" || is_str kind "string" || is_str kind "number" = false
  /\ is_str kind "enum" = false /\ is_str kind "array" = false
  /\ is_str kind "object" = false /\ is_str kind "option" = false.
Proof.
  unfold handled. intros H.
  repeat (apply orb_false_iff in H; destruct H as [H ?]).
  repeat split; try assumption.
  apply orb_false_iff; split; [apply orb_false_iff; split |]; assumption.
Qed.

Lemma schemaSwitch_unresolved (deepEqual : value -> value -> bool)
    (rec : value -> result value) (ds : obj) (fuel : nat) (root kind : value)
    (name : string) :
  get root "element" = Ok kind -> handled kind = false ->
  to_key kind = Ok name -> inherited name = false ->
  truthy (lookup name ds) = false ->
  schemaSwitch deepEqual rec ds fuel root = Ok (VObj []).
Proof.
  intros He Hh Hk Hi Hl. apply handled_false in Hh.
  destruct Hh as (H1 & H2 & H3 & H4 & H5).
  unfold schemaSwitch. rewrite He. cbv beta iota delta [bind].
  rewrite H1, H2, H3, H4, H5. cbn [orb]. rewrite Hk. cbv beta iota.
  rewrite Hi, orb_true_r. now rewrite Hl.
Qed.

Lemma exampleSwitch_unresolved (rec : value -> result value) (ds : obj)
    (fuel : nat) (root kind : value) (name : string) :
  get root "element" = Ok kind -> handled kind = false ->
  to_key kind = Ok name -> inherited name = false ->
  truthy (lookup name ds) = false ->
  exampleSwitch rec ds fuel root = Ok VUndefined.
Proof.
  intros He Hh Hk Hi Hl. apply handled_false in Hh.
  destruct Hh as (H1 & H2 & H3 & H4 & H5).
  unfold exampleSwitch. rewrite He. cbv beta iota delta [bind].
  rewrite H1, H2, H3, H4. cbn [orb]. rewrite Hk. cbv beta iota.
  rewrite Hi, orb_true_r. now rewrite Hl.
Qed.

Lemma schemaSwitch_inherited (deepEqual : value -> value -> bool)
    (rec : value -> result value) (ds : obj) (fuel : nat) (root kind : value)
    (name : string) :
  get root "element" = Ok kind -> handled kind = false ->
  to_key kind = Ok name -> has_key name ds = false -> inherited name = true ->
  schemaSwitch deepEqual rec ds fuel root
  = (combined <- inherit_inherited name root ;; rec combined).
Proof.
  intros He Hh Hk Ho Hi. apply handled_false in Hh.
  destruct Hh as (H1 & H2 & H3 & H4 & H5).
  unfold schemaSwitch. rewrite He. cbv beta iota delta [bind].
  rewrite H1, H2, H3, H4, H5. cbn [orb]. rewrite Hk. cbv beta iota.
  now rewrite Ho, Hi.
Qed.

Lemma exampleSwitch_inherited (rec : value -> result value) (ds : obj)
    (fuel : nat) (root kind : value) (name : string) :
  get root "element" = Ok kind -> handled kind = false ->
  to_key kind = Ok name -> has_key name ds = false -> inherited name = true ->
  exampleSwitch rec ds fuel root
  = (combined <- inherit_inherited name root ;; rec combined).
Proof.
  intros He Hh Hk Ho Hi. apply handled_false in Hh.
  destruct Hh as (H1 & H2 & H3 & H4 & H5).
  unfold exampleSwitch. rewrite He. cbv beta iota delta [bind].
  rewrite H1, H2, H3, H4. cbn [orb]. rewrite Hk. cbv beta iota.
  now rewrite Ho, Hi.
Qed.

(** C4, as amended.  An element whose kind is a name for which the symbol
    table has no entry (or a falsy one).

    When the name is not one that every object inherits, [renderExample]
    returns [undefined]; [renderSchema] returns what the statements after the
    [switch] make of the empty schema, which is the empty schema when the
    element has no description and is not nullable.  An object member whose
    value is such an element gets the empty schema under its key, and in the
    example the key holds [undefined]; neither render throws.

    When the name is that of a function of [Object.prototype]
    ([constructor], [toString], ...), the table yields that function, and
    both renderers throw the [SyntaxError] of [inherit]. *)
Theorem unresolved_name_renders
    (deepEqual : value -> value -> bool) (fuel : nat) (root kind : value)
    (name : string) (ds : obj) :
  get root "element" = Ok kind -> handled kind = false ->
  to_key kind = Ok name -> truthy (lookup name ds) = false ->
  (inherited name = false ->
   renderExample (S fuel) root ds = Ok VUndefined /\
   renderSchema deepEqual (S fuel) root ds = afterSwitch root (VObj []) /\
   (undecorated root ->
    renderSchema deepEqual (S fuel) root ds = Ok (VObj []) /\
    forall key : string,
      key <> "__proto__" ->
      renderSchema deepEqual (S (S fuel))
        (element "object" (VArr [member key root])) ds
      = Ok (VObj [("type", VStr "object");
                  ("properties", VObj [(key, VObj [])])]) /\
      renderExample (S (S fuel)) (element "object" (VArr [member key root])) ds
      = Ok (VObj [(key, VUndefined)]))) /\
  (inherited name = true -> name <> "__proto__" -> has_key name ds = false ->
   renderExample (S fuel) root ds = Throw SyntaxError /\
   renderSchema deepEqual (S fuel) root ds = Throw SyntaxError).
Proof.
  intros He Hh Hk Hl. split.
  - intros Hi.
    assert (Hex : forall f, renderExample (S f) root ds = Ok VUndefined).
    { intros f. rewrite renderExample_S.
      eapply exampleSwitch_unresolved; eassumption. }
    assert (Hsc : forall f, renderSchema deepEqual (S f) root ds
                            = afterSwitch root (VObj [])).
    { intros f. rewrite renderSchema_S.
      erewrite schemaSwitch_unresolved by eassumption. reflexivity. }
    split; [apply Hex |]. split; [apply Hsc |].
    intros Hplain.
    assert (Hsc' : forall f, renderSchema deepEqual (S f) root ds = Ok (VObj [])).
    { intros f. rewrite Hsc. now apply afterSwitch_undecorated. }
    split; [apply Hsc' |]. intros key Hkey. apply String.eqb_neq in Hkey. split.
    + rewrite renderSchema_S. cbn -[obj_set renderSchema].
      rewrite Hsc'. cbn -[obj_set schemaMembers]. rewrite Hkey.
      cbn -[obj_set schemaMembers].
      rewrite obj_set_nil, schemaMembers_nil. reflexivity.
    + rewrite renderExample_S. cbn -[obj_set renderExample].
      rewrite Hex. cbn -[obj_set exampleMembers]. rewrite Hkey.
      cbn -[obj_set exampleMembers].
      rewrite obj_set_nil, exampleMembers_nil. reflexivity.
  - intros Hi Hp Ho.
    assert (Hthrow : inherit_inherited name root = Throw SyntaxError).
    { unfold inherit_inherited. apply String.eqb_neq in Hp. now rewrite Hp. }
    split.
    + rewrite renderExample_S,
        (exampleSwitch_inherited _ _ _ _ _ _ He Hh Hk Ho Hi), Hthrow.
      reflexivity.
    + rewrite renderSchema_S,
        (schemaSwitch_inherited _ _ _ _ _ _ _ He Hh Hk Ho Hi), Hthrow.
      reflexivity.
Qed.

Lemma unresolved_name_renders_witness :
  get (prim "Money") "element" = Ok (VStr "Money") /\
  renderExample 1 (prim "Money") [] = Ok VUndefined /\
  renderSchema (fun _ _ => true) 1 (prim "Money") []
  = afterSwitch (prim "Money") (VObj []).
Proof.
  split; [reflexivity |].
  pose proof (proj1 (unresolved_name_renders (fun _ _ => true) 0 (prim "Money")
                       (VStr "Money") "Money" [] eq_refl eq_refl eq_refl eq_refl)
                eq_refl) as H.
  split; [apply H | apply (proj1 (proj2 H))].
Defined.

(** C4 as the specification states it fails in three ways, each for a name
    that the table does not hold.  An element that carries a description
    does not render to the empty schema.  An object does not leave out the
    key of a member of an unknown type: its schema has the key, and so has
    its example.  And an element whose kind is [constructor] makes both
    renderers throw. *)
Lemma unresolved_name_counterexample :
  let root := VObj [("element", VStr "Money");
                    ("meta", VObj [("description", VStr "An amount")])] in
  let priced := element "object" (VArr [member "price" (prim "Money")]) in
  lookup "Money" [] = VUndefined /\
  (forall deepEqual fuel,
      renderSchema deepEqual (S fuel) root []
      = Ok (VObj [("description", VStr "An amount")])) /\
  ~ (exists deepEqual fuel, renderSchema deepEqual fuel root [] = Ok (VObj [])) /\
  (forall deepEqual fuel,
      renderSchema deepEqual (S (S fuel)) priced []
      = Ok (VObj [("type", VStr "object");
                  ("properties", VObj [("price", VObj [])])])) /\
  (forall fuel,
      exists o, renderExample (S (S fuel)) priced [] = Ok o /\
                own_keys o = ["price"]) /\
  has_key "constructor" ([] : obj) = false /\
  (forall deepEqual fuel,
      renderSchema deepEqual (S fuel) (prim "constructor") []
      = Throw SyntaxError) /\
  (forall fuel,
      renderExample (S fuel) (prim "constructor") [] = Throw SyntaxError).
Proof.
  cbv zeta. split; [reflexivity |].
  assert (H : forall deepEqual fuel,
             renderSchema deepEqual (S fuel)
               (VObj [("element", VStr "Money");
                      ("meta", VObj [("description", VStr "An amount")])]) []
             = Ok (VObj [("description", VStr "An amount")])).
  { intros deepEqual fuel. rewrite renderSchema_S. reflexivity. }
  split; [exact H |]. split.
  { intros (deepEqual & [| fuel] & Hr); [discriminate |].
    rewrite H in Hr. discriminate. }
  split.
  { intros deepEqual fuel.
    apply (renderSchema_more_fuel deepEqual [] 2);
      [reflexivity | discriminate | lia]. }
  split.
  { intros fuel. exists (VObj [("price", VUndefined)]). split; [| reflexivity].
    apply (renderExample_more_fuel [] 2); [reflexivity | discriminate | lia]. }
  split; [reflexivity |]. split.
  - intros deepEqual fuel. rewrite renderSchema_S. reflexivity.
  - intros fuel. rewrite renderExample_S. reflexivity.
Qed.

(** ** Enumerations (C10) *)

(** C10.  On an [enum] element [renderExample] renders the first entry of the
    content, whatever the content is: with a non-empty list it is the render
    of the first choice; with no content or an empty list it throws a
    [TypeError].  The [enum] branch of [renderSchema] gives [{enum: []}] for
    the same elements, and that is the schema returned when the statements
    after the switch have nothing to add. *)
Theorem enum_example_needs_first_choice
    (deepEqual : value -> value -> bool) (fuel : nat) (root content : value)
    (ds : obj) :
  get root "element" = Ok (VStr "enum") ->
  get root "content" = Ok content ->
  (forall choice rest, content = VArr (choice :: rest) ->
     renderExample (S fuel) root ds = renderExample fuel choice ds) /\
  (content = VUndefined \/ content = VNull \/ content = VArr [] ->
     renderExample (S (S fuel)) root ds = Throw TypeError /\
     schemaSwitch deepEqual (fun item => renderSchema deepEqual fuel item ds)
       ds fuel root = Ok (VObj [("enum", VArr [])]) /\
     renderSchema deepEqual (S fuel) root ds
     = afterSwitch root (VObj [("enum", VArr [])]) /\
     (undecorated root ->
      renderSchema deepEqual (S fuel) root ds = Ok (VObj [("enum", VArr [])]))).
Proof.
  intros He Hc.
  assert (Hex : forall f, renderExample (S f) root ds
                          = (choice <- first content ;; renderExample f choice ds)).
  { intros f. rewrite renderExample_S. unfold exampleSwitch.
    rewrite He. cbn -[renderExample]. rewrite Hc. reflexivity. }
  split.
  - intros choice rest ->. rewrite Hex. reflexivity.
  - intros Hempty.
    assert (Hsw : forall rec f, schemaSwitch deepEqual rec ds f root
                                = Ok (VObj [("enum", VArr [])])).
    { intros rec f. unfold schemaSwitch. rewrite He. cbn. rewrite Hc.
      destruct Hempty as [-> | [-> | ->]]; reflexivity. }
    split; [| split; [apply Hsw | split]].
    + rewrite Hex.
      destruct Hempty as [-> | [-> | ->]]; try reflexivity.
    + rewrite renderSchema_S, Hsw. reflexivity.
    + intros Hplain. rewrite renderSchema_S, Hsw. cbn [bind].
      now apply afterSwitch_undecorated.
Qed.

Lemma enum_example_needs_first_choice_witness :
  renderExample 2 (element "enum" (VArr [])) [] = Throw TypeError /\
  renderSchema (fun _ _ => true) 1 (element "enum" (VArr [])) []
  = Ok (VObj [("enum", VArr [])]).
Proof.
  pose proof (enum_example_needs_first_choice (fun _ _ => true) 0
                (element "enum" (VArr [])) (VArr []) [] eq_refl eq_refl) as H.
  destruct H as [_ H]. specialize (H (or_intror (or_intror eq_refl))).
  split; [apply H |].
  apply H. exists VUndefined, VUndefined. repeat split; auto.
Defined.

(** ** Mixins whose target is missing (C1) *)

Lemma schemaMembers_ref (rec : value -> result value) (ds : obj) (fuel : nat)
    (m : value) (rest : list value) (schema : value) (required : list value) :
  get m "element" = Ok (VStr "ref") ->
  schemaMembers rec ds (S fuel) (m :: rest) schema required
  = (content <- get m "content" ;;
     href <- get content "href" ;;
     name <- to_key href ;;
     refContent <- get (lookup name ds) "content" ;;
     schemaMembers rec ds fuel (concat_arg refContent ++ rest) schema required).
Proof. intros H. simpl. rewrite H. reflexivity. Qed.

Lemma exampleMembers_ref (rec : value -> result value) (ds : obj) (fuel : nat)
    (m : value) (rest : list value) (o : value) :
  get m "element" = Ok (VStr "ref") ->
  exampleMembers rec ds (S fuel) (m :: rest) o
  = (content <- get m "content" ;;
     href <- get content "href" ;;
     name <- to_key href ;;
     refContent <- get (lookup name ds) "content" ;;
     exampleMembers rec ds fuel (concat_arg refContent ++ rest) o).
Proof. intros H. simpl. rewrite H. reflexivity. Qed.

Lemma schemaSwitch_object (deepEqual : value -> value -> bool)
    (rec : value -> result value) (ds : obj) (fuel : nat) (root content : value) :
  get root "element" = Ok (VStr "object") ->
  get root "content" = Ok content ->
  schemaSwitch deepEqual rec ds fuel root
  = (properties <- slice0 content ;;
     '(schema, required) <-
        schemaMembers rec ds fuel properties
          (VObj [("type", VStr "object"); ("properties", VObj [])]) [] ;;
     match required with
     | [] => Ok schema
     | _ => set schema "required" (VArr required)
     end).
Proof. intros He Hc. unfold schemaSwitch. rewrite He. cbn. rewrite Hc. reflexivity. Qed.

Lemma exampleSwitch_object (rec : value -> result value) (ds : obj) (fuel : nat)
    (root content : value) :
  get root "element" = Ok (VStr "object") ->
  get root "content" = Ok content ->
  exampleSwitch rec ds fuel root
  = (properties <- slice0 content ;;
     exampleMembers rec ds fuel properties (VObj [])).
Proof. intros He Hc. unfold exampleSwitch. rewrite He. cbn. rewrite Hc. reflexivity. Qed.

(** The member [m] is a mixin of the type called [name]. *)
Definition ref_to (m : value) (name : string) : Prop :=
  get m "element" = Ok (VStr "ref") /\
  exists content href,
    get m "content" = Ok content /\ get content "href" = Ok href /\
    to_key href = Ok name.

(** C1 fails on the code.  When the member loop of either renderer reaches a
    mixin whose target the symbol table does not hold, [ref.content] throws a
    [TypeError], whatever was rendered before and whatever members follow; in
    particular an object whose first member is such a mixin does not
    render. *)
Theorem ref_unresolved_throws
    (deepEqual : value -> value -> bool) (fuel : nat) (ds : obj)
    (m : value) (name : string) (rest : list value) :
  ref_to m name -> lookup name ds = VUndefined ->
  (forall rec schema required,
     schemaMembers rec ds (S fuel) (m :: rest) schema required = Throw TypeError) /\
  (forall rec o,
     exampleMembers rec ds (S fuel) (m :: rest) o = Throw TypeError) /\
  (forall root,
     get root "element" = Ok (VStr "object") ->
     get root "content" = Ok (VArr (m :: rest)) ->
     renderSchema deepEqual (S (S fuel)) root ds = Throw TypeError /\
     renderExample (S (S fuel)) root ds = Throw TypeError).
Proof.
  intros (He & content & href & Hc & Hh & Hk) Hl.
  assert (Hs : forall rec schema required,
             schemaMembers rec ds (S fuel) (m :: rest) schema required
             = Throw TypeError).
  { intros. rewrite schemaMembers_ref by assumption.
    rewrite Hc. cbn [bind]. rewrite Hh. cbn [bind]. rewrite Hk. cbn [bind].
    rewrite Hl. reflexivity. }
  assert (Hx : forall rec o,
             exampleMembers rec ds (S fuel) (m :: rest) o = Throw TypeError).
  { intros. rewrite exampleMembers_ref by assumption.
    rewrite Hc. cbn [bind]. rewrite Hh. cbn [bind]. rewrite Hk. cbn [bind].
    rewrite Hl. reflexivity. }
  split; [exact Hs |]. split; [exact Hx |].
  intros root Hre Hrc. split.
  - rewrite renderSchema_S, (schemaSwitch_object _ _ _ _ _ _ Hre Hrc).
    cbn [slice0 bind]. rewrite Hs. reflexivity.
  - rewrite renderExample_S, (exampleSwitch_object _ _ _ _ _ Hre Hrc).
    cbn [slice0 bind]. apply Hx.
Qed.

Lemma ref_unresolved_throws_witness :
  let root := element "object"
                (VArr [ref "Timestamps"; member "id" (prim "number")]) in
  renderSchema (fun _ _ => true) 2 root [] = Throw TypeError /\
  renderExample 2 root [] = Throw TypeError.
Proof.
  refine (proj2 (proj2 (ref_unresolved_throws (fun _ _ => true) 0 []
                          (ref "Timestamps") "Timestamps"
                          [member "id" (prim "number")] _ eq_refl))
                (element "object"
                   (VArr [ref "Timestamps"; member "id" (prim "number")]))
                eq_refl eq_refl).
  split; [reflexivity |].
  exists (VObj [("href", VStr "Timestamps")]), (VStr "Timestamps").
  repeat split.
Defined.

(** ** Inheritance: content that is not a list (C2) *)

(** The fields of [JSON.parse(JSON.stringify(o))] for an object [o]. *)
Definition copy_fields (fs : obj) : obj :=
  match json_copy (VObj fs) with
  | VObj fs' => fs'
  | _ => []
  end.

Lemma json_copy_obj (fs : obj) : json_copy (VObj fs) = VObj (copy_fields fs).
Proof. reflexivity. Qed.

Lemma copy_fields_cons (k : string) (x : value) (fs : obj) :
  copy_fields ((k, x) :: fs)
  = match x with
    | VUndefined => copy_fields fs
    | _ => (k, json_copy x) :: copy_fields fs
    end.
Proof. destruct x; reflexivity. Qed.

(** A property that holds a value is copied under the same name. *)
Lemma lookup_copy_fields (k : string) (fs : obj) :
  lookup k fs <> VUndefined ->
  lookup k (copy_fields fs) = json_copy (lookup k fs).
Proof.
  induction fs as [| [k' x] fs IH]; [simpl; congruence |].
  rewrite copy_fields_cons. simpl. destruct (k =? k') eqn:E.
  - intros Hx. destruct x; simpl; rewrite ?E; try reflexivity. congruence.
  - intros Hx. destruct x; simpl; rewrite ?E; auto.
Qed.

(** Content of a simple type: a string, a number or a boolean. *)
Definition scalar (v : value) : bool :=
  match v with
  | VBool _ | VNum _ | VStr _ => true
  | _ => false
  end.

Lemma merge_into_falsy (combined : value) (name : string) (src : value) :
  truthy src = false -> merge_into combined name src = Ok combined.
Proof. intros H. unfold merge_into. now rewrite H. Qed.

(** C2 fails on the code.  When the element has content, and neither its
    content nor the content of the base is a list, [inherit] reaches the
    assignment to the undeclared [combine] and throws a [ReferenceError]
    instead of returning the base with the content of the element. *)
Theorem inherit_scalar_content_throws (bfs efs : obj) :
  scalar (lookup "content" bfs) = true ->
  scalar (lookup "content" efs) = true ->
  truthy (lookup "content" efs) = true ->
  truthy (lookup "meta" efs) = false ->
  truthy (lookup "attributes" efs) = false ->
  inherit (VObj bfs) (VObj efs) = Throw ReferenceError.
Proof.
  intros Hb He Ht Hm Ha. unfold inherit.
  cbn [json_roundtrip bind get]. rewrite json_copy_obj.
  rewrite merge_into_falsy by assumption. cbn [bind].
  rewrite merge_into_falsy by assumption. cbn [bind get].
  rewrite Ht.
  rewrite lookup_copy_fields by (destruct (lookup "content" bfs); discriminate).
  destruct (lookup "content" bfs); try discriminate;
    destruct (lookup "content" efs); try discriminate; reflexivity.
Qed.

Lemma inherit_scalar_content_throws_witness :
  inherit (element "string" (VStr "draft")) (element "Status" (VStr "published"))
  = Throw ReferenceError.
Proof.
  apply (inherit_scalar_content_throws
           [("element", VStr "string"); ("content", VStr "draft")]
           [("element", VStr "Status"); ("content", VStr "published")]);
    reflexivity.
Defined.

(** ** The example of the specification (C5) *)

(** The symbol table and the root element of the end-to-end example. *)
Definition base_table : obj :=
  [("Base", element "object" (VArr [member "id" (prim "number")]))].

Definition derived_root : value :=
  element "Base"
    (VArr [VObj [("element", VStr "member");
                 ("attributes", VObj [("typeAttributes", VArr [VStr "required"])]);
                 ("content", VObj [("key", element "string" (VStr "id"));
                                   ("value", prim "string")])]]).

(** C5 fails on the code.  Rendering the root resolves it against [Base];
    the two [id] members meet in [uniqueMembers], which throws a [TypeError],
    and so do [inherit] and both renderers, with any amount of fuel that
    reaches the call. *)
Theorem end_to_end_override_throws (deepEqual : value -> value -> bool)
    (fuel : nat) :
  inherit (element "object" (VArr [member "id" (prim "number")])) derived_root
  = Throw TypeError /\
  renderSchema deepEqual (S fuel) derived_root base_table = Throw TypeError /\
  renderExample (S fuel) derived_root base_table = Throw TypeError.
Proof.
  assert (Hi : inherit (element "object" (VArr [member "id" (prim "number")]))
                 derived_root = Throw TypeError) by (vm_compute; reflexivity).
  split; [exact Hi |]. split.
  - rewrite renderSchema_S. unfold schemaSwitch.
    cbn -[inherit renderSchema derived_root].
    change (get derived_root "element") with (Ok (A := value) (VStr "Base")).
    cbn -[inherit renderSchema derived_root]. rewrite Hi. reflexivity.
  - rewrite renderExample_S. unfold exampleSwitch.
    change (get derived_root "element") with (Ok (A := value) (VStr "Base")).
    cbn -[inherit renderExample derived_root]. rewrite Hi. reflexivity.
Qed.

(** ** Inheritance: members declared twice (C3) *)

(** The key of a member element, when the key is a string. *)
Definition member_key (x : value) : option string :=
  match get x "element" with
  | Ok kind =>
      if is_str kind "member" then
        match (c <- get x "content" ;; k <- get c "key" ;; get k "content") with
        | Ok (VStr key) => Some key
        | _ => None
        end
      else None
  | _ => None
  end.

Lemma member_key_inv (x : value) (key : string) :
  member_key x = Some key ->
  exists kind c k,
    get x "element" = Ok kind /\ is_str kind "member" = true /\
    get x "content" = Ok c /\ get c "key" = Ok k /\
    get k "content" = Ok (VStr key).
Proof.
  unfold member_key. intros H.
  destruct (get x "element") as [kind | | |] eqn:He; try discriminate.
  destruct (is_str kind "member") eqn:Hk; try discriminate.
  destruct (get x "content") as [c | | |] eqn:Hc; try discriminate.
  cbn [bind] in H.
  destruct (get c "key") as [k | | |] eqn:Hck; try discriminate.
  cbn [bind] in H.
  destruct (get k "content") as [[] | | |] eqn:Hkc; try discriminate.
  injection H as <-. exists kind, c, k. auto.
Qed.

(** [known] holds the keys [ks], as the strings the loop pushed. *)
Definition knows (known : list value) (ks : list string) : Prop :=
  forall k, existsb (strict_eq (VStr k)) known = true <-> In k ks.

Lemma knows_nil : knows [] [].
Proof. intros k. simpl. split; [discriminate | contradiction]. Qed.

Lemma knows_push (known : list value) (ks : list string) (k : string) :
  knows known ks -> knows (known ++ [VStr k]) (k :: ks).
Proof.
  intros H k'. rewrite existsb_app. simpl. rewrite orb_false_r, orb_true_iff.
  rewrite (H k'), String.eqb_eq. intuition congruence.
Qed.

Lemma loop_step_member (fuel : nat) (content : list value) (i : nat)
    (known : list value) (x : value) (key : string) :
  nth i content VUndefined = x -> member_key x = Some key ->
  uniqueMembers_loop (S fuel) content (Z.of_nat i) known
  = if existsb (strict_eq (VStr key)) known
    then uniqueMembers_loop fuel (splice1 i content) (Z.of_nat i) known
    else uniqueMembers_loop fuel content (Z.of_nat i - 1) (known ++ [VStr key]).
Proof.
  intros Hx Hk. apply member_key_inv in Hk.
  destruct Hk as (kind & c & k & He & Hm & Hc & Hck & Hkc).
  cbn [uniqueMembers_loop].
  replace (Z.of_nat i <? 0)%Z with false by (symmetry; apply Z.ltb_ge; lia).
  rewrite Nat2Z.id, Hx, He. cbn [bind]. rewrite Hm, Hc. cbn [bind].
  rewrite Hck. cbn [bind]. rewrite Hkc. reflexivity.
Qed.

Lemma splice1_middle (pre suf : list value) (x : value) :
  splice1 (length pre) (pre ++ x :: suf) = pre ++ suf.
Proof.
  unfold splice1.
  rewrite firstn_app, firstn_all, Nat.sub_diag, firstn_O, app_nil_r.
  replace (S (length pre)) with (length (pre ++ [x]))
    by (rewrite length_app; simpl; lia).
  replace (pre ++ x :: suf) with ((pre ++ [x]) ++ suf)
    by (now rewrite <- app_assoc).
  rewrite skipn_app, skipn_all, Nat.sub_diag. reflexivity.
Qed.

Lemma nth_middle_value (pre suf : list value) (x : value) :
  nth (length pre) (pre ++ x :: suf) VUndefined = x.
Proof. rewrite app_nth2, Nat.sub_diag by lia. reflexivity. Qed.

(** Once a duplicate has been spliced out at [i], the loop stays at [i]: the
    members behind it move up one after the other, each key is known, each is
    spliced out, and the read past the end of the array throws. *)
Lemma loop_purges (suf : list value) :
  forall (ks : list string) (pre known : list value) (fuel : nat),
    map member_key suf = map Some ks ->
    (forall k, In k ks -> existsb (strict_eq (VStr k)) known = true) ->
    length suf < fuel ->
    uniqueMembers_loop fuel (pre ++ suf) (Z.of_nat (length pre)) known
    = Throw TypeError.
Proof.
  induction suf as [| x suf IH]; intros ks pre known fuel Hks Hknown Hfuel.
  - destruct fuel as [| fuel]; [simpl in Hfuel; lia |].
    cbn [uniqueMembers_loop].
    replace (Z.of_nat (length pre) <? 0)%Z with false
      by (symmetry; apply Z.ltb_ge; lia).
    rewrite Nat2Z.id, app_nil_r, nth_overflow by lia. reflexivity.
  - destruct ks as [| k ks]; [discriminate |].
    simpl in Hks. injection Hks as Hx Hks.
    destruct fuel as [| fuel]; [simpl in Hfuel; lia |].
    rewrite (loop_step_member _ _ _ _ x k); [| apply nth_middle_value | exact Hx].
    rewrite Hknown by now left.
    rewrite splice1_middle.
    apply (IH ks); [exact Hks | intros; apply Hknown; now right |].
    simpl in Hfuel. lia.
Qed.

Lemma map_member_key_snoc (pre : list value) (x : value) (kp : list string) :
  map member_key (pre ++ [x]) = map Some kp ->
  exists kp' k, kp = kp' ++ [k] /\ map member_key pre = map Some kp' /\
                member_key x = Some k.
Proof.
  revert kp. induction pre as [| y pre IH]; intros kp H.
  - destruct kp as [| k [| ? ?]]; try discriminate.
    injection H as H. exists [], k. auto.
  - destruct kp as [| k0 kp]; [discriminate |].
    simpl in H. injection H as Hy H.
    destruct (IH kp H) as (kp' & k & -> & Hpre & Hx).
    exists (k0 :: kp'), k. simpl. rewrite Hy, Hpre. auto.
Qed.

(** No key occurs twice. *)
Fixpoint distinct (ks : list string) : bool :=
  match ks with
  | [] => true
  | k :: ks' => negb (existsb (String.eqb k) ks') && distinct ks'
  end.

Lemma existsb_eqb_In (k : string) (ks : list string) :
  existsb (String.eqb k) ks = true <-> In k ks.
Proof.
  rewrite existsb_exists. split.
  - intros (k' & Hin & E). apply String.eqb_eq in E. now subst.
  - intros Hin. exists k. now rewrite String.eqb_refl.
Qed.

Lemma distinct_NoDup (ks : list string) : distinct ks = true <-> NoDup ks.
Proof.
  induction ks as [| k ks IH]; simpl.
  - split; [constructor | reflexivity].
  - rewrite andb_true_iff, negb_true_iff, IH. split.
    + intros [Hk Hnd]. constructor; [| assumption].
      intros Hin. apply existsb_eqb_In in Hin. congruence.
    + intros Hnd. inversion Hnd as [| ? ? Hk Hnd']. subst. split; [| assumption].
      destruct (existsb (String.eqb k) ks) eqn:E; [| reflexivity].
      apply existsb_eqb_In in E. contradiction.
Qed.

Lemma distinct_repeated (kp ks : list string) (k : string) :
  In k ks -> distinct (kp ++ k :: ks) = false.
Proof.
  intros Hin. destruct (distinct (kp ++ k :: ks)) eqn:E; [| reflexivity].
  apply distinct_NoDup, NoDup_remove_2 in E. exfalso. apply E.
  apply in_or_app. now right.
Qed.

(** The scan from the end over members with string keys: [pre] is still to
    visit, [suf] has been visited and its keys [ks] are known. *)
Lemma loop_scan (pre : list value) :
  forall (kp ks : list string) (suf known : list value) (fuel : nat),
    map member_key pre = map Some kp ->
    map member_key suf = map Some ks ->
    knows known ks -> NoDup ks ->
    2 * length pre + length suf < fuel ->
    uniqueMembers_loop fuel (pre ++ suf) (Z.of_nat (length pre) - 1) known
    = if distinct (kp ++ ks) then Ok (pre ++ suf) else Throw TypeError.
Proof.
  induction pre as [| x pre IH] using rev_ind;
    intros kp ks suf known fuel Hkp Hks Hknown Hnd Hfuel.
  - destruct kp; [| discriminate]. simpl.
    apply distinct_NoDup in Hnd. rewrite Hnd.
    destruct fuel; [lia | reflexivity].
  - apply map_member_key_snoc in Hkp.
    destruct Hkp as (kp' & k & -> & Hpre & Hx).
    destruct fuel as [| fuel]; [lia |].
    rewrite length_app in *. simpl in Hfuel. cbn [length].
    replace (Z.of_nat (length pre + 1) - 1)%Z with (Z.of_nat (length pre)) by lia.
    rewrite <- !app_assoc. cbn [app].
    rewrite (loop_step_member _ _ _ _ x k); [| apply nth_middle_value | exact Hx].
    destruct (existsb (strict_eq (VStr k)) known) eqn:Hex.
    + rewrite splice1_middle.
      rewrite (loop_purges suf ks) by
        (try assumption; try lia; intros; now apply Hknown).
      rewrite distinct_repeated by now apply Hknown.
      reflexivity.
    + rewrite (IH kp' (k :: ks) (x :: suf) (known ++ [VStr k]) fuel);
        try assumption.
      * reflexivity.
      * simpl. now rewrite Hx, Hks.
      * now apply knows_push.
      * constructor; [| assumption].
        intros Hin. apply Hknown in Hin. congruence.
      * simpl. lia.
Qed.

(** What [uniqueMembers] does to a list of members with string keys: it
    leaves a list without duplicates as it is, and throws on any other. *)
Lemma uniqueMembers_members (l : list value) (ks : list string) :
  map member_key l = map Some ks ->
  uniqueMembers (VArr l)
  = if distinct ks then Ok (VArr l) else Throw TypeError.
Proof.
  intros Hks. unfold uniqueMembers.
  pose proof (loop_scan l ks [] [] [] (2 * length l + 1) Hks eq_refl
                knows_nil (NoDup_nil _)) as H.
  rewrite !app_nil_r in H. rewrite H by (simpl; lia).
  destruct (distinct ks); reflexivity.
Qed.

(** An entry of an array, as [JSON.parse(JSON.stringify(...))] copies it. *)
Definition copy_item (x : value) : value :=
  match x with
  | VUndefined => VNull
  | _ => json_copy x
  end.

Lemma json_copy_arr (l : list value) : json_copy (VArr l) = VArr (map copy_item l).
Proof. reflexivity. Qed.

Lemma get_obj_inv (x : value) (name : string) (fs : obj) :
  get x name = Ok (VObj fs) -> exists xs, x = VObj xs /\ lookup name xs = VObj fs.
Proof.
  destruct x; simpl; try discriminate. intros H. injection H as H. eauto.
Qed.

Lemma get_str_inv (x : value) (name s : string) :
  get x name = Ok (VStr s) -> exists xs, x = VObj xs /\ lookup name xs = VStr s.
Proof.
  destruct x; simpl; try discriminate. intros H. injection H as H. eauto.
Qed.

(** The deep copy of a member is a member with the same key. *)
Lemma member_key_copy_item (x : value) (key : string) :
  member_key x = Some key -> member_key (copy_item x) = Some key.
Proof.
  intros H. apply member_key_inv in H.
  destruct H as (kind & c & k & He & Hm & Hc & Hck & Hkc).
  destruct kind; try discriminate. simpl in Hm. apply String.eqb_eq in Hm. subst s.
  apply get_str_inv in He, Hkc.
  destruct He as (xs & -> & He). destruct Hkc as (ks & -> & Hkc).
  apply get_obj_inv in Hck. destruct Hck as (cs & -> & Hck).
  simpl in Hc. injection Hc as Hc.
  unfold copy_item. rewrite json_copy_obj. unfold member_key. cbn [get].
  rewrite (lookup_copy_fields "element"), He by (rewrite He; discriminate).
  cbn [json_copy is_str strict_eq]. rewrite String.eqb_refl.
  rewrite (lookup_copy_fields "content"), Hc by (rewrite Hc; discriminate).
  rewrite json_copy_obj. cbn [bind get].
  rewrite (lookup_copy_fields "key"), Hck by (rewrite Hck; discriminate).
  rewrite json_copy_obj. cbn [bind get].
  rewrite (lookup_copy_fields "content"), Hkc by (rewrite Hkc; discriminate).
  reflexivity.
Qed.

Lemma map_member_key_copy (l : list value) (ks : list string) :
  map member_key l = map Some ks ->
  map member_key (map copy_item l) = map Some ks.
Proof.
  revert ks. induction l as [| x l IH]; intros [| k ks] H; try discriminate.
  - reflexivity.
  - simpl in H. injection H as Hx H. simpl.
    now rewrite (member_key_copy_item x k), (IH ks).
Qed.

(** The loop that pushes the items of the element on [combined.content]. *)
Lemma push_items (items : list value) :
  forall (fs : obj) (l : list value),
    lookup "content" fs = VArr l ->
    foldM (fun combined item =>
             c <- get combined "content" ;;
             c' <- push c item ;;
             set combined "content" c')
          items (VObj fs)
    = Ok (VObj match items with
               | [] => fs
               | _ => obj_set fs "content" (VArr (l ++ items))
               end).
Proof.
  induction items as [| x items IH]; intros fs l Hl; [reflexivity |].
  cbn [foldM get bind]. rewrite Hl. cbn [push bind set].
  rewrite (IH _ (l ++ [x])) by apply lookup_obj_set_same.
  destruct items; [reflexivity |].
  now rewrite obj_set_twice, <- app_assoc.
Qed.

(** [inherit] on two elements whose contents are lists of members with
    string keys, when the element brings no metadata of its own: the members
    of the base, copied, followed by those of the element when no key occurs
    twice; a [TypeError] from [uniqueMembers] otherwise. *)
Lemma inherit_members (bfs efs : obj) (bs es : list value) (kb ke : list string) :
  lookup "content" bfs = VArr bs -> lookup "content" efs = VArr es ->
  map member_key bs = map Some kb -> map member_key es = map Some ke ->
  kb ++ ke <> [] ->
  truthy (lookup "meta" efs) = false ->
  truthy (lookup "attributes" efs) = false ->
  inherit (VObj bfs) (VObj efs)
  = if distinct (kb ++ ke)
    then Ok (VObj (obj_set (copy_fields bfs) "content"
                     (VArr (map copy_item bs ++ es))))
    else Throw TypeError.
Proof.
  intros Hb He Hkb Hke Hne Hm Ha. unfold inherit.
  cbn [json_roundtrip bind get]. rewrite json_copy_obj.
  rewrite merge_into_falsy by assumption. cbn [bind].
  rewrite merge_into_falsy by assumption. cbn [bind get].
  rewrite He. cbn [truthy].
  assert (Hc : lookup "content" (copy_fields bfs) = VArr (map copy_item bs)).
  { rewrite lookup_copy_fields, Hb by (rewrite Hb; discriminate).
    apply json_copy_arr. }
  rewrite Hc. cbn [has_push orb nullish array_from bind].
  rewrite (push_items es _ _ Hc). cbn [bind].
  set (all := map copy_item bs ++ es).
  assert (Hall : map member_key all = map Some (kb ++ ke)).
  { subst all. rewrite !map_app, (map_member_key_copy bs kb), Hke; auto. }
  match goal with
  | |- context [get (VObj ?m) "content"] => set (fs' := m)
  end.
  assert (Hlookup : lookup "content" fs' = VArr all).
  { subst fs'. destruct es; [| apply lookup_obj_set_same].
    subst all. now rewrite app_nil_r. }
  cbn [get bind].
  rewrite Hlookup. cbn [length_of bind].
  destruct all as [| x all'] eqn:Eall.
  { destruct (kb ++ ke); [congruence | discriminate]. }
  cbn [length truthy first hd bind].
  replace (negb (Z.of_nat (S (length all')) =? 0)%Z) with true
    by (symmetry; apply negb_true_iff, Z.eqb_neq; lia).
  destruct (kb ++ ke) as [| k ks] eqn:Eks; [congruence |].
  simpl in Hall. injection Hall as Hx Hall'.
  destruct (member_key_inv x k Hx) as (kind & c & kk & Hxe & Hxm & _).
  rewrite Hxe. cbn [bind]. rewrite Hxm.
  rewrite (uniqueMembers_members (x :: all') (k :: ks))
    by (simpl; now rewrite Hx, Hall').
  destruct (distinct (k :: ks)); [| reflexivity].
  cbn [bind set]. subst fs'. destruct es; [| now rewrite obj_set_twice].
  reflexivity.
Qed.

Lemma distinct_shared (kb ke : list string) (k : string) :
  In k kb -> In k ke -> distinct (kb ++ ke) = false.
Proof.
  intros Hb He. apply in_split in Hb. destruct Hb as (l1 & l2 & ->).
  rewrite <- app_assoc. cbn [app]. apply distinct_repeated.
  apply in_or_app. now right.
Qed.

(** C3 fails on the code.  When the base and the element both declare a
    member with the key [k], and their contents are lists of members,
    [inherit] does not return: after [uniqueMembers] has spliced out the
    first duplicate it looks at the same index again, removes every member
    behind it, and throws a [TypeError] on the read past the end. *)
Theorem inherit_override_throws (bfs efs : obj) (bs es : list value)
    (kb ke : list string) (k : string) :
  lookup "content" bfs = VArr bs -> lookup "content" efs = VArr es ->
  map member_key bs = map Some kb -> map member_key es = map Some ke ->
  In k kb -> In k ke ->
  truthy (lookup "meta" efs) = false ->
  truthy (lookup "attributes" efs) = false ->
  inherit (VObj bfs) (VObj efs) = Throw TypeError.
Proof.
  intros Hb He Hkb Hke Hinb Hine Hm Ha.
  rewrite (inherit_members bfs efs bs es kb ke) by
    first [assumption | destruct kb; [contradiction | discriminate]].
  now rewrite (distinct_shared kb ke k).
Qed.

Lemma inherit_override_throws_witness :
  inherit (element "object" (VArr [member "id" (prim "number");
                                   member "name" (prim "string")]))
          (element "Another Type" (VArr [member "id" (prim "string")]))
  = Throw TypeError.
Proof.
  apply (inherit_override_throws
           [("element", VStr "object");
            ("content", VArr [member "id" (prim "number");
                              member "name" (prim "string")])]
           [("element", VStr "Another Type");
            ("content", VArr [member "id" (prim "string")])]
           [member "id" (prim "number"); member "name" (prim "string")]
           [member "id" (prim "string")]
           ["id"; "name"] ["id"] "id");
    try reflexivity; simpl; auto.
Defined.

(** ** Arrays (C6) *)

Lemma mapM_Forall2 {A B : Type} (f : A -> result B) (l : list A) (l' : list B) :
  Forall2 (fun a b => f a = Ok b) l l' -> mapM f l = Ok l'.
Proof.
  induction 1 as [| a b l l' Hab _ IH]; [reflexivity |].
  simpl. rewrite Hab. cbn [bind]. rewrite IH. reflexivity.
Qed.

Lemma schemaSwitch_array (deepEqual : value -> value -> bool)
    (rec : value -> result value) (ds : obj) (fuel : nat) (root content : value) :
  get root "element" = Ok (VStr "array") ->
  get root "content" = Ok content ->
  schemaSwitch deepEqual rec ds fuel root
  = (children <- array_from (if truthy content then content else VArr []) ;;
     items <- mapM rec children ;;
     match items with
     | [] => Ok (VObj [("type", VStr "array")])
     | [item] => set (VObj [("type", VStr "array")]) "items" item
     | item :: others =>
         match reduce_deepEqual deepEqual item others with
         | Some last => set (VObj [("type", VStr "array")]) "items" last
         | None => set (VObj [("type", VStr "array")]) "items"
                     (VObj [("anyOf", VArr items)])
         end
     end).
Proof. intros He Hc. unfold schemaSwitch. rewrite He. cbn. rewrite Hc. reflexivity. Qed.

(** What the [array] branch stores under [items], for the schemas of the
    children: nothing for no child, the schema of a single child, and for
    more the last schema when [deepEqual] accepts every schema against the
    one before it, the [anyOf] of all of them when it rejects one. *)
Definition array_items (deepEqual : value -> value -> bool)
    (schemas : list value) : option value :=
  match schemas with
  | [] => None
  | [s] => Some s
  | s :: others =>
      match reduce_deepEqual deepEqual s others with
      | Some last => Some last
      | None => Some (VObj [("anyOf", VArr schemas)])
      end
  end.

Definition array_schema (items : option value) : value :=
  match items with
  | None => VObj [("type", VStr "array")]
  | Some s => VObj [("type", VStr "array"); ("items", s)]
  end.

Lemma renderSchema_array (deepEqual : value -> value -> bool) (fuel : nat)
    (root : value) (ds : obj) (children schemas : list value) :
  get root "element" = Ok (VStr "array") ->
  get root "content" = Ok (VArr children) ->
  Forall2 (fun c s => renderSchema deepEqual fuel c ds = Ok s) children schemas ->
  renderSchema deepEqual (S fuel) root ds
  = afterSwitch root (array_schema (array_items deepEqual schemas)).
Proof.
  intros He Hc Hr.
  rewrite renderSchema_S, (schemaSwitch_array _ _ _ _ _ _ He Hc).
  cbn [truthy array_from bind].
  rewrite (mapM_Forall2 _ _ _ Hr). cbn [bind].
  destruct schemas as [| s [| s' others]]; try reflexivity.
  unfold array_items.
  destruct (reduce_deepEqual deepEqual s (s' :: others)); reflexivity.
Qed.

(** The schemas that stand side by side in the list: [reduce] hands each
    pair to [deepEqual]. *)
Fixpoint neighbours (l : list value) : list (value * value) :=
  match l with
  | [] => []
  | a :: rest =>
      match rest with
      | [] => []
      | b :: _ => (a, b) :: neighbours rest
      end
  end.

Definition accepted (deepEqual : value -> value -> bool) (p : value * value)
    : Prop :=
  deepEqual (fst p) (snd p) = true.

Definition rejected (deepEqual : value -> value -> bool) (p : value * value)
    : Prop :=
  deepEqual (fst p) (snd p) = false.

(** [deepEqual] accepts every schema against itself. *)
Definition reflexive (deepEqual : value -> value -> bool) : Prop :=
  forall a, deepEqual a a = true.

Lemma last_default (l : list value) (x d d' : value) :
  last (x :: l) d = last (x :: l) d'.
Proof.
  revert x. induction l as [| y l IH]; intros x; [reflexivity |].
  change (last (y :: l) d = last (y :: l) d'). apply IH.
Qed.

Lemma reduce_accepted (deepEqual : value -> value -> bool) (others : list value) :
  forall s, Forall (accepted deepEqual) (neighbours (s :: others)) ->
            reduce_deepEqual deepEqual s others = Some (last others s).
Proof.
  induction others as [| r others IH]; intros s H; [reflexivity |].
  cbn [neighbours] in H. inversion H as [| ? ? Hsr Hrest]. subst.
  unfold accepted in Hsr. cbn [fst snd] in Hsr.
  cbn [reduce_deepEqual]. rewrite Hsr, (IH r Hrest).
  destruct others as [| x l]; [reflexivity |]. f_equal.
  change (last (r :: x :: l) s) with (last (x :: l) s). apply last_default.
Qed.

Lemma reduce_rejected (deepEqual : value -> value -> bool) (others : list value) :
  forall s, Exists (rejected deepEqual) (neighbours (s :: others)) ->
            reduce_deepEqual deepEqual s others = None.
Proof.
  induction others as [| r others IH]; intros s H; [inversion H |].
  cbn [neighbours] in H. cbn [reduce_deepEqual].
  destruct (deepEqual s r) eqn:E; [| reflexivity].
  inversion H as [? ? Hsr | ? ? Hrest]; subst.
  - unfold rejected in Hsr. cbn [fst snd] in Hsr. congruence.
  - now apply IH.
Qed.

Lemma neighbours_identical (deepEqual : value -> value -> bool) (s : value)
    (schemas : list value) :
  reflexive deepEqual -> Forall (eq s) schemas ->
  Forall (accepted deepEqual) (neighbours schemas).
Proof.
  intros Hr H. induction H as [| a rest <- Hrest IH]; [constructor |].
  cbn [neighbours]. destruct rest as [| b rest']; [constructor |].
  inversion Hrest as [| ? ? <- _]. subst.
  constructor; [apply Hr | exact IH].
Qed.

Lemma last_identical (s d : value) (schemas : list value) :
  schemas <> [] -> Forall (eq s) schemas -> last schemas d = s.
Proof.
  intros Hne H. induction H as [| a rest <- Hrest IH]; [congruence |].
  destruct rest as [| b rest']; [reflexivity |].
  change (last (s :: b :: rest') d) with (last (b :: rest') d).
  apply IH. discriminate.
Qed.

(** C6, as amended.  For an array element whose [N] children render: one
    child gives its schema as [items], whatever [deepEqual] would say.  For
    two children or more the code asks [deepEqual] about every schema and
    the one before it: when it accepts them all, [items] is one schema, the
    last; when it rejects a pair, [items] is [{anyOf: [...]}] with the [N]
    schemas in the order of the children.  So children that all render to
    one schema give that schema, for a [deepEqual] that accepts a schema
    against itself; two schemas that differ give [anyOf] only if [deepEqual]
    tells them apart.  The statements after the [switch] leave [items] as
    the branch set it. *)
Theorem array_items_collapse
    (deepEqual : value -> value -> bool) (fuel : nat) (root : value) (ds : obj)
    (children schemas : list value) :
  get root "element" = Ok (VStr "array") ->
  get root "content" = Ok (VArr children) ->
  Forall2 (fun c s => renderSchema deepEqual fuel c ds = Ok s) children schemas ->
  let items_are (items : value) :=
    renderSchema deepEqual (S fuel) root ds
    = afterSwitch root (VObj [("type", VStr "array"); ("items", items)]) /\
    forall out, renderSchema deepEqual (S fuel) root ds = Ok out ->
                get out "items" = Ok items in
  (forall s, schemas = [s] -> items_are s) /\
  (2 <= length schemas ->
   Forall (accepted deepEqual) (neighbours schemas) ->
   items_are (last schemas VUndefined)) /\
  (Exists (rejected deepEqual) (neighbours schemas) ->
   items_are (VObj [("anyOf", VArr schemas)]) /\
   length schemas = length children) /\
  (reflexive deepEqual ->
   forall s, schemas <> [] -> Forall (eq s) schemas -> items_are s).
Proof.
  intros He Hc Hr items_are.
  pose proof (renderSchema_array deepEqual fuel root ds children schemas
                He Hc Hr) as Hrender.
  assert (Hitems : forall items, array_items deepEqual schemas = Some items ->
                                 items_are items).
  { intros items Hi. unfold items_are. rewrite Hrender, Hi. cbn [array_schema].
    split; [reflexivity |]. intros out Hout.
    now rewrite (afterSwitch_other _ _ _ "items" Hout). }
  assert (Haccepted : 2 <= length schemas ->
                      Forall (accepted deepEqual) (neighbours schemas) ->
                      items_are (last schemas VUndefined)).
  { intros Hlen Hall. apply Hitems.
    destruct schemas as [| s0 [| s1 others]]; [simpl in Hlen; lia .. |].
    unfold array_items. rewrite (reduce_accepted _ _ _ Hall).
    f_equal. change (last (s0 :: s1 :: others) VUndefined)
               with (last (s1 :: others) VUndefined).
    apply last_default. }
  split; [| split; [exact Haccepted | split]].
  - intros s ->. apply Hitems. reflexivity.
  - intros Hex. split.
    + apply Hitems.
      destruct schemas as [| s0 [| s1 others]]; [inversion Hex .. |].
      unfold array_items. now rewrite (reduce_rejected _ _ _ Hex).
    + symmetry. eapply Forall2_length. eassumption.
  - intros Hrefl s Hne Hall.
    destruct schemas as [| s0 [| s1 others]]; [congruence | |].
    + inversion Hall as [| ? ? <- _]. apply Hitems. reflexivity.
    + rewrite <- (last_identical s VUndefined (s0 :: s1 :: others) Hne Hall).
      apply Haccepted; [simpl; lia |].
      now apply (neighbours_identical deepEqual s).
Qed.

(** Equality of values, decided: the strictest [deepEqual]. *)
Fixpoint value_eqb (a b : value) : bool :=
  match a, b with
  | VUndefined, VUndefined => true
  | VNull, VNull => true
  | VBool x, VBool y => Bool.eqb x y
  | VNum x, VNum y => (x =? y)%Z
  | VStr x, VStr y => (x =? y)
  | VArr l, VArr l' =>
      (fix items (l l' : list value) : bool :=
         match l, l' with
         | [], [] => true
         | x :: l, y :: l' => value_eqb x y && items l l'
         | _, _ => false
         end) l l'
  | VObj fs, VObj fs' =>
      (fix fields (fs fs' : obj) : bool :=
         match fs, fs' with
         | [], [] => true
         | (k, x) :: fs, (k', y) :: fs' => (k =? k') && value_eqb x y && fields fs fs'
         | _, _ => false
         end) fs fs'
  | _, _ => false
  end.

Section ValueInduction.

Variable P : value -> Prop.
Hypothesis P_undefined : P VUndefined.
Hypothesis P_null : P VNull.
Hypothesis P_bool : forall b, P (VBool b).
Hypothesis P_num : forall n, P (VNum n).
Hypothesis P_str : forall s, P (VStr s).
Hypothesis P_arr : forall l, Forall P l -> P (VArr l).
Hypothesis P_obj : forall fs, Forall (fun kv => P (snd kv)) fs -> P (VObj fs).

(** Induction on values, with the hypothesis for every entry of an array and
    every property of an object. *)
Fixpoint value_induction (v : value) : P v :=
  match v with
  | VUndefined => P_undefined
  | VNull => P_null
  | VBool b => P_bool b
  | VNum n => P_num n
  | VStr s => P_str s
  | VArr l =>
      P_arr l ((fix all (l : list value) : Forall P l :=
                  match l with
                  | [] => Forall_nil _
                  | x :: l' => Forall_cons x (value_induction x) (all l')
                  end) l)
  | VObj fs =>
      P_obj fs ((fix all (fs : obj) : Forall (fun kv => P (snd kv)) fs :=
                   match fs with
                   | [] => Forall_nil _
                   | kv :: fs' => Forall_cons kv (value_induction (snd kv)) (all fs')
                   end) fs)
  end.

End ValueInduction.

Lemma value_eqb_refl : reflexive value_eqb.
Proof.
  intros a. induction a as [| | x | x | x | l IH | fs IH] using value_induction;
    simpl; try reflexivity.
  - apply Bool.eqb_reflx.
  - apply Z.eqb_refl.
  - apply String.eqb_refl.
  - induction IH as [| x l Hx _ IHl]; [reflexivity |]. now rewrite Hx, IHl.
  - induction IH as [| [k x] fs Hx _ IHfs]; [reflexivity |].
    simpl in Hx. now rewrite String.eqb_refl, Hx, IHfs.
Qed.

Lemma array_items_collapse_witness :
  renderSchema value_eqb 2
    (element "array" (VArr [prim "string"; prim "number"])) []
  = Ok (VObj [("type", VStr "array");
              ("items", VObj [("anyOf", VArr [VObj [("type", VStr "string")];
                                               VObj [("type", VStr "number")]])])]).
Proof.
  refine (proj1 (proj1 (proj1 (proj2 (proj2 (array_items_collapse value_eqb 1
            (element "array" (VArr [prim "string"; prim "number"])) []
            [prim "string"; prim "number"]
            [VObj [("type", VStr "string")]; VObj [("type", VStr "number")]]
            eq_refl eq_refl _))) _))).
  - repeat constructor.
  - constructor. reflexivity.
Defined.

(** [a == b] between primitives.  [undefined] and [null] equal each other
    and nothing else; a boolean counts as [1] or [0]; a string is compared
    with a number as the integer that it is the decimal numeral of (a string
    of another form, such as a fraction, is taken for no number, where
    [==] would still read it). *)
Definition to_number (s : string) : option Z :=
  if s =? "" then Some 0%Z else option_map Z.of_int (NilZero.int_of_string s).

Definition loose_primitive (a b : value) : bool :=
  let number (v : value) : option Z :=
    match v with
    | VNum n => Some n
    | VBool x => Some (if x then 1 else 0)%Z
    | VStr s => to_number s
    | _ => None
    end in
  match a, b with
  | (VUndefined | VNull), (VUndefined | VNull) => true
  | (VUndefined | VNull), _ | _, (VUndefined | VNull) => false
  | VStr x, VStr y => x =? y
  | _, _ =>
      match number a, number b with
      | Some x, Some y => (x =? y)%Z
      | _, _ => false
      end
  end.

(** What [assert.deepEqual] of Node accepts, on the values of the model:
    the legacy comparison, which takes two primitives for equal when [==]
    does, two arrays when their entries are, in order, and two objects when
    they have the same keys, in any order, with equal values. *)
Fixpoint loose (a b : value) : bool :=
  match a, b with
  | VArr l, VArr l' =>
      (fix items (l l' : list value) : bool :=
         match l, l' with
         | [], [] => true
         | x :: l, y :: l' => loose x y && items l l'
         | _, _ => false
         end) l l'
  | VObj fs, VObj fs' =>
      (length fs =? length fs')%nat &&
      (fix fields (fs : obj) : bool :=
         match fs with
         | [] => true
         | (k, x) :: fs => has_key k fs' && loose x (lookup k fs') && fields fs
         end) fs
  | (VArr _ | VObj _), _ | _, (VArr _ | VObj _) => false
  | _, _ => loose_primitive a b
  end.

(** C6 as the specification states it fails on two children whose schemas
    differ in a way that [deepEqual] does not see: an enumeration of the
    number [1] and one of the string ["1"].  [1 == "1"], so [deepEqual]
    accepts the pair, and [items] is the second schema, not an [anyOf]. *)
Lemma differing_schemas_collapse_counterexample :
  let one := element "enum" (VArr [element "number" (VNum 1)]) in
  let text := element "enum" (VArr [element "string" (VStr "1")]) in
  let root := element "array" (VArr [one; text]) in
  let schema_one := VObj [("enum", VArr [VNum 1])] in
  let schema_text := VObj [("enum", VArr [VStr "1"])] in
  renderSchema loose 1 one [] = Ok schema_one /\
  renderSchema loose 1 text [] = Ok schema_text /\
  schema_one <> schema_text /\
  loose schema_one schema_text = true /\
  renderSchema loose 2 root []
  = Ok (VObj [("type", VStr "array"); ("items", schema_text)]) /\
  (forall deepEqual fuel,
      deepEqual schema_one schema_text = true ->
      renderSchema deepEqual (S (S fuel)) root []
      = Ok (VObj [("type", VStr "array"); ("items", schema_text)])).
Proof.
  cbv zeta. repeat split; try reflexivity; [discriminate |].
  intros deepEqual fuel H.
  apply (renderSchema_more_fuel deepEqual [] 2); [| discriminate | lia].
  cbn. now rewrite H.
Qed.

(** ** Option sets in a schema (C7) *)

Lemma obj_replace_unchanged (k : string) (fs : obj) :
  obj_replace k (lookup k fs) fs = fs.
Proof.
  induction fs as [| [k' v] fs IH]; simpl; [reflexivity |].
  destruct (k =? k') eqn:E; [| now rewrite IH].
  reflexivity.
Qed.

Lemma obj_set_unchanged (k : string) (v : value) (fs : obj) :
  lookup k fs = v -> v <> VUndefined -> obj_set fs k v = fs.
Proof.
  intros <- Hv. unfold obj_set. rewrite has_key_of_lookup by assumption.
  apply obj_replace_unchanged.
Qed.

(** The pairs that [for (key in properties)] visits, and the writes of a
    list of pairs, in order. *)
Definition entries (ps : obj) : list (string * value) :=
  map (fun k => (k, lookup k ps)) (obj_keys ps).

Definition set_all (es : list (string * value)) (p : obj) : obj :=
  fold_left (fun acc kv => obj_set acc (fst kv) (snd kv)) es p.

(** The value that the last write to [k] in [es] stored. *)
Definition last_write (k : string) (es : list (string * value)) : option value :=
  option_map snd (find (fun kv => k =? fst kv) (rev es)).

(** The properties of a rendered schema: an object, or none. *)
Definition properties_of (s : value) : option obj :=
  match get s "properties" with
  | Ok (VObj ps) => Some ps
  | Ok VUndefined => Some []
  | _ => None
  end.

(** The clauses that [schema.allOf] holds before an option set is met. *)
Definition allOf_clauses (allOf : value) : option (list value) :=
  match allOf with
  | VArr clauses => Some clauses
  | VUndefined => Some []
  | _ => None
  end.

Definition not_required (names : list string) : value :=
  VObj [("not", VObj [("required", VArr (map VStr names))])].

Lemma lookup_set_all (k : string) (es : list (string * value)) (p : obj) :
  lookup k (set_all es p)
  = match last_write k es with Some v => v | None => lookup k p end.
Proof.
  unfold set_all, last_write.
  induction es as [| e es IH] using rev_ind; [reflexivity |].
  rewrite fold_left_app, rev_app_distr. simpl.
  rewrite lookup_obj_set. destruct (k =? fst e); [reflexivity | apply IH].
Qed.

Section SelectMember.

Variable rec : value -> result value.

Lemma absent_key (k : string) (fs : obj) :
  has_key k fs = false -> ~ In k (obj_keys fs).
Proof.
  induction fs as [| [k' v] fs IH]; simpl; [tauto |].
  intros H. apply orb_false_iff in H. destruct H as [Hk H].
  apply String.eqb_neq in Hk. intros [E | Hin]; [congruence | now apply IH].
Qed.

Lemma copy_properties (ps : obj) (keys : list string) :
  ~ In "__proto__" keys ->
  forall (sfs p : obj) (exclusive : list value),
    lookup "properties" sfs = VObj p ->
    foldM (fun '(schema, exclusive) key =>
             prop <- get_dyn (VObj ps) key ;;
             schema' <- set_property schema key prop ;;
             Ok (schema', exclusive ++ [VStr key]))
          keys (VObj sfs, exclusive)
    = Ok (VObj (obj_set sfs "properties"
                  (VObj (set_all (map (fun k => (k, lookup k ps)) keys) p))),
          exclusive ++ map VStr keys).
Proof.
  induction keys as [| k keys IH]; intros Hk sfs p exclusive Hp.
  - simpl. rewrite app_nil_r, obj_set_unchanged; [reflexivity | exact Hp |].
    discriminate.
  - cbn [foldM get_dyn bind]. unfold set_property.
    cbn [get bind]. rewrite Hp.
    rewrite assign_set by (intros ->; apply Hk; now left). cbn [set bind].
    rewrite (IH ltac:(intros H; apply Hk; now right)
               _ (obj_set p k (lookup k ps))) by apply lookup_obj_set_same.
    rewrite obj_set_twice, <- app_assoc. reflexivity.
Qed.

Lemma selectOption_spec (option s : value) (ps sfs p : obj)
    (exclusive : list value) :
  rec option = Ok s -> properties_of s = Some ps ->
  has_key "__proto__" ps = false ->
  lookup "properties" sfs = VObj p ->
  selectOption rec (VObj sfs, exclusive) option
  = Ok (VObj (obj_set sfs "properties" (VObj (set_all (entries ps) p))),
        exclusive ++ map VStr (obj_keys ps)).
Proof.
  intros Hr Hps Hproto Hp. unfold selectOption. rewrite Hr. cbn [bind].
  unfold properties_of in Hps.
  destruct (get s "properties") as [[| | | | | | ps'] | | |]; try discriminate;
    injection Hps as <-; cbn [bind own_keys].
  - simpl. rewrite app_nil_r, obj_set_unchanged; [reflexivity | exact Hp |].
    discriminate.
  - apply copy_properties; [now apply absent_key | exact Hp].
Qed.

Lemma selectOptions_spec (options : list value) (pss : list obj) :
  Forall2 (fun o ps => exists s, rec o = Ok s /\ properties_of s = Some ps)
          options pss ->
  Forall (fun ps => has_key "__proto__" ps = false) pss ->
  forall (sfs p : obj) (exclusive : list value),
    lookup "properties" sfs = VObj p ->
    foldM (selectOption rec) options (VObj sfs, exclusive)
    = Ok (VObj (obj_set sfs "properties"
                  (VObj (set_all (flat_map entries pss) p))),
          exclusive ++ map VStr (flat_map obj_keys pss)).
Proof.
  induction 1 as [| o ps options pss (s & Hr & Hps) _ IH];
    intros Hproto sfs p exclusive Hp.
  - simpl. rewrite app_nil_r, obj_set_unchanged; [reflexivity | exact Hp |].
    discriminate.
  - inversion Hproto as [| ? ? Hps0 Hpss]. subst.
    cbn [foldM]. rewrite (selectOption_spec o s ps sfs p) by assumption.
    cbn [bind].
    rewrite (IH Hpss _ (set_all (entries ps) p)) by apply lookup_obj_set_same.
    rewrite obj_set_twice. cbn [flat_map].
    unfold set_all. rewrite fold_left_app, map_app, <- app_assoc. reflexivity.
Qed.

Lemma selectMember_spec (m : value) (options : list value) (pss : list obj)
    (sfs p : obj) (clauses : list value) :
  get m "content" = Ok (VArr options) ->
  Forall2 (fun o ps => exists s, rec o = Ok s /\ properties_of s = Some ps)
          options pss ->
  Forall (fun ps => has_key "__proto__" ps = false) pss ->
  lookup "properties" sfs = VObj p ->
  allOf_clauses (lookup "allOf" sfs) = Some clauses ->
  selectMember rec (VObj sfs) m
  = Ok (VObj (obj_set
                (obj_set sfs "properties"
                   (VObj (set_all (flat_map entries pss) p)))
                "allOf"
                (VArr (clauses ++ [not_required (flat_map obj_keys pss)])))).
Proof.
  intros Hc Hopts Hproto Hp Hall. unfold selectMember. rewrite Hc.
  cbn [bind array_from].
  rewrite (selectOptions_spec options pss Hopts Hproto sfs p []) by assumption.
  cbn [bind get app]. rewrite lookup_obj_set. cbn [String.eqb Ascii.eqb Bool.eqb].
  unfold allOf_clauses in Hall.
  destruct (lookup "allOf" sfs) eqn:E; try discriminate; injection Hall as <-.
  - cbn [truthy set bind get]. rewrite lookup_obj_set_same.
    cbn [push bind app set]. now rewrite obj_set_twice.
  - cbn [truthy bind get]. rewrite lookup_obj_set.
    cbn [String.eqb Ascii.eqb Bool.eqb]. rewrite E. reflexivity.
Qed.

End SelectMember.

Lemma schemaMembers_select (rec : value -> result value) (ds : obj) (fuel : nat)
    (m : value) (rest : list value) (schema : value) (required : list value) :
  get m "element" = Ok (VStr "select") ->
  schemaMembers rec ds (S fuel) (m :: rest) schema required
  = (schema' <- selectMember rec schema m ;;
     schemaMembers rec ds fuel rest schema' required).
Proof. intros H. simpl. rewrite H. reflexivity. Qed.

(** The object of the example: one option set, with the options [{a}] and
    [{b}]. *)
Definition one_of_object : value :=
  element "object"
    (VArr [select [option_ [member "a" (prim "string")];
                   option_ [member "b" (prim "number")]]]).

Lemma count_occ_flat_map (k : string) (pss : list obj) :
  count_occ string_dec (flat_map obj_keys pss) k
  = list_sum (map (fun ps => count_occ string_dec (obj_keys ps) k) pss).
Proof.
  induction pss as [| ps pss IH]; [reflexivity |].
  cbn [flat_map map list_sum]. now rewrite count_occ_app, IH.
Qed.

(** An object with one option set whose options both declare [a]. *)
Definition colliding_object : value :=
  element "object"
    (VArr [select [option_ [member "a" (prim "string")];
                   option_ [member "a" (prim "number");
                            member "b" (prim "number")]]]).

(** C7, as amended.  When the member loop of [renderSchema] meets an option
    set whose options render, it goes on with the rest of the members and a
    schema in which the properties of every option have been written, in
    order, into the one [properties] map (so the last write to a name is the
    one kept), and in which [allOf] has one more clause,
    [{not: {required: names}}]; the list [required] is not touched.  [names]
    is the property names of the first option, then those of the second, and
    so on: a name is listed once for every option that has it, so it is no
    union.  The example of the specification, where no name comes twice,
    renders as stated.  (Properties named [__proto__] are set aside: the
    assignment would reach the setter of the prototype.) *)
Theorem option_set_schema
    (deepEqual : value -> value -> bool) (fuel n : nat) (ds : obj)
    (m : value) (options : list value) (pss : list obj) (rest : list value)
    (sfs p : obj) (clauses required : list value) :
  get m "element" = Ok (VStr "select") ->
  get m "content" = Ok (VArr options) ->
  Forall2 (fun o ps => exists s, renderSchema deepEqual fuel o ds = Ok s /\
                                 properties_of s = Some ps) options pss ->
  Forall (fun ps => has_key "__proto__" ps = false) pss ->
  lookup "properties" sfs = VObj p ->
  allOf_clauses (lookup "allOf" sfs) = Some clauses ->
  let rec := fun item => renderSchema deepEqual fuel item ds in
  let names := flat_map obj_keys pss in
  let p' := set_all (flat_map entries pss) p in
  schemaMembers rec ds (S n) (m :: rest) (VObj sfs) required
  = schemaMembers rec ds n rest
      (VObj (obj_set (obj_set sfs "properties" (VObj p')) "allOf"
               (VArr (clauses ++ [not_required names]))))
      required /\
  (forall k, lookup k p'
             = match last_write k (flat_map entries pss) with
               | Some v => v
               | None => lookup k p
               end) /\
  (forall k, count_occ string_dec names k
             = list_sum (map (fun ps => count_occ string_dec (obj_keys ps) k)
                             pss)) /\
  (forall fuel', renderSchema deepEqual (S (S (S fuel'))) one_of_object []
                 = Ok (VObj [("type", VStr "object");
                             ("properties",
                              VObj [("a", VObj [("type", VStr "string")]);
                                    ("b", VObj [("type", VStr "number")])]);
                             ("allOf", VArr [not_required ["a"; "b"]])])).
Proof.
  intros He Hc Hopts Hproto Hp Hall rec names p'. repeat split.
  - rewrite schemaMembers_select by assumption.
    rewrite (selectMember_spec rec m options pss sfs p clauses) by assumption.
    reflexivity.
  - intros k. apply lookup_set_all.
  - intros k. apply count_occ_flat_map.
  - intros fuel'. apply (renderSchema_more_fuel deepEqual [] 3).
    + vm_compute. reflexivity.
    + discriminate.
    + lia.
Qed.

Lemma option_set_schema_witness :
  let rec := fun item => renderSchema (fun _ _ => true) 3 item [] in
  schemaMembers rec [] 1
    [select [option_ [member "a" (prim "string")];
             option_ [member "a" (prim "number"); member "b" (prim "number")]]]
    (VObj [("type", VStr "object"); ("properties", VObj [])]) []
  = Ok (VObj [("type", VStr "object");
              ("properties", VObj [("a", VObj [("type", VStr "number")]);
                                   ("b", VObj [("type", VStr "number")])]);
              ("allOf", VArr [not_required ["a"; "a"; "b"]])], []).
Proof.
  refine (proj1 (option_set_schema (fun _ _ => true) 3 0 []
            (select [option_ [member "a" (prim "string")];
                     option_ [member "a" (prim "number");
                              member "b" (prim "number")]])
            [option_ [member "a" (prim "string")];
             option_ [member "a" (prim "number"); member "b" (prim "number")]]
            [[("a", VObj [("type", VStr "string")])];
             [("a", VObj [("type", VStr "number")]);
              ("b", VObj [("type", VStr "number")])]]
            [] [("type", VStr "object"); ("properties", VObj [])] [] [] []
            eq_refl eq_refl _ _ eq_refl eq_refl)).
  - constructor; [eexists; split; reflexivity |].
    constructor; [eexists; split; reflexivity | constructor].
  - repeat constructor.
Defined.

(** C7 as the specification states it fails when two options declare the
    same property: the clause lists [a] twice, where the union of the names
    is [a], [b]. *)
Lemma colliding_options_counterexample :
  (forall deepEqual fuel,
      renderSchema deepEqual (S (S (S (S fuel)))) colliding_object []
      = Ok (VObj [("type", VStr "object");
                  ("properties",
                   VObj [("a", VObj [("type", VStr "number")]);
                         ("b", VObj [("type", VStr "number")])]);
                  ("allOf", VArr [not_required ["a"; "a"; "b"]])])) /\
  not_required ["a"; "a"; "b"] <> not_required ["a"; "b"].
Proof.
  split; [intros deepEqual fuel | discriminate].
  apply (renderSchema_more_fuel deepEqual [] 4).
  - vm_compute. reflexivity.
  - discriminate.
  - lia.
Qed.

(** ** Option sets in an example (C8) *)

(** [member.content[0].content[0]]: what an option set stands for in the
    member loop of [renderExample]. *)
Definition selected (m : value) : result value :=
  options <- get m "content" ;;
  option <- first options ;;
  members <- get option "content" ;;
  first members.

(** [member.content.value]. *)
Definition member_value (x : value) : result value :=
  content <- get x "content" ;;
  get content "value".

Lemma exampleMembers_select (rec : value -> result value) (ds : obj) (fuel : nat)
    (m : value) (rest : list value) (o : value) :
  get m "element" = Ok (VStr "select") ->
  exampleMembers rec ds (S fuel) (m :: rest) o
  = (member <- selected m ;;
     content <- get member "content" ;;
     k <- get content "key" ;;
     key <- get k "content" ;;
     v <- get content "value" ;;
     rendered <- rec v ;;
     name <- to_key key ;;
     o <- assign o name rendered ;;
     exampleMembers rec ds fuel rest o).
Proof.
  intros H. cbn [exampleMembers]. rewrite H. reflexivity.
Qed.

(** Two members that the loop cannot tell apart: the same member, or two
    option sets with the same first member of the first option. *)
Definition alike (a b : value) : Prop :=
  a = b \/
  (get a "element" = Ok (VStr "select") /\ get b "element" = Ok (VStr "select") /\
   selected a = selected b).

Lemma alike_refl_list (l : list value) : Forall2 alike l l.
Proof. induction l; constructor; [now left | assumption]. Qed.

Lemma exampleMembers_alike (rec : value -> result value) (ds : obj) (fuel : nat) :
  forall (work work' : list value) (o : value),
    Forall2 alike work work' ->
    exampleMembers rec ds fuel work o = exampleMembers rec ds fuel work' o.
Proof.
  induction fuel as [| fuel IH]; intros work work' o H.
  - destruct H; reflexivity.
  - destruct H as [| a b rest rest' Hab Hrest]; [reflexivity |].
    destruct Hab as [<- | (Ha & Hb & Hsel)].
    + cbn [exampleMembers].
      destruct (get a "element") as [kind | | |]; try reflexivity. cbn [bind].
      destruct (is_str kind "ref").
      * destruct (get a "content") as [c | | |]; try reflexivity. cbn [bind].
        destruct (get c "href") as [h | | |]; try reflexivity. cbn [bind].
        destruct (to_key h) as [name | | |]; try reflexivity. cbn [bind].
        destruct (get (lookup name ds) "content") as [rc | | |]; try reflexivity.
        cbn [bind]. apply IH. apply Forall2_app; [apply alike_refl_list | exact Hrest].
      * match goal with
        | |- bind ?sel _ = _ => destruct sel as [member | | |]; try reflexivity
        end.
        cbn [bind].
        destruct (get member "content") as [c | | |]; try reflexivity. cbn [bind].
        destruct (get c "key") as [k | | |]; try reflexivity. cbn [bind].
        destruct (get k "content") as [key | | |]; try reflexivity. cbn [bind].
        destruct (get c "value") as [v | | |]; try reflexivity. cbn [bind].
        destruct (rec v) as [rendered | | |]; try reflexivity. cbn [bind].
        destruct (to_key key) as [name | | |]; try reflexivity. cbn [bind].
        destruct (assign o name rendered) as [o' | | |]; try reflexivity. cbn [bind].
        apply IH, Hrest.
    + rewrite !exampleMembers_select by assumption. rewrite Hsel.
      destruct (selected b) as [member | | |]; try reflexivity. cbn [bind].
      destruct (get member "content") as [c | | |]; try reflexivity. cbn [bind].
      destruct (get c "key") as [k | | |]; try reflexivity. cbn [bind].
      destruct (get k "content") as [key | | |]; try reflexivity. cbn [bind].
      destruct (get c "value") as [v | | |]; try reflexivity. cbn [bind].
      destruct (rec v) as [rendered | | |]; try reflexivity. cbn [bind].
      destruct (to_key key) as [name | | |]; try reflexivity. cbn [bind].
      destruct (assign o name rendered) as [o' | | |]; try reflexivity. cbn [bind].
      apply IH, Hrest.
Qed.

(** The object of the example, for [renderExample]. *)
Definition one_of_example : value :=
  element "object"
    (VArr [select [option_ [member "a" (prim "string")];
                   option_ [member "b" (prim "number")]]]).

(** An object with one option set whose first option has two members. *)
Definition two_member_option : value :=
  element "object"
    (VArr [select [option_ [member "a" (prim "string");
                            member "c" (prim "boolean")];
                   option_ [member "b" (prim "number")]]]).

(** C8, as amended.  An option set [m] whose first option starts with the
    member [key: v].  In the member loop of [renderExample] the option set
    stands for that member alone: the loop renders [v], stores it under
    [key] and goes on.  The members that follow it in the first option, and
    the options after the first, play no part: replacing them changes no
    render of an object that holds [m], wherever [m] stands; an object that
    holds nothing but [m] renders to the one property [key]; and in the
    example of the specification [a] is present and [b] is not.  (The key
    [__proto__] is set aside: the assignment would reach the setter of the
    prototype.) *)
Theorem option_set_example
    (fuel : nat) (ds : obj) (m option1 m1 v : value) (later more : list value)
    (key : string) :
  get m "element" = Ok (VStr "select") ->
  get m "content" = Ok (VArr (option1 :: later)) ->
  get option1 "content" = Ok (VArr (m1 :: more)) ->
  member_key m1 = Some key -> member_value m1 = Ok v ->
  key <> "__proto__" ->
  (forall rec n rest o,
     exampleMembers rec ds (S n) (m :: rest) o
     = (rendered <- rec v ;;
        o' <- set o key rendered ;;
        exampleMembers rec ds n rest o')) /\
  (forall m' option1' later' more' root root' before after,
     get m' "element" = Ok (VStr "select") ->
     get m' "content" = Ok (VArr (option1' :: later')) ->
     get option1' "content" = Ok (VArr (m1 :: more')) ->
     get root "element" = Ok (VStr "object") ->
     get root' "element" = Ok (VStr "object") ->
     get root "content" = Ok (VArr (before ++ m :: after)) ->
     get root' "content" = Ok (VArr (before ++ m' :: after)) ->
     renderExample fuel root ds = renderExample fuel root' ds) /\
  (forall root rendered,
     get root "element" = Ok (VStr "object") ->
     get root "content" = Ok (VArr [m]) ->
     renderExample (S fuel) v ds = Ok rendered ->
     renderExample (S (S fuel)) root ds = Ok (VObj [(key, rendered)])) /\
  (forall fuel', renderExample (S (S (S fuel'))) one_of_example []
                 = Ok (VObj [("a", VStr "Hello, world!")])).
Proof.
  intros He Hc Ho Hkey Hv Hproto.
  assert (Hsel : selected m = Ok m1).
  { unfold selected. rewrite Hc. cbn [bind first hd]. rewrite Ho. reflexivity. }
  destruct (member_key_inv m1 key Hkey) as (kind & c & k & _ & _ & Hm1c & Hck & Hkc).
  unfold member_value in Hv. rewrite Hm1c in Hv. cbn [bind] in Hv.
  assert (Hstep : forall rec n rest o,
             exampleMembers rec ds (S n) (m :: rest) o
             = (rendered <- rec v ;;
                o' <- set o key rendered ;;
                exampleMembers rec ds n rest o')).
  { intros. rewrite exampleMembers_select by assumption.
    rewrite Hsel. cbn [bind]. rewrite Hm1c. cbn [bind]. rewrite Hck. cbn [bind].
    rewrite Hkc. cbn [bind]. rewrite Hv. cbn [bind].
    destruct (rec v) as [rendered | | |]; try reflexivity. cbn [bind to_key].
    now rewrite assign_set. }
  split; [exact Hstep |]. split; [| split].
  - intros m' option1' later' more' root root' before after
           He' Hc' Ho' Hr Hr' Hrc Hrc'.
    destruct fuel as [| fuel]; [reflexivity |].
    rewrite !renderExample_S.
    rewrite (exampleSwitch_object _ _ _ _ _ Hr Hrc),
            (exampleSwitch_object _ _ _ _ _ Hr' Hrc').
    cbn [slice0 bind]. apply exampleMembers_alike.
    apply Forall2_app; [apply alike_refl_list |].
    constructor; [| apply alike_refl_list].
    right. repeat split; try assumption.
    rewrite Hsel. unfold selected. rewrite Hc'. cbn [bind first hd].
    rewrite Ho'. reflexivity.
  - intros root rendered Hr Hrc Hrv.
    rewrite renderExample_S, (exampleSwitch_object _ _ _ _ _ Hr Hrc).
    cbn [slice0 bind]. rewrite Hstep, Hrv. cbn [bind set].
    rewrite obj_set_nil, exampleMembers_nil. reflexivity.
  - intros fuel'. apply (renderExample_more_fuel [] 3).
    + vm_compute. reflexivity.
    + discriminate.
    + lia.
Qed.

Lemma option_set_example_witness :
  renderExample 3 two_member_option [] = Ok (VObj [("a", VStr "Hello, world!")]).
Proof.
  refine (proj1 (proj2 (proj2 (option_set_example 1 []
            (select [option_ [member "a" (prim "string");
                              member "c" (prim "boolean")];
                     option_ [member "b" (prim "number")]])
            (option_ [member "a" (prim "string"); member "c" (prim "boolean")])
            (member "a" (prim "string")) (prim "string")
            [option_ [member "b" (prim "number")]]
            [member "c" (prim "boolean")] "a"
            eq_refl eq_refl eq_refl eq_refl eq_refl _)))
          two_member_option (VStr "Hello, world!") eq_refl eq_refl eq_refl).
  discriminate.
Defined.

(** C8 as the specification states it fails on a first option with two
    members: the example has the first, [a], and not the second, [c], which
    the first option declares as well. *)
Lemma first_member_only_counterexample :
  (forall fuel,
      renderExample (S (S (S fuel))) two_member_option []
      = Ok (VObj [("a", VStr "Hello, world!")])) /\
  has_key "c" [("a", VStr "Hello, world!")] = false /\
  selected (select [option_ [member "a" (prim "string");
                             member "c" (prim "boolean")];
                    option_ [member "b" (prim "number")]])
  = Ok (member "a" (prim "string")).
Proof.
  split; [intros fuel | split; reflexivity].
  apply (renderExample_more_fuel [] 3).
  - vm_compute. reflexivity.
  - discriminate.
  - lia.
Qed.

(** * The store model: mutation and sharing (C9) *)

Module StoreProperties.

Import Store.

(** [ext h h']: every cell of [h] is in [h'] as it is in [h]. *)
Definition ext (h h' : heap) : Prop :=
  next h <= next h' /\ forall l, l < next h -> cells h' l = cells h l.

Lemma ext_refl (h : heap) : ext h h.
Proof. split; auto. Qed.

Lemma ext_trans (h1 h2 h3 : heap) : ext h1 h2 -> ext h2 h3 -> ext h1 h3.
Proof.
  intros [H1 H1'] [H2 H2']. split; [lia |].
  intros l Hl. rewrite H2' by lia. auto.
Qed.

Lemma ext_extend (h0 h : heap) (c : cell) : ext h0 h -> ext h0 (extend h c).
Proof.
  intros [H H']. split; simpl; [lia |].
  intros l Hl. destruct (Nat.eqb_spec l (next h)); [lia | auto].
Qed.

Lemma ext_upd (h0 h : heap) (l : nat) (c : cell) :
  ext h0 h -> next h0 <= l -> ext h0 (upd h l c).
Proof.
  intros [H H'] Hl. split; simpl; [lia |].
  intros l' Hl'. destruct (Nat.eqb_spec l' l); [lia | auto].
Qed.

(** A value that is not an object of the heap [h0]: a primitive, or a
    reference to a cell allocated later. *)
Definition fresh (h0 : heap) (v : val) : Prop :=
  forall l, v = Ref l -> next h0 <= l.

(** What a computation started in [h] guarantees with respect to the heap
    [h0] of the call: however it completes, the cells of [h0] are as they
    were, and a value it returns satisfies [Q]. *)
Definition post {A : Type} (h0 : heap) (Q : A -> heap -> Prop)
    (p : result A * heap) : Prop :=
  ext h0 (snd p) /\ forall a, fst p = Ok a -> Q a (snd p).

Lemma post_bind {A B : Type} (h0 : heap) (Q : B -> heap -> Prop)
    (m : M A) (k : A -> M B) (h : heap) :
  ext h0 (snd (m h)) ->
  (forall a h', m h = (Ok a, h') -> post h0 Q (k a h')) ->
  post h0 Q (bind m k h).
Proof.
  intros Hext Hk. unfold bind.
  destruct (m h) as [[a | e | |] h'] eqn:E; simpl in Hext;
    try (split; [exact Hext | discriminate]).
  now apply Hk.
Qed.

Lemma post_ret {A : Type} (h0 : heap) (Q : A -> heap -> Prop) (a : A) (h : heap) :
  ext h0 h -> Q a h -> post h0 Q (ret a h).
Proof. intros He Hq. split; [exact He |]. simpl. intros a' [= <-]. exact Hq. Qed.

Lemma post_fail {A : Type} (h0 : heap) (Q : A -> heap -> Prop)
    (r : result A) (h : heap) :
  ext h0 h -> (forall a, r <> Ok a) -> post h0 Q (r, h).
Proof. intros He Hr. split; [exact He |]. simpl. intros a Ha. now apply Hr in Ha. Qed.

Lemma post_weaken {A : Type} (h0 : heap) (Q Q' : A -> heap -> Prop)
    (p : result A * heap) :
  post h0 Q p -> (forall a h, Q a h -> ext h0 h -> Q' a h) -> post h0 Q' p.
Proof. intros [He Hq] Hw. split; [exact He |]. intros a Ha. auto. Qed.

(** ** Reads *)

(** A computation that leaves the heap as it found it. *)
Definition reads {A : Type} (m : M A) : Prop := forall h, snd (m h) = h.

Lemma reads_ret {A : Type} (a : A) : reads (ret a).
Proof. intros h. reflexivity. Qed.

Lemma reads_throw {A : Type} (e : error) : reads (@throw A e).
Proof. intros h. reflexivity. Qed.

Lemma reads_unmodelled {A : Type} : reads (@unmodelled A).
Proof. intros h. reflexivity. Qed.

Lemma reads_bind {A B : Type} (m : M A) (k : A -> M B) :
  reads m -> (forall a, reads (k a)) -> reads (bind m k).
Proof.
  intros Hm Hk h. unfold bind. specialize (Hm h).
  destruct (m h) as [[a | e | |] h']; simpl in *; subst; auto. apply Hk.
Qed.

Lemma reads_cell_at (l : nat) : reads (cell_at l).
Proof. intros h. unfold cell_at. now destruct (cells h l). Qed.

Ltac reads_tac :=
  repeat first
    [ apply reads_ret | apply reads_throw | apply reads_unmodelled
    | apply reads_cell_at
    | apply reads_bind; [| intros ?]
    | match goal with
      | |- reads (match ?x with _ => _ end) => destruct x
      | |- reads (if ?b then _ else _) => destruct b
      end ].

Lemma reads_get (v : val) (name : string) : reads (get v name).
Proof. unfold get. reads_tac. Qed.

Lemma reads_get_dyn (v : val) (k : string) : reads (get_dyn v k).
Proof. unfold get_dyn. reads_tac. Qed.

Lemma reads_has_own (v : val) (k : string) : reads (has_own v k).
Proof. unfold has_own. reads_tac. Qed.

Lemma reads_inherit_inherited (name : string) : reads (inherit_inherited name).
Proof. unfold inherit_inherited. reads_tac. Qed.

Lemma reads_to_key (v : val) : reads (to_key v).
Proof. unfold to_key. reads_tac. Qed.

Lemma reads_first (v : val) : reads (first v).
Proof. unfold first. reads_tac. Qed.

Lemma reads_length_of (v : val) : reads (length_of v).
Proof. unfold length_of. reads_tac. Qed.

Lemma reads_array_from (v : val) : reads (array_from v).
Proof. unfold array_from. reads_tac. Qed.

Lemma reads_own_keys (v : val) : reads (own_keys v).
Proof. unfold own_keys. reads_tac. Qed.

Lemma reads_includes (v x : val) : reads (includes v x).
Proof. unfold includes. reads_tac. Qed.

Lemma reads_slice0 (v : val) : reads (slice0 v).
Proof. unfold slice0. reads_tac. Qed.

Lemma reads_concat_arg (v : val) : reads (concat_arg v).
Proof. unfold concat_arg. reads_tac. Qed.

Lemma reads_has_push (v : val) : reads (has_push v).
Proof. unfold has_push. reads_tac. Qed.

Lemma reads_description_of (x : val) : reads (description_of x).
Proof. unfold description_of. reads_tac; apply reads_get. Qed.

Lemma reads_typeAttributes_of (x : val) : reads (typeAttributes_of x).
Proof. unfold typeAttributes_of. reads_tac; apply reads_get. Qed.

Lemma reads_default_of (x : val) : reads (default_of x).
Proof. unfold default_of. reads_tac; apply reads_get. Qed.

Lemma reads_reduce_deepEqual (deepEqual : heap -> val -> val -> bool)
    (rest : list val) :
  forall l, reads (reduce_deepEqual deepEqual l rest).
Proof.
  induction rest as [| r rest IH]; intros l h; simpl; [reflexivity |].
  destruct (deepEqual h l r); [apply IH | reflexivity].
Qed.

Lemma reads_run {A : Type} (m : M A) (h h' : heap) (r : result A) :
  reads m -> m h = (r, h') -> h' = h.
Proof. intros Hm E. specialize (Hm h). rewrite E in Hm. exact Hm. Qed.

Lemma post_bind_read {A B : Type} (h0 : heap) (Q : B -> heap -> Prop)
    (m : M A) (k : A -> M B) (h : heap) :
  reads m -> ext h0 h ->
  (forall a, m h = (Ok a, h) -> post h0 Q (k a h)) ->
  post h0 Q (bind m k h).
Proof.
  intros Hm He Hk. apply post_bind; [now rewrite Hm |].
  intros a h' E. pose proof (reads_run m h h' _ Hm E). subst h'. auto.
Qed.

Lemma post_rebase {A : Type} (h0 h1 : heap) (Q : A -> heap -> Prop)
    (p : result A * heap) :
  ext h0 h1 -> post h1 Q p -> post h0 Q p.
Proof. intros He [He' Hq]. split; [eapply ext_trans; eassumption | exact Hq]. Qed.

(** ** Writes *)

(** [touched v h h']: [h'] is [h] but for the cell of [v]. *)
Definition touched (v : val) (h h' : heap) : Prop :=
  next h' = next h /\ forall l, v <> Ref l -> cells h' l = cells h l.

Lemma touched_refl (v : val) (h : heap) : touched v h h.
Proof. split; auto. Qed.

Lemma touched_upd (l : nat) (h : heap) (c : cell) : touched (Ref l) h (upd h l c).
Proof.
  split; [reflexivity |]. intros l' Hl'. simpl.
  destruct (Nat.eqb_spec l' l); [congruence | reflexivity].
Qed.

Lemma touched_ext (h0 h h' : heap) (v : val) :
  touched v h h' -> fresh h0 v -> ext h0 h -> ext h0 h'.
Proof.
  intros [Hn Hc] Hf [He He']. split; [lia |].
  intros l Hl. rewrite Hc; [auto |].
  intros ->. specialize (Hf l eq_refl). lia.
Qed.

Lemma set_touched (v : val) (k : string) (x : val) (h : heap) :
  touched v h (snd (set v k x h)).
Proof.
  destruct v; try apply touched_refl. unfold set, bind, cell_at.
  destruct (cells h l) as [[fs | items] |]; simpl;
    [apply touched_upd | apply touched_refl | apply touched_refl].
Qed.

Lemma push_touched (arr item : val) (h : heap) :
  touched arr h (snd (push arr item h)).
Proof.
  destruct arr; try apply touched_refl. unfold push, bind, cell_at.
  destruct (cells h l) as [[fs | items] |]; simpl;
    [apply touched_refl | apply touched_upd | apply touched_refl].
Qed.

Lemma set_ext (h0 h : heap) (v : val) (k : string) (x : val) :
  ext h0 h -> fresh h0 v -> ext h0 (snd (set v k x h)).
Proof. intros He Hf. eapply touched_ext; [apply set_touched | |]; eassumption. Qed.

(** An assignment under a computed key is the write of [set], or it leaves
    the model and the heap as it is. *)
Lemma assign_cases (v : val) (k : string) (x : val) (h : heap) :
  assign v k x h = set v k x h \/ assign v k x h = (Unmodelled, h).
Proof.
  unfold assign. destruct (k =? "__proto__"); [| now left].
  destruct v; try now left.
  unfold bind, cell_at. destruct (cells h l) as [[fs | items] |] eqn:E.
  - destruct (has_key k fs); [left | now right].
    unfold set, bind, cell_at. now rewrite E.
  - left. unfold set, bind, cell_at. now rewrite E.
  - now right.
Qed.

Lemma assign_bind {B : Type} (v : val) (k : string) (x : val) (f : unit -> M B)
    (h : heap) :
  bind (assign v k x) f h = bind (set v k x) f h \/
  bind (assign v k x) f h = (Unmodelled, h).
Proof.
  unfold bind. destruct (assign_cases v k x h) as [-> | ->]; [now left | now right].
Qed.

Lemma push_ext (h0 h : heap) (arr item : val) :
  ext h0 h -> fresh h0 arr -> ext h0 (snd (push arr item h)).
Proof. intros He Hf. eapply touched_ext; [apply push_touched | |]; eassumption. Qed.

Lemma fresh_ref (h0 : heap) (l : nat) : next h0 <= l -> fresh h0 (Ref l).
Proof. intros H l' [= <-]. exact H. Qed.

Lemma fresh_next (h0 h : heap) : ext h0 h -> fresh h0 (Ref (next h)).
Proof. intros [H _]. now apply fresh_ref. Qed.

(** An object that is read where it was allocated or written. *)
Lemma get_object (l : nat) (fs : list (string * val)) (name : string) (h : heap) :
  cells h l = Some (Object fs) -> get (Ref l) name h = (Ok (lookup name fs), h).
Proof. intros H. unfold get, bind, cell_at. now rewrite H. Qed.

Lemma get_dyn_object (l : nat) (fs : list (string * val)) (k : string) (h : heap) :
  cells h l = Some (Object fs) -> get_dyn (Ref l) k h = (Ok (lookup k fs), h).
Proof. intros H. unfold get_dyn, bind, cell_at. now rewrite H. Qed.

Lemma set_object (l : nat) (fs : list (string * val)) (k : string) (x : val)
    (h : heap) :
  cells h l = Some (Object fs) ->
  set (Ref l) k x h = (Ok tt, upd h l (Object (obj_set fs k x))).
Proof. intros H. unfold set, bind, cell_at. now rewrite H. Qed.

Lemma push_array (l : nat) (items : list val) (item : val) (h : heap) :
  cells h l = Some (Array items) ->
  push (Ref l) item h = (Ok tt, upd h l (Array (items ++ [item]))).
Proof. intros H. unfold push, bind, cell_at. now rewrite H. Qed.

Lemma cells_upd_same (h : heap) (l : nat) (c : cell) : cells (upd h l c) l = Some c.
Proof. simpl. now rewrite Nat.eqb_refl. Qed.

Lemma cells_upd_other (h : heap) (l l' : nat) (c : cell) :
  l' <> l -> cells (upd h l c) l' = cells h l'.
Proof. intros H. simpl. now destruct (Nat.eqb_spec l' l). Qed.

Lemma cells_extend_new (h : heap) (c : cell) : cells (extend h c) (next h) = Some c.
Proof. simpl. now rewrite Nat.eqb_refl. Qed.

Lemma cells_extend_old (h : heap) (l : nat) (c : cell) :
  l <> next h -> cells (extend h c) l = cells h l.
Proof. intros H. simpl. now destruct (Nat.eqb_spec l (next h)). Qed.

(** ** The deep copy *)

(** The references held by a cell. *)
Definition refs_of (c : cell) (l : nat) : Prop :=
  match c with
  | Object fs => exists k, In (k, Ref l) fs
  | Array items => In (Ref l) items
  end.

Lemma post_inv {A : Type} (h0 : heap) (Q : A -> heap -> Prop) (p : result A * heap)
    (a : A) (h' : heap) :
  post h0 Q p -> p = (Ok a, h') -> ext h0 h' /\ Q a h'.
Proof. intros [He Hq] ->. split; [exact He | now apply Hq]. Qed.

(** [v] is a primitive, or an object allocated since [h0] all of whose
    references are to objects allocated since [h0] and before it. *)
Definition copied (h0 : heap) (v : val) (h : heap) : Prop :=
  forall c, v = Ref c ->
    next h0 <= c /\ c < next h /\
    exists cell, cells h c = Some cell /\
                 forall l, refs_of cell l -> next h0 <= l /\ l < c.

(** [v] is a primitive, or an object allocated after [h0], in [h]. *)
Definition between (h0 h : heap) (v : val) : Prop :=
  forall l, v = Ref l -> next h0 <= l /\ l < next h.

Lemma copied_between (h0 h : heap) (v : val) : copied h0 v h -> between h0 h v.
Proof. intros H l Hl. destruct (H l Hl) as (H1 & H2 & _). auto. Qed.

Lemma between_mono (h0 h1 h2 h3 : heap) (v : val) :
  between h1 h2 v -> next h0 <= next h1 -> next h2 <= next h3 -> between h0 h3 v.
Proof. intros H H01 H23 l Hl. destruct (H l Hl). lia. Qed.

Lemma mapM_between {A : Type} (f : A -> M val) :
  (forall x h, post h (fun x' h' => between h h' x') (f x h)) ->
  forall l h, post h (fun l' h' => forall x', In x' l' -> between h h' x')
                (mapM f l h).
Proof.
  intros Hf. induction l as [| x l IH]; intros h.
  - apply post_ret; [apply ext_refl | intros ? []].
  - cbn [mapM]. apply post_bind; [apply Hf |].
    intros x' h1 E. destruct (post_inv _ _ _ _ _ (Hf x h) E) as [He1 Hx'].
    apply post_bind; [eapply ext_trans; [exact He1 | apply IH] |].
    intros l' h2 E'. destruct (post_inv _ _ _ _ _ (IH h1) E') as [He2 Hl'].
    apply post_ret; [eapply ext_trans; eassumption |].
    intros y [<- | Hy].
    + eapply between_mono; [exact Hx' | lia | apply He2].
    + eapply between_mono; [now apply Hl' | apply He1 | lia].
Qed.

Lemma copy_fields_between (copy : val -> M val) :
  (forall x h, post h (fun x' h' => between h h' x') (copy x h)) ->
  forall fs h, post h (fun fs' h' => forall k x', In (k, x') fs' -> between h h' x')
                 (copy_fields copy fs h).
Proof.
  intros Hf. induction fs as [| [k x] fs IH]; intros h.
  - apply post_ret; [apply ext_refl | intros ? ? []].
  - assert (Hx : post h (fun fs' h' => forall k x', In (k, x') fs' -> between h h' x')
                   (bind (copy x)
                      (fun x' => bind (copy_fields copy fs)
                                   (fun fs'' => ret ((k, x') :: fs''))) h)).
    { apply post_bind; [apply Hf |].
      intros x' h1 E. destruct (post_inv _ _ _ _ _ (Hf x h) E) as [He1 Hx'].
      apply post_bind; [eapply ext_trans; [exact He1 | apply IH] |].
      intros fs' h2 E'. destruct (post_inv _ _ _ _ _ (IH h1) E') as [He2 Hfs'].
      apply post_ret; [eapply ext_trans; eassumption |].
      intros k' y [[= <- <-] | Hy].
      - eapply between_mono; [exact Hx' | lia | apply He2].
      - eapply between_mono; [now apply (Hfs' k') | apply He1 | lia]. }
    destruct x; try exact Hx. cbn [copy_fields]. apply IH.
Qed.

Lemma json_copy_post (fuel : nat) :
  forall (v : val) (h : heap),
    post h (fun v' h' => copied h v' h') (json_copy fuel v h).
Proof.
  induction fuel as [| fuel IH]; intros v h.
  - destruct v; simpl; try (apply post_ret; [apply ext_refl | intros c [=]]).
    apply post_fail; [apply ext_refl | discriminate].
  - destruct v; try (apply post_ret; [apply ext_refl | intros c [=]]).
    cbn [json_copy].
    assert (Hcopy : forall x h1, post h1 (fun x' h' => between h1 h' x')
                                   (json_copy fuel x h1)).
    { intros x h1. eapply post_weaken; [apply IH |].
      intros a h2 Ha _. now apply copied_between. }
    apply post_bind_read; [apply reads_cell_at | apply ext_refl |].
    intros [fs | items] _.
    + pose proof (copy_fields_between _ Hcopy fs h) as Hfs.
      apply post_bind; [apply Hfs |].
      intros fs' h1 E. destruct (post_inv _ _ _ _ _ Hfs E) as [He1 Hfs'].
      apply post_ret; [now apply ext_extend |].
      intros c [= <-]. cbn [next extend].
      split; [apply He1 |]. split; [lia |].
      exists (Object fs'). split; [apply cells_extend_new |].
      intros l' [k Hin]. now apply (Hfs' k (Ref l')).
    + assert (Hitem : forall x h1,
                 post h1 (fun x' h' => between h1 h' x')
                      ((match x with
                        | Undefined => ret Null
                        | _ => json_copy fuel x
                        end) h1)).
      { intros x h1. destruct x; try apply Hcopy.
        apply post_ret; [apply ext_refl | intros ? [=]]. }
      pose proof (mapM_between _ Hitem items h) as Hitems.
      apply post_bind; [apply Hitems |].
      intros items' h1 E. destruct (post_inv _ _ _ _ _ Hitems E) as [He1 Hitems'].
      apply post_ret; [now apply ext_extend |].
      intros c [= <-]. cbn [next extend].
      split; [apply He1 |]. split; [lia |].
      exists (Array items'). split; [apply cells_extend_new |].
      intros l' Hin. now apply (Hitems' (Ref l')).
Qed.

(** ** Objects in the heap *)

Lemma lookup_In (name : string) (fs : list (string * val)) (l : nat) :
  lookup name fs = Ref l -> exists k, In (k, Ref l) fs.
Proof.
  induction fs as [| [k v] fs IH]; simpl; [discriminate |].
  destruct (name =? k).
  - intros ->. exists k. now left.
  - intros H. destruct (IH H) as [k' Hk']. exists k'. now right.
Qed.

Lemma lookup_replace (k k' : string) (v : val) (fs : list (string * val)) :
  has_key k' fs = true ->
  lookup k (obj_replace k' v fs) = if k =? k' then v else lookup k fs.
Proof.
  induction fs as [| [k0 v0] fs IH]; simpl; [discriminate |].
  destruct (k' =? k0) eqn:E; simpl.
  - apply String.eqb_eq in E. subst k0. intros _.
    destruct (k =? k'); reflexivity.
  - intros H. destruct (k =? k0) eqn:E0.
    + apply String.eqb_eq in E0. subst k0.
      rewrite String.eqb_sym, E. reflexivity.
    + auto.
Qed.

Lemma lookup_insert_index (k k' : string) (n : N) (v : val)
    (fs : list (string * val)) :
  has_key k' fs = false ->
  lookup k (obj_insert_index n k' v fs) = if k =? k' then v else lookup k fs.
Proof.
  induction fs as [| [k0 v0] fs IH]; simpl.
  - intros _. destruct (k =? k'); reflexivity.
  - destruct (k' =? k0) eqn:E; simpl; [discriminate |]. intros H.
    destruct (array_index k0) as [n0 |]; [destruct (n0 <? n)%N |]; simpl;
      try reflexivity.
    rewrite IH by assumption.
    destruct (k =? k0) eqn:E0; [| reflexivity].
    apply String.eqb_eq in E0. subst k0.
    rewrite String.eqb_sym, E. reflexivity.
Qed.

Lemma lookup_snoc (k k' : string) (v : val) (fs : list (string * val)) :
  has_key k' fs = false ->
  lookup k (fs ++ [(k', v)]) = if k =? k' then v else lookup k fs.
Proof.
  induction fs as [| [k0 v0] fs IH]; simpl.
  - intros _. destruct (k =? k'); reflexivity.
  - destruct (k' =? k0) eqn:E; simpl; [discriminate |]. intros H.
    rewrite IH by assumption.
    destruct (k =? k0) eqn:E0; [| reflexivity].
    apply String.eqb_eq in E0. subst k0.
    rewrite String.eqb_sym, E. reflexivity.
Qed.

(** Reading a property of an object after a write to the object. *)
Lemma lookup_set (k k' : string) (v : val) (fs : list (string * val)) :
  lookup k (obj_set fs k' v) = if k =? k' then v else lookup k fs.
Proof.
  unfold obj_set. destruct (has_key k' fs) eqn:H.
  - apply lookup_replace, H.
  - destruct (array_index k').
    + apply lookup_insert_index, H.
    + apply lookup_snoc, H.
Qed.

(** ** inherit.js writes the copy only *)

Lemma touched_trans (v : val) (h1 h2 h3 : heap) :
  touched v h1 h2 -> touched v h2 h3 -> touched v h1 h3.
Proof.
  intros [H1 H1'] [H2 H2']. split; [congruence |].
  intros l Hl. rewrite H2', H1'; auto.
Qed.

Lemma touched_bind_read {A B : Type} (v : val) (m : M A) (k : A -> M B) (h : heap) :
  reads m -> (forall a, touched v h (snd (k a h))) ->
  touched v h (snd (bind m k h)).
Proof.
  intros Hm Hk. unfold bind. specialize (Hm h).
  destruct (m h) as [[a | | |] h']; simpl in *; subst;
    try apply touched_refl. apply Hk.
Qed.

(** [uniqueMembers] writes the array it is given, and no other cell. *)
Lemma uniqueMembers_loop_touched (l : nat) (fuel : nat) :
  forall (i : Z) (known : list val) (h : heap),
    touched (Ref l) h (snd (uniqueMembers_loop fuel l i known h)).
Proof.
  induction fuel as [| fuel IH]; intros i known h; [apply touched_refl |].
  cbn [uniqueMembers_loop].
  destruct (i <? 0)%Z; [apply touched_refl |].
  apply touched_bind_read; [apply reads_array_from | intros content].
  apply touched_bind_read; [apply reads_get | intros kind].
  destruct (is_str kind "member"); [| apply IH].
  apply touched_bind_read; [apply reads_get | intros c].
  apply touched_bind_read; [apply reads_get | intros k].
  apply touched_bind_read; [apply reads_get | intros key].
  destruct (existsb (strict_eq key) known); [| apply IH].
  unfold bind, store. cbn [fst snd].
  eapply touched_trans; [apply touched_upd | apply IH].
Qed.

Lemma uniqueMembers_touched (content : val) (h : heap) :
  touched content h (snd (uniqueMembers content h)).
Proof.
  destruct content; try apply touched_refl. unfold uniqueMembers.
  apply touched_bind_read; [apply reads_cell_at | intros [fs | items]].
  - apply touched_refl.
  - apply uniqueMembers_loop_touched.
Qed.

(** The copy [combined] in the heap [h]: it was allocated since [h0], and so
    were the objects that its own properties refer to; none of them is the
    copy itself. *)
Definition rooted (h0 : heap) (combined : val) (h : heap) : Prop :=
  forall c, combined = Ref c ->
    next h0 <= c /\ c < next h /\
    forall fs, cells h c = Some (Object fs) ->
      forall name l, lookup name fs = Ref l ->
        next h0 <= l /\ l < next h /\ l <> c.

Lemma rooted_fresh (h0 : heap) (combined : val) (h : heap) :
  rooted h0 combined h -> fresh h0 combined.
Proof. intros H c Hc. now destruct (H c Hc). Qed.

Lemma copied_rooted (h0 : heap) (combined : val) (h : heap) :
  copied h0 combined h -> rooted h0 combined h.
Proof.
  intros H c Hc. destruct (H c Hc) as (H1 & H2 & cell & Hcell & Hrefs).
  split; [assumption |]. split; [assumption |].
  intros fs Hfs name l Hl. rewrite Hcell in Hfs. injection Hfs as ->.
  apply lookup_In in Hl. destruct (Hrefs l Hl). lia.
Qed.

Lemma rooted_touched (h0 : heap) (combined t : val) (h h' : heap) :
  rooted h0 combined h -> touched t h h' -> t <> combined ->
  rooted h0 combined h'.
Proof.
  intros H [Hn Hc] Hne c ->. destruct (H c eq_refl) as (H1 & H2 & H3).
  rewrite Hn, Hc by congruence. auto.
Qed.

Lemma rooted_extend (h0 : heap) (combined : val) (h : heap) (c : cell) :
  rooted h0 combined h -> rooted h0 combined (extend h c).
Proof.
  intros H l ->. destruct (H l eq_refl) as (H1 & H2 & H3).
  cbn [next extend]. rewrite cells_extend_old by lia.
  split; [assumption |]. split; [lia |].
  intros fs Hfs name l' Hl'. destruct (H3 fs Hfs name l' Hl') as (? & ? & ?).
  repeat split; try assumption; lia.
Qed.

(** A property read from the copy is a primitive, or an object allocated
    since [h0] that is not the copy. *)
Lemma get_rooted (h0 : heap) (combined : val) (name : string) (h : heap) (t : val) :
  rooted h0 combined h -> get combined name h = (Ok t, h) ->
  fresh h0 t /\ t <> combined.
Proof.
  intros H E. destruct combined;
    try (injection E as <-; split; [intros ? [=] | discriminate]);
    try discriminate.
  destruct (H l eq_refl) as (H1 & H2 & H3).
  unfold get, bind, cell_at in E.
  destruct (cells h l) as [[fs | items] |] eqn:Hcell; try discriminate.
  - injection E as <-. split.
    + intros l' Hl'. now destruct (H3 fs eq_refl name l' Hl').
    + intros Hl'. now destruct (H3 fs eq_refl name l Hl') as (_ & _ & ?).
  - injection E as <-. split; [intros ? [=] | discriminate].
Qed.

(** Writing a newly allocated object into a property of the copy. *)
Lemma set_rooted (h0 : heap) (combined : val) (name : string) (a : nat) (h : heap) :
  rooted h0 combined h -> next h0 <= a -> a < next h -> combined <> Ref a ->
  rooted h0 combined (snd (set combined name (Ref a) h)).
Proof.
  intros H Ha Ha' Hne c ->. destruct (H c eq_refl) as (H1 & H2 & H3).
  unfold set, bind, cell_at.
  destruct (cells h c) as [[fs | items] |] eqn:Hcell;
    cbn [fst snd store unmodelled];
    try (split; [assumption |]; split; [assumption |];
         intros fs'; rewrite Hcell; discriminate).
  cbn [next upd]. rewrite cells_upd_same.
  split; [assumption |]. split; [assumption |].
  intros fs' [= <-] name' l Hl. rewrite lookup_set in Hl.
  destruct (name' =? name).
  - injection Hl as <-. repeat split; try assumption. congruence.
  - now apply (H3 fs eq_refl name' l).
Qed.

(** The state that [inherit] keeps after the copy: the cells of [h0] as they
    were, and the copy with its own containers. *)
Definition kept (h0 : heap) (combined : val) (h : heap) : Prop :=
  ext h0 h /\ rooted h0 combined h.

Lemma post_kept {A : Type} (h0 : heap) (combined : val) (p : result A * heap) :
  ext h0 (snd p) -> rooted h0 combined (snd p) ->
  post h0 (fun _ h' => kept h0 combined h') p.
Proof. intros He Hr. split; [exact He |]. intros a _. now split. Qed.

Lemma iterM_post {A : Type} (h0 : heap) (I : heap -> Prop) (f : A -> M unit) :
  (forall h, I h -> ext h0 h) ->
  (forall x h, I h -> post h0 (fun _ h' => I h') (f x h)) ->
  forall l h, I h -> post h0 (fun _ h' => I h') (iterM f l h).
Proof.
  intros Hext Hf. induction l as [| x l IH]; intros h Hi.
  - apply post_ret; auto.
  - cbn [iterM]. apply post_bind; [apply Hf, Hi |].
    intros [] h' E. destruct (post_inv _ _ _ _ _ (Hf x h Hi) E) as [_ Hi'].
    now apply IH.
Qed.

(** A write to a property of the copy, or to one of its containers. *)
Lemma set_container_post (h0 : heap) (combined target : val) (k : string)
    (x : val) (h : heap) :
  kept h0 combined h -> fresh h0 target -> target <> combined ->
  post h0 (fun _ h' => kept h0 combined h') (set target k x h).
Proof.
  intros [He Hr] Hf Hne. apply post_kept.
  - now apply set_ext.
  - eapply rooted_touched; [exact Hr | apply set_touched | exact Hne].
Qed.

Lemma set_new_post (h0 : heap) (combined : val) (name : string) (c : cell)
    (h : heap) :
  kept h0 combined h ->
  post h0 (fun _ h' => kept h0 combined h')
       (bind (alloc c) (fun o => set combined name o) h).
Proof.
  intros [He Hr]. unfold bind, alloc. apply post_kept.
  - apply set_ext; [now apply ext_extend | eapply rooted_fresh; eassumption].
  - apply set_rooted.
    + now apply rooted_extend.
    + apply He.
    + cbn [next extend]. lia.
    + intros ->. destruct (Hr (next h) eq_refl) as (_ & Hlt & _). lia.
Qed.

Lemma merge_into_post (h0 : heap) (combined : val) (name : string) (src : val)
    (h : heap) :
  kept h0 combined h ->
  post h0 (fun _ h' => kept h0 combined h') (merge_into combined name src h).
Proof.
  intros Hk. unfold merge_into.
  destruct (truthy src); [| apply post_ret; [apply Hk | exact Hk]].
  apply post_bind_read; [apply reads_get | apply Hk |]. intros cur _.
  assert (Hensure : post h0 (fun _ h' => kept h0 combined h')
            ((if nullish cur
              then bind (alloc (Object [])) (fun o => set combined name o)
              else ret tt) h)).
  { destruct (nullish cur); [now apply set_new_post |].
    apply post_ret; [apply Hk | exact Hk]. }
  apply post_bind; [apply Hensure |].
  intros [] h1 E. destruct (post_inv _ _ _ _ _ Hensure E) as [_ Hk1].
  apply post_bind_read; [apply reads_own_keys | apply Hk1 |]. intros keys _.
  apply (iterM_post h0 (kept h0 combined)); [now intros ? [? _] | | exact Hk1].
  intros key h2 Hk2.
  apply post_bind_read; [apply reads_get_dyn | apply Hk2 |]. intros value _.
  apply post_bind_read; [apply reads_get | apply Hk2 |]. intros target Et.
  destruct (get_rooted h0 combined name h2 target (proj2 Hk2) Et) as [Hf Hne].
  destruct (assign_cases target key value h2) as [-> | ->].
  - now apply set_container_post.
  - apply post_fail; [apply Hk2 | discriminate].
Qed.

Lemma push_container_post (h0 : heap) (combined target item : val) (h : heap) :
  kept h0 combined h -> fresh h0 target -> target <> combined ->
  post h0 (fun _ h' => kept h0 combined h') (push target item h).
Proof.
  intros [He Hr] Hf Hne. apply post_kept.
  - now apply push_ext.
  - eapply rooted_touched; [exact Hr | apply push_touched | exact Hne].
Qed.

Lemma uniqueMembers_post (h0 : heap) (combined target : val) (h : heap) :
  kept h0 combined h -> fresh h0 target -> target <> combined ->
  post h0 (fun _ h' => kept h0 combined h') (uniqueMembers target h).
Proof.
  intros [He Hr] Hf Hne. apply post_kept.
  - eapply touched_ext; [apply uniqueMembers_touched | |]; eassumption.
  - eapply rooted_touched; [exact Hr | apply uniqueMembers_touched | exact Hne].
Qed.

(** [inherit] leaves every cell of the heap it is called in as it was; the
    element it returns, when it is an object, is a new object, and so are the
    containers that its properties hold. *)
Lemma inherit_post (base element : val) (h : heap) :
  post h (fun combined h' => rooted h combined h') (inherit base element h).
Proof.
  unfold inherit.
  assert (Hcopy : post h (fun combined h' => kept h combined h')
                    (json_roundtrip base h)).
  { assert (H : post h (fun combined h' => kept h combined h')
                  (json_copy (next h) base h)).
    { eapply post_weaken; [apply json_copy_post |].
      intros a h' Ha He. split; [exact He | now apply copied_rooted]. }
    destruct base; try exact H.
    apply post_fail; [apply ext_refl | discriminate]. }
  apply post_bind; [apply Hcopy |].
  intros combined h1 E. destruct (post_inv _ _ _ _ _ Hcopy E) as [_ Hk1].
  apply post_bind_read; [apply reads_get | apply Hk1 |]. intros emeta _.
  apply post_bind; [apply merge_into_post, Hk1 |].
  intros [] h2 E2.
  destruct (post_inv _ _ _ _ _ (merge_into_post _ _ _ _ _ Hk1) E2) as [_ Hk2].
  apply post_bind_read; [apply reads_get | apply Hk2 |]. intros eattributes _.
  apply post_bind; [apply merge_into_post, Hk2 |].
  intros [] h3 E3.
  destruct (post_inv _ _ _ _ _ (merge_into_post _ _ _ _ _ Hk2) E3) as [_ Hk3].
  apply post_bind_read; [apply reads_get | apply Hk3 |]. intros econtent _.
  match goal with
  | |- post _ _ (bind ?m _ _) =>
      assert (Hcontent : post h (fun _ h' => kept h combined h') (m h3))
  end.
  { destruct (truthy econtent); [| apply post_ret; [apply Hk3 | exact Hk3]].
    apply post_bind_read; [apply reads_get | apply Hk3 |]. intros ccontent _.
    apply post_bind_read; [apply reads_has_push | apply Hk3 |]. intros cpush _.
    apply post_bind_read; [apply reads_has_push | apply Hk3 |]. intros epush _.
    destruct (cpush || epush); [| apply post_fail; [apply Hk3 | discriminate]].
    assert (Hensure : post h (fun _ h' => kept h combined h')
              ((if nullish ccontent
                then bind (alloc (Array [])) (fun a => set combined "content" a)
                else ret tt) h3)).
    { destruct (nullish ccontent); [now apply set_new_post |].
      apply post_ret; [apply Hk3 | exact Hk3]. }
    apply post_bind; [apply Hensure |].
    intros [] h4 E4. destruct (post_inv _ _ _ _ _ Hensure E4) as [_ Hk4].
    apply post_bind_read; [apply reads_array_from | apply Hk4 |]. intros items _.
    assert (Hpush : post h (fun _ h' => kept h combined h')
              (iterM (fun item => bind (get combined "content")
                                    (fun c => push c item)) items h4)).
    { apply (iterM_post h (kept h combined)); [now intros ? [? _] | | exact Hk4].
      intros item h5 Hk5.
      apply post_bind_read; [apply reads_get | apply Hk5 |]. intros c Ec.
      destruct (get_rooted h combined "content" h5 c (proj2 Hk5) Ec) as [Hf Hne].
      now apply push_container_post. }
    apply post_bind; [apply Hpush |].
    intros [] h5 E5. destruct (post_inv _ _ _ _ _ Hpush E5) as [_ Hk5].
    apply post_bind_read; [apply reads_get | apply Hk5 |]. intros c _.
    apply post_bind_read; [apply reads_length_of | apply Hk5 |]. intros len _.
    destruct (truthy len); [| apply post_ret; [apply Hk5 | exact Hk5]].
    apply post_bind_read; [apply reads_first | apply Hk5 |]. intros x _.
    apply post_bind_read; [apply reads_get | apply Hk5 |]. intros kind _.
    destruct (is_str kind "member"); [| apply post_ret; [apply Hk5 | exact Hk5]].
    apply post_bind_read; [apply reads_get | apply Hk5 |]. intros c' Ec'.
    destruct (get_rooted h combined "content" h5 c' (proj2 Hk5) Ec') as [Hf Hne].
    now apply uniqueMembers_post. }
  apply post_bind; [apply Hcontent |].
  intros [] h4 E4. destruct (post_inv _ _ _ _ _ Hcontent E4) as [_ Hk4].
  apply post_ret; [apply Hk4 | apply Hk4].
Qed.

Lemma inherit_ext (base element : val) (h : heap) :
  ext h (snd (inherit base element h)).
Proof. apply inherit_post. Qed.

(** ** example.js writes the object it builds *)

Create HintDb reads.
#[local] Hint Resolve reads_get reads_get_dyn reads_has_own
  reads_inherit_inherited reads_to_key reads_first
  reads_length_of reads_array_from reads_own_keys reads_includes reads_slice0
  reads_concat_arg reads_has_push reads_description_of reads_typeAttributes_of
  reads_default_of reads_ret reads_cell_at : reads.

(** A read, then the rest of the computation in the same heap. *)
Ltac read_step :=
  apply post_bind_read; [solve [auto with reads] | assumption | intros ? ?].

Tactic Notation "read_step" "as" ident(x) :=
  apply post_bind_read; [solve [auto with reads] | assumption | intros x _].

Lemma run_ext {A : Type} (h0 : heap) (m : M A) (h h' : heap) (r : result A) :
  ext h0 (snd (m h)) -> m h = (r, h') -> ext h0 h'.
Proof. intros H E. now rewrite E in H. Qed.

Lemma reads_if_array_from (content : val) :
  reads (if truthy content then array_from content else ret []).
Proof. destruct (truthy content); auto with reads. Qed.

Lemma mapM_ext (f : val -> M val) :
  (forall v h, ext h (snd (f v h))) ->
  forall l h, ext h (snd (mapM f l h)).
Proof.
  intros Hf. induction l as [| x l IH]; intros h; [apply ext_refl |].
  cbn [mapM]. unfold bind. pose proof (Hf x h) as Hx.
  destruct (f x h) as [[y | | |] h1]; simpl in *; try exact Hx.
  pose proof (IH h1) as Hl.
  destruct (mapM f l h1) as [[ys | | |] h2]; simpl in *;
    eapply ext_trans; eassumption.
Qed.

Section ExampleFrame.

Variable rec : val -> M val.
Variable dataStructures : val.
Hypothesis rec_ext : forall v h, ext h (snd (rec v h)).

Lemma reads_selected (kind member : val) :
  reads (if is_str kind "select"
         then bind (get member "content")
                (fun options => bind (first options)
                   (fun option => bind (get option "content")
                      (fun members => first members)))
         else ret member).
Proof.
  destruct (is_str kind "select"); [| apply reads_ret].
  repeat (apply reads_bind; [auto with reads | intros ?]). auto with reads.
Qed.

Lemma exampleMembers_post (h0 : heap) (o : nat) (fuel : nat) :
  next h0 <= o ->
  forall (work : list val) (h : heap),
    ext h0 h ->
    post h0 (fun _ _ => True) (exampleMembers rec dataStructures fuel work (Ref o) h).
Proof.
  intros Ho. induction fuel as [| fuel IH]; intros work h He.
  - destruct work; [now apply post_ret | apply post_fail; [exact He | discriminate]].
  - destruct work as [| member rest]; [now apply post_ret |].
    cbn [exampleMembers]. read_step.
    destruct (is_str a "ref").
    + do 6 read_step. now apply IH.
    + apply post_bind_read; [apply reads_selected | exact He | intros member' _].
      do 4 read_step.
      apply post_bind; [eapply ext_trans; [exact He | apply rec_ext] |].
      intros rendered h1 E.
      assert (He1 : ext h0 h1)
        by (eapply ext_trans; [exact He | eapply run_ext; [apply rec_ext | exact E]]).
      read_step.
      match goal with
      | |- post _ _ (bind (assign ?v ?k ?x) ?f ?h) =>
          destruct (assign_bind v k x f h) as [-> | ->]
      end; [| apply post_fail; [exact He1 | discriminate]].
      apply post_bind; [apply set_ext; [exact He1 | now apply fresh_ref] |].
      intros [] h2 E2. apply IH.
      eapply run_ext; [| exact E2].
      apply set_ext; [exact He1 | now apply fresh_ref].
Qed.

Lemma exampleSwitch_ext (fuel : nat) (root : val) (h : heap) :
  ext h (snd (exampleSwitch rec dataStructures fuel root h)).
Proof.
  assert (He : ext h h) by apply ext_refl.
  enough (H : post h (fun _ _ => True) (exampleSwitch rec dataStructures fuel root h))
    by apply H.
  unfold exampleSwitch. read_step.
  destruct (is_str a "boolean" || is_str a "string" || is_str a "number").
  { read_step. destruct (nullish a0); now apply post_ret. }
  destruct (is_str a "enum").
  { do 2 read_step. split; [apply rec_ext | trivial]. }
  destruct (is_str a "array").
  { read_step.
    apply post_bind_read; [apply reads_if_array_from | exact He | intros children _].
    apply post_bind; [apply mapM_ext, rec_ext |].
    intros items h1 E. split; [| trivial]. cbn [alloc snd].
    apply ext_extend. eapply run_ext; [apply mapM_ext, rec_ext | exact E]. }
  destruct (is_str a "object").
  { unfold bind at 1. cbn [alloc].
    assert (He1 : ext h (extend h (Object []))) by (apply ext_extend, ext_refl).
    read_step. read_step.
    pose proof (exampleMembers_post h (next h) fuel (Nat.le_refl _) a1 _ He1) as Hm.
    apply post_bind; [apply Hm |].
    intros [] h2 E2. apply post_ret; [| trivial].
    eapply run_ext; [apply Hm | exact E2]. }
  read_step. read_step.
  destruct (a1 || negb (inherited a0)).
  - read_step.
    destruct (truthy a2); [| now apply post_ret].
    apply post_bind; [apply inherit_ext |].
    intros combined h1 E. split; [| trivial].
    eapply ext_trans; [eapply run_ext; [apply inherit_ext | exact E] | apply rec_ext].
  - read_step. split; [apply rec_ext | trivial].
Qed.

End ExampleFrame.

(** [renderExample] leaves every cell of the heap it is called in as it
    was, however it completes. *)
Lemma renderExample_ext (fuel : nat) :
  forall (root ds : val) (h : heap), ext h (snd (renderExample fuel root ds h)).
Proof.
  induction fuel as [| fuel IH]; intros root ds h; [apply ext_refl |].
  cbn [renderExample]. apply exampleSwitch_ext. intros v h'. apply IH.
Qed.

(** ** schema.js writes the schema it builds *)

(** The schema of the [object] branch, in the cell [s], while the member loop
    runs: its [properties] is the object in the cell [p], its [allOf] is
    absent or an array; all of them were allocated since [h0] and lie below
    [n]. *)
Definition allOf_ok (p n : nat) (sfs : list (string * val)) (h : heap) : Prop :=
  lookup "allOf" sfs = Undefined \/
  exists a items,
    lookup "allOf" sfs = Ref a /\ p < a /\ a < n /\ cells h a = Some (Array items).

Definition schema_at (h0 : heap) (s p n : nat) (h : heap) : Prop :=
  ext h0 h /\ next h0 <= s /\ s < p /\ p < n /\ n <= next h /\
  exists sfs pfs,
    cells h s = Some (Object sfs) /\ lookup "properties" sfs = Ref p /\
    cells h p = Some (Object pfs) /\ allOf_ok p n sfs h.

Lemma schema_at_agree (h0 : heap) (s p n : nat) (h h' : heap) :
  schema_at h0 s p n h -> ext h0 h' -> next h <= next h' ->
  (forall l, l < n -> cells h' l = cells h l) ->
  schema_at h0 s p n h'.
Proof.
  intros (He & Hs & Hsp & Hpn & Hn & sfs & pfs & Hcs & Hp & Hcp & Hall)
         He' Hnext Hagree.
  split; [exact He' |]. repeat (split; [lia |]).
  exists sfs, pfs. rewrite !Hagree by lia. repeat (split; [assumption |]).
  destruct Hall as [Hu | (a & items & Ha & Hpa & Han & Hca)]; [now left | right].
  exists a, items. rewrite Hagree by lia. auto.
Qed.

Lemma schema_at_ext (h0 : heap) (s p n : nat) (h h' : heap) :
  schema_at h0 s p n h -> ext h h' -> schema_at h0 s p n h'.
Proof.
  intros H He. pose proof H as (He0 & _ & _ & _ & Hn & _).
  eapply schema_at_agree; [exact H | | apply He |].
  - eapply ext_trans; eassumption.
  - intros l Hl. apply He. lia.
Qed.

Lemma schema_at_touched (h0 : heap) (s p n r : nat) (h h' : heap) :
  schema_at h0 s p n h -> touched (Ref r) h h' -> n <= r ->
  schema_at h0 s p n h'.
Proof.
  intros H Ht Hr. pose proof H as (He0 & Hs & Hsp & Hpn & Hn & _).
  eapply schema_at_agree; [exact H | | |].
  - eapply touched_ext; [exact Ht | apply fresh_ref; lia | exact He0].
  - destruct Ht as [-> _]. lia.
  - intros l Hl. apply Ht. intros [= ->]. lia.
Qed.

Lemma schema_at_raise (h0 : heap) (s p n n' : nat) (h : heap) :
  schema_at h0 s p n h -> n <= n' -> n' <= next h -> schema_at h0 s p n' h.
Proof.
  intros (He & Hs & Hsp & Hpn & Hn & sfs & pfs & Hcs & Hp & Hcp & Hall) H1 H2.
  split; [exact He |]. repeat (split; [lia |]).
  exists sfs, pfs. repeat (split; [assumption |]).
  destruct Hall as [Hu | (a & items & Ha & Hpa & Han & Hca)]; [now left | right].
  exists a, items. repeat split; try assumption; lia.
Qed.

Lemma schema_at_properties (h0 : heap) (s p n : nat) (h : heap) :
  schema_at h0 s p n h -> get (Ref s) "properties" h = (Ok (Ref p), h).
Proof.
  intros (_ & _ & _ & _ & _ & sfs & pfs & Hcs & Hp & _).
  rewrite (get_object s sfs) by assumption. now rewrite Hp.
Qed.

(** A write to a property of [schema.properties]. *)
Lemma schema_at_set_property (h0 : heap) (s p n : nat) (h : heap)
    (k : string) (x : val) :
  schema_at h0 s p n h ->
  exists pfs,
    set (Ref p) k x h = (Ok tt, upd h p (Object (obj_set pfs k x))) /\
    schema_at h0 s p n (upd h p (Object (obj_set pfs k x))).
Proof.
  intros (He & Hs & Hsp & Hpn & Hn & sfs & pfs & Hcs & Hp & Hcp & Hall).
  exists pfs. split; [now apply set_object |].
  split; [apply ext_upd; [exact He | lia] |]. repeat (split; [simpl; lia |]).
  exists sfs, (obj_set pfs k x).
  rewrite cells_upd_other by lia. rewrite cells_upd_same.
  repeat (split; [auto |]).
  destruct Hall as [Hu | (a & items & Ha & Hpa & Han & Hca)]; [now left | right].
  exists a, items. rewrite cells_upd_other by lia. auto.
Qed.

Lemma post_schema_at {A : Type} (h0 : heap) (s p n : nat) (p' : result A * heap) :
  schema_at h0 s p n (snd p') ->
  post h0 (fun _ h' => schema_at h0 s p n h') p'.
Proof. intros H. split; [apply H |]. intros a _. exact H. Qed.

Lemma foldM_post {A S : Type} (h0 : heap) (I : heap -> Prop) (f : S -> A -> M S) :
  (forall h, I h -> ext h0 h) ->
  (forall s x h, I h -> post h0 (fun _ h' => I h') (f s x h)) ->
  forall l s h, I h -> post h0 (fun _ h' => I h') (foldM f l s h).
Proof.
  intros Hext Hf. induction l as [| x l IH]; intros s h Hi.
  - apply post_ret; auto.
  - cbn [foldM]. apply post_bind; [apply Hf, Hi |].
    intros s' h' E. destruct (post_inv _ _ _ _ _ (Hf s x h Hi) E) as [_ Hi'].
    now apply IH.
Qed.

Section SchemaFrame.

Variable deepEqual : heap -> val -> val -> bool.
Variable rec : val -> M val.
Variable dataStructures : val.

(** What the recursive calls guarantee: the cells of the heap of the call
    are as they were, and the schema returned is a new object. *)
Hypothesis rec_post :
  forall v h, post h (fun r h' => exists l, r = Ref l /\ next h <= l) (rec v h).

Lemma rec_run (v : val) (h h' : heap) (r : val) :
  rec v h = (Ok r, h') -> ext h h' /\ exists l, r = Ref l /\ next h <= l.
Proof. intros E. exact (post_inv _ _ _ _ _ (rec_post v h) E). Qed.

Lemma selectOption_post (h0 : heap) (s p n : nat) (exclusive : list val)
    (option : val) (h : heap) :
  schema_at h0 s p n h ->
  post h0 (fun _ h' => schema_at h0 s p n h')
       (selectOption rec (Ref s) exclusive option h).
Proof.
  intros Hs. unfold selectOption.
  apply post_bind; [eapply ext_trans; [apply Hs | apply rec_post] |].
  intros optionSchema h1 E. destruct (rec_run _ _ _ _ E) as [He1 _].
  assert (Hs1 : schema_at h0 s p n h1) by (eapply schema_at_ext; eassumption).
  assert (He : ext h0 h1) by apply Hs1.
  read_step. read_step.
  apply (foldM_post h0 (schema_at h0 s p n)); [now intros ? [? _] | | exact Hs1].
  clear. intros exclusive key h Hs. assert (He : ext h0 h) by apply Hs.
  read_step as ps. read_step as prop.
  apply post_bind_read; [auto with reads | exact He |]. intros target Et.
  rewrite (schema_at_properties _ _ _ _ _ Hs) in Et. injection Et as <-.
  destruct (schema_at_set_property h0 s p n h key prop Hs) as (pfs & Hset & Hs').
  match goal with
  | |- post _ _ (bind (assign ?v ?k ?x) ?f ?h) =>
      destruct (assign_bind v k x f h) as [-> | ->]
  end; [| apply post_fail; [exact He | discriminate]].
  apply post_bind; [rewrite Hset; apply Hs' |].
  intros [] h' E. rewrite Hset in E. injection E as <-.
  apply post_ret; [apply Hs' | exact Hs'].
Qed.

(** After the test of [schema.allOf]: the array exists. *)
Lemma ensure_allOf (h0 : heap) (s p n : nat) (h : heap) (allOf : val) :
  schema_at h0 s p n h ->
  get (Ref s) "allOf" h = (Ok allOf, h) ->
  exists n' h1,
    (if truthy allOf then ret tt
     else bind (alloc (Array [])) (fun a => set (Ref s) "allOf" a)) h
    = (Ok tt, h1) /\
    schema_at h0 s p n' h1 /\
    exists sfs a items,
      cells h1 s = Some (Object sfs) /\ lookup "allOf" sfs = Ref a /\
      p < a /\ a < n' /\ cells h1 a = Some (Array items).
Proof.
  intros Hs E.
  pose proof Hs as (He & Hs0 & Hsp & Hpn & Hn & sfs & pfs & Hcs & Hp & Hcp & Hall).
  rewrite (get_object s sfs) in E by assumption. injection E as <-.
  destruct Hall as [Hu | (a & items & Ha & Hpa & Han & Hca)].
  - rewrite Hu. cbn [truthy]. unfold bind, alloc.
    assert (Hcs' : cells (extend h (Array [])) s = Some (Object sfs))
      by (rewrite cells_extend_old by lia; exact Hcs).
    rewrite (set_object s sfs) by exact Hcs'.
    exists (S (next h)). eexists. split; [reflexivity |].
    set (h1 := upd (extend h (Array [])) s
                 (Object (obj_set sfs "allOf" (Ref (next h))))).
    assert (Hs1 : cells h1 s = Some (Object (obj_set sfs "allOf" (Ref (next h)))))
      by apply cells_upd_same.
    assert (Hp1 : cells h1 p = Some (Object pfs)).
    { subst h1. rewrite cells_upd_other, cells_extend_old by lia. exact Hcp. }
    assert (Ha1 : cells h1 (next h) = Some (Array [])).
    { subst h1. rewrite cells_upd_other by lia. apply cells_extend_new. }
    assert (Hl1 : lookup "allOf" (obj_set sfs "allOf" (Ref (next h))) = Ref (next h))
      by (rewrite lookup_set; reflexivity).
    split.
    + split; [apply ext_upd; [now apply ext_extend | lia] |].
      repeat (split; [simpl; lia |]).
      exists (obj_set sfs "allOf" (Ref (next h))), pfs.
      split; [exact Hs1 |]. split; [rewrite lookup_set; exact Hp |].
      split; [exact Hp1 |]. right. exists (next h), [].
      repeat split; auto; lia.
    + exists (obj_set sfs "allOf" (Ref (next h))), (next h), [].
      repeat split; auto; lia.
  - rewrite Ha. cbn [truthy]. exists n, h. split; [reflexivity |].
    split; [exact Hs |]. exists sfs, a, items. auto.
Qed.

Lemma selectMember_post (h0 : heap) (s p n : nat) (member : val) (h : heap) :
  schema_at h0 s p n h ->
  post h0 (fun _ h' => exists n', schema_at h0 s p n' h')
       (selectMember rec (Ref s) member h).
Proof.
  intros Hs. assert (He : ext h0 h) by apply Hs. unfold selectMember.
  read_step as content. read_step as options.
  pose proof (foldM_post h0 (schema_at h0 s p n) (selectOption rec (Ref s))
                ltac:(now intros ? [? _])
                ltac:(intros; now apply selectOption_post) options [] h Hs) as Hopts.
  apply post_bind; [apply Hopts |].
  intros exclusive h1 E. destruct (post_inv _ _ _ _ _ Hopts E) as [He1 Hs1].
  apply post_bind_read; [auto with reads | exact He1 |]. intros allOf Ea.
  destruct (ensure_allOf h0 s p n h1 allOf Hs1 Ea)
    as (n' & h2 & Hrun & Hs2 & sfs & arr & items & Hcs & Hl & Hpa & Han & Hca).
  apply post_bind; [rewrite Hrun; apply Hs2 |].
  intros [] h2' E2. rewrite Hrun in E2. injection E2 as <-.
  apply post_bind_read; [auto with reads | apply Hs2 |]. intros allOf' Ea'.
  rewrite (get_object s sfs) in Ea' by assumption. injection Ea' as <-.
  rewrite Hl. unfold bind at 1. cbn [alloc]. unfold bind at 1. cbn [alloc].
  unfold bind at 1. cbn [alloc].
  match goal with
  | |- post _ _ (push _ ?clause ?h) => set (h3 := h); set (c := clause)
  end.
  assert (He3 : ext h2 h3).
  { subst h3. repeat apply ext_extend. apply ext_refl. }
  assert (Hs3 : schema_at h0 s p n' h3) by (eapply schema_at_ext; eassumption).
  assert (Hca3 : cells h3 arr = Some (Array items)).
  { destruct He3 as [_ He3]. rewrite He3; [exact Hca |].
    destruct Hs2 as (_ & _ & _ & _ & Hn' & _). lia. }
  rewrite (push_array arr items) by exact Hca3.
  destruct Hs3 as (He3' & Hs0 & Hsp & Hpn & Hn & sfs3 & pfs3 & Hcs3 & Hp3 & Hcp3 & Hall3).
  assert (Hext : ext h0 (upd h3 arr (Array (items ++ [c]))))
    by (apply ext_upd; [exact He3' | lia]).
  apply post_ret; [exact Hext |].
  exists n'. split; [exact Hext |].
  split; [exact Hs0 |]. split; [exact Hsp |]. split; [exact Hpn |].
  split; [exact Hn |].
  exists sfs3, pfs3. rewrite !cells_upd_other by lia.
  repeat (split; [assumption |]).
  destruct Hall3 as [Hu | (a3 & items3 & Ha3 & Hpa3 & Han3 & Hca3')]; [now left |].
  right. destruct (Nat.eq_dec a3 arr) as [-> | Hne].
  - exists arr, (items ++ [c]). rewrite cells_upd_same. repeat split; auto.
  - exists a3, items3. rewrite cells_upd_other by exact Hne. auto.
Qed.

(** [h'] is [h] with more cells, but for the cell [r]. *)
Definition grown (r : nat) (h h' : heap) : Prop :=
  next h <= next h' /\
  forall l, l < next h -> l <> r -> cells h' l = cells h l.

Lemma touched_grown (r : nat) (h h' : heap) : touched (Ref r) h h' -> grown r h h'.
Proof.
  intros [Hn Hc]. split; [lia |]. intros l _ Hl. apply Hc. congruence.
Qed.

Lemma grown_refl (r : nat) (h : heap) : grown r h h.
Proof. split; auto. Qed.

Lemma grown_trans (r : nat) (h1 h2 h3 : heap) :
  grown r h1 h2 -> grown r h2 h3 -> grown r h1 h3.
Proof.
  intros [H1 H1'] [H2 H2']. split; [lia |].
  intros l Hl Hr. rewrite H2', H1' by (auto; lia). reflexivity.
Qed.

Lemma grown_extend (r : nat) (h : heap) (c : cell) : grown r h (extend h c).
Proof.
  split; [simpl; lia |]. intros l Hl _. apply cells_extend_old. lia.
Qed.

(** The schema of the loop, with the schema [r] just stored under [name]. *)
Definition schema_with (h0 : heap) (s p n : nat) (name : string) (r : nat)
    (h : heap) : Prop :=
  schema_at h0 s p n h /\ n <= r /\
  exists pfs, cells h p = Some (Object pfs) /\ lookup name pfs = Ref r.

Lemma schema_with_grown (h0 : heap) (s p n : nat) (name : string) (r : nat)
    (h h' : heap) :
  schema_with h0 s p n name r h -> grown r h h' ->
  schema_with h0 s p n name r h'.
Proof.
  intros (Hs & Hr & pfs & Hcp & Hl) [Hn Hc].
  pose proof Hs as (He & Hs0 & Hsp & Hpn & Hnn & _).
  assert (Hagree : forall l, l < n -> cells h' l = cells h l)
    by (intros l Hl'; apply Hc; lia).
  split; [| split; [exact Hr |]].
  - eapply schema_at_agree; [exact Hs | | exact Hn | exact Hagree].
    split; [destruct He; lia |].
    intros l Hl'. destruct He as [He He']. rewrite Hc by lia. now apply He'.
  - exists pfs. rewrite Hagree by lia. auto.
Qed.

(** A write on the schema stored under [name], reached through
    [schema.properties[name]]. *)
Lemma property_write_post (h0 : heap) (s p n : nat) (name : string) (r : nat)
    (f : val -> M unit) (h : heap) :
  (forall h1, grown r h1 (snd (f (Ref r) h1))) ->
  schema_with h0 s p n name r h ->
  post h0 (fun _ h' => schema_with h0 s p n name r h')
       (bind (get (Ref s) "properties")
          (fun ps => bind (get_dyn ps name) (fun x => f x)) h).
Proof.
  intros Hf Hw. pose proof Hw as (Hs & Hr & pfs & Hcp & Hl).
  assert (He : ext h0 h) by apply Hs.
  apply post_bind_read; [auto with reads | exact He |]. intros ps Eps.
  rewrite (schema_at_properties _ _ _ _ _ Hs) in Eps. injection Eps as <-.
  apply post_bind_read; [auto with reads | exact He |]. intros x Ex.
  rewrite (get_dyn_object p pfs) in Ex by exact Hcp. injection Ex as <-.
  rewrite Hl.
  pose proof (schema_with_grown _ _ _ _ _ _ _ _ Hw (Hf h)) as Hw'.
  split; [apply Hw' |]. intros a _. exact Hw'.
Qed.

Lemma set_grown (r : nat) (k : string) (x : val) (h : heap) :
  grown r h (snd (set (Ref r) k x h)).
Proof. apply touched_grown, set_touched. Qed.

Lemma widen_type_grown (r : nat) (h : heap) :
  grown r h
    (snd (bind (get (Ref r) "type")
            (fun t => bind (alloc (Array [t; Str "null"]))
                        (fun pair => bind (set (Ref r) "type" pair)
                                       (fun _ => ret tt))) h)).
Proof.
  unfold bind at 1. pose proof (reads_get (Ref r) "type" h) as Hg.
  destruct (get (Ref r) "type" h) as [[t | | |] h1]; simpl in Hg; subst h1;
    try apply grown_refl.
  unfold bind at 1. cbn [alloc]. unfold bind.
  pose proof (set_grown r "type" (Ref (next h)) (extend h (Array [t; Str "null"])))
    as Hset.
  destruct (set (Ref r) "type" (Ref (next h)) (extend h (Array [t; Str "null"])))
    as [[[] | | |] h2]; simpl in *;
    (eapply grown_trans; [apply grown_extend | exact Hset]).
Qed.

Lemma plainMember_post (h0 : heap) (s p n : nat) (required : list val)
    (member : val) (h : heap) :
  schema_at h0 s p n h ->
  post h0 (fun _ h' => schema_at h0 s p n h')
       (plainMember rec (Ref s) required member h).
Proof.
  intros Hs. assert (He : ext h0 h) by apply Hs. unfold plainMember.
  read_step as content. read_step as k. read_step as key.
  apply post_bind_read; [auto with reads | exact He |]. intros target Et.
  rewrite (schema_at_properties _ _ _ _ _ Hs) in Et. injection Et as <-.
  read_step as v.
  apply post_bind; [eapply ext_trans; [exact He | apply rec_post] |].
  intros rendered h1 E. destruct (rec_run _ _ _ _ E) as [He1 (r & -> & Hr)].
  assert (Hs1 : schema_at h0 s p n h1) by (eapply schema_at_ext; eassumption).
  apply post_bind_read; [auto with reads | apply Hs1 |]. intros name _.
  destruct (schema_at_set_property h0 s p n h1 name (Ref r) Hs1)
    as (pfs & Hset & Hs2).
  match goal with
  | |- post _ _ (bind (assign ?v ?k ?x) ?f ?h) =>
      destruct (assign_bind v k x f h) as [-> | ->]
  end; [| apply post_fail; [apply Hs1 | discriminate]].
  apply post_bind; [rewrite Hset; apply Hs2 |].
  intros [] h2 E2. rewrite Hset in E2. injection E2 as <-.
  set (h2 := upd h1 p (Object (obj_set pfs name (Ref r)))) in *.
  assert (Hw2 : schema_with h0 s p n name r h2).
  { split; [exact Hs2 |]. split.
    - destruct Hs as (_ & _ & _ & _ & Hn & _). lia.
    - exists (obj_set pfs name (Ref r)). split; [apply cells_upd_same |].
      rewrite lookup_set, String.eqb_refl. reflexivity. }
  clearbody h2.
  apply post_bind_read; [auto with reads | apply Hs2 |]. intros description _.
  assert (Hd : post h0 (fun _ h' => schema_with h0 s p n name r h')
                 ((if nullish description then ret tt
                   else bind (get (Ref s) "properties")
                          (fun ps => bind (get_dyn ps name)
                             (fun x => set x "description" description))) h2)).
  { destruct (nullish description).
    - apply post_ret; [apply Hs2 | exact Hw2].
    - apply property_write_post; [intros; apply set_grown | exact Hw2]. }
  apply post_bind; [apply Hd |].
  intros [] h3 E3. destruct (post_inv _ _ _ _ _ Hd E3) as [He3 Hw3].
  apply post_bind_read; [auto with reads | exact He3 |]. intros typeAttr _.
  destruct (truthy typeAttr); [| apply post_ret; [exact He3 | apply Hw3]].
  apply post_bind_read; [auto with reads | exact He3 |]. intros isRequired _.
  apply post_bind_read; [auto with reads | exact He3 |]. intros nullable _.
  destruct nullable; [| apply post_ret; [exact He3 | apply Hw3]].
  pose proof (property_write_post h0 s p n name r
                (fun x => bind (get x "type")
                   (fun t => bind (alloc (Array [t; Str "null"]))
                      (fun pair => bind (set x "type" pair) (fun _ => ret tt))))
                h3 (widen_type_grown r) Hw3) as Hn.
  match goal with
  | |- post _ _ ?run =>
      assert (Hrun : run
                = bind (bind (get (Ref s) "properties")
                          (fun ps => bind (get_dyn ps name)
                             (fun x => bind (get x "type")
                                (fun t => bind (alloc (Array [t; Str "null"]))
                                   (fun pair => bind (set x "type" pair)
                                      (fun _ => ret tt))))))
                       (fun _ => ret
                          (if isRequired
                           then if existsb (strict_eq key) required
                                then required else required ++ [key]
                           else required)) h3)
  end.
  { unfold bind.
    destruct (get (Ref s) "properties" h3) as [[ps | | |] h4]; try reflexivity.
    destruct (get_dyn ps name h4) as [[x | | |] h5]; try reflexivity.
    destruct (get x "type" h5) as [[t | | |] h6]; try reflexivity.
    destruct (alloc (Array [t; Str "null"]) h6) as [[pair | | |] h7]; try reflexivity.
    destruct (set x "type" pair h7) as [[[] | | |] h8]; reflexivity. }
  rewrite Hrun. apply post_bind; [apply Hn |].
  intros [] h4 E4. destruct (post_inv _ _ _ _ _ Hn E4) as [He4 Hw4].
  apply post_ret; [exact He4 | apply Hw4].
Qed.

Lemma schemaMembers_post (h0 : heap) (s p : nat) (fuel : nat) :
  forall (work required : list val) (n : nat) (h : heap),
    schema_at h0 s p n h ->
    post h0 (fun _ h' => exists n', schema_at h0 s p n' h')
         (schemaMembers rec dataStructures fuel work (Ref s) required h).
Proof.
  induction fuel as [| fuel IH]; intros work required n h Hs;
    assert (He : ext h0 h) by apply Hs.
  - destruct work; [apply post_ret; eauto |].
    apply post_fail; [exact He | discriminate].
  - destruct work as [| member rest]; [apply post_ret; eauto |].
    cbn [schemaMembers]. read_step as kind.
    destruct (is_str kind "ref").
    + read_step as content. read_step as href. read_step as name.
      read_step as ref. read_step as refContent. read_step as expansion.
      now apply (IH _ _ n).
    + destruct (is_str kind "select").
      * pose proof (selectMember_post h0 s p n member h Hs) as Hsel.
        apply post_bind; [apply Hsel |].
        intros [] h1 E. destruct (post_inv _ _ _ _ _ Hsel E) as [_ [n' Hs1]].
        now apply (IH _ _ n').
      * pose proof (plainMember_post h0 s p n required member h Hs) as Hplain.
        apply post_bind; [apply Hplain |].
        intros required' h1 E. destruct (post_inv _ _ _ _ _ Hplain E) as [_ Hs1].
        now apply (IH _ _ n).
Qed.

Lemma rec_ext (v : val) (h : heap) : ext h (snd (rec v h)).
Proof. apply rec_post. Qed.

(** The schema of the [enum] branch while the values are pushed. *)
Definition enum_at (h0 : heap) (s e : nat) (h : heap) : Prop :=
  ext h0 h /\ next h0 <= s /\ s < e /\
  exists sfs items,
    cells h s = Some (Object sfs) /\ lookup "enum" sfs = Ref e /\
    cells h e = Some (Array items).

Lemma enum_push_post (h0 : heap) (s e : nat) (item : val) (h : heap) :
  enum_at h0 s e h ->
  post h0 (fun _ h' => enum_at h0 s e h')
       (bind (get (Ref s) "enum")
          (fun target => bind (get item "content") (fun c => push target c)) h).
Proof.
  intros (He & Hs & Hse & sfs & items & Hcs & Hl & Hce).
  apply post_bind_read; [auto with reads | exact He |]. intros target Et.
  rewrite (get_object s sfs) in Et by exact Hcs. injection Et as <-.
  rewrite Hl. read_step as c.
  rewrite (push_array e items) by exact Hce.
  assert (Hext : ext h0 (upd h e (Array (items ++ [c]))))
    by (apply ext_upd; [exact He | lia]).
  apply post_ret; [exact Hext |].
  split; [exact Hext |]. split; [exact Hs |]. split; [exact Hse |].
  exists sfs, (items ++ [c]).
  rewrite cells_upd_other by lia. rewrite cells_upd_same. auto.
Qed.

Lemma schemaSwitch_post (fuel : nat) (root : val) (h : heap) :
  post h (fun v h' => exists l, v = Ref l /\ next h <= l)
       (schemaSwitch deepEqual rec dataStructures fuel root h).
Proof.
  unfold schemaSwitch. unfold bind at 1. cbn [alloc].
  set (s := next h). set (h1 := extend h (Object [])).
  assert (He1 : ext h h1) by (apply ext_extend, ext_refl).
  assert (Hs : fresh h (Ref s)) by (apply fresh_ref; subst s; lia).
  assert (Hcs1 : cells h1 s = Some (Object [])) by apply cells_extend_new.
  assert (Hdone : forall h', ext h h' ->
            post h (fun v _ => exists l, v = Ref l /\ next h <= l) (ret (Ref s) h')).
  { intros h' He'. apply post_ret; [exact He' |]. exists s. split; [reflexivity | subst s; lia]. }
  read_step as kind.
  destruct (is_str kind "boolean" || is_str kind "string" || is_str kind "number").
  { apply post_bind; [now apply set_ext |].
    intros [] h2 E2.
    assert (He2 : ext h h2) by (eapply run_ext; [| exact E2]; now apply set_ext).
    read_step as default.
    apply post_bind; [destruct (nullish default); [exact He2 | now apply set_ext] |].
    intros [] h3 E3. apply Hdone.
    eapply run_ext; [| exact E3].
    destruct (nullish default); [exact He2 | now apply set_ext]. }
  destruct (is_str kind "enum").
  { unfold bind at 1. cbn [alloc].
    set (e := next h1). set (h2 := extend h1 (Array [])).
    assert (Hcs2 : cells h2 s = Some (Object [])).
    { subst h2. rewrite cells_extend_old; [exact Hcs1 | subst s h1; simpl; lia]. }
    unfold bind at 1. rewrite (set_object s []) by exact Hcs2.
    set (h3 := upd h2 s (Object (obj_set [] "enum" (Ref e)))).
    assert (Henum : enum_at h s e h3).
    { split; [| split; [subst s; lia | split; [subst e s h1; simpl; lia |]]].
      - subst h3. apply ext_upd; [| subst s; lia].
        subst h2. now apply ext_extend.
      - exists (obj_set [] "enum" (Ref e)), [].
        split; [apply cells_upd_same |]. split; [reflexivity |].
        subst h3. rewrite cells_upd_other by (subst e s h1; simpl; lia).
        apply cells_extend_new. }
    assert (He3 : ext h h3) by apply Henum.
    read_step as content.
    apply post_bind_read; [apply reads_if_array_from | exact He3 | intros items _].
    pose proof (iterM_post h (enum_at h s e)
                  (fun item => bind (get (Ref s) "enum")
                     (fun target => bind (get item "content")
                        (fun c => push target c)))
                  ltac:(now intros ? [? _])
                  ltac:(intros; now apply enum_push_post) items h3 Henum) as Hpush.
    apply post_bind; [apply Hpush |].
    intros [] h4 E4. apply Hdone. eapply run_ext; [apply Hpush | exact E4]. }
  destruct (is_str kind "array").
  { apply post_bind; [now apply set_ext |].
    intros [] h2 E2.
    assert (He2 : ext h h2) by (eapply run_ext; [| exact E2]; now apply set_ext).
    read_step as content.
    apply post_bind_read; [apply reads_if_array_from | exact He2 | intros children _].
    apply post_bind; [eapply ext_trans; [exact He2 | apply mapM_ext, rec_ext] |].
    intros items h3 E3.
    assert (He3 : ext h h3).
    { eapply ext_trans; [exact He2 |].
      eapply run_ext; [apply mapM_ext, rec_ext | exact E3]. }
    match goal with
    | |- post _ _ (bind ?m _ _) => assert (Hitems : ext h (snd (m h3)))
    end.
    { destruct items as [| item [| item' others]]; [exact He3 | now apply set_ext |].
      unfold bind at 1.
      pose proof (reads_reduce_deepEqual deepEqual (item' :: others) item h3) as Hr.
      destruct (reduce_deepEqual deepEqual item (item' :: others) h3)
        as [[[last |] | | |] h4]; simpl in Hr; subst h4; try exact He3.
      - now apply set_ext.
      - unfold bind, alloc. apply set_ext; [| exact Hs].
        now repeat apply ext_extend. }
    apply post_bind; [exact Hitems |].
    intros [] h4 E4. apply Hdone. eapply run_ext; [exact Hitems | exact E4]. }
  destruct (is_str kind "object" || is_str kind "option").
  { unfold bind at 1. rewrite (set_object s []) by exact Hcs1.
    set (h2 := upd h1 s (Object (obj_set [] "type" (Str "object")))).
    unfold bind at 1. cbn [alloc].
    set (p := next h2). set (h3 := extend h2 (Object [])).
    assert (Hcs3 : cells h3 s = Some (Object (obj_set [] "type" (Str "object")))).
    { subst h3. rewrite cells_extend_old by (subst s h2 h1; simpl; lia).
      apply cells_upd_same. }
    unfold bind at 1. rewrite (set_object s _) by exact Hcs3.
    match goal with
    | |- post _ _ (bind _ _ ?h') => set (h4 := h')
    end.
    assert (Hat : schema_at h s p (next h4) h4).
    { split.
      - subst h4. apply ext_upd; [| subst s; lia].
        subst h3. apply ext_extend. subst h2. apply ext_upd; [exact He1 | subst s; lia].
      - split; [subst s; lia |]. split; [subst p s h2 h1; simpl; lia |].
        split; [subst p h4 h3 h2 h1; simpl; lia |]. split; [lia |].
        eexists _, []. split; [apply cells_upd_same |]. split; [reflexivity |].
        split; [| now left].
        subst h4. rewrite cells_upd_other by (subst p s h2 h1; simpl; lia).
        apply cells_extend_new. }
    assert (He4 : ext h h4) by apply Hat.
    read_step as content. read_step as properties.
    pose proof (schemaMembers_post h s p fuel properties [] _ h4 Hat) as Hloop.
    apply post_bind; [apply Hloop |].
    intros required h5 E5. destruct (post_inv _ _ _ _ _ Hloop E5) as [He5 _].
    match goal with
    | |- post _ _ (bind ?m _ _) => assert (Hreq : ext h (snd (m h5)))
    end.
    { destruct required; [exact He5 |].
      unfold bind, alloc. apply set_ext; [now apply ext_extend | exact Hs]. }
    apply post_bind; [exact Hreq |].
    intros [] h6 E6. apply Hdone. eapply run_ext; [exact Hreq | exact E6]. }
  read_step as name. read_step as own.
  destruct (own || negb (inherited name)).
  - read_step as ref.
    destruct (truthy ref); [| now apply Hdone].
    apply post_bind; [eapply ext_trans; [exact He1 | apply inherit_ext] |].
    intros combined h2 E2.
    assert (He2 : ext h h2).
    { eapply ext_trans; [exact He1 |]. eapply run_ext; [apply inherit_ext | exact E2]. }
    eapply post_weaken; [eapply post_rebase; [exact He2 | apply rec_post] |].
    intros v h3 (l & -> & Hl) _. exists l. split; [reflexivity |].
    destruct He2. lia.
  - read_step as combined.
    eapply post_weaken; [eapply post_rebase; [exact He1 | apply rec_post] |].
    intros v h3 (l & -> & Hl) _. exists l. split; [reflexivity |].
    destruct He1. lia.
Qed.

End SchemaFrame.

Lemma afterSwitch_post (h0 : heap) (root : val) (l : nat) (h : heap) :
  ext h0 h -> next h0 <= l ->
  ext h0 (snd (afterSwitch root (Ref l) h)).
Proof.
  intros He Hl. assert (Hf : fresh h0 (Ref l)) by now apply fresh_ref.
  enough (H : post h0 (fun _ _ => True) (afterSwitch root (Ref l) h)) by apply H.
  unfold afterSwitch. read_step as description.
  apply post_bind; [destruct (nullish description); [exact He | now apply set_ext] |].
  intros [] h1 E1.
  assert (He1 : ext h0 h1).
  { eapply run_ext; [| exact E1].
    destruct (nullish description); [exact He | now apply set_ext]. }
  read_step as typeAttr.
  destruct (truthy typeAttr); [| now apply post_ret].
  read_step as nullable.
  destruct nullable; [| now apply post_ret].
  read_step as t. unfold bind, alloc.
  split; [| trivial]. apply set_ext; [now apply ext_extend | exact Hf].
Qed.

(** [renderSchema] leaves every cell of the heap it is called in as it was,
    however it completes; the schema it returns is a new object. *)
Lemma renderSchema_post (deepEqual : heap -> val -> val -> bool) (fuel : nat) :
  forall (root ds : val) (h : heap),
    post h (fun v h' => exists l, v = Ref l /\ next h <= l)
         (renderSchema deepEqual fuel root ds h).
Proof.
  induction fuel as [| fuel IH]; intros root ds h.
  - apply post_fail; [apply ext_refl | discriminate].
  - cbn [renderSchema].
    pose proof (schemaSwitch_post deepEqual
                  (fun item => renderSchema deepEqual fuel item ds) ds
                  (fun v h' => IH v ds h') fuel root h) as Hsw.
    apply post_bind; [apply Hsw |].
    intros schema h1 E. destruct (post_inv _ _ _ _ _ Hsw E) as [He1 (l & -> & Hl)].
    pose proof (afterSwitch_post h root l h1 He1 Hl) as Hafter.
    apply post_bind; [exact Hafter |].
    intros [] h2 E2. apply post_ret; [eapply run_ext; [exact Hafter | exact E2] |].
    exists l. auto.
Qed.

(** ** Sharing *)

(** [reach h v l]: the cell [l] is the object [v], or an object that [v]
    leads to through properties and entries. *)
Inductive reach (h : heap) : val -> nat -> Prop :=
| reach_here (l : nat) : reach h (Ref l) l
| reach_step (l l' l'' : nat) (c : cell) :
    cells h l = Some c -> refs_of c l' -> reach h (Ref l') l'' ->
    reach h (Ref l) l''.

(** Two values that have no object in common. *)
Definition separate (h : heap) (v w : val) : Prop :=
  forall l, reach h v l -> ~ reach h w l.

(** The cells of [h] refer to cells of [h]. *)
Definition closed (h : heap) : Prop :=
  forall l c l', l < next h -> cells h l = Some c -> refs_of c l' -> l' < next h.

(** A value of the heap [h]: a primitive, or an object that [h] holds. *)
Definition old (h : heap) (v : val) : Prop :=
  forall l, v = Ref l -> l < next h.

(** What an object of a closed heap reaches, it reaches in that heap: no
    later allocation becomes part of it while its cells are as they were. *)
Lemma reach_old (h h' : heap) (v : val) (l : nat) :
  closed h -> ext h h' -> old h v -> reach h' v l -> l < next h.
Proof.
  intros Hclosed [_ Hext] Hold Hreach.
  induction Hreach as [l | l l' l'' c Hc Hrefs _ IH]; [now apply Hold |].
  apply IH. intros d [= <-].
  assert (Hl : l < next h) by now apply Hold.
  rewrite Hext in Hc by exact Hl. eapply Hclosed; eassumption.
Qed.

(** The two types of the header of [inherit.js], with members of different
    names, as parsed JSON in the heap. *)
Definition my_type : value :=
  element "object" (VArr [member "id" (prim "number")]).

Definition another_type : value :=
  element "Another Type" (VArr [member "name" (prim "string")]).

Definition loaded : result (val * val) * heap :=
  bind (load my_type) (fun b => bind (load another_type) (fun d => ret (b, d)))
       empty.

(** C9, as amended.  [inherit] writes no cell of the heap it is called in,
    however it completes: not the base, not the element, not the symbol
    table.  The element it returns is a new object, and the containers that
    its properties hold ([meta], [attributes], [content]) are new objects:
    no object of the heap of the call leads to them.  [renderSchema] and
    [renderExample] write no cell of the heap they are called in. *)
Theorem inputs_are_not_written :
  (forall (base element : val) (h : heap),
     ext h (snd (inherit base element h)) /\
     forall combined h',
       inherit base element h = (Ok combined, h') ->
       rooted h combined h' /\
       forall input c,
         closed h -> old h input -> combined = Ref c ->
         ~ reach h' input c /\
         forall fs name l,
           cells h' c = Some (Object fs) -> lookup name fs = Ref l ->
           ~ reach h' input l) /\
  (forall (deepEqual : heap -> val -> val -> bool) (fuel : nat)
          (root dataStructures : val) (h : heap),
     ext h (snd (renderSchema deepEqual fuel root dataStructures h))) /\
  (forall (fuel : nat) (root dataStructures : val) (h : heap),
     ext h (snd (renderExample fuel root dataStructures h))).
Proof.
  split; [| split].
  - intros base element h. split; [apply inherit_ext |].
    intros combined h' E.
    destruct (post_inv _ _ _ _ _ (inherit_post base element h) E) as [Hext Hrooted].
    split; [exact Hrooted |].
    intros input c Hclosed Hold ->.
    destruct (Hrooted c eq_refl) as (Hc & _ & Hfields).
    split.
    + intros Hreach. pose proof (reach_old _ _ _ _ Hclosed Hext Hold Hreach). lia.
    + intros fs name l Hfs Hl Hreach.
      destruct (Hfields fs Hfs name l Hl) as (Hfresh & _).
      pose proof (reach_old _ _ _ _ Hclosed Hext Hold Hreach). lia.
  - intros. apply renderSchema_post.
  - intros. apply renderExample_ext.
Qed.

Lemma inputs_are_not_written_witness :
  ext (snd loaded) (snd (inherit (Ref 5) (Ref 11) (snd loaded))) /\
  ext (snd loaded) (snd (renderExample 4 (Ref 5) Undefined (snd loaded))).
Proof.
  split.
  - exact (proj1 (proj1 inputs_are_not_written (Ref 5) (Ref 11) (snd loaded))).
  - exact (proj2 (proj2 inputs_are_not_written) 4 (Ref 5) Undefined (snd loaded)).
Defined.

(** C9 as the specification states it fails: the element that [inherit]
    returns for the two types holds, in its content, the member [name] of
    the element it was given, the same object and not a copy. *)
Lemma inherit_shares_children_counterexample :
  exists base derived h combined h',
    loaded = (Ok (base, derived), h) /\
    inherit base derived h = (Ok combined, h') /\
    (exists l, l < next h /\ reach h' combined l /\ reach h' derived l) /\
    ~ separate h' combined derived.
Proof.
  exists (Ref 5), (Ref 11), (snd loaded), (Ref 17),
    (snd (inherit (Ref 5) (Ref 11) (snd loaded))).
  split; [vm_compute; reflexivity |]. split; [vm_compute; reflexivity |].
  assert (Hc : reach (snd (inherit (Ref 5) (Ref 11) (snd loaded))) (Ref 17) 9).
  { eapply (reach_step _ 17 16); [vm_compute; reflexivity | |].
    { exists "content". simpl. auto. }
    eapply (reach_step _ 16 9); [vm_compute; reflexivity | | apply reach_here].
    simpl. auto. }
  assert (Hd : reach (snd (inherit (Ref 5) (Ref 11) (snd loaded))) (Ref 11) 9).
  { eapply (reach_step _ 11 10); [vm_compute; reflexivity | |].
    { exists "content". simpl. auto. }
    eapply (reach_step _ 10 9); [vm_compute; reflexivity | | apply reach_here].
    simpl. auto. }
  split.
  - exists 9. split; [vm_compute; lia |]. split; assumption.
  - intros Hsep. exact (Hsep 9 Hc Hd).
Qed.

End StoreProperties.

(** * Further properties of [inherit.js] *)

Lemma foldM_invariant {A S : Type} (P : S -> Prop) (f : S -> A -> result S)
    (l : list A) :
  (forall s a s', P s -> f s a = Ok s' -> P s') ->
  forall s s', P s -> foldM f l s = Ok s' -> P s'.
Proof.
  intros Hf. induction l as [| a l IH]; intros s s' Hs H; simpl in H.
  - now injection H as <-.
  - destruct (f s a) as [s1 | | |] eqn:E; try discriminate. cbn [bind] in H. eauto.
Qed.

(** Inverting a [bind] that completes normally. *)
Ltac bind_ok H x E :=
  match type of H with
  | bind ?m _ = Ok _ =>
      destruct m as [x | | |] eqn:E; cbn [bind] in H; try discriminate H
  end.

(** The three properties that [inherit] writes. *)
Definition merged (name : string) : Prop :=
  name = "meta" \/ name = "attributes" \/ name = "content".

(** [v] is an object that has the properties of [fs], but for [meta],
    [attributes] and [content]. *)
Definition same_elsewhere (fs : obj) (v : value) : Prop :=
  exists fs', v = VObj fs' /\
              forall name, ~ merged name -> lookup name fs' = lookup name fs.

Lemma same_elsewhere_refl (fs : obj) : same_elsewhere fs (VObj fs).
Proof. now exists fs. Qed.

Lemma set_same_elsewhere (fs : obj) (v x out : value) (name : string) :
  same_elsewhere fs v -> merged name -> set v name x = Ok out ->
  same_elsewhere fs out.
Proof.
  intros (fs' & -> & H) Hm E. injection E as <-.
  eexists. split; [reflexivity |]. intros n Hn. rewrite lookup_obj_set.
  destruct (n =? name) eqn:En; [| now apply H].
  apply String.eqb_eq in En. now subst.
Qed.

Lemma merge_into_same_elsewhere (fs : obj) (v src out : value) (name : string) :
  same_elsewhere fs v -> merged name -> merge_into v name src = Ok out ->
  same_elsewhere fs out.
Proof.
  intros Hv Hm E. unfold merge_into in E.
  destruct (truthy src); [| now injection E as <-].
  bind_ok E cur Ecur. bind_ok E v1 Ev1.
  assert (H1 : same_elsewhere fs v1).
  { destruct (nullish cur); [| now injection Ev1 as <-].
    eapply set_same_elsewhere; eassumption. }
  revert E. apply foldM_invariant; [| exact H1].
  intros s key s' Hs E. bind_ok E x Ex. bind_ok E target Et. bind_ok E target' Et'.
  eapply set_same_elsewhere; eassumption.
Qed.

Lemma inherit_same_elsewhere (bfs : obj) (element out : value) :
  inherit (VObj bfs) element = Ok out -> same_elsewhere (copy_fields bfs) out.
Proof.
  intros E. unfold inherit in E. cbn [json_roundtrip bind] in E.
  rewrite json_copy_obj in E.
  pose proof (same_elsewhere_refl (copy_fields bfs)) as H0.
  bind_ok E emeta Em. bind_ok E c1 E1.
  assert (H1 : same_elsewhere (copy_fields bfs) c1).
  { eapply merge_into_same_elsewhere; [exact H0 | | exact E1]. now left. }
  bind_ok E eattr Ea. bind_ok E c2 E2.
  assert (H2 : same_elsewhere (copy_fields bfs) c2).
  { eapply merge_into_same_elsewhere; [exact H1 | | exact E2]. right. now left. }
  bind_ok E econtent Ec.
  destruct (truthy econtent); [| now injection E as <-].
  bind_ok E ccontent Ecc.
  destruct (has_push ccontent || has_push econtent); [| discriminate].
  bind_ok E c3 E3.
  assert (H3 : same_elsewhere (copy_fields bfs) c3).
  { destruct (nullish ccontent); [| now injection E3 as <-].
    eapply set_same_elsewhere; [exact H2 | | exact E3]. right. now right. }
  bind_ok E items Ei. bind_ok E c4 E4.
  assert (H4 : same_elsewhere (copy_fields bfs) c4).
  { revert E4. apply foldM_invariant; [| exact H3].
    intros s item s' Hs E'. bind_ok E' c Ec'. bind_ok E' c' Ec''.
    eapply set_same_elsewhere; [exact Hs | | exact E']. right. now right. }
  bind_ok E c Ec4. bind_ok E len El.
  destruct (truthy len); [| now injection E as <-].
  bind_ok E x Ex. bind_ok E kind Ek.
  destruct (is_str kind "member"); [| now injection E as <-].
  bind_ok E c' Eu.
  eapply set_same_elsewhere; [exact H4 | | exact E]. right. now right.
Qed.

(** X1.  [inherit] writes [meta], [attributes] and [content] and nothing
    else: whatever the element brings, every other property of the element
    it returns is the copy of that property of the base.  In particular the
    result has the kind ([element]) of the base, not the name of the type
    that inherits. *)
Theorem inherit_keeps_other_properties (bfs : obj) (element out : value)
    (name : string) :
  inherit (VObj bfs) element = Ok out ->
  name <> "meta" -> name <> "attributes" -> name <> "content" ->
  exists fs,
    out = VObj fs /\
    lookup name fs = lookup name (copy_fields bfs) /\
    (lookup name bfs <> VUndefined -> lookup name fs = json_copy (lookup name bfs)) /\
    (forall kind, lookup "element" bfs = VStr kind -> lookup "element" fs = VStr kind).
Proof.
  intros E Hm Ha Hc.
  destruct (inherit_same_elsewhere _ _ _ E) as (fs & -> & H).
  exists fs. split; [reflexivity |].
  assert (Hn : lookup name fs = lookup name (copy_fields bfs)).
  { apply H. intros [? | [? | ?]]; contradiction. }
  split; [exact Hn |]. split.
  - intros Hdef. rewrite Hn. now apply lookup_copy_fields.
  - intros kind Hk. rewrite H by (intros [? | [? | ?]]; discriminate).
    rewrite lookup_copy_fields by (rewrite Hk; discriminate). now rewrite Hk.
Qed.

Lemma inherit_keeps_other_properties_witness :
  exists fs,
    VObj [("element", VStr "object");
          ("content", VArr [member "id" (prim "number");
                            member "name" (prim "string")])] = VObj fs /\
    lookup "element" fs = VStr "object" /\
    (VStr "object" <> VUndefined -> lookup "element" fs = VStr "object") /\
    (forall kind, VStr "object" = VStr kind -> lookup "element" fs = VStr kind).
Proof.
  exact (inherit_keeps_other_properties
           [("element", VStr "object");
            ("content", VArr [member "id" (prim "number")])]
           (element "Another Type" (VArr [member "name" (prim "string")]))
           _ "element" eq_refl
           ltac:(discriminate) ltac:(discriminate) ltac:(discriminate)).
Defined.

(** *** Metadata and attributes *)

(** The properties of a value that is merged into: those of an object, none
    for [undefined] and [null]. *)
Definition fields_of (v : value) : option obj :=
  match v with
  | VObj fs => Some fs
  | VUndefined | VNull => Some []
  | _ => None
  end.

Lemma has_key_In (k : string) (fs : obj) :
  has_key k fs = true <-> In k (obj_keys fs).
Proof.
  induction fs as [| [k' v] fs IH]; simpl; [split; [discriminate | tauto] |].
  rewrite orb_true_iff, IH, String.eqb_eq. intuition congruence.
Qed.

Lemma last_write_entries (k : string) (fs : obj) :
  last_write k (entries fs)
  = if has_key k fs then Some (lookup k fs) else None.
Proof.
  unfold last_write.
  destruct (find (fun kv => k =? fst kv) (rev (entries fs))) as [[k' v] |] eqn:E.
  - apply find_some in E. destruct E as [Hin Hk]. simpl in Hk.
    apply String.eqb_eq in Hk. subst k'.
    apply in_rev in Hin. unfold entries in Hin. apply in_map_iff in Hin.
    destruct Hin as (k' & [= <- <-] & Hin).
    apply has_key_In in Hin. now rewrite Hin.
  - destruct (has_key k fs) eqn:Hk; [| reflexivity]. exfalso.
    apply has_key_In in Hk.
    assert (Hin : In (k, lookup k fs) (rev (entries fs))).
    { apply in_rev. rewrite rev_involutive. unfold entries.
      apply in_map_iff. now exists k. }
    apply (find_none _ _ E) in Hin. simpl in Hin. now rewrite String.eqb_refl in Hin.
Qed.

Lemma lookup_merged (k : string) (em bm : obj) :
  lookup k (set_all (entries em) bm)
  = if has_key k em then lookup k em else lookup k bm.
Proof.
  rewrite lookup_set_all, last_write_entries. now destruct (has_key k em).
Qed.

Lemma merge_fold (name : string) (em : obj) (keys : list string) :
  forall fs cm : obj,
    lookup name fs = VObj cm ->
    foldM (fun combined key =>
             value <- get_dyn (VObj em) key ;;
             target <- get combined name ;;
             target' <- set target key value ;;
             set combined name target')
          keys (VObj fs)
    = Ok (VObj (obj_set fs name
                  (VObj (set_all (map (fun k => (k, lookup k em)) keys) cm)))).
Proof.
  induction keys as [| key keys IH]; intros fs cm H.
  - simpl. rewrite obj_set_unchanged; [reflexivity | exact H | discriminate].
  - cbn [foldM get_dyn get bind set map]. rewrite H. cbn [set bind].
    rewrite (IH _ (obj_set cm key (lookup key em))) by apply lookup_obj_set_same.
    now rewrite obj_set_twice.
Qed.

Lemma foldM_ok {A S : Type} (f g : S -> A -> result S) (l : list A) :
  (forall s x r, f s x = Ok r -> g s x = Ok r) ->
  forall s r, foldM f l s = Ok r -> foldM g l s = Ok r.
Proof.
  intros H. induction l as [| x l IH]; intros s r E; [exact E |].
  cbn [foldM] in *. bind_ok E s' Es. rewrite (H _ _ _ Es). cbn [bind]. auto.
Qed.

Lemma foldM_same {A S : Type} (f g : S -> A -> result S) (l : list A) :
  (forall s x, In x l -> f s x = g s x) ->
  forall s, foldM f l s = foldM g l s.
Proof.
  induction l as [| x l IH]; intros H s; [reflexivity |].
  cbn [foldM]. rewrite (H s x) by now left.
  destruct (g s x); try reflexivity. cbn [bind]. apply IH.
  intros s' y Hy. apply H. now right.
Qed.

(** The loop of the merge writes as [set] does when it returns, and
    whenever no key is [__proto__]. *)
Lemma merge_steps_ok (name : string) (em : obj) (keys : list string)
    (c out : value) :
  foldM (fun combined key =>
           value <- get_dyn (VObj em) key ;;
           target <- get combined name ;;
           target' <- assign target key value ;;
           set combined name target')
        keys c = Ok out ->
  foldM (fun combined key =>
           value <- get_dyn (VObj em) key ;;
           target <- get combined name ;;
           target' <- set target key value ;;
           set combined name target')
        keys c = Ok out.
Proof.
  apply foldM_ok. intros s x r E.
  destruct (get_dyn (VObj em) x) as [v | | |]; try discriminate E.
  cbn [bind] in *.
  destruct (get s name) as [t | | |]; try discriminate E. cbn [bind] in *.
  destruct (assign t x v) as [t' | | |] eqn:Ea; try discriminate E.
  cbn [bind] in *. now rewrite (assign_ok _ _ _ _ Ea).
Qed.

Lemma merge_steps_set (name : string) (em : obj) (keys : list string)
    (c : value) :
  ~ In "__proto__" keys ->
  foldM (fun combined key =>
           value <- get_dyn (VObj em) key ;;
           target <- get combined name ;;
           target' <- assign target key value ;;
           set combined name target')
        keys c
  = foldM (fun combined key =>
             value <- get_dyn (VObj em) key ;;
             target <- get combined name ;;
             target' <- set target key value ;;
             set combined name target')
          keys c.
Proof.
  intros H. apply foldM_same. intros s x Hx.
  destruct (get_dyn (VObj em) x); try reflexivity. cbn [bind].
  destruct (get s name); try reflexivity. cbn [bind].
  rewrite assign_set; [reflexivity |]. intros ->. now apply H.
Qed.

(** The block that merges [element.meta] (or [element.attributes]) when both
    sides are objects, or the base has none: the entries of the element are
    written over those of the base, one after the other. *)
Lemma merge_into_set (name : string) (fs em cm : obj) :
  fields_of (lookup name fs) = Some cm ->
  (cur <- get (VObj fs) name ;;
   combined <- (if nullish cur then set (VObj fs) name (VObj [])
                else Ok (VObj fs)) ;;
   foldM (fun combined key =>
            value <- get_dyn (VObj em) key ;;
            target <- get combined name ;;
            target' <- set target key value ;;
            set combined name target')
         (own_keys (VObj em)) combined)
  = Ok (VObj (obj_set fs name (VObj (set_all (entries em) cm)))).
Proof.
  intros H. cbn [get bind own_keys].
  destruct (lookup name fs) as [| | | | | |cm'] eqn:E; try discriminate;
    injection H as <-; cbn [nullish set bind].
  - rewrite (merge_fold name em _ _ []) by apply lookup_obj_set_same.
    now rewrite obj_set_twice.
  - rewrite (merge_fold name em _ _ []) by apply lookup_obj_set_same.
    now rewrite obj_set_twice.
  - now rewrite (merge_fold name em _ _ cm').
Qed.

Lemma merge_into_object (name : string) (fs em cm : obj) :
  has_key "__proto__" em = false ->
  fields_of (lookup name fs) = Some cm ->
  merge_into (VObj fs) name (VObj em)
  = Ok (VObj (obj_set fs name (VObj (set_all (entries em) cm)))).
Proof.
  intros Hp H. rewrite <- (merge_into_set name fs em cm H).
  unfold merge_into. cbn [truthy].
  destruct (get (VObj fs) name) as [cur | | |]; try reflexivity. cbn [bind].
  destruct (if nullish cur then set (VObj fs) name (VObj []) else Ok (VObj fs));
    try reflexivity.
  cbn [bind]. apply merge_steps_set. cbn [own_keys]. now apply absent_key.
Qed.

(** The same, for every merge that returns. *)
Lemma merge_into_object_ok (name : string) (fs em cm : obj) (out : value) :
  fields_of (lookup name fs) = Some cm ->
  merge_into (VObj fs) name (VObj em) = Ok out ->
  out = VObj (obj_set fs name (VObj (set_all (entries em) cm))).
Proof.
  intros H E. pose proof (merge_into_set name fs em cm H) as Hs.
  unfold merge_into in E. cbn [truthy] in E.
  destruct (get (VObj fs) name) as [cur | | |]; try discriminate.
  cbn [bind] in E, Hs.
  destruct (if nullish cur then set (VObj fs) name (VObj []) else Ok (VObj fs));
    try discriminate.
  cbn [bind] in E, Hs. apply merge_steps_ok in E. congruence.
Qed.

(** [v] is an object whose property [name] is [x]. *)
Definition holds (name : string) (x v : value) : Prop :=
  exists fs, v = VObj fs /\ lookup name fs = x.

Lemma set_holds (name name' : string) (x y v out : value) :
  holds name x v -> name' <> name -> set v name' y = Ok out -> holds name x out.
Proof.
  intros (fs & -> & H) Hn E. injection E as <-.
  eexists. split; [reflexivity |]. rewrite lookup_obj_set.
  destruct (name =? name') eqn:En; [| exact H].
  apply String.eqb_eq in En. now subst.
Qed.

Lemma merge_into_holds (name name' : string) (x v src out : value) :
  holds name x v -> name' <> name -> merge_into v name' src = Ok out ->
  holds name x out.
Proof.
  intros Hv Hn E. unfold merge_into in E.
  destruct (truthy src); [| now injection E as <-].
  bind_ok E cur Ecur. bind_ok E v1 Ev1.
  assert (H1 : holds name x v1).
  { destruct (nullish cur); [| now injection Ev1 as <-].
    eapply set_holds; eassumption. }
  revert E. apply foldM_invariant; [| exact H1].
  intros s key s' Hs E. bind_ok E y Ey. bind_ok E target Et. bind_ok E target' Et'.
  eapply set_holds; eassumption.
Qed.

(** The last block of [inherit] writes [content] alone. *)
Lemma inherit_content_holds (name : string) (x c2 element out : value) :
  holds name x c2 -> name <> "content" ->
  (econtent <- get element "content" ;;
   if truthy econtent then
     ccontent <- get c2 "content" ;;
     if has_push ccontent || has_push econtent then
       combined <- (if nullish ccontent then set c2 "content" (VArr [])
                    else Ok c2) ;;
       items <- array_from econtent ;;
       combined <- foldM (fun combined item =>
                            c <- get combined "content" ;;
                            c' <- push c item ;;
                            set combined "content" c')
                         items combined ;;
       c <- get combined "content" ;;
       len <- length_of c ;;
       if truthy len then
         x <- first c ;;
         kind <- get x "element" ;;
         if is_str kind "member" then
           c' <- uniqueMembers c ;;
           set combined "content" c'
         else Ok combined
       else Ok combined
     else Throw ReferenceError
   else Ok c2) = Ok out ->
  holds name x out.
Proof.
  intros H2 Hn E.
  assert (Hn' : "content" <> name) by congruence.
  bind_ok E econtent Ec.
  destruct (truthy econtent); [| now injection E as <-].
  bind_ok E ccontent Ecc.
  destruct (has_push ccontent || has_push econtent); [| discriminate].
  bind_ok E c3 E3.
  assert (H3 : holds name x c3).
  { destruct (nullish ccontent); [| now injection E3 as <-].
    eapply set_holds; eassumption. }
  bind_ok E items Ei. bind_ok E c4 E4.
  assert (H4 : holds name x c4).
  { revert E4. apply foldM_invariant; [| exact H3].
    intros s item s' Hs E'. bind_ok E' c Ec'. bind_ok E' c' Ec''.
    eapply set_holds; eassumption. }
  bind_ok E c Ec4. bind_ok E len El.
  destruct (truthy len); [| now injection E as <-].
  bind_ok E y Ey. bind_ok E kind Ek.
  destruct (is_str kind "member"); [| now injection E as <-].
  bind_ok E c' Eu.
  eapply set_holds; eassumption.
Qed.

(** X2.  How [inherit] combines [meta] and [attributes] (the same code for
    both).  When the element has none, the result keeps the copy of the
    base's.  When the element's is an object, the result's is an object that
    has every entry of the element's, and the entries of the base's copy
    under the other keys: the element overrides the base key by key.  (An
    entry named [__proto__] would reach the setter of the prototype, which
    is outside the model.) *)
Theorem inherit_merges_metadata (bfs efs : obj) (out : value) (name : string) :
  inherit (VObj bfs) (VObj efs) = Ok out ->
  name = "meta" \/ name = "attributes" ->
  exists fs,
    out = VObj fs /\
    (truthy (lookup name efs) = false ->
     lookup name fs = lookup name (copy_fields bfs)) /\
    (forall em bm,
       lookup name efs = VObj em -> has_key "__proto__" em = false ->
       fields_of (lookup name (copy_fields bfs)) = Some bm ->
       exists m,
         lookup name fs = VObj m /\
         forall k, lookup k m = if has_key k em then lookup k em else lookup k bm).
Proof.
  intros E Hname.
  destruct (inherit_same_elsewhere _ _ _ E) as (fs & -> & _).
  exists fs. split; [reflexivity |].
  unfold inherit in E. cbn [json_roundtrip bind] in E. rewrite json_copy_obj in E.
  set (base := copy_fields bfs) in *.
  bind_ok E emeta Em. injection Em as <-. bind_ok E c1 E1.
  bind_ok E eattr Ea. injection Ea as <-. bind_ok E c2 E2.
  assert (Hout : forall x, holds name x c2 -> lookup name fs = x).
  { intros x Hx.
    destruct (inherit_content_holds name x c2 (VObj efs) (VObj fs) Hx) as (fs' & [= <-] & H).
    - destruct Hname; subst; discriminate.
    - exact E.
    - exact H. }
  destruct Hname as [-> | ->].
  - (* meta is merged first; the block for attributes leaves it *)
    assert (H2 : forall x, holds "meta" x c1 -> holds "meta" x c2).
    { intros x Hx. eapply merge_into_holds; [exact Hx | | exact E2]. discriminate. }
    split.
    + intros Hf. rewrite merge_into_falsy in E1 by exact Hf. injection E1 as <-.
      apply Hout, H2. now exists base.
    + intros em bm Hem _ Hbm. rewrite Hem in E1.
      apply (merge_into_object_ok "meta" base em bm _ Hbm) in E1. subst c1.
      exists (set_all (entries em) bm). split; [| intros k; apply lookup_merged].
      apply Hout, H2. eexists. split; [reflexivity |]. apply lookup_obj_set_same.
  - (* the block for meta leaves attributes *)
    assert (H1 : holds "attributes" (lookup "attributes" base) c1).
    { eapply merge_into_holds; [| | exact E1]; [now exists base | discriminate]. }
    destruct H1 as (fs1 & -> & H1).
    split.
    + intros Hf. rewrite merge_into_falsy in E2 by exact Hf. injection E2 as <-.
      apply Hout. now exists fs1.
    + intros em bm Hem _ Hbm. rewrite Hem in E2. rewrite <- H1 in Hbm.
      apply (merge_into_object_ok "attributes" fs1 em bm _ Hbm) in E2.
      subst c2.
      exists (set_all (entries em) bm). split; [| intros k; apply lookup_merged].
      apply Hout. eexists. split; [reflexivity |]. apply lookup_obj_set_same.
Qed.

(** A named string type with a description, and a use of it that brings a
    description of its own. *)
Definition name_type : obj :=
  [("element", VStr "string");
   ("meta", VObj [("id", VStr "Name"); ("description", VStr "A name")])].

Definition short_name : obj :=
  [("element", VStr "Name"); ("meta", VObj [("description", VStr "A short name")])].

Lemma inherit_merges_metadata_witness :
  exists fs,
    VObj [("element", VStr "string");
          ("meta", VObj [("id", VStr "Name"); ("description", VStr "A short name")])]
    = VObj fs /\
    (truthy (lookup "meta" short_name) = false ->
     lookup "meta" fs = lookup "meta" (copy_fields name_type)) /\
    (forall em bm,
       lookup "meta" short_name = VObj em -> has_key "__proto__" em = false ->
       fields_of (lookup "meta" (copy_fields name_type)) = Some bm ->
       exists m,
         lookup "meta" fs = VObj m /\
         forall k, lookup k m = if has_key k em then lookup k em else lookup k bm).
Proof.
  exact (inherit_merges_metadata name_type short_name _ "meta" eq_refl
           (or_introl eq_refl)).
Defined.

(** *** Content *)

(** The last block of [inherit]: [if (element.content) { ... }]. *)
Definition combine_content (combined element : value) : result value :=
  econtent <- get element "content" ;;
  if truthy econtent then
    ccontent <- get combined "content" ;;
    if has_push ccontent || has_push econtent then
      combined <- (if nullish ccontent then set combined "content" (VArr [])
                   else Ok combined) ;;
      items <- array_from econtent ;;
      combined <- foldM (fun combined item =>
                           c <- get combined "content" ;;
                           c' <- push c item ;;
                           set combined "content" c')
                        items combined ;;
      c <- get combined "content" ;;
      len <- length_of c ;;
      if truthy len then
        x <- first c ;;
        kind <- get x "element" ;;
        if is_str kind "member" then
          c' <- uniqueMembers c ;;
          set combined "content" c'
        else Ok combined
      else Ok combined
    else Throw ReferenceError
  else Ok combined.

Lemma inherit_blocks (base element : value) :
  inherit base element
  = (combined <- json_roundtrip base ;;
     emeta <- get element "meta" ;;
     combined <- merge_into combined "meta" emeta ;;
     eattributes <- get element "attributes" ;;
     combined <- merge_into combined "attributes" eattributes ;;
     combine_content combined element).
Proof. reflexivity. Qed.

(** The entries of a content that is pushed to: those of an array, none for
    [undefined] and [null]. *)
Definition items_of (v : value) : option (list value) :=
  match v with
  | VArr l => Some l
  | VUndefined | VNull => Some []
  | _ => None
  end.

Lemma combine_content_arrays (fs efs : obj) (bs es : list value) :
  items_of (lookup "content" fs) = Some bs ->
  lookup "content" efs = VArr es ->
  combine_content (VObj fs) (VObj efs)
  = let all := VObj (obj_set fs "content" (VArr (bs ++ es))) in
    match bs ++ es with
    | [] => Ok all
    | x :: _ =>
        kind <- get x "element" ;;
        if is_str kind "member" then
          c' <- uniqueMembers (VArr (bs ++ es)) ;;
          set all "content" c'
        else Ok all
    end.
Proof.
  intros Hb He. unfold combine_content. cbn [get bind]. rewrite He.
  cbn [truthy has_push array_from bind]. rewrite orb_true_r.
  assert (E3 : exists fs3,
             (if nullish (lookup "content" fs)
              then set (VObj fs) "content" (VArr []) else Ok (VObj fs)) = Ok (VObj fs3)
             /\ lookup "content" fs3 = VArr bs
             /\ forall x, obj_set fs3 "content" x = obj_set fs "content" x).
  { destruct (lookup "content" fs) eqn:E; try discriminate; injection Hb as <-;
      cbn [nullish set].
    - eexists. split; [reflexivity |]. split; [apply lookup_obj_set_same |].
      intros x. apply obj_set_twice.
    - eexists. split; [reflexivity |]. split; [apply lookup_obj_set_same |].
      intros x. apply obj_set_twice.
    - exists fs. auto. }
  destruct E3 as (fs3 & -> & H3 & Hset). cbn [bind].
  rewrite (push_items es fs3 bs H3). cbn [bind get].
  assert (Hall : match es with
                 | [] => fs3
                 | _ :: _ => obj_set fs3 "content" (VArr (bs ++ es))
                 end = obj_set fs "content" (VArr (bs ++ es))).
  { destruct es; [| apply Hset].
    rewrite app_nil_r, <- Hset. symmetry. apply obj_set_unchanged; [exact H3 | discriminate]. }
  rewrite Hall, lookup_obj_set_same. cbn [length_of bind].
  destruct (bs ++ es) as [| x all]; [reflexivity |].
  cbn [length truthy first hd bind].
  replace (negb (Z.of_nat (S (length all)) =? 0)%Z) with true
    by (symmetry; apply negb_true_iff, Z.eqb_neq; lia).
  reflexivity.
Qed.

Lemma has_key_copy_fields (k : string) (fs : obj) :
  has_key k fs = false -> has_key k (copy_fields fs) = false.
Proof.
  induction fs as [| [k' x] fs IH]; [reflexivity |].
  simpl has_key. rewrite copy_fields_cons. intros H.
  apply orb_false_iff in H. destruct H as [Hk H].
  destruct x; simpl; rewrite ?Hk; auto.
Qed.

(** What [inherit] makes of the meta data of an element does not touch
    [content]: the last block starts from the copy of the base's. *)
Lemma inherit_content_phase (bfs efs : obj) (out : value) :
  inherit (VObj bfs) (VObj efs) = Ok out ->
  exists fs2,
    lookup "content" fs2 = lookup "content" (copy_fields bfs) /\
    combine_content (VObj fs2) (VObj efs) = Ok out.
Proof.
  intros E. rewrite inherit_blocks in E. cbn [json_roundtrip bind] in E.
  rewrite json_copy_obj in E.
  bind_ok E emeta Em. bind_ok E c1 E1. bind_ok E eattr Ea. bind_ok E c2 E2.
  assert (H2 : holds "content" (lookup "content" (copy_fields bfs)) c2).
  { eapply merge_into_holds; [| | exact E2]; [| discriminate].
    eapply merge_into_holds; [| | exact E1]; [| discriminate].
    now eexists. }
  destruct H2 as (fs2 & -> & H2). now exists fs2.
Qed.

Lemma inherit_plain (bfs efs : obj) :
  truthy (lookup "meta" efs) = false ->
  truthy (lookup "attributes" efs) = false ->
  inherit (VObj bfs) (VObj efs) = combine_content (VObj (copy_fields bfs)) (VObj efs).
Proof.
  intros Hm Ha. rewrite inherit_blocks. cbn [json_roundtrip bind get].
  rewrite json_copy_obj, merge_into_falsy by exact Hm. cbn [bind].
  now rewrite merge_into_falsy by exact Ha.
Qed.

Lemma copied_content (bfs : obj) (bs : list value) :
  lookup "content" bfs = VArr bs \/ (has_key "content" bfs = false /\ bs = []) ->
  items_of (lookup "content" (copy_fields bfs)) = Some (map copy_item bs).
Proof.
  intros [H | [H ->]].
  - rewrite lookup_copy_fields, H by (rewrite H; discriminate).
    now rewrite json_copy_arr.
  - now rewrite lookup_absent by now apply has_key_copy_fields.
Qed.

(** The meta data (or the attributes) that the element and the base bring
    can be merged: the element has none, or it has an object, with no entry
    named [__proto__], and the base has an object or none. *)
Definition mergeable (name : string) (bfs efs : obj) : Prop :=
  truthy (lookup name efs) = false \/
  ((exists em, lookup name efs = VObj em /\ has_key "__proto__" em = false) /\
   exists bm, fields_of (lookup name (copy_fields bfs)) = Some bm).

Lemma merge_into_mergeable (name : string) (bfs efs fs : obj) :
  mergeable name bfs efs ->
  lookup name fs = lookup name (copy_fields bfs) ->
  exists fs',
    merge_into (VObj fs) name (lookup name efs) = Ok (VObj fs') /\
    forall other, other <> name -> lookup other fs' = lookup other fs.
Proof.
  intros [Hf | [(em & Hem & Hp) [bm Hbm]]] Hl.
  - exists fs. split; [now apply merge_into_falsy | reflexivity].
  - rewrite Hem. rewrite <- Hl in Hbm. rewrite (merge_into_object _ _ _ _ Hp Hbm).
    eexists. split; [reflexivity |]. intros other Ho.
    rewrite lookup_obj_set. apply String.eqb_neq in Ho. now rewrite Ho.
Qed.

(** X3.  Inheritance between two lists of members (object types) whose keys
    are strings.  [inherit] returns exactly when no key occurs twice, in the
    base, in the element, or in both: if it returns, no key repeats, and when
    no key repeats it returns, for every element and base whose meta data and
    attributes are objects where they have any.  The content of the result is
    then the members of the base, copied, followed by the members of the
    element, as they are; for an element without meta data and attributes
    the rest of the result is the copy of the base. *)
Theorem inherit_adds_members (bfs efs : obj) (bs es : list value)
    (kb ke : list string) :
  lookup "content" bfs = VArr bs -> lookup "content" efs = VArr es ->
  map member_key bs = map Some kb -> map member_key es = map Some ke ->
  kb ++ ke <> [] ->
  (forall out,
     inherit (VObj bfs) (VObj efs) = Ok out ->
     NoDup (kb ++ ke) /\ get out "content" = Ok (VArr (map copy_item bs ++ es))) /\
  (mergeable "meta" bfs efs -> mergeable "attributes" bfs efs ->
   NoDup (kb ++ ke) ->
   exists out, inherit (VObj bfs) (VObj efs) = Ok out) /\
  (truthy (lookup "meta" efs) = false ->
   truthy (lookup "attributes" efs) = false ->
   NoDup (kb ++ ke) ->
   inherit (VObj bfs) (VObj efs)
   = Ok (VObj (obj_set (copy_fields bfs) "content"
                 (VArr (map copy_item bs ++ es))))).
Proof.
  intros Hb He Hkb Hke Hne.
  assert (Hall : map member_key (map copy_item bs ++ es) = map Some (kb ++ ke)).
  { rewrite !map_app, (map_member_key_copy bs kb), Hke; auto. }
  split; [| split].
  - intros out E.
    destruct (inherit_content_phase _ _ _ E) as (fs2 & H2 & E2).
    rewrite (combine_content_arrays fs2 efs (map copy_item bs) es) in E2;
      [| rewrite H2; apply copied_content; now left | exact He].
    set (all := map copy_item bs ++ es) in *.
    cbv zeta in E2. destruct all as [| x all'] eqn:Eall.
    { destruct (kb ++ ke); [congruence | discriminate]. }
    destruct (kb ++ ke) as [| k ks] eqn:Eks; [congruence |].
    pose proof Hall as Hall'. simpl in Hall'. injection Hall' as Hx _.
    destruct (member_key_inv x k Hx) as (kind & c & kk & Hxe & Hxm & _).
    rewrite Hxe in E2. cbn [bind] in E2. rewrite Hxm in E2.
    rewrite (uniqueMembers_members _ _ Hall) in E2.
    destruct (distinct (k :: ks)) eqn:Ed; [| discriminate].
    split; [now apply distinct_NoDup |].
    cbn [bind set] in E2. injection E2 as <-. cbn [get].
    now rewrite lookup_obj_set_same.
  - intros Hm Ha Hnd.
    rewrite inherit_blocks. cbn [json_roundtrip bind get]. rewrite json_copy_obj.
    destruct (merge_into_mergeable "meta" bfs efs (copy_fields bfs) Hm eq_refl)
      as (fs1 & -> & H1).
    cbn [bind].
    destruct (merge_into_mergeable "attributes" bfs efs fs1 Ha
                (H1 "attributes" ltac:(discriminate)))
      as (fs2 & -> & H2).
    cbn [bind].
    rewrite (combine_content_arrays fs2 efs (map copy_item bs) es);
      [| rewrite (H2 "content"), (H1 "content") by discriminate;
         apply copied_content; now left
       | exact He].
    set (all := map copy_item bs ++ es) in *.
    cbv zeta. destruct all as [| x all'] eqn:Eall.
    { destruct (kb ++ ke); [congruence | discriminate]. }
    destruct (kb ++ ke) as [| k ks] eqn:Eks; [congruence |].
    pose proof Hall as Hall'. simpl in Hall'. injection Hall' as Hx _.
    destruct (member_key_inv x k Hx) as (kind & c & kk & Hxe & Hxm & _).
    rewrite Hxe. cbn [bind]. rewrite Hxm.
    rewrite (uniqueMembers_members _ _ Hall).
    apply distinct_NoDup in Hnd. rewrite Hnd. cbn [bind set]. now eexists.
  - intros Hm Ha Hnd.
    rewrite (inherit_members bfs efs bs es kb ke) by assumption.
    apply distinct_NoDup in Hnd. now rewrite Hnd.
Qed.

Lemma inherit_adds_members_witness :
  inherit (element "object" (VArr [member "id" (prim "number")]))
          (element "Another Type" (VArr [member "name" (prim "string")]))
  = Ok (element "object" (VArr [member "id" (prim "number");
                                member "name" (prim "string")])).
Proof.
  refine (proj2 (proj2 (inherit_adds_members
                   [("element", VStr "object");
                    ("content", VArr [member "id" (prim "number")])]
                   [("element", VStr "Another Type");
                    ("content", VArr [member "name" (prim "string")])]
                   [member "id" (prim "number")] [member "name" (prim "string")]
                   ["id"] ["name"] eq_refl eq_refl eq_refl eq_refl _))
                eq_refl eq_refl _).
  - discriminate.
  - apply distinct_NoDup. reflexivity.
Defined.

(** X4.  Inheritance between two lists that do not start with a member
    (array types): the entries of the element are appended to the copies of
    the entries of the base, and nothing is removed, whatever repeats. *)
Theorem inherit_appends_items (bfs efs : obj) (bs es : list value)
    (x kind : value) (rest : list value) :
  lookup "content" bfs = VArr bs \/ (has_key "content" bfs = false /\ bs = []) ->
  lookup "content" efs = VArr es ->
  map copy_item bs ++ es = x :: rest ->
  get x "element" = Ok kind -> is_str kind "member" = false ->
  (forall out,
     inherit (VObj bfs) (VObj efs) = Ok out ->
     get out "content" = Ok (VArr (map copy_item bs ++ es))) /\
  (truthy (lookup "meta" efs) = false ->
   truthy (lookup "attributes" efs) = false ->
   inherit (VObj bfs) (VObj efs)
   = Ok (VObj (obj_set (copy_fields bfs) "content"
                 (VArr (map copy_item bs ++ es))))).
Proof.
  intros Hb He Hall Hx Hkind.
  assert (Hphase : forall fs2,
             lookup "content" fs2 = lookup "content" (copy_fields bfs) ->
             combine_content (VObj fs2) (VObj efs)
             = Ok (VObj (obj_set fs2 "content" (VArr (map copy_item bs ++ es))))).
  { intros fs2 H2.
    rewrite (combine_content_arrays fs2 efs (map copy_item bs) es);
      [| rewrite H2; now apply copied_content | exact He].
    cbv zeta. rewrite Hall, Hx. cbn [bind]. now rewrite Hkind. }
  split.
  - intros out E.
    destruct (inherit_content_phase _ _ _ E) as (fs2 & H2 & E2).
    rewrite (Hphase fs2 H2) in E2. injection E2 as <-. cbn [get].
    now rewrite lookup_obj_set_same.
  - intros Hm Ha. rewrite inherit_plain by assumption. now apply Hphase.
Qed.

Lemma inherit_appends_items_witness :
  inherit (element "array" (VArr [prim "string"]))
          (element "Tags" (VArr [prim "string"; prim "number"]))
  = Ok (element "array" (VArr [prim "string"; prim "string"; prim "number"])).
Proof.
  exact (proj2 (inherit_appends_items
                  [("element", VStr "array"); ("content", VArr [prim "string"])]
                  [("element", VStr "Tags");
                   ("content", VArr [prim "string"; prim "number"])]
                  [prim "string"] [prim "string"; prim "number"]
                  (prim "string") (VStr "string") [prim "string"; prim "number"]
                  (or_introl eq_refl) eq_refl eq_refl eq_refl eq_refl)
               eq_refl eq_refl).
Defined.

(** *** Nothing to add *)

(** A value that [JSON.parse] can return: no [undefined] inside. *)
Fixpoint is_json (v : value) : bool :=
  match v with
  | VUndefined => false
  | VArr l => forallb is_json l
  | VObj fs =>
      (fix fields (fs : obj) : bool :=
         match fs with
         | [] => true
         | (_, x) :: fs' => is_json x && fields fs'
         end) fs
  | _ => true
  end.

Lemma json_copy_json (v : value) : is_json v = true -> json_copy v = v.
Proof.
  induction v as [| | b | n | s | l IH | fs IH] using value_induction;
    try reflexivity.
  - intros H. simpl in H. simpl. f_equal.
    induction IH as [| x l Hx _ IHl]; [reflexivity |].
    simpl in H. apply andb_true_iff in H. destruct H as [H1 H2].
    simpl. rewrite IHl by exact H2. rewrite Hx by exact H1.
    destruct x; try reflexivity. discriminate.
  - intros H. rewrite json_copy_obj. f_equal.
    induction IH as [| [k x] fs Hx _ IHfs]; [reflexivity |].
    simpl in H. apply andb_true_iff in H. destruct H as [H1 H2].
    rewrite copy_fields_cons. simpl in Hx. rewrite IHfs by exact H2.
    rewrite Hx by exact H1. destruct x; try reflexivity. discriminate.
Qed.

(** X5.  The edges of [inherit].  A base that is [undefined] does not survive
    the copy through JSON ([SyntaxError]); an element that is [undefined] or
    [null] has no [meta] to read ([TypeError]).  An element without [meta],
    [attributes] and [content] adds nothing: the result is the copy of the
    base, which is equal to the base when the base is a JSON value. *)
Theorem inherit_copies_base :
  (forall element, inherit VUndefined element = Throw SyntaxError) /\
  (forall base,
     base <> VUndefined ->
     inherit base VUndefined = Throw TypeError /\
     inherit base VNull = Throw TypeError) /\
  (forall base efs,
     base <> VUndefined ->
     truthy (lookup "meta" efs) = false ->
     truthy (lookup "attributes" efs) = false ->
     truthy (lookup "content" efs) = false ->
     inherit base (VObj efs) = Ok (json_copy base) /\
     (is_json base = true -> inherit base (VObj efs) = Ok base)).
Proof.
  split; [reflexivity |]. split.
  - intros base Hb. destruct base; try contradiction; split; reflexivity.
  - intros base efs Hb Hm Ha Hc.
    assert (E : inherit base (VObj efs) = Ok (json_copy base)).
    { rewrite inherit_blocks.
      replace (json_roundtrip base) with (Ok (json_copy base))
        by (destruct base; try reflexivity; contradiction).
      cbn [bind get]. rewrite merge_into_falsy by exact Hm. cbn [bind].
      rewrite merge_into_falsy by exact Ha. cbn [bind].
      unfold combine_content. cbn [get bind]. now rewrite Hc. }
    split; [exact E |]. intros Hj. now rewrite E, json_copy_json.
Qed.

(** * Further properties of [schema.js] *)

(** *** What [renderSchema] returns *)

Definition is_object (v : value) : Prop := exists fs, v = VObj fs.

Lemma set_is_object (v x out : value) (k : string) :
  is_object v -> set v k x = Ok out -> is_object out.
Proof. intros [fs ->] E. injection E as <-. now eexists. Qed.

Lemma set_property_is_object (schema prop out : value) (key : string) :
  is_object schema -> set_property schema key prop = Ok out -> is_object out.
Proof.
  intros H E. unfold set_property in E.
  bind_ok E ps Eps. bind_ok E ps' Eps'. eapply set_is_object; eassumption.
Qed.

Lemma update_property_is_object (schema out : value) (key : string)
    (f : value -> result value) :
  is_object schema -> update_property schema key f = Ok out -> is_object out.
Proof.
  intros H E. unfold update_property in E.
  bind_ok E ps Eps. bind_ok E p Ep. bind_ok E p' Ep'. bind_ok E ps' Eps'.
  eapply set_is_object; eassumption.
Qed.

Section SchemaShape.

Variable deepEqual : value -> value -> bool.
Variable rec : value -> result value.
Variable dataStructures : obj.
Hypothesis rec_is_object : forall v s, rec v = Ok s -> is_object s.

Lemma selectOption_is_object (st st' : value * list value) (option : value) :
  is_object (fst st) -> selectOption rec st option = Ok st' -> is_object (fst st').
Proof.
  intros H E. unfold selectOption in E.
  bind_ok E s Es. bind_ok E ps Eps.
  revert E. apply (foldM_invariant (fun st => is_object (fst st))); [| exact H].
  intros [schema exclusive] key st1 Hs E. simpl in Hs.
  bind_ok E prop Ep. bind_ok E schema' Es'. injection E as <-. simpl.
  eapply set_property_is_object; eassumption.
Qed.

Lemma selectMember_is_object (schema member out : value) :
  is_object schema -> selectMember rec schema member = Ok out -> is_object out.
Proof.
  intros H E. unfold selectMember in E.
  bind_ok E content Ec. bind_ok E options Eo. bind_ok E st Est.
  destruct st as [schema1 exclusive].
  assert (H1 : is_object schema1).
  { change schema1 with (fst (schema1, exclusive)).
    revert Est. apply (foldM_invariant (fun st => is_object (fst st))); [| exact H].
    intros st a st' Hst. now apply selectOption_is_object. }
  bind_ok E allOf Ea. bind_ok E schema2 E2.
  assert (H2 : is_object schema2).
  { destruct (truthy allOf); [now injection E2 as <- |].
    eapply set_is_object; eassumption. }
  bind_ok E allOf2 Ea2. bind_ok E allOf' Ea'.
  eapply set_is_object; eassumption.
Qed.

Lemma plainMember_is_object (schema member : value) (required : list value)
    (out : value * list value) :
  is_object schema -> plainMember rec schema required member = Ok out ->
  is_object (fst out).
Proof.
  intros H E. unfold plainMember in E.
  bind_ok E content Ec. bind_ok E k Ek. bind_ok E key Ekey. bind_ok E v Ev.
  bind_ok E rendered Er. bind_ok E name En. bind_ok E schema1 E1.
  assert (H1 : is_object schema1) by (eapply set_property_is_object; eassumption).
  bind_ok E description Ed. bind_ok E schema2 E2.
  assert (H2 : is_object schema2).
  { destruct (nullish description); [now injection E2 as <- |].
    eapply update_property_is_object; eassumption. }
  bind_ok E typeAttr Et.
  destruct (truthy typeAttr); [| now injection E as <-].
  bind_ok E isRequired Ei. bind_ok E nullable Enl.
  destruct nullable; [| now injection E as <-].
  bind_ok E schema3 E3. injection E as <-. simpl.
  eapply update_property_is_object; eassumption.
Qed.

Lemma schemaMembers_is_object (fuel : nat) :
  forall (work : list value) (schema : value) (required : list value)
         (out : value * list value),
    is_object schema ->
    schemaMembers rec dataStructures fuel work schema required = Ok out ->
    is_object (fst out).
Proof.
  induction fuel as [| fuel IH]; intros work schema required out H E.
  - destruct work; [| discriminate]. now injection E as <-.
  - destruct work as [| m rest]; [now injection E as <- |].
    cbn [schemaMembers] in E. bind_ok E kind Ek.
    destruct (is_str kind "ref").
    + bind_ok E content Ec. bind_ok E href Eh. bind_ok E name En.
      bind_ok E refContent Er. eapply IH; eassumption.
    + destruct (is_str kind "select").
      * bind_ok E schema1 E1. eapply IH; [| exact E].
        eapply selectMember_is_object; eassumption.
      * bind_ok E st Est. destruct st as [schema1 required1].
        eapply IH; [| exact E].
        change schema1 with (fst (schema1, required1)).
        eapply plainMember_is_object; eassumption.
Qed.

Lemma schemaSwitch_is_object (fuel : nat) (root out : value) :
  schemaSwitch deepEqual rec dataStructures fuel root = Ok out -> is_object out.
Proof.
  intros E. unfold schemaSwitch in E. bind_ok E kind Ek.
  destruct (is_str kind "boolean" || is_str kind "string" || is_str kind "number").
  { bind_ok E default Ed. destruct (nullish default); [injection E as <- |];
      [now eexists | eapply set_is_object; [| exact E]; now eexists]. }
  destruct (is_str kind "enum").
  { bind_ok E content Ec. bind_ok E items Ei. bind_ok E values Ev.
    injection E as <-. now eexists. }
  destruct (is_str kind "array").
  { bind_ok E content Ec. bind_ok E children Ech. bind_ok E items Ei.
    assert (H0 : is_object (VObj [("type", VStr "array")])) by now eexists.
    destruct items as [| item [| item' others]].
    - now injection E as <-.
    - eapply set_is_object; eassumption.
    - destruct (reduce_deepEqual deepEqual item (item' :: others));
        eapply set_is_object; eassumption. }
  destruct (is_str kind "object" || is_str kind "option").
  { bind_ok E content Ec. bind_ok E properties Ep. bind_ok E st Est.
    destruct st as [schema required].
    assert (H1 : is_object schema).
    { change schema with (fst (schema, required)).
      eapply schemaMembers_is_object; [| exact Est]. now eexists. }
    destruct required; [now injection E as <- |].
    eapply set_is_object; eassumption. }
  bind_ok E name En.
  destruct (has_key name dataStructures || negb (inherited name)).
  - destruct (truthy (lookup name dataStructures)).
    + bind_ok E combined Ec. eapply rec_is_object; eassumption.
    + injection E as <-. now eexists.
  - bind_ok E combined Ec. eapply rec_is_object; eassumption.
Qed.

End SchemaShape.

(** The statements after the [switch], on an object. *)
Lemma afterSwitch_shape (root out : value) (fs : obj) :
  afterSwitch root (VObj fs) = Ok out ->
  exists fs',
    out = VObj fs' /\
    (forall d, description_of root = Ok d -> nullish d = false ->
               lookup "description" fs' = d) /\
    (forall ta, typeAttributes_of root = Ok ta -> truthy ta = true ->
                includes ta (VStr "nullable") = Ok true ->
                lookup "type" fs' = VArr [lookup "type" fs; VStr "null"]).
Proof.
  intros E. unfold afterSwitch in E.
  bind_ok E description Ed. bind_ok E schema1 E1.
  assert (H1 : exists fs1, schema1 = VObj fs1 /\
                 lookup "type" fs1 = lookup "type" fs /\
                 (nullish description = false ->
                  lookup "description" fs1 = description)).
  { destruct (nullish description).
    - injection E1 as <-. exists fs. split; [reflexivity |].
      split; [reflexivity | discriminate].
    - injection E1 as <-. eexists. split; [reflexivity |].
      split; [now rewrite lookup_obj_set |].
      intros _. apply lookup_obj_set_same. }
  destruct H1 as (fs1 & -> & Hty & Hd).
  bind_ok E typeAttr Et.
  destruct (truthy typeAttr) eqn:Etr.
  - bind_ok E nullable En. destruct nullable.
    + cbn [get bind set] in E. injection E as <-.
      eexists. split; [reflexivity |]. split.
      * intros d [= <-] Hn. rewrite lookup_obj_set. simpl. now apply Hd.
      * intros ta _ _ _. now rewrite lookup_obj_set_same, Hty.
    + injection E as <-. exists fs1. split; [reflexivity |]. split.
      * intros d [= <-]. exact Hd.
      * intros ta [= <-] _ Hi. congruence.
  - injection E as <-. exists fs1. split; [reflexivity |]. split.
    + intros d [= <-]. exact Hd.
    + intros ta [= <-] Htr. congruence.
Qed.

Lemma renderSchema_is_object (deepEqual : value -> value -> bool) (ds : obj)
    (fuel : nat) :
  forall root out, renderSchema deepEqual fuel root ds = Ok out -> is_object out.
Proof.
  induction fuel as [| fuel IH]; intros root out E; [discriminate |].
  rewrite renderSchema_S in E. bind_ok E schema Es.
  apply schemaSwitch_is_object in Es; [| exact IH].
  destruct Es as [fs ->].
  destruct (afterSwitch_shape _ _ _ E) as (fs' & -> & _). now eexists.
Qed.

(** X6.  Whenever [renderSchema] returns, it returns an object (its caller
    writes [$schema] on the result), also for a type that it does not know.
    The object carries the description of the root when the root has one,
    and a [type] that ends in ["null"] when the root is nullable. *)
Theorem renderSchema_returns_object (deepEqual : value -> value -> bool)
    (fuel : nat) (root out : value) (ds : obj) :
  renderSchema deepEqual fuel root ds = Ok out ->
  exists fs,
    out = VObj fs /\
    (forall d, description_of root = Ok d -> nullish d = false ->
               lookup "description" fs = d) /\
    (forall ta, typeAttributes_of root = Ok ta -> truthy ta = true ->
                includes ta (VStr "nullable") = Ok true ->
                exists t, lookup "type" fs = VArr [t; VStr "null"]).
Proof.
  intros E. destruct fuel as [| fuel]; [discriminate |].
  rewrite renderSchema_S in E. bind_ok E schema Es.
  apply schemaSwitch_is_object in Es;
    [| intros v s; apply renderSchema_is_object].
  destruct Es as [fs ->].
  destruct (afterSwitch_shape _ _ _ E) as (fs' & -> & Hd & Ht).
  exists fs'. split; [reflexivity |]. split; [exact Hd |].
  intros ta H1 H2 H3. eexists. eapply Ht; eassumption.
Qed.

Lemma renderSchema_returns_object_witness :
  exists fs,
    VObj [("type", VArr [VStr "string"; VStr "null"]);
          ("description", VStr "A name")] = VObj fs /\
    (forall d,
       description_of
         (VObj [("element", VStr "string");
                ("meta", VObj [("description", VStr "A name")]);
                ("attributes", VObj [("typeAttributes", VArr [VStr "nullable"])])])
       = Ok d ->
       nullish d = false -> lookup "description" fs = d) /\
    (forall ta,
       typeAttributes_of
         (VObj [("element", VStr "string");
                ("meta", VObj [("description", VStr "A name")]);
                ("attributes", VObj [("typeAttributes", VArr [VStr "nullable"])])])
       = Ok ta ->
       truthy ta = true -> includes ta (VStr "nullable") = Ok true ->
       exists t, lookup "type" fs = VArr [t; VStr "null"]).
Proof.
  exact (renderSchema_returns_object (fun _ _ => true) 1
           (VObj [("element", VStr "string");
                  ("meta", VObj [("description", VStr "A name")]);
                  ("attributes", VObj [("typeAttributes", VArr [VStr "nullable"])])])
           _ [] eq_refl).
Defined.

(** *** Mixins *)

Lemma refines_trans {A : Type} (r1 r2 r3 : result A) :
  refines r1 r2 -> refines r2 r3 -> refines r1 r3.
Proof.
  intros [-> | ->] H; [apply refines_out | exact H].
Qed.

Lemma schemaMembers_cons (rec : value -> result value) (ds : obj) (fuel : nat)
    (member : value) (rest : list value) (schema : value) (required : list value) :
  schemaMembers rec ds (S fuel) (member :: rest) schema required
  = (kind <- get member "element" ;;
     if is_str kind "ref" then
       content <- get member "content" ;;
       href <- get content "href" ;;
       name <- to_key href ;;
       refContent <- get (lookup name ds) "content" ;;
       schemaMembers rec ds fuel (concat_arg refContent ++ rest) schema required
     else if is_str kind "select" then
       schema <- selectMember rec schema member ;;
       schemaMembers rec ds fuel rest schema required
     else
       '(schema, required) <- plainMember rec schema required member ;;
       schemaMembers rec ds fuel rest schema required).
Proof. reflexivity. Qed.

Lemma exampleMembers_cons (rec : value -> result value) (ds : obj) (fuel : nat)
    (member : value) (rest : list value) (o : value) :
  exampleMembers rec ds (S fuel) (member :: rest) o
  = (kind <- get member "element" ;;
     if is_str kind "ref" then
       content <- get member "content" ;;
       href <- get content "href" ;;
       name <- to_key href ;;
       refContent <- get (lookup name ds) "content" ;;
       exampleMembers rec ds fuel (concat_arg refContent ++ rest) o
     else
       member <- (if is_str kind "select" then
                    options <- get member "content" ;;
                    option <- first options ;;
                    members <- get option "content" ;;
                    first members
                  else Ok member) ;;
       content <- get member "content" ;;
       k <- get content "key" ;;
       key <- get k "content" ;;
       v <- get content "value" ;;
       rendered <- rec v ;;
       name <- to_key key ;;
       o <- assign o name rendered ;;
       exampleMembers rec ds fuel rest o).
Proof. reflexivity. Qed.

(** In the member loop a resolved [ref] stands for the content of its
    target: the loop over the list with the reference does what the loop
    over the list with the target's members in its place does, with one
    iteration more. *)
Lemma schemaMembers_mixin (rec : value -> result value) (ds : obj)
    (m : value) (name : string) (members post : list value) :
  ref_to m name -> get (lookup name ds) "content" = Ok (VArr members) ->
  forall (n : nat) (pre : list value) (schema : value) (required : list value),
    refines (schemaMembers rec ds n (pre ++ members ++ post) schema required)
            (schemaMembers rec ds (S n) (pre ++ m :: post) schema required).
Proof.
  intros (Hm & content & href & Hc & Hh & Hk) Ht.
  assert (Hhere : forall n schema required,
             schemaMembers rec ds (S n) (m :: post) schema required
             = schemaMembers rec ds n (members ++ post) schema required).
  { intros. rewrite schemaMembers_ref by exact Hm.
    rewrite Hc. cbn [bind]. rewrite Hh. cbn [bind]. rewrite Hk. cbn [bind].
    rewrite Ht. reflexivity. }
  induction n as [| n IH]; intros pre schema required.
  - destruct pre as [| p pre]; [| apply refines_out].
    simpl app. rewrite Hhere. apply refines_refl.
  - destruct pre as [| p pre].
    { simpl app. rewrite Hhere. apply refines_refl. }
    simpl app. rewrite !schemaMembers_cons.
    repeat refines_step; rewrite ?(app_assoc (concat_arg _) pre); apply IH.
Qed.

Lemma exampleMembers_mixin (rec : value -> result value) (ds : obj)
    (m : value) (name : string) (members post : list value) :
  ref_to m name -> get (lookup name ds) "content" = Ok (VArr members) ->
  forall (n : nat) (pre : list value) (o : value),
    refines (exampleMembers rec ds n (pre ++ members ++ post) o)
            (exampleMembers rec ds (S n) (pre ++ m :: post) o).
Proof.
  intros (Hm & content & href & Hc & Hh & Hk) Ht.
  assert (Hhere : forall n o,
             exampleMembers rec ds (S n) (m :: post) o
             = exampleMembers rec ds n (members ++ post) o).
  { intros. rewrite exampleMembers_ref by exact Hm.
    rewrite Hc. cbn [bind]. rewrite Hh. cbn [bind]. rewrite Hk. cbn [bind].
    rewrite Ht. reflexivity. }
  induction n as [| n IH]; intros pre o.
  - destruct pre as [| p pre]; [| apply refines_out].
    simpl app. rewrite Hhere. apply refines_refl.
  - destruct pre as [| p pre].
    { simpl app. rewrite Hhere. apply refines_refl. }
    simpl app. rewrite !exampleMembers_cons.
    repeat refines_step; rewrite ?(app_assoc (concat_arg _) pre); apply IH.
Qed.

Lemma schemaSwitch_members (deepEqual : value -> value -> bool)
    (rec : value -> result value) (ds : obj) (fuel : nat) (root content : value)
    (kind : string) :
  get root "element" = Ok (VStr kind) -> kind = "object" \/ kind = "option" ->
  get root "content" = Ok content ->
  schemaSwitch deepEqual rec ds fuel root
  = (properties <- slice0 content ;;
     '(schema, required) <-
        schemaMembers rec ds fuel properties
          (VObj [("type", VStr "object"); ("properties", VObj [])]) [] ;;
     match required with
     | [] => Ok schema
     | _ => set schema "required" (VArr required)
     end).
Proof.
  intros He [-> | ->] Hc; unfold schemaSwitch; rewrite He; cbn; rewrite Hc;
    reflexivity.
Qed.

(** The statements after the [switch] read [meta] and [attributes] of the
    root, not its content. *)
Lemma afterSwitch_content (rfs : obj) (content schema : value) :
  afterSwitch (VObj (obj_set rfs "content" content)) schema
  = afterSwitch (VObj rfs) schema.
Proof.
  unfold afterSwitch, description_of, typeAttributes_of. cbn [get bind].
  now rewrite !lookup_obj_set.
Qed.

(** X7.  A mixin in [renderSchema].  An object (or an option) includes, by
    a [ref] member, a type of the table whose content is a list.  Its schema
    is the schema of the same element with the members of that type written
    in the place of the reference: whatever rendering the second gives
    (a schema or an exception), rendering the first gives. *)
Theorem mixin_expands_schema (deepEqual : value -> value -> bool) (fuel : nat)
    (ds : obj) (rfs : obj) (kind name : string) (m : value)
    (members pre post : list value) (r : result value) :
  lookup "element" rfs = VStr kind -> kind = "object" \/ kind = "option" ->
  lookup "content" rfs = VArr (pre ++ m :: post) ->
  ref_to m name -> get (lookup name ds) "content" = Ok (VArr members) ->
  renderSchema deepEqual fuel
    (VObj (obj_set rfs "content" (VArr (pre ++ members ++ post)))) ds = r ->
  r <> OutOfFuel ->
  renderSchema deepEqual (S fuel) (VObj rfs) ds = r.
Proof.
  intros He Hkind Hc Hm Ht E Hr.
  destruct fuel as [| fuel]; [now subst r |].
  subst r. apply refines_eq; [| exact Hr].
  rewrite !renderSchema_S.
  apply refines_bind; [| intros s; rewrite afterSwitch_content; apply refines_refl].
  rewrite (schemaSwitch_members _ _ _ _ _ (VArr (pre ++ members ++ post)) kind);
    [| cbn [get]; rewrite lookup_obj_set; simpl; now rewrite He | exact Hkind
     | cbn [get]; now rewrite lookup_obj_set_same].
  rewrite (schemaSwitch_members _ _ _ _ (VObj rfs) (VArr (pre ++ m :: post)) kind);
    [| cbn [get]; now rewrite He | exact Hkind | cbn [get]; now rewrite Hc].
  cbn [slice0 bind].
  apply refines_bind; [| intros [s req]; apply refines_refl].
  eapply refines_trans; [| apply (schemaMembers_mixin _ ds m name members post Hm Ht)].
  apply schemaMembers_refines; [| lia].
  intros v. apply renderSchema_refines. lia.
Qed.

(** A table with one type to mix in, and an object that includes it. *)
Definition timestamps_table : obj :=
  [("Timestamps", element "object" (VArr [member "created" (prim "number")]))].

Definition with_timestamps : obj :=
  [("element", VStr "object");
   ("content", VArr [ref "Timestamps"; member "id" (prim "string")])].

Lemma mixin_expands_schema_witness :
  renderSchema value_eqb 4 (VObj with_timestamps) timestamps_table
  = Ok (VObj [("type", VStr "object");
              ("properties", VObj [("created", VObj [("type", VStr "number")]);
                                   ("id", VObj [("type", VStr "string")])])]).
Proof.
  refine (mixin_expands_schema value_eqb 3 timestamps_table with_timestamps
            "object" "Timestamps" (ref "Timestamps")
            [member "created" (prim "number")] [] [member "id" (prim "string")]
            _ eq_refl (or_introl eq_refl) eq_refl _ eq_refl eq_refl _).
  - split; [reflexivity |]. eexists. eexists. repeat split; reflexivity.
  - discriminate.
Defined.

(** X8.  A mixin in [renderExample]: the example of an object that includes
    a type of the table by a [ref] member is the example of the object with
    the members of that type in the place of the reference. *)
Theorem mixin_expands_example (fuel : nat) (ds : obj) (rfs : obj) (name : string)
    (m : value) (members pre post : list value) (r : result value) :
  lookup "element" rfs = VStr "object" ->
  lookup "content" rfs = VArr (pre ++ m :: post) ->
  ref_to m name -> get (lookup name ds) "content" = Ok (VArr members) ->
  renderExample fuel
    (VObj (obj_set rfs "content" (VArr (pre ++ members ++ post)))) ds = r ->
  r <> OutOfFuel ->
  renderExample (S fuel) (VObj rfs) ds = r.
Proof.
  intros He Hc Hm Ht E Hr.
  destruct fuel as [| fuel]; [now subst r |].
  subst r. apply refines_eq; [| exact Hr].
  rewrite !renderExample_S.
  rewrite (exampleSwitch_object _ _ _ _ (VArr (pre ++ members ++ post)));
    [| cbn [get]; rewrite lookup_obj_set; simpl; now rewrite He
     | cbn [get]; now rewrite lookup_obj_set_same].
  rewrite (exampleSwitch_object _ _ _ (VObj rfs) (VArr (pre ++ m :: post)));
    [| cbn [get]; now rewrite He | cbn [get]; now rewrite Hc].
  cbn [slice0 bind].
  eapply refines_trans; [| apply (exampleMembers_mixin _ ds m name members post Hm Ht)].
  apply exampleMembers_refines; [| lia].
  intros v. apply renderExample_refines. lia.
Qed.

Lemma mixin_expands_example_witness :
  renderExample 4 (VObj with_timestamps) timestamps_table
  = Ok (VObj [("created", VNum 1); ("id", VStr "Hello, world!")]).
Proof.
  refine (mixin_expands_example 3 timestamps_table with_timestamps
            "Timestamps" (ref "Timestamps")
            [member "created" (prim "number")] [] [member "id" (prim "string")]
            _ eq_refl eq_refl _ eq_refl eq_refl _).
  - split; [reflexivity |]. eexists. eexists. repeat split; reflexivity.
  - discriminate.
Defined.

(** *** Primitive types *)

Definition primitive (kind : string) : Prop :=
  kind = "boolean" \/ kind = "string" \/ kind = "number".

(** X9.  The schema of a boolean, a string or a number that has no
    description and is not nullable: its type, and its default when the
    attributes give one that is not [null].  A default that is falsy
    ([false], [0], the empty string) is a default like any other. *)
Theorem primitive_schema (deepEqual : value -> value -> bool) (fuel : nat)
    (ds : obj) (root default : value) (kind : string) :
  get root "element" = Ok (VStr kind) -> primitive kind ->
  default_of root = Ok default -> undecorated root ->
  renderSchema deepEqual (S fuel) root ds
  = Ok (VObj (("type", VStr kind)
              :: match default with
                 | VUndefined | VNull => []
                 | _ => [("default", default)]
                 end)).
Proof.
  intros He Hk Hd Hu. rewrite renderSchema_S.
  assert (Hs : schemaSwitch deepEqual
                 (fun item => renderSchema deepEqual fuel item ds) ds fuel root
               = Ok (VObj (("type", VStr kind)
                           :: match default with
                              | VUndefined | VNull => []
                              | _ => [("default", default)]
                              end))).
  { unfold schemaSwitch. rewrite He. cbn [bind].
    replace (is_str (VStr kind) "boolean" || is_str (VStr kind) "string"
             || is_str (VStr kind) "number") with true
      by (destruct Hk as [-> | [-> | ->]]; reflexivity).
    rewrite Hd. cbn [bind]. destruct default; reflexivity. }
  rewrite Hs. cbn [bind]. now apply afterSwitch_undecorated.
Qed.

Lemma primitive_schema_witness :
  renderSchema (fun _ _ => true) 1
    (VObj [("element", VStr "boolean");
           ("attributes", VObj [("default", VBool false)])]) []
  = Ok (VObj [("type", VStr "boolean"); ("default", VBool false)]).
Proof.
  refine (primitive_schema (fun _ _ => true) 0 []
            (VObj [("element", VStr "boolean");
                   ("attributes", VObj [("default", VBool false)])])
            (VBool false) "boolean" eq_refl _ eq_refl _).
  - now left.
  - exists VUndefined, VUndefined. repeat split; try reflexivity. now left.
Defined.

(** * Further properties of [example.js] *)

(** X10.  The example of a boolean, a string or a number is the sample value
    that the element carries, whatever it is but [null]; without one it is
    [true], [1] or ["Hello, world!"].  The table is not consulted. *)
Theorem primitive_example (fuel : nat) (ds : obj) (root content : value)
    (kind : string) :
  get root "element" = Ok (VStr kind) -> primitive kind ->
  get root "content" = Ok content ->
  renderExample (S fuel) root ds
  = Ok match content with
       | VUndefined | VNull =>
           if kind =? "boolean" then VBool true
           else if kind =? "number" then VNum 1
           else VStr "Hello, world!"
       | _ => content
       end.
Proof.
  intros He Hk Hc. rewrite renderExample_S. unfold exampleSwitch.
  rewrite He. cbn [bind].
  replace (is_str (VStr kind) "boolean" || is_str (VStr kind) "string"
           || is_str (VStr kind) "number") with true
    by (destruct Hk as [-> | [-> | ->]]; reflexivity).
  rewrite Hc. cbn [bind].
  destruct content; try reflexivity;
    destruct Hk as [-> | [-> | ->]]; reflexivity.
Qed.

Lemma primitive_example_witness :
  renderExample 1 (element "number" (VNum 0)) [] = Ok (VNum 0).
Proof.
  refine (primitive_example 0 [] (element "number" (VNum 0)) (VNum 0) "number"
            eq_refl _ eq_refl).
  right. now right.
Defined.

(** *** Objects *)

Lemma is_str_inv (v : value) (s : string) : is_str v s = true -> v = VStr s.
Proof.
  destruct v; try discriminate. unfold is_str, strict_eq.
  intros H. apply String.eqb_eq in H. now subst.
Qed.

(** A member with the string key [key], whose value is [v]. *)
Definition plain_member (m : value) (key : string) (v : value) : Prop :=
  member_key m = Some key /\ member_value m = Ok v.

Lemma plain_member_inv (m : value) (key : string) (v : value) :
  plain_member m key v ->
  get m "element" = Ok (VStr "member") /\
  exists c k,
    get m "content" = Ok c /\ get c "key" = Ok k /\
    get k "content" = Ok (VStr key) /\ get c "value" = Ok v.
Proof.
  intros [Hk Hv].
  destruct (member_key_inv m key Hk) as (kind & c & k & He & Hkind & Hc & Hck & Hkc).
  apply is_str_inv in Hkind. subst kind. split; [exact He |].
  exists c, k. unfold member_value in Hv. rewrite Hc in Hv. auto.
Qed.

(** The names that an object lists in the order of their insertion: those
    that are not array indices. *)
Lemma set_all_fresh (kvs : list (string * value)) :
  forall o : obj,
    NoDup (map fst kvs) ->
    Forall (fun kv => array_index (fst kv) = None /\ has_key (fst kv) o = false) kvs ->
    set_all kvs o = o ++ kvs.
Proof.
  induction kvs as [| [k v] kvs IH]; intros o Hnd Hf.
  - now rewrite app_nil_r.
  - inversion Hnd as [| ? ? Hnotin Hnd']; subst.
    inversion Hf as [| ? ? [Hidx Hkey] Hf']; subst. simpl in Hidx, Hkey.
    unfold set_all. simpl fold_left. fold (set_all kvs (obj_set o k v)).
    unfold obj_set at 1. rewrite Hkey, Hidx.
    rewrite IH; [now rewrite <- app_assoc | exact Hnd' |].
    apply Forall_forall. intros [k' v'] Hin.
    rewrite Forall_forall in Hf'. destruct (Hf' _ Hin) as [Hi Hk]. simpl in *.
    split; [exact Hi |]. rewrite has_key_app_one, Hk, orb_false_r.
    apply String.eqb_neq. intros ->. apply Hnotin.
    apply in_map_iff. now exists (k, v').
Qed.

Lemma exampleMembers_plain (rec : value -> result value) (ds : obj)
    (ms : list value) (kvs : list (string * value)) :
  Forall2 (fun m kv => exists v, plain_member m (fst kv) v /\ rec v = Ok (snd kv))
          ms kvs ->
  Forall (fun kv => fst kv <> "__proto__") kvs ->
  forall (n : nat) (o : obj),
    length ms <= n ->
    exampleMembers rec ds n ms (VObj o) = Ok (VObj (set_all kvs o)).
Proof.
  induction 1 as [| m [key e] ms kvs (v & Hm & Hv) _ IH]; intros Hp n o Hn.
  - apply exampleMembers_nil.
  - inversion Hp as [| ? ? Hkey Hp']. subst. cbn [fst] in Hkey.
    destruct n as [| n]; [simpl in Hn; lia |].
    destruct (plain_member_inv _ _ _ Hm) as (He & c & k & Hc & Hck & Hkc & Hcv).
    rewrite exampleMembers_cons, He. cbn [bind]. simpl in Hv |- *.
    change (is_str (VStr "member") "ref") with false.
    change (is_str (VStr "member") "select") with false. cbn [bind].
    rewrite Hc. cbn [bind]. rewrite Hck. cbn [bind]. rewrite Hkc. cbn [bind].
    rewrite Hcv. cbn [bind]. rewrite Hv. cbn [bind to_key fst].
    apply String.eqb_neq in Hkey. rewrite Hkey. cbn [andb bind].
    apply IH; [exact Hp' |]. simpl in Hn. lia.
Qed.

(** X11.  The example of an object whose content is a list of members with
    string keys: every member is rendered, in the order of the list, and
    stored under its key.  A key that comes twice keeps the value of its last
    member; when no key comes twice and none is an array index, the example
    lists the keys in the order of the members.  (The key [__proto__] is
    set aside: the assignment would reach the setter of the prototype.) *)
Theorem object_example (fuel : nat) (ds : obj) (root : value) (ms : list value)
    (kvs : list (string * value)) :
  get root "element" = Ok (VStr "object") ->
  get root "content" = Ok (VArr ms) ->
  Forall2 (fun m kv => exists v, plain_member m (fst kv) v /\
                                 renderExample fuel v ds = Ok (snd kv)) ms kvs ->
  Forall (fun kv => fst kv <> "__proto__") kvs ->
  length ms <= fuel ->
  renderExample (S fuel) root ds = Ok (VObj (set_all kvs [])) /\
  (forall k, lookup k (set_all kvs [])
             = match last_write k kvs with Some v => v | None => VUndefined end) /\
  (NoDup (map fst kvs) -> Forall (fun kv => array_index (fst kv) = None) kvs ->
   renderExample (S fuel) root ds = Ok (VObj kvs)).
Proof.
  intros He Hc Hms Hp Hn.
  assert (E : renderExample (S fuel) root ds = Ok (VObj (set_all kvs []))).
  { rewrite renderExample_S, (exampleSwitch_object _ _ _ _ _ He Hc).
    cbn [slice0 bind].
    now apply (exampleMembers_plain
                 (fun item => renderExample fuel item ds) ds ms kvs). }
  split; [exact E |]. split.
  - intros k. apply lookup_set_all.
  - intros Hnd Hidx. rewrite E, set_all_fresh; [reflexivity | exact Hnd |].
    eapply Forall_impl; [| exact Hidx]. intros kv H. now split.
Qed.

Lemma object_example_witness :
  renderExample 3
    (element "object" (VArr [member "name" (prim "string");
                             member "age" (prim "number")])) []
  = Ok (VObj [("name", VStr "Hello, world!"); ("age", VNum 1)]).
Proof.
  refine (proj2 (proj2 (object_example 2 []
            (element "object" (VArr [member "name" (prim "string");
                                     member "age" (prim "number")]))
            [member "name" (prim "string"); member "age" (prim "number")]
            [("name", VStr "Hello, world!"); ("age", VNum 1)]
            eq_refl eq_refl _ _ _)) _ _).
  - repeat constructor; eexists; (split; [split; reflexivity | reflexivity]).
  - repeat constructor; discriminate.
  - simpl. lia.
  - apply distinct_NoDup. reflexivity.
  - repeat constructor.
Defined.

(** * The members of an object in [schema.js] *)

(** The type attributes of a member as a list: those of an array, none for
    a value that the test [if (typeAttributes)] rejects. *)
Definition flags_of (typeAttr : value) : option (list value) :=
  match typeAttr with
  | VArr l => Some l
  | _ => if truthy typeAttr then None else Some []
  end.

Definition has_flag (flag : string) (flags : list value) : bool :=
  existsb (strict_eq (VStr flag)) flags.

(** What the member loop makes of the schema [s] of the value of a member
    that has the description [d] and the type attributes [flags]. *)
Definition member_schema (s : obj) (d : value) (flags : list value) : obj :=
  let s1 := if nullish d then s else obj_set s "description" d in
  if has_flag "nullable" flags
  then obj_set s1 "type" (VArr [lookup "type" s1; VStr "null"])
  else s1.

(** [required] after a member with the key [key] and the attributes
    [flags]. *)
Definition add_required (required : list value) (key : string)
    (flags : list value) : list value :=
  if has_flag "required" flags
  then if existsb (strict_eq (VStr key)) required then required
       else required ++ [VStr key]
  else required.

(** A member as the loop sees it. *)
Record rendered_member : Type := Rendered {
  r_key : string;
  r_schema : obj;
  r_description : value;
  r_flags : list value
}.

Definition property_of (r : rendered_member) : string * value :=
  (r_key r, VObj (member_schema (r_schema r) (r_description r) (r_flags r))).

Definition required_keys (rs : list rendered_member) (required : list value)
    : list value :=
  fold_left (fun required r => add_required required (r_key r) (r_flags r))
            rs required.

(** The member [m] renders as [r] when [rec] renders its value. *)
Definition member_renders (rec : value -> result value) (m : value)
    (r : rendered_member) : Prop :=
  exists v typeAttr,
    plain_member m (r_key r) v /\ rec v = Ok (VObj (r_schema r)) /\
    description_of m = Ok (r_description r) /\
    typeAttributes_of m = Ok typeAttr /\ flags_of typeAttr = Some (r_flags r).

Lemma set_property_spec (fs p : obj) (key : string) (prop : value) :
  key <> "__proto__" ->
  lookup "properties" fs = VObj p ->
  set_property (VObj fs) key prop
  = Ok (VObj (obj_set fs "properties" (VObj (obj_set p key prop)))).
Proof.
  intros Hk H. unfold set_property. cbn [get bind]. rewrite H.
  now rewrite assign_set.
Qed.

Lemma update_property_spec (fs p : obj) (key : string) (x x' : value)
    (f : value -> result value) :
  lookup "properties" fs = VObj p -> lookup key p = x -> f x = Ok x' ->
  update_property (VObj fs) key f
  = Ok (VObj (obj_set fs "properties" (VObj (obj_set p key x')))).
Proof.
  intros H Hx Hf. unfold update_property. cbn [get bind]. rewrite H.
  cbn [get_dyn bind]. rewrite Hx, Hf. reflexivity.
Qed.

Lemma includes_flags (typeAttr : value) (flags : list value) (flag : string) :
  flags_of typeAttr = Some flags -> truthy typeAttr = true ->
  includes typeAttr (VStr flag) = Ok (has_flag flag flags).
Proof.
  intros H Ht. destruct typeAttr; try discriminate Ht; cbn [flags_of] in H;
    rewrite ?Ht in H; try discriminate H.
  now injection H as <-.
Qed.

Lemma flags_of_falsy (typeAttr : value) (flags : list value) :
  flags_of typeAttr = Some flags -> truthy typeAttr = false -> flags = [].
Proof.
  intros H Ht. destruct typeAttr; try discriminate Ht; cbn [flags_of] in H;
    rewrite ?Ht in H; now injection H as <-.
Qed.

Lemma plainMember_spec (rec : value -> result value) (fs p : obj)
    (required : list value) (m : value) (r : rendered_member) :
  r_key r <> "__proto__" ->
  lookup "properties" fs = VObj p -> member_renders rec m r ->
  plainMember rec (VObj fs) required m
  = Ok (VObj (obj_set fs "properties"
                (VObj (obj_set p (r_key r) (snd (property_of r))))),
        add_required required (r_key r) (r_flags r)).
Proof.
  intros Hkey Hp (v & typeAttr & Hm & Hv & Hd & Ht & Hf).
  destruct r as [key s d flags]. simpl in *.
  destruct (plain_member_inv _ _ _ Hm) as (_ & c & k & Hc & Hck & Hkc & Hcv).
  unfold plainMember. rewrite Hc. cbn [bind]. rewrite Hck. cbn [bind].
  rewrite Hkc. cbn [bind]. rewrite Hcv. cbn [bind]. rewrite Hv. cbn [bind to_key].
  rewrite (set_property_spec fs p key (VObj s) Hkey Hp). cbn [bind]. rewrite Hd.
  cbn [bind].
  set (fs1 := obj_set fs "properties" (VObj (obj_set p key (VObj s)))).
  set (s1 := if nullish d then s else obj_set s "description" d).
  assert (H1 : (if nullish d then Ok (VObj fs1)
                else update_property (VObj fs1) key
                       (fun p => set p "description" d))
               = Ok (VObj (obj_set fs "properties"
                             (VObj (obj_set p key (VObj s1)))))).
  { subst s1. destruct (nullish d); [reflexivity |].
    rewrite (update_property_spec fs1 (obj_set p key (VObj s)) key (VObj s)
               (VObj (obj_set s "description" d)));
      [| apply lookup_obj_set_same | apply lookup_obj_set_same | reflexivity].
    subst fs1. now rewrite !obj_set_twice. }
  rewrite H1. cbn [bind]. rewrite Ht. cbn [bind].
  unfold member_schema, add_required. fold s1.
  destruct (truthy typeAttr) eqn:Etr.
  - rewrite (includes_flags typeAttr flags "required" Hf Etr). cbn [bind].
    rewrite (includes_flags typeAttr flags "nullable" Hf Etr). cbn [bind].
    destruct (has_flag "nullable" flags); [| reflexivity].
    rewrite (update_property_spec _ (obj_set p key (VObj s1)) key (VObj s1)
               (VObj (obj_set s1 "type" (VArr [lookup "type" s1; VStr "null"]))));
      [| apply lookup_obj_set_same | apply lookup_obj_set_same | reflexivity].
    cbn [bind]. now rewrite !obj_set_twice.
  - rewrite (flags_of_falsy typeAttr flags Hf Etr). reflexivity.
Qed.

Lemma schemaMembers_plain (rec : value -> result value) (ds : obj)
    (ms : list value) (rs : list rendered_member) :
  Forall2 (member_renders rec) ms rs ->
  Forall (fun r => r_key r <> "__proto__") rs ->
  forall (n : nat) (fs p : obj) (required : list value),
    length ms <= n -> lookup "properties" fs = VObj p ->
    schemaMembers rec ds n ms (VObj fs) required
    = Ok (VObj (obj_set fs "properties"
                  (VObj (set_all (map property_of rs) p))),
          required_keys rs required).
Proof.
  induction 1 as [| m r ms rs Hm _ IH]; intros Hproto n fs p required Hn Hp.
  - rewrite schemaMembers_nil. simpl.
    rewrite obj_set_unchanged; [reflexivity | exact Hp | discriminate].
  - inversion Hproto as [| ? ? Hkey Hproto']. subst.
    destruct n as [| n]; [simpl in Hn; lia |].
    pose proof Hm as (v & typeAttr & Hpm & _).
    destruct (plain_member_inv _ _ _ Hpm) as (He & _).
    rewrite schemaMembers_cons, He. cbn [bind].
    change (is_str (VStr "member") "ref") with false.
    change (is_str (VStr "member") "select") with false. cbn iota.
    rewrite (plainMember_spec rec fs p required m r Hkey Hp Hm). cbn [bind].
    rewrite (IH Hproto' n _ (obj_set p (r_key r) (snd (property_of r))));
      [| simpl in Hn; lia | apply lookup_obj_set_same].
    now rewrite obj_set_twice.
Qed.

Lemma existsb_strict_eq_In (k : string) (l : list value) :
  existsb (strict_eq (VStr k)) l = true <-> In (VStr k) l.
Proof.
  rewrite existsb_exists. split.
  - intros (x & Hin & Hx). destruct x; try discriminate.
    simpl in Hx. apply String.eqb_eq in Hx. now subst.
  - intros H. exists (VStr k). split; [exact H |]. simpl. apply String.eqb_refl.
Qed.

Lemma required_keys_spec (rs : list rendered_member) :
  forall required : list value,
    NoDup required ->
    NoDup (required_keys rs required) /\
    forall k, In (VStr k) (required_keys rs required)
              <-> In (VStr k) required \/
                  exists r, In r rs /\ r_key r = k /\
                            has_flag "required" (r_flags r) = true.
Proof.
  induction rs as [| r rs IH]; intros required Hnd.
  - split; [exact Hnd |]. intros k. simpl. split; [now left |].
    intros [H | (r & [] & _)]. exact H.
  - simpl required_keys.
    fold (required_keys rs (add_required required (r_key r) (r_flags r))).
    assert (Hadd : NoDup (add_required required (r_key r) (r_flags r)) /\
                   forall k, In (VStr k) (add_required required (r_key r) (r_flags r))
                             <-> In (VStr k) required \/
                                 (r_key r = k /\
                                  has_flag "required" (r_flags r) = true)).
    { unfold add_required. destruct (has_flag "required" (r_flags r)).
      - destruct (existsb (strict_eq (VStr (r_key r))) required) eqn:E.
        + split; [exact Hnd |]. intros k. split; [now left |].
          intros [H | [<- _]]; [exact H |]. now apply existsb_strict_eq_In.
        + split.
          * apply NoDup_app; [exact Hnd | repeat constructor; intros [] |].
            intros x Hx [<- | []]. apply existsb_strict_eq_In in Hx. congruence.
          * intros k. rewrite in_app_iff. simpl. split.
            -- intros [H | [[= <-] | []]]; [now left | now right].
            -- intros [H | [<- _]]; [now left | right; now left].
      - split; [exact Hnd |]. intros k. split; [now left |].
        intros [H | [_ H]]; [exact H | discriminate]. }
    destruct Hadd as [Hnd' Hin'].
    destruct (IH _ Hnd') as [Hnd'' Hin'']. split; [exact Hnd'' |].
    intros k. rewrite Hin'', Hin'. split.
    + intros [[H | [Hk Hf]] | (r' & Hr' & Hk & Hf)].
      * now left.
      * right. exists r. repeat split; auto. now left.
      * right. exists r'. repeat split; auto. now right.
    + intros [H | (r' & [<- | Hr'] & Hk & Hf)].
      * left. now left.
      * left. right. now split.
      * right. exists r'. now repeat split.
Qed.

(** X12.  The schema of an object (or of an option) whose content is a list
    of members with string keys.  Each member contributes the schema of its
    value under its key, with the description of the member and, for a
    nullable member, with ["null"] added to the type; a key that comes twice
    keeps the schema of its last member.  [required] lists, once each and in
    the order of their first occurrence, the keys of the members that are
    marked required, and is left out when there is none.  (The key
    [__proto__] is set aside: the assignment would reach the setter of the
    prototype.) *)
Theorem object_schema (deepEqual : value -> value -> bool) (fuel : nat) (ds : obj)
    (root : value) (kind : string) (ms : list value) (rs : list rendered_member) :
  get root "element" = Ok (VStr kind) -> kind = "object" \/ kind = "option" ->
  get root "content" = Ok (VArr ms) ->
  Forall2 (member_renders (fun v => renderSchema deepEqual fuel v ds)) ms rs ->
  Forall (fun r => r_key r <> "__proto__") rs ->
  length ms <= fuel ->
  let properties := set_all (map property_of rs) [] in
  let required := required_keys rs [] in
  renderSchema deepEqual (S fuel) root ds
  = afterSwitch root
      (VObj ([("type", VStr "object"); ("properties", VObj properties)]
             ++ match required with
                | [] => []
                | _ => [("required", VArr required)]
                end)) /\
  (forall k, lookup k properties
             = match last_write k (map property_of rs) with
               | Some s => s
               | None => VUndefined
               end) /\
  NoDup required /\
  (forall k, In (VStr k) required
             <-> exists r, In r rs /\ r_key r = k /\
                           has_flag "required" (r_flags r) = true).
Proof.
  intros He Hkind Hc Hms Hproto Hn properties required.
  destruct (required_keys_spec rs [] (NoDup_nil _)) as [Hnd Hin].
  split; [| split; [| split]].
  - rewrite renderSchema_S.
    rewrite (schemaSwitch_members _ _ _ _ _ _ _ He Hkind Hc). cbn [slice0 bind].
    rewrite (schemaMembers_plain _ ds ms rs Hms Hproto fuel
               [("type", VStr "object"); ("properties", VObj [])] [] [] Hn eq_refl).
    cbn [bind]. fold properties required.
    destruct required; reflexivity.
  - intros k. apply lookup_set_all.
  - exact Hnd.
  - intros k. subst required. rewrite (Hin k). simpl. tauto.
Qed.

(** An account: a required identifier, and a name that may be null. *)
Definition account : value :=
  element "object"
    (VArr [VObj [("element", VStr "member");
                 ("attributes", VObj [("typeAttributes", VArr [VStr "required"])]);
                 ("content", VObj [("key", element "string" (VStr "id"));
                                   ("value", prim "number")])];
           VObj [("element", VStr "member");
                 ("meta", VObj [("description", VStr "Display name")]);
                 ("attributes", VObj [("typeAttributes", VArr [VStr "nullable"])]);
                 ("content", VObj [("key", element "string" (VStr "name"));
                                   ("value", prim "string")])]]).

Lemma object_schema_witness :
  renderSchema value_eqb 3 account []
  = Ok (VObj [("type", VStr "object");
              ("properties",
               VObj [("id", VObj [("type", VStr "number")]);
                     ("name", VObj [("type", VArr [VStr "string"; VStr "null"]);
                                    ("description", VStr "Display name")])]);
              ("required", VArr [VStr "id"])]).
Proof.
  refine (proj1 (object_schema value_eqb 2 [] account "object" _
                   [Rendered "id" [("type", VStr "number")] VUndefined
                      [VStr "required"];
                    Rendered "name" [("type", VStr "string")]
                      (VStr "Display name") [VStr "nullable"]]
                   eq_refl (or_introl eq_refl) eq_refl _ _ _)).
  - repeat constructor; eexists; eexists;
      (split; [split; reflexivity |]); repeat split; reflexivity.
  - repeat constructor; discriminate.
  - simpl. lia.
Defined.

(** * Named types *)

Lemma has_key_truthy (k : string) (fs : obj) :
  truthy (lookup k fs) = true -> has_key k fs = true.
Proof.
  intros H. apply has_key_of_lookup. intros E. now rewrite E in H.
Qed.

Lemma schemaSwitch_resolved (deepEqual : value -> value -> bool)
    (rec : value -> result value) (ds : obj) (fuel : nat) (root kind : value)
    (name : string) :
  get root "element" = Ok kind -> handled kind = false ->
  to_key kind = Ok name -> truthy (lookup name ds) = true ->
  schemaSwitch deepEqual rec ds fuel root
  = (combined <- inherit (lookup name ds) root ;; rec combined).
Proof.
  intros He Hh Hk Hl. apply handled_false in Hh.
  destruct Hh as (H1 & H2 & H3 & H4 & H5).
  unfold schemaSwitch. rewrite He. cbv beta iota delta [bind].
  rewrite H1, H2, H3, H4, H5. cbn [orb]. rewrite Hk. cbv beta iota.
  now rewrite (has_key_truthy _ _ Hl), Hl.
Qed.

Lemma exampleSwitch_resolved (rec : value -> result value) (ds : obj)
    (fuel : nat) (root kind : value) (name : string) :
  get root "element" = Ok kind -> handled kind = false ->
  to_key kind = Ok name -> truthy (lookup name ds) = true ->
  exampleSwitch rec ds fuel root
  = (combined <- inherit (lookup name ds) root ;; rec combined).
Proof.
  intros He Hh Hk Hl. apply handled_false in Hh.
  destruct Hh as (H1 & H2 & H3 & H4 & H5).
  unfold exampleSwitch. rewrite He. cbv beta iota delta [bind].
  rewrite H1, H2, H3, H4. cbn [orb]. rewrite Hk. cbv beta iota.
  now rewrite (has_key_truthy _ _ Hl), Hl.
Qed.

Lemma undecorated_plain (rfs : obj) :
  truthy (lookup "meta" rfs) = false -> truthy (lookup "attributes" rfs) = false ->
  undecorated (VObj rfs).
Proof.
  intros Hm Ha. exists VUndefined, VUndefined.
  unfold description_of, typeAttributes_of. cbn [get bind].
  repeat split.
  - destruct (lookup "meta" rfs); try reflexivity; discriminate.
  - destruct (lookup "attributes" rfs); try reflexivity; discriminate.
  - now left.
Qed.

(** X13.  A type that extends an object type of the table with members of
    its own, none of which repeats a key.  Its schema and its example are
    those of one object that lists the members of the base, then its own:
    the inherited properties come first. *)
Theorem derived_type_renders (deepEqual : value -> value -> bool) (fuel : nat)
    (ds rfs bfs : obj) (name : string) (bs es : list value)
    (kb ke : list string) :
  lookup "element" rfs = VStr name -> handled (VStr name) = false ->
  lookup name ds = VObj bfs ->
  lookup "content" bfs = VArr bs -> lookup "content" rfs = VArr es ->
  map member_key bs = map Some kb -> map member_key es = map Some ke ->
  kb ++ ke <> [] -> NoDup (kb ++ ke) ->
  truthy (lookup "meta" rfs) = false ->
  truthy (lookup "attributes" rfs) = false ->
  let combined :=
    VObj (obj_set (copy_fields bfs) "content" (VArr (map copy_item bs ++ es))) in
  renderSchema deepEqual (S fuel) (VObj rfs) ds
  = renderSchema deepEqual fuel combined ds /\
  renderExample (S fuel) (VObj rfs) ds = renderExample fuel combined ds.
Proof.
  intros He Hh Hl Hb Hc Hkb Hke Hne Hnd Hm Ha combined.
  assert (Hi : inherit (VObj bfs) (VObj rfs) = Ok combined).
  { rewrite (inherit_members bfs rfs bs es kb ke) by assumption.
    apply distinct_NoDup in Hnd. now rewrite Hnd. }
  assert (Hget : get (VObj rfs) "element" = Ok (VStr name))
    by (cbn [get]; now rewrite He).
  assert (Ht : truthy (lookup name ds) = true) by now rewrite Hl.
  split.
  - rewrite renderSchema_S.
    rewrite (schemaSwitch_resolved _ _ _ _ _ _ name Hget Hh eq_refl Ht).
    rewrite Hl, Hi. cbn [bind].
    destruct (renderSchema deepEqual fuel combined ds); try reflexivity.
    cbn [bind]. apply afterSwitch_undecorated. now apply undecorated_plain.
  - rewrite renderExample_S.
    rewrite (exampleSwitch_resolved _ _ _ _ _ name Hget Hh eq_refl Ht).
    now rewrite Hl, Hi.
Qed.

(** A table with a base type, and a type that extends it. *)
Definition person_table : obj :=
  [("Person", element "object" (VArr [member "name" (prim "string")]))].

Definition employee : obj :=
  [("element", VStr "Person");
   ("content", VArr [member "salary" (prim "number")])].

Lemma derived_type_renders_witness :
  renderSchema value_eqb 4 (VObj employee) person_table
  = Ok (VObj [("type", VStr "object");
              ("properties", VObj [("name", VObj [("type", VStr "string")]);
                                   ("salary", VObj [("type", VStr "number")])])]) /\
  renderExample 4 (VObj employee) person_table
  = Ok (VObj [("name", VStr "Hello, world!"); ("salary", VNum 1)]).
Proof.
  refine (derived_type_renders value_eqb 3 person_table employee
            [("element", VStr "object");
             ("content", VArr [member "name" (prim "string")])]
            "Person" [member "name" (prim "string")]
            [member "salary" (prim "number")] ["name"] ["salary"]
            eq_refl eq_refl eq_refl eq_refl eq_refl eq_refl eq_refl _ _
            eq_refl eq_refl).
  - discriminate.
  - apply distinct_NoDup. reflexivity.
Defined.

(** X14.  A nullable use of a named type gets ["null"] twice.  [inherit]
    copies the type attributes of the element over the base, so the schema of
    the combined element is already nullable when [renderSchema] returns it,
    and the statements after the [switch] wrap that type once more: the
    [type] of the result is [[[t, "null"], "null"]]. *)
Theorem named_nullable_twice (deepEqual : value -> value -> bool) (fuel : nat)
    (ds rfs bfs ra ba : obj) (name : string) (flags : list value) (out : value) :
  lookup "element" rfs = VStr name -> handled (VStr name) = false ->
  lookup name ds = VObj bfs ->
  lookup "attributes" rfs = VObj ra ->
  lookup "typeAttributes" ra = VArr flags -> has_flag "nullable" flags = true ->
  fields_of (lookup "attributes" (copy_fields bfs)) = Some ba ->
  renderSchema deepEqual (S fuel) (VObj rfs) ds = Ok out ->
  exists t, get out "type" = Ok (VArr [VArr [t; VStr "null"]; VStr "null"]).
Proof.
  intros He Hh Hl Ha Hta Hn Hba E.
  assert (Hget : get (VObj rfs) "element" = Ok (VStr name))
    by (cbn [get]; now rewrite He).
  assert (Ht : truthy (lookup name ds) = true) by now rewrite Hl.
  assert (Hroot : typeAttributes_of (VObj rfs) = Ok (VArr flags)).
  { unfold typeAttributes_of. cbn [get bind]. rewrite Ha. cbn [nullish get].
    now rewrite Hta. }
  rewrite renderSchema_S in E.
  rewrite (schemaSwitch_resolved _ _ _ _ _ _ name Hget Hh eq_refl Ht) in E.
  rewrite Hl in E. bind_ok E s Es. bind_ok Es combined Ei.
  (* the combined element has the type attributes of the root *)
  assert (Hc : typeAttributes_of combined = Ok (VArr flags)).
  { rewrite inherit_blocks in Ei. cbn [json_roundtrip bind] in Ei.
    rewrite json_copy_obj in Ei.
    bind_ok Ei emeta Em. bind_ok Ei c1 E1.
    bind_ok Ei eattr Ea. cbn [get] in Ea. injection Ea as <-. bind_ok Ei c2 E2.
    assert (H1 : holds "attributes" (lookup "attributes" (copy_fields bfs)) c1).
    { eapply merge_into_holds; [| | exact E1]; [now eexists | discriminate]. }
    destruct H1 as (fs1 & -> & H1). rewrite Ha in E2. rewrite <- H1 in Hba.
    apply (merge_into_object_ok "attributes" fs1 ra ba _ Hba) in E2.
    subst c2.
    destruct (inherit_content_holds "attributes"
                (VObj (set_all (entries ra) ba))
                (VObj (obj_set fs1 "attributes" (VObj (set_all (entries ra) ba))))
                (VObj rfs) combined)
      as (cfs & -> & Hcfs); [| discriminate | exact Ei |].
    { eexists. split; [reflexivity |]. apply lookup_obj_set_same. }
    unfold typeAttributes_of. cbn [get bind]. rewrite Hcfs. cbn [nullish get].
    rewrite lookup_merged.
    rewrite has_key_of_lookup by (rewrite Hta; discriminate). now rewrite Hta. }
  (* so its schema is nullable already *)
  destruct fuel as [| fuel]; [discriminate |].
  rewrite renderSchema_S in Es. bind_ok Es s0 Es0.
  apply schemaSwitch_is_object in Es0;
    [| intros v s'; apply renderSchema_is_object].
  destruct Es0 as [fs0 ->].
  destruct (afterSwitch_shape _ _ _ Es) as (sfs & -> & _ & Hty).
  assert (Hi : includes (VArr flags) (VStr "nullable") = Ok true).
  { cbn [includes]. unfold has_flag in Hn. now rewrite Hn. }
  specialize (Hty _ Hc eq_refl Hi) as Hty'.
  destruct (afterSwitch_shape _ _ _ E) as (ofs & -> & _ & Hty2).
  exists (lookup "type" fs0). cbn [get].
  now rewrite (Hty2 _ Hroot eq_refl Hi), Hty'.
Qed.

Lemma named_nullable_twice_witness :
  exists t,
    get (VObj [("type", VArr [VArr [VStr "string"; VStr "null"]; VStr "null"])])
        "type"
    = Ok (VArr [VArr [t; VStr "null"]; VStr "null"]).
Proof.
  exact (named_nullable_twice value_eqb 1
           [("Name", prim "string")]
           [("element", VStr "Name");
            ("attributes", VObj [("typeAttributes", VArr [VStr "nullable"])])]
           [("element", VStr "string")]
           [("typeAttributes", VArr [VStr "nullable"])] [] "Name"
           [VStr "nullable"] _
           eq_refl eq_refl eq_refl eq_refl eq_refl eq_refl eq_refl eq_refl).
Defined.

(** * The theme: [decorate]

    [decorate(api, md, slugCache, verbose)] prepares the parsed blueprint for
    the template.  The parts below are the ones that compute on the
    blueprint alone; each is a block of the function, in the value model. *)

(** ** The table of data structures *)

(** The body of the inner loop: an item that is a data structure is stored
    under its identifier.  The table is an object literal; the assignment
    that would change its prototype is outside the model. *)
Definition register (dataStructures : obj) (item : value) : result obj :=
  kind <- get item "element" ;;
  if is_str kind "dataStructure" then
    content <- get item "content" ;;
    dataStructure <- first content ;;
    meta <- get dataStructure "meta" ;;
    id <- get meta "id" ;;
    name <- to_key id ;;
    if name =? "__proto__" then Unmodelled
    else Ok (obj_set dataStructures name dataStructure)
  else Ok dataStructures.

(** The outer loop: [for (let category of Array.from(api.content || []))]. *)
Definition collectDataStructures (api : value) : result obj :=
  content <- get api "content" ;;
  categories <- array_from (if truthy content then content else VArr []) ;;
  foldM (fun dataStructures category =>
           content <- get category "content" ;;
           items <- array_from (if truthy content then content else VArr []) ;;
           foldM register items dataStructures)
        categories [].

(** What an item of a category declares: a data structure under a name, or
    nothing when it is another kind of item. *)
Definition declares (item : value) (d : option (string * value)) : Prop :=
  match d with
  | Some (name, dataStructure) =>
      get item "element" = Ok (VStr "dataStructure") /\
      name <> "__proto__" /\
      exists content meta,
        get item "content" = Ok content /\ first content = Ok dataStructure /\
        get dataStructure "meta" = Ok meta /\ get meta "id" = Ok (VStr name)
  | None =>
      exists kind, get item "element" = Ok kind /\
                   is_str kind "dataStructure" = false
  end.

Definition declared (decls : list (option (string * value)))
    : list (string * value) :=
  flat_map (fun d => match d with Some x => [x] | None => [] end) decls.

Lemma set_all_app (es es' : list (string * value)) (p : obj) :
  set_all (es ++ es') p = set_all es' (set_all es p).
Proof. apply fold_left_app. Qed.

Lemma register_declared (items : list value)
    (decls : list (option (string * value))) :
  Forall2 declares items decls ->
  forall table, foldM register items table = Ok (set_all (declared decls) table).
Proof.
  induction 1 as [| item d items decls Hd _ IH]; intros table; [reflexivity |].
  cbn [foldM]. unfold register at 1.
  destruct d as [[name dataStructure] |].
  - destruct Hd as (He & Hn & content & meta & Hc & Hf & Hm & Hi).
    rewrite He. cbn [bind]. change (is_str (VStr "dataStructure") "dataStructure")
      with true. cbn iota.
    rewrite Hc. cbn [bind]. rewrite Hf. cbn [bind]. rewrite Hm. cbn [bind].
    rewrite Hi. cbn [bind to_key].
    apply String.eqb_neq in Hn. rewrite Hn. cbn [bind]. now rewrite IH.
  - destruct Hd as (kind & He & Hk). rewrite He. cbn [bind]. rewrite Hk.
    cbn [bind]. now rewrite IH.
Qed.

Lemma collect_categories (categories : list value) (itemss : list (list value)) :
  Forall2 (fun category items => get category "content" = Ok (VArr items))
          categories itemss ->
  forall (decls : list (option (string * value))) (table : obj),
    Forall2 declares (concat itemss) decls ->
    foldM (fun dataStructures category =>
             content <- get category "content" ;;
             items <- array_from (if truthy content then content else VArr []) ;;
             foldM register items dataStructures)
          categories table
    = Ok (set_all (declared decls) table).
Proof.
  induction 1 as [| category items categories itemss Hc _ IH]; intros decls table Hd.
  - simpl in Hd. inversion Hd. reflexivity.
  - simpl concat in Hd. apply Forall2_app_inv_l in Hd.
    destruct Hd as (d1 & d2 & H1 & H2 & ->).
    cbn [foldM]. rewrite Hc. cbn [bind truthy array_from].
    rewrite (register_declared items d1 H1). cbn [bind].
    rewrite (IH d2 _ H2). unfold declared. now rewrite flat_map_app, set_all_app.
Qed.

(** X15.  The table of data structures that [decorate] hands to the two
    renderers.  Every item of every category that is a data structure is
    entered under its identifier, in the order of the document, so a name
    that is declared twice stands for its last declaration; a name that no
    item declares is not in the table. *)
Theorem collects_dataStructures (api : value) (categories : list value)
    (itemss : list (list value)) (decls : list (option (string * value))) :
  get api "content" = Ok (VArr categories) ->
  Forall2 (fun category items => get category "content" = Ok (VArr items))
          categories itemss ->
  Forall2 declares (concat itemss) decls ->
  exists table,
    collectDataStructures api = Ok table /\
    forall name,
      lookup name table
      = match last_write name (declared decls) with
        | Some dataStructure => dataStructure
        | None => VUndefined
        end.
Proof.
  intros Ha Hc Hd. exists (set_all (declared decls) []). split.
  - unfold collectDataStructures. rewrite Ha. cbn [bind truthy array_from].
    now apply (collect_categories categories itemss).
  - intros name. apply lookup_set_all.
Qed.

(** A blueprint with one category that declares the type [Person]. *)
Definition person_type : value :=
  VObj [("element", VStr "object");
        ("meta", VObj [("id", VStr "Person")]);
        ("content", VArr [member "name" (prim "string")])].

Definition blueprint : value :=
  VObj [("element", VStr "parseResult");
        ("content",
         VArr [element "category"
                 (VArr [element "copy" (VStr "Types");
                        element "dataStructure" (VArr [person_type])])])].

Lemma collects_dataStructures_witness :
  exists table,
    collectDataStructures blueprint = Ok table /\
    forall name,
      lookup name table
      = match last_write name [("Person", person_type)] with
        | Some dataStructure => dataStructure
        | None => VUndefined
        end.
Proof.
  refine (collects_dataStructures blueprint _
            [[element "copy" (VStr "Types");
              element "dataStructure" (VArr [person_type])]]
            [None; Some ("Person", person_type)] eq_refl _ _).
  - repeat constructor.
  - repeat constructor.
    + exists (VStr "copy"). split; reflexivity.
    + discriminate.
    + eexists. eexists. repeat split; reflexivity.
Defined.

(** X16.  A data structure item without content stops [decorate].  Whether
    the content is missing or empty, there is no first entry to read [meta]
    from: the loop throws a [TypeError], and nothing around it catches it. *)
Theorem empty_dataStructure_throws (api item : value)
    (categories later : list value) (itemss : list (list value))
    (decls : list (option (string * value))) (category content : value)
    (before after : list value) :
  get api "content" = Ok (VArr (categories ++ category :: later)) ->
  Forall2 (fun category items => get category "content" = Ok (VArr items))
          categories itemss ->
  get category "content" = Ok (VArr (before ++ item :: after)) ->
  Forall2 declares (concat itemss ++ before) decls ->
  get item "element" = Ok (VStr "dataStructure") ->
  get item "content" = Ok content ->
  first content = Ok VUndefined \/ first content = Throw TypeError ->
  collectDataStructures api = Throw TypeError.
Proof.
  intros Ha Hcs Hc Hd He Hic Hempty.
  unfold collectDataStructures. rewrite Ha. cbn [bind truthy array_from].
  apply Forall2_app_inv_l in Hd. destruct Hd as (d1 & d2 & H1 & H2 & ->).
  assert (Hfold : forall {A S : Type} (f : S -> A -> result S) l l' s,
             foldM f (l ++ l') s = (s' <- foldM f l s ;; foldM f l' s')).
  { intros A S f l. induction l as [| a l IH]; intros l' s; [reflexivity |].
    simpl. destruct (f s a); try reflexivity. cbn [bind]. apply IH. }
  rewrite Hfold, (collect_categories categories itemss Hcs d1 [] H1).
  cbn [bind foldM]. rewrite Hc. cbn [bind truthy array_from].
  rewrite Hfold, (register_declared before d2 H2). cbn [bind foldM].
  unfold register at 1. rewrite He. cbn [bind].
  change (is_str (VStr "dataStructure") "dataStructure") with true. cbn iota.
  rewrite Hic. cbn [bind]. destruct Hempty as [-> | ->]; reflexivity.
Qed.

Definition hollow_blueprint : value :=
  VObj [("content",
         VArr [element "category" (VArr [element "dataStructure" (VArr [])])])].

Lemma empty_dataStructure_throws_witness :
  collectDataStructures hollow_blueprint = Throw TypeError.
Proof.
  refine (empty_dataStructure_throws hollow_blueprint
            (element "dataStructure" (VArr []))
            [] [] [] [] (element "category"
                           (VArr [element "dataStructure" (VArr [])]))
            (VArr []) [] [] eq_refl _ eq_refl _ eq_refl eq_refl _).
  - constructor.
  - constructor.
  - now left.
Defined.

(** ** The parameters of an action *)

(** [knownParams] is an object literal that the loop reads under names that
    come from the document, so what it inherits counts here: the properties
    of [Object.prototype] ([inherited]), every one of which reads as a truthy
    value. *)

(** [a.concat(b)], for an array [a]. *)
Definition array_concat (a b : value) : result value :=
  match a with
  | VArr l => Ok (VArr (l ++ concat_arg b))
  | VStr _ => Unmodelled
  | _ => Throw TypeError
  end.

(** The block that hands the parameters of the resource down to an action
    without a URI template of its own; the result is the new value of
    [action.parameters]. *)
Definition inheritParameters (action resource : value) : result value :=
  attributes <- get action "attributes" ;;
  uriTemplate <- get (if truthy attributes then attributes else VObj [])
                     "uriTemplate" ;;
  parameters <- get action "parameters" ;;
  if truthy uriTemplate then Ok parameters
  else
    len <- (if truthy parameters then length_of parameters else Ok VUndefined) ;;
    if negb (truthy parameters) || negb (truthy len) then
      get resource "parameters"
    else
      rparameters <- get resource "parameters" ;;
      if truthy rparameters then array_concat rparameters parameters
      else Ok parameters.

(** One iteration of [for (let param of Array.from(reversed))]; the state is
    the names stored in [knownParams] and the array [newParams]. *)
Definition dedupe_step (st : list string * list value) (param : value)
    : result (list string * list value) :=
  let '(known, newParams) := st in
  name <- get param "name" ;;
  key <- to_key name ;;
  if inherited key || existsb (String.eqb key) known then Ok (known, newParams)
  else Ok (key :: known, newParams ++ [param]).

(** The block that removes the duplicates, from
    [(action.parameters || []).concat([]).reverse()] to
    [newParams.reverse()]. *)
Definition uniqueParameters (parameters : value) : result value :=
  reversed <- match parameters with
              | VArr l => Ok (rev l)
              | _ => if truthy parameters then Throw TypeError else Ok []
              end ;;
  '(_, newParams) <- foldM dedupe_step reversed ([], []) ;;
  Ok (VArr (rev newParams)).

Definition actionParameters (action resource : value) : result value :=
  parameters <- inheritParameters action resource ;;
  uniqueParameters parameters.

(** A list of parameters with their names, and what removing the duplicates
    is meant to leave: of every name the last parameter. *)
Definition named (pn : value * string) : Prop :=
  get (fst pn) "name" = Ok (VStr (snd pn)).

Fixpoint last_of_each (pns : list (value * string)) : list (value * string) :=
  match pns with
  | [] => []
  | (p, n) :: rest =>
      if inherited n || existsb (String.eqb n) (map snd rest)
      then last_of_each rest
      else (p, n) :: last_of_each rest
  end.

Lemma foldM_app {A S : Type} (f : S -> A -> result S) (l l' : list A) (s : S) :
  foldM f (l ++ l') s = (s' <- foldM f l s ;; foldM f l' s').
Proof.
  revert s. induction l as [| a l IH]; intros s; [reflexivity |].
  simpl. destruct (f s a); try reflexivity. cbn [bind]. apply IH.
Qed.

Lemma dedupe_spec (pns : list (value * string)) :
  Forall named pns ->
  exists known,
    foldM dedupe_step (rev (map fst pns)) ([], [])
    = Ok (known, rev (map fst (last_of_each pns))) /\
    forall n, inherited n = false ->
              existsb (String.eqb n) known = existsb (String.eqb n) (map snd pns).
Proof.
  induction 1 as [| [p n] pns Hp _ IH].
  - exists []. split; [reflexivity |]. reflexivity.
  - destruct IH as (known & E & Hk). unfold named in Hp. simpl in Hp.
    simpl map. simpl rev. rewrite foldM_app, E. cbn [bind foldM dedupe_step].
    rewrite Hp. cbn [bind to_key]. simpl last_of_each.
    destruct (inherited n) eqn:Ei.
    + cbn [orb bind]. exists known. split; [reflexivity |].
      intros n' Hn'. simpl. rewrite (Hk n' Hn').
      destruct (n' =? n) eqn:En; [| reflexivity].
      apply String.eqb_eq in En. congruence.
    + cbn [orb]. rewrite (Hk n Ei).
      destruct (existsb (String.eqb n) (map snd pns)) eqn:Ex.
      * cbn [bind]. exists known. split; [reflexivity |].
        intros n' Hn'. simpl. rewrite (Hk n' Hn').
        destruct (n' =? n) eqn:En; [| reflexivity].
        apply String.eqb_eq in En. subst n'. now rewrite Ex.
      * cbn [bind]. exists (n :: known). split; [reflexivity |].
        intros n' Hn'. simpl. now rewrite (Hk n' Hn').
Qed.

Lemma last_of_each_names (pns : list (value * string)) :
  NoDup (map snd (last_of_each pns)) /\
  forall n, In n (map snd (last_of_each pns))
            <-> In n (map snd pns) /\ inherited n = false.
Proof.
  induction pns as [| [p n] pns [IHnd IHin]].
  - split; [constructor |]. simpl. tauto.
  - simpl last_of_each. simpl map.
    destruct (inherited n) eqn:Ei; cbn [orb].
    + split; [exact IHnd |]. intros n'. rewrite IHin. simpl. split.
      * intros [H1 H2]. auto.
      * intros [[<- | H1] H2]; [congruence | auto].
    + destruct (existsb (String.eqb n) (map snd pns)) eqn:Ex.
      * split; [exact IHnd |]. intros n'. rewrite IHin. simpl. split.
        -- intros [H1 H2]. auto.
        -- intros [[<- | H1] H2]; [| auto].
           split; [| exact H2]. now apply existsb_eqb_In.
      * split.
        -- simpl. constructor; [| exact IHnd].
           rewrite IHin. intros [H _]. apply existsb_eqb_In in H. congruence.
        -- intros n'. simpl. rewrite IHin. split.
           ++ intros [<- | [H1 H2]]; auto.
           ++ intros [[<- | H1] H2]; auto.
Qed.

Lemma last_of_each_last (pns : list (value * string)) (p : value) (n : string) :
  In (p, n) (last_of_each pns) ->
  exists before after,
    pns = before ++ (p, n) :: after /\ ~ In n (map snd after).
Proof.
  induction pns as [| [p' n'] pns IH]; [intros [] |].
  simpl last_of_each.
  destruct (inherited n' || existsb (String.eqb n') (map snd pns)) eqn:E.
  - intros H. destruct (IH H) as (before & after & -> & Hn).
    now exists ((p', n') :: before), after.
  - intros [[= <- <-] | H].
    + exists [], pns. split; [reflexivity |].
      apply orb_false_iff in E. destruct E as [_ E].
      intros Hin. apply existsb_eqb_In in Hin. congruence.
    + destruct (IH H) as (before & after & -> & Hn).
      now exists ((p', n') :: before), after.
Qed.

Lemma unique_parameters_core (pns : list (value * string)) :
  Forall named pns ->
  uniqueParameters (VArr (map fst pns)) = Ok (VArr (map fst (last_of_each pns))).
Proof.
  intros H. unfold uniqueParameters. cbn [bind].
  destruct (dedupe_spec pns H) as (known & -> & _). cbn [bind].
  now rewrite rev_involutive.
Qed.

(** X17.  Removing the duplicates among the parameters of an action.  Of
    the parameters that share a name the last one is kept, and the
    parameters that are kept stay in their order.  A parameter whose name is
    a property of [Object.prototype] ([constructor], [toString], ...) is
    removed as if it had been met before. *)
Theorem unique_parameters (pns : list (value * string)) :
  Forall named pns ->
  uniqueParameters (VArr (map fst pns)) = Ok (VArr (map fst (last_of_each pns))) /\
  NoDup (map snd (last_of_each pns)) /\
  (forall n, In n (map snd (last_of_each pns))
             <-> In n (map snd pns) /\ inherited n = false) /\
  (forall p n, In (p, n) (last_of_each pns) ->
               exists before after,
                 pns = before ++ (p, n) :: after /\ ~ In n (map snd after)).
Proof.
  intros H. split; [| split; [| split]].
  - now apply unique_parameters_core.
  - apply last_of_each_names.
  - apply last_of_each_names.
  - apply last_of_each_last.
Qed.

Definition parameter (name : string) (example : value) : value :=
  VObj [("name", VStr name); ("example", example)].

Lemma unique_parameters_witness :
  uniqueParameters (VArr [parameter "id" (VNum 1); parameter "constructor" VNull;
                          parameter "page" (VNum 2); parameter "id" (VNum 3)])
  = Ok (VArr [parameter "page" (VNum 2); parameter "id" (VNum 3)]).
Proof.
  refine (proj1 (unique_parameters
                   [(parameter "id" (VNum 1), "id");
                    (parameter "constructor" VNull, "constructor");
                    (parameter "page" (VNum 2), "page");
                    (parameter "id" (VNum 3), "id")] _)).
  repeat constructor.
Defined.

(** [(action.attributes || {}).uriTemplate]. *)
Definition uriTemplate_of (action : value) : result value :=
  attributes <- get action "attributes" ;;
  get (if truthy attributes then attributes else VObj []) "uriTemplate".

Lemma last_of_each_incl (pns : list (value * string)) (pn : value * string) :
  In pn (last_of_each pns) -> In pn pns.
Proof.
  induction pns as [| [p n] pns IH]; [intros [] |]. simpl last_of_each.
  destruct (inherited n || existsb (String.eqb n) (map snd pns)).
  - intros H. right. auto.
  - intros [<- | H]; [now left | right; auto].
Qed.

Lemma last_of_each_app (rpns apns : list (value * string)) (p : value)
    (n : string) :
  In (p, n) (last_of_each (rpns ++ apns)) -> In n (map snd apns) ->
  In (p, n) (last_of_each apns).
Proof.
  intros H Hn. induction rpns as [| [p' n'] rpns IH]; [exact H |].
  simpl app in H. simpl last_of_each in H.
  destruct (inherited n' || existsb (String.eqb n') (map snd (rpns ++ apns)))
    eqn:E; [now apply IH |].
  destruct H as [[= <- <-] | H]; [| now apply IH].
  apply orb_false_iff in E. destruct E as [_ E]. exfalso.
  assert (Hin : In n' (map snd (rpns ++ apns))).
  { rewrite map_app. apply in_or_app. now right. }
  apply existsb_eqb_In in Hin. congruence.
Qed.

(** X18.  Which parameters an action ends up with.  An action that has a
    URI template of its own keeps its own parameters.  An action without one
    gets the parameters of its resource in front of its own before the
    duplicates are removed, so its own parameter wins over a parameter of
    the resource that has the same name. *)
Theorem action_parameters (afs rfs : obj) (template : value)
    (apns rpns : list (value * string)) :
  uriTemplate_of (VObj afs) = Ok template ->
  lookup "parameters" afs = VArr (map fst apns) ->
  Forall named apns -> Forall named rpns ->
  (truthy template = true ->
   actionParameters (VObj afs) (VObj rfs)
   = Ok (VArr (map fst (last_of_each apns)))) /\
  (truthy template = false ->
   truthy (lookup "parameters" rfs) = false ->
   actionParameters (VObj afs) (VObj rfs)
   = Ok (VArr (map fst (last_of_each apns)))) /\
  (truthy template = false ->
   lookup "parameters" rfs = VArr (map fst rpns) ->
   actionParameters (VObj afs) (VObj rfs)
   = Ok (VArr (map fst (last_of_each (rpns ++ apns)))) /\
   forall p n, In (p, n) (last_of_each (rpns ++ apns)) ->
               In n (map snd apns) -> In (p, n) (last_of_each apns)).
Proof.
  intros Ht Hp Ha Hr.
  assert (Hstart : actionParameters (VObj afs) (VObj rfs)
                   = (if truthy template then uniqueParameters (VArr (map fst apns))
                      else if negb (truthy (VNum (Z.of_nat (length apns))))
                           then uniqueParameters (lookup "parameters" rfs)
                           else if truthy (lookup "parameters" rfs)
                                then p <- array_concat (lookup "parameters" rfs)
                                            (VArr (map fst apns)) ;;
                                     uniqueParameters p
                                else uniqueParameters (VArr (map fst apns)))).
  { unfold actionParameters, inheritParameters. unfold uriTemplate_of in Ht.
    destruct (get (VObj afs) "attributes") as [attributes | | |];
      try discriminate Ht.
    cbn [bind] in Ht |- *. rewrite Ht. cbn [bind get]. rewrite Hp.
    destruct (truthy template); [reflexivity |].
    cbn [truthy length_of bind negb orb]. rewrite length_map.
    destruct (Z.of_nat (length apns) =? 0)%Z; cbn [negb]; [reflexivity |].
    destruct (truthy (lookup "parameters" rfs)); reflexivity. }
  split; [| split].
  - intros Htr. rewrite Hstart, Htr. now apply unique_parameters_core.
  - intros Htr Hrp. rewrite Hstart, Htr, Hrp.
    destruct apns as [| pn apns].
    + cbn [length Z.of_nat truthy Z.eqb negb]. unfold uniqueParameters.
      destruct (lookup "parameters" rfs); try discriminate Hrp;
        rewrite ?Hrp; reflexivity.
    + replace (negb (truthy (VNum (Z.of_nat (length (pn :: apns)))))) with false
        by (simpl length; symmetry; apply negb_false_iff, negb_true_iff,
            Z.eqb_neq; lia).
      now apply unique_parameters_core.
  - intros Htr Hrp. split; [| apply last_of_each_app].
    rewrite Hstart, Htr, Hrp.
    destruct apns as [| pn apns].
    + cbn [length Z.of_nat truthy Z.eqb negb]. rewrite app_nil_r.
      now apply unique_parameters_core.
    + replace (negb (truthy (VNum (Z.of_nat (length (pn :: apns)))))) with false
        by (simpl length; symmetry; apply negb_false_iff, negb_true_iff,
            Z.eqb_neq; lia).
      cbn [truthy array_concat concat_arg bind]. rewrite <- map_app.
      apply unique_parameters_core. now apply Forall_app.
Qed.

Lemma action_parameters_witness :
  actionParameters
    (VObj [("method", VStr "GET");
           ("parameters", VArr [parameter "id" (VStr "own")])])
    (VObj [("parameters", VArr [parameter "id" (VStr "shared");
                                parameter "page" (VNum 2)])])
  = Ok (VArr [parameter "page" (VNum 2); parameter "id" (VStr "own")]).
Proof.
  refine (proj1 (proj2 (proj2 (action_parameters
            [("method", VStr "GET");
             ("parameters", VArr [parameter "id" (VStr "own")])]
            [("parameters", VArr [parameter "id" (VStr "shared");
                                  parameter "page" (VNum 2)])]
            VUndefined
            [(parameter "id" (VStr "own"), "id")]
            [(parameter "id" (VStr "shared"), "id");
             (parameter "page" (VNum 2), "page")]
            eq_refl eq_refl _ _)) eq_refl eq_refl)).
  - repeat constructor.
  - repeat constructor.
Defined.

(** ** Generated schemas and bodies

    For each request and response of an example, [decorate] renders the data
    structures of the item: a JSON Schema when the item has none, and a body.
    Each rendering runs in a [try] block; with [verbose] the [catch] block
    prints the data structure and the exception. *)

(** What [console.log] receives. *)
Inductive line : Type :=
| Printed (v : value)
| Failed (e : error).

Definition schema_uri : string := "http://json-schema.org/draft-04/schema#".

Section Generated.

Variable deepEqual : value -> value -> bool.

(** [JSON.stringify(v, null, 2)]: a string, or [undefined] when [v] is. *)
Variable stringify : value -> value.

Variable dataStructures : obj.
Variable verbose : value.
Variable fuel : nat.

(** The [try] block of the schema; [item.schema] is written last. *)
Definition try_schema (item dataStructure : value) : result value :=
  content <- get dataStructure "content" ;;
  root <- first content ;;
  schema <- renderSchema deepEqual fuel root dataStructures ;;
  schema <- set schema "$schema" (VStr schema_uri) ;;
  set item "schema" (stringify schema).

(** The [try] block of the body. *)
Definition try_body (item dataStructure : value) : result value :=
  content <- get dataStructure "content" ;;
  root <- first content ;;
  example <- renderExample fuel root dataStructures ;;
  set item "body" (stringify example).

(** The [catch] block, the same for both. *)
Definition report (dataStructure : value) (e : error) (log : list line)
    : result (list line) :=
  if truthy verbose then
    content <- get dataStructure "content" ;;
    root <- first content ;;
    Ok (log ++ [Printed (stringify root); Failed e])
  else Ok log.

(** The body of [for (dataStructure of Array.from(item.content))], on the
    item and what was printed so far. *)
Definition generate (attempt : value -> value -> result value)
    (state : value * list line) (dataStructure : value)
    : result (value * list line) :=
  let (item, log) := state in
  kind <- get dataStructure "element" ;;
  if is_str kind "dataStructure" then
    match attempt item dataStructure with
    | Ok item' => Ok (item', log)
    | Throw e => log' <- report dataStructure e log ;; Ok (item, log')
    | OutOfFuel => OutOfFuel
    | Unmodelled => Unmodelled
    end
  else Ok state.

(** [if (!item.schema && item.content) { for ... }]. *)
Definition generateSchema (state : value * list line)
    : result (value * list line) :=
  schema <- get (fst state) "schema" ;;
  content <- get (fst state) "content" ;;
  if negb (truthy schema) && truthy content then
    structures <- array_from content ;;
    foldM (generate try_schema) structures state
  else Ok state.

(** [process.env.DRAFTER_EXAMPLES]: a string, or [undefined]. *)
Variable drafter_examples : value.

(** [if (item.content && !process.env.DRAFTER_EXAMPLES) { for ... }]. *)
Definition generateBody (state : value * list line)
    : result (value * list line) :=
  content <- get (fst state) "content" ;;
  if truthy content && negb (truthy drafter_examples) then
    structures <- array_from content ;;
    foldM (generate try_body) structures state
  else Ok state.

(** [dataStructure.content[0]]. *)
Definition root_of (dataStructure : value) : result value :=
  content <- get dataStructure "content" ;;
  first content.

(** What becomes of one entry of [item.content]. *)
Inductive outcome : Type :=
| Other                                (* not a data structure *)
| Produced (v : value)
| Rejected (root : value) (e : error)  (* the rendering threw *)
| Hollow.                              (* there is nothing to render *)

Definition attempts (render : value -> result value) (entry : value)
    (o : outcome) : Prop :=
  match o with
  | Other =>
      exists kind,
        get entry "element" = Ok kind /\ is_str kind "dataStructure" = false
  | Produced v =>
      get entry "element" = Ok (VStr "dataStructure") /\
      exists root, root_of entry = Ok root /\ render root = Ok v
  | Rejected root e =>
      get entry "element" = Ok (VStr "dataStructure") /\
      root_of entry = Ok root /\ render root = Throw e
  | Hollow =>
      get entry "element" = Ok (VStr "dataStructure") /\
      root_of entry = Throw TypeError
  end.

Fixpoint last_produced (os : list outcome) : option value :=
  match os with
  | [] => None
  | o :: os' =>
      match last_produced os' with
      | Some v => Some v
      | None => match o with Produced v => Some v | _ => None end
      end
  end.

Definition lines (o : outcome) : list line :=
  match o with
  | Rejected root e => [Printed (stringify root); Failed e]
  | _ => []
  end.

(** The schema with its [$schema]. *)
Definition titled (schema : value) : value :=
  match schema with
  | VObj fs => VObj (obj_set fs "$schema" (VStr schema_uri))
  | _ => schema
  end.

Section Attempts.

Variable render : value -> result value.
Variable post : value -> value.
Variable key : string.

Definition attempt (item entry : value) : result value :=
  root <- root_of entry ;;
  v <- render root ;;
  set item key (post v).

Definition stored (os : list outcome) (fs : obj) : obj :=
  match last_produced os with
  | Some v => obj_set fs key (post v)
  | None => fs
  end.

Lemma stored_produced (v : value) (os : list outcome) (fs : obj) :
  stored os (obj_set fs key (post v)) = stored (Produced v :: os) fs.
Proof.
  unfold stored. cbn [last_produced].
  destruct (last_produced os); [apply obj_set_twice | reflexivity].
Qed.

Lemma stored_skip (o : outcome) (os : list outcome) (fs : obj) :
  (forall v, o <> Produced v) -> stored os fs = stored (o :: os) fs.
Proof.
  intros H. unfold stored. cbn [last_produced].
  destruct (last_produced os); [reflexivity |].
  destruct o; try reflexivity. now destruct (H v).
Qed.

Lemma generate_other (f : value -> value -> result value)
    (state : value * list line) (entry kind : value) :
  get entry "element" = Ok kind -> is_str kind "dataStructure" = false ->
  generate f state entry = Ok state.
Proof.
  intros Hk Hs. destruct state as [item log]. unfold generate.
  rewrite Hk. cbn [bind]. now rewrite Hs.
Qed.

Lemma generate_dataStructure (f : value -> value -> result value)
    (item : value) (log : list line) (entry : value) :
  get entry "element" = Ok (VStr "dataStructure") ->
  generate f (item, log) entry =
  match f item entry with
  | Ok item' => Ok (item', log)
  | Throw e => log' <- report entry e log ;; Ok (item, log')
  | OutOfFuel => OutOfFuel
  | Unmodelled => Unmodelled
  end.
Proof. intros Hk. unfold generate. rewrite Hk. reflexivity. Qed.

Lemma report_root (entry : value) (e : error) (log : list line) :
  report entry e log =
  if truthy verbose then
    root <- root_of entry ;; Ok (log ++ [Printed (stringify root); Failed e])
  else Ok log.
Proof.
  unfold report, root_of. destruct (truthy verbose); [| reflexivity].
  now destruct (get entry "content").
Qed.

Lemma generate_attempts (content : list value) :
  forall os fs log,
    Forall2 (attempts render) content os ->
    (truthy verbose = true -> ~ In Hollow os) ->
    foldM (generate attempt) content (VObj fs, log) =
    Ok (VObj (stored os fs),
        if truthy verbose then log ++ flat_map lines os else log).
Proof.
  induction content as [| d content IH]; intros os fs log H Hv;
    inversion H as [| ? o ? os' Ho Hos]; subst.
  - cbn. rewrite app_nil_r. now destruct (truthy verbose).
  - assert (Hv' : truthy verbose = true -> ~ In Hollow os')
      by (intros T I; apply (Hv T); now right).
    cbn [foldM].
    destruct o as [| v | root e |]; cbn [attempts] in Ho.
    + destruct Ho as (kind & Hk & Hs).
      rewrite (generate_other _ _ _ _ Hk Hs). cbn [bind].
      rewrite (IH _ _ _ Hos Hv'), <- (stored_skip Other) by discriminate.
      reflexivity.
    + destruct Ho as (Hk & root & Hr & Hroot).
      rewrite (generate_dataStructure _ _ _ _ Hk).
      unfold attempt. rewrite Hr. cbn [bind]. rewrite Hroot. cbn [bind set].
      rewrite (IH _ _ _ Hos Hv'), stored_produced. reflexivity.
    + destruct Ho as (Hk & Hr & Hroot).
      rewrite (generate_dataStructure _ _ _ _ Hk).
      unfold attempt. rewrite Hr. cbn [bind]. rewrite Hroot. cbn [bind].
      rewrite report_root, Hr.
      destruct (truthy verbose) eqn:T; cbn [bind];
        rewrite (IH _ _ _ Hos Hv'), <- (stored_skip (Rejected root e))
          by discriminate.
      * cbn [flat_map lines]. now rewrite <- app_assoc.
      * reflexivity.
    + destruct Ho as (Hk & Hr).
      rewrite (generate_dataStructure _ _ _ _ Hk).
      unfold attempt. rewrite Hr. cbn [bind].
      rewrite report_root, Hr.
      destruct (truthy verbose) eqn:T; cbn [bind].
      * destruct (Hv eq_refl). now left.
      * rewrite (IH _ _ _ Hos Hv'), <- (stored_skip Hollow) by discriminate.
        reflexivity.
Qed.

Lemma generate_hollow (content : list value) :
  forall os fs log,
    truthy verbose = true ->
    Forall2 (attempts render) content os ->
    In Hollow os ->
    foldM (generate attempt) content (VObj fs, log) = Throw TypeError.
Proof.
  induction content as [| d content IH]; intros os fs log T H I;
    inversion H as [| ? o ? os' Ho Hos]; subst; [destruct I |].
  cbn [foldM].
  destruct o as [| v | root e |]; cbn [attempts] in Ho.
  - destruct Ho as (kind & Hk & Hs).
    rewrite (generate_other _ _ _ _ Hk Hs). cbn [bind].
    destruct I as [I | I]; [discriminate |]. now apply (IH os').
  - destruct Ho as (Hk & root & Hr & Hroot).
    rewrite (generate_dataStructure _ _ _ _ Hk).
    unfold attempt. rewrite Hr. cbn [bind]. rewrite Hroot. cbn [bind set].
    destruct I as [I | I]; [discriminate |]. now apply (IH os').
  - destruct Ho as (Hk & Hr & Hroot).
    rewrite (generate_dataStructure _ _ _ _ Hk).
    unfold attempt. rewrite Hr. cbn [bind]. rewrite Hroot. cbn [bind].
    rewrite report_root, T, Hr. cbn [bind].
    destruct I as [I | I]; [discriminate |]. now apply (IH os').
  - destruct Ho as (Hk & Hr).
    rewrite (generate_dataStructure _ _ _ _ Hk).
    unfold attempt. rewrite Hr. cbn [bind].
    rewrite report_root, T, Hr. reflexivity.
Qed.

End Attempts.

Lemma foldM_ext {A S : Type} (f g : S -> A -> result S) (l : list A) :
  (forall s x, f s x = g s x) -> forall s, foldM f l s = foldM g l s.
Proof.
  intros H. induction l as [| x l IH]; intros s; [reflexivity |].
  cbn [foldM]. rewrite H. destruct (g s x); cbn [bind]; auto.
Qed.

Lemma try_schema_attempt (item entry : value) :
  try_schema item entry =
  attempt (fun root => renderSchema deepEqual fuel root dataStructures)
    (fun schema => stringify (titled schema)) "schema" item entry.
Proof.
  unfold try_schema, attempt, root_of.
  destruct (get entry "content") as [content | | |]; try reflexivity.
  cbn [bind]. destruct (first content) as [root | | |]; try reflexivity.
  cbn [bind].
  destruct (renderSchema deepEqual fuel root dataStructures) as [schema | | |]
    eqn:E; try reflexivity.
  destruct (renderSchema_is_object _ _ _ _ _ E) as [fs ->]. reflexivity.
Qed.

Lemma try_body_attempt (item entry : value) :
  try_body item entry =
  attempt (fun root => renderExample fuel root dataStructures) stringify "body"
    item entry.
Proof.
  unfold try_body, attempt, root_of.
  now destruct (get entry "content").
Qed.

Lemma generate_ext (f g : value -> value -> result value) :
  (forall item entry, f item entry = g item entry) ->
  forall state entry, generate f state entry = generate g state entry.
Proof.
  intros H [item log] entry. unfold generate. now rewrite H.
Qed.

(** X25.  The schema of an item that has none is generated from the data
    structures of its content, each in its own [try] block: the first
    element of each data structure is rendered, and [item.schema] becomes
    the text of the last schema that could be rendered, with its [$schema].
    A data structure whose rendering throws is passed over, so when none
    renders the item stays as it is and no exception leaves the loop; with
    [verbose] each failure prints the element and the exception. *)
Theorem generated_schema (fs : obj) (content : list value)
    (os : list outcome) (log : list line) :
  truthy (lookup "schema" fs) = false ->
  lookup "content" fs = VArr content ->
  Forall2 (attempts (fun root => renderSchema deepEqual fuel root dataStructures))
    content os ->
  (truthy verbose = true -> ~ In Hollow os) ->
  generateSchema (VObj fs, log) =
  Ok (VObj match last_produced os with
           | Some schema => obj_set fs "schema" (stringify (titled schema))
           | None => fs
           end,
      if truthy verbose then log ++ flat_map lines os else log).
Proof.
  intros Hs Hc Hos Hv. unfold generateSchema. cbn [fst get bind].
  rewrite Hs, Hc. cbn [negb truthy andb array_from bind].
  rewrite (foldM_ext _ _ _ (generate_ext _ _ try_schema_attempt)).
  now rewrite (generate_attempts _ _ _ _ _ _ _ Hos Hv).
Qed.

(** X26.  The body of an item is generated in the same way from the
    examples of its data structures, unless [DRAFTER_EXAMPLES] is set; no
    test on [item.body] guards the loop, so a body that the item had is
    replaced by the text of the last example that could be rendered. *)
Theorem generated_body (fs : obj) (content : list value)
    (os : list outcome) (log : list line) :
  truthy drafter_examples = false ->
  lookup "content" fs = VArr content ->
  Forall2 (attempts (fun root => renderExample fuel root dataStructures))
    content os ->
  (truthy verbose = true -> ~ In Hollow os) ->
  generateBody (VObj fs, log) =
  Ok (VObj match last_produced os with
           | Some example => obj_set fs "body" (stringify example)
           | None => fs
           end,
      if truthy verbose then log ++ flat_map lines os else log).
Proof.
  intros Hd Hc Hos Hv. unfold generateBody. cbn [fst get bind].
  rewrite Hd, Hc. cbn [negb truthy andb array_from bind].
  rewrite (foldM_ext _ _ _ (generate_ext _ _ try_body_attempt)).
  now rewrite (generate_attempts _ _ _ _ _ _ _ Hos Hv).
Qed.

(** X27.  With [verbose], a data structure that has no content to render
    makes the [catch] block itself throw, when it reads the element to
    print: the exception leaves the loop, where without [verbose] the data
    structure is passed over. *)
Theorem verbose_report_throws (fs : obj) (content : list value)
    (os : list outcome) (log : list line) :
  truthy verbose = true ->
  truthy (lookup "schema" fs) = false ->
  lookup "content" fs = VArr content ->
  Forall2 (attempts (fun root => renderSchema deepEqual fuel root dataStructures))
    content os ->
  In Hollow os ->
  generateSchema (VObj fs, log) = Throw TypeError.
Proof.
  intros T Hs Hc Hos I. unfold generateSchema. cbn [fst get bind].
  rewrite Hs, Hc. cbn [negb truthy andb array_from bind].
  rewrite (foldM_ext _ _ _ (generate_ext _ _ try_schema_attempt)).
  exact (generate_hollow _ _ _ _ _ _ _ T Hos I).
Qed.

End Generated.

(** A payload with a description, a string, and an object whose mixin is
    not declared. *)
Definition payload : obj :=
  [("name", VStr "");
   ("content",
    VArr [element "copy" (VStr "text");
          element "dataStructure" (VArr [prim "string"]);
          element "dataStructure"
            (VArr [element "object" (VArr [ref "Missing"])])])].

Lemma generated_schema_witness :
  generateSchema value_eqb (fun v => v) [] (VBool true) 3 (VObj payload, []) =
  Ok (VObj (payload ++
            [("schema", VObj [("type", VStr "string");
                              ("$schema", VStr schema_uri)])]),
      [Printed (element "object" (VArr [ref "Missing"])); Failed TypeError]).
Proof.
  refine (generated_schema value_eqb (fun v => v) [] (VBool true) 3 payload _
            [Other; Produced (VObj [("type", VStr "string")]);
             Rejected (element "object" (VArr [ref "Missing"])) TypeError]
            [] eq_refl eq_refl _ _).
  - repeat constructor.
    + now exists (VStr "copy").
    + now exists (prim "string").
  - intros _ [H | [H | [H | []]]]; discriminate H.
Defined.

Lemma generated_body_witness :
  generateBody (fun v => v) [] VUndefined 3 VUndefined
    (VObj (("body", VStr "{}") :: payload), []) =
  Ok (VObj (("body", VStr "Hello, world!") :: payload), []).
Proof.
  refine (generated_body (fun v => v) [] VUndefined 3 VUndefined
            (("body", VStr "{}") :: payload) _
            [Other; Produced (VStr "Hello, world!");
             Rejected (element "object" (VArr [ref "Missing"])) TypeError]
            [] eq_refl eq_refl _ _).
  - repeat constructor.
    + now exists (VStr "copy").
    + now exists (prim "string").
  - discriminate.
Defined.

Lemma verbose_report_throws_witness :
  generateSchema value_eqb (fun v => v) [] (VBool true) 3
    (VObj [("content", VArr [prim "dataStructure"])], []) = Throw TypeError.
Proof.
  refine (verbose_report_throws value_eqb (fun v => v) [] (VBool true) 3
            [("content", VArr [prim "dataStructure"])] _ [Hollow] []
            eq_refl eq_refl eq_refl _ _).
  - repeat constructor.
  - now left.
Defined.

(** * The theme: URI templates

    [modifyUriTemplate(templateUri, parameters, colorize)] on a template
    that is a string.  Positions are integers, [-1] for a search that finds
    nothing, as in the source. *)

(** [s.indexOf(pat, from)], for a pattern that is not empty. *)
Definition indexOf (s pat : string) (from : Z) : Z :=
  match String.index (Z.to_nat from) pat s with
  | Some n => Z.of_nat n
  | None => (-1)%Z
  end.

(** [s.substring(a, b)]: both ends are brought into the string, and swapped
    when they come in the wrong order. *)
Definition js_substring (s : string) (a b : Z) : string :=
  let len := Z.of_nat (String.length s) in
  let a' := Z.max 0 (Z.min a len) in
  let b' := Z.max 0 (Z.min b len) in
  let lo := Z.min a' b' in
  let hi := Z.max a' b' in
  String.substring (Z.to_nat lo) (Z.to_nat (hi - lo)) s.

(** [s.split(",")]. *)
Fixpoint split (sep : ascii) (s : string) : list string :=
  match s with
  | EmptyString => [EmptyString]
  | String c s' =>
      if (c =? sep)%char then EmptyString :: split sep s'
      else match split sep s' with
           | piece :: pieces => String c piece :: pieces
           | [] => [String c EmptyString]
           end
  end.

(** [l.join(sep)] on strings. *)
Definition join (sep : string) (l : list string) : string := String.concat sep l.

(** [b.replace(/^\*|\*$/, "")]: one star is removed, the first character if
    it is one, the last character otherwise. *)
Fixpoint drop_final_star (s : string) : option string :=
  match s with
  | EmptyString => None
  | String c EmptyString => if (c =? "*")%char then Some EmptyString else None
  | String c s' => option_map (String c) (drop_final_star s')
  end.

Definition strip_star (b : string) : string :=
  match b with
  | String c rest =>
      if (c =? "*")%char then rest
      else match drop_final_star b with
           | Some b' => b'
           | None => b
           end
  | EmptyString => b
  end.

(** [s.replace(/\/+/g, "/")]. *)
Fixpoint collapse_slashes (s : string) : string :=
  match s with
  | EmptyString => EmptyString
  | String c s' =>
      if (c =? "/")%char then
        match s' with
        | String c' _ =>
            if (c' =? "/")%char then collapse_slashes s'
            else String c (collapse_slashes s')
        | EmptyString => String c EmptyString
        end
      else String c (collapse_slashes s')
  end.

(** The entries of [parameterBlocks]: a piece of the template as it is, or
    the parameters of an expression with what kind of expression it is. *)
Inductive block : Type :=
| Literal (s : string)
| Expression (querySet formSet reservedSet : bool) (parameters : list string).

(** The double quote. *)
Definition quote : string := String (ascii_of_nat 34) EmptyString.

(** A value inside a template literal. *)
Definition to_text (v : value) : result string :=
  match v with
  | VStr s => Ok s
  | VUndefined => Ok "undefined"
  | VNull => Ok "null"
  | VBool true => Ok "true"
  | VBool false => Ok "false"
  | VNum _ | VArr _ | VObj _ => Unmodelled
  end.

(** [a.indexOf(x)] on an array, [-1] when nothing is strictly equal. *)
Fixpoint array_indexOf (l : list value) (x : value) : Z :=
  match l with
  | [] => (-1)%Z
  | y :: l' =>
      if strict_eq y x then 0%Z
      else let i := array_indexOf l' x in
           if (i =? -1)%Z then (-1)%Z else (i + 1)%Z
  end.

Section UriTemplate.

(** [querystring.unescape], a function from strings to strings. *)
Variable unescape : string -> string.

Section Blocks.

Variable templateUri : string.
Variable parameters : list value.
Variable parameterNames : list value.
Variable colorize : bool.

Definition parameterValidator (b : string) : bool :=
  negb (array_indexOf parameterNames (VStr (unescape (strip_star b))) =? -1)%Z.

(** The [while] loop; the state is [index], [lastIndex] and
    [parameterBlocks]. *)
Fixpoint scan (fuel : nat) (index lastIndex : Z) (parameterBlocks : list block)
    : result (list block * Z) :=
  match fuel with
  | O => OutOfFuel
  | S fuel' =>
      let index := indexOf templateUri "{" index in
      if (index =? -1)%Z then Ok (parameterBlocks, lastIndex)
      else
        let parameterBlocks :=
          parameterBlocks ++ [Literal (js_substring templateUri lastIndex index)] in
        let closeIndex := indexOf templateUri "}" index in
        let querySet := (indexOf templateUri "{?" index =? index)%Z in
        let formSet := (indexOf templateUri "{&" index =? index)%Z in
        let reservedSet := (indexOf templateUri "{+" index =? index)%Z in
        let lastIndex := (closeIndex + 1)%Z in
        let index := (index + 1)%Z in
        let index := if querySet || formSet || reservedSet then (index + 1)%Z
                     else index in
        let parameterSet := js_substring templateUri index closeIndex in
        let names := filter parameterValidator (split "," parameterSet) in
        let parameterBlocks :=
          match names with
          | [] => parameterBlocks
          | _ => parameterBlocks ++ [Expression querySet formSet reservedSet names]
          end in
        scan fuel' index lastIndex parameterBlocks
  end.

(** The function given to [map] in the colorized output. *)
Definition colorized (querySet formSet : bool) (name : string) : result string :=
  let name := strip_star name in
  let i := array_indexOf parameterNames (VStr (unescape name)) in
  let param := if (i <? 0)%Z then VUndefined
               else nth (Z.to_nat i) parameters VUndefined in
  example <- get param "example" ;;
  if querySet || formSet then
    text <- to_text (if truthy example then example else VStr "") ;;
    Ok ("<span class=" ++ quote ++ "hljs-attribute" ++ quote ++ ">" ++ name
        ++ "=</span><span class=" ++ quote ++ "hljs-literal" ++ quote ++ ">"
        ++ text ++ "</span>")%string
  else
    text <- to_text (if truthy example then example else VStr name) ;;
    Ok ("<span class=" ++ quote ++ "hljs-attribute" ++ quote ++ " title="
        ++ quote ++ name ++ quote ++ ">" ++ text ++ "</span>")%string.

(** The function given to [reduce]: what a block adds to [uri]. *)
Definition segment (v : block) : result string :=
  match v with
  | Literal s => Ok s
  | Expression querySet formSet reservedSet names =>
      if colorize then
        spans <- mapM (colorized querySet formSet) names ;;
        Ok ((if querySet then "?" else "") ++ (if formSet then "&" else "")
            ++ join "&" spans)%string
      else
        Ok ("{" ++ (if querySet then "?" else "") ++ (if formSet then "&" else "")
            ++ (if reservedSet then "+" else "") ++ join "," names ++ "}")%string
  end.

End Blocks.

Definition modifyUriTemplate (templateUri : string) (parameters colorize : value)
    : result string :=
  params <- array_from parameters ;;
  parameterNames <- mapM (fun param => get param "name") params ;;
  '(parameterBlocks, lastIndex) <-
     scan templateUri parameterNames (S (String.length templateUri)) 0 0 [] ;;
  let parameterBlocks :=
    parameterBlocks
    ++ [Literal (js_substring templateUri lastIndex
                   (Z.of_nat (String.length templateUri)))] in
  uri <- mapM (segment params parameterNames (truthy colorize)) parameterBlocks ;;
  Ok (collapse_slashes (join "" uri)).

End UriTemplate.

(** ** Strings *)

Module Strings.

#[local] Open Scope string_scope.

Lemma append_nil_r (a : string) : a ++ "" = a.
Proof. induction a as [| c a IH]; simpl; congruence. Qed.

Lemma append_assoc (a b c : string) : (a ++ b) ++ c = a ++ (b ++ c).
Proof. induction a as [| x a IH]; simpl; congruence. Qed.

Lemma length_append (a b : string) :
  String.length (a ++ b) = String.length a + String.length b.
Proof. induction a as [| x a IH]; simpl; congruence. Qed.

(** A search that starts where [b] starts, in [a ++ b]. *)
Lemma index_skip (a b pat : string) (n : nat) :
  String.index (String.length a + n) pat (a ++ b)
  = option_map (Nat.add (String.length a)) (String.index n pat b).
Proof.
  induction a as [| x a IH]; simpl.
  - now destruct (String.index n pat b).
  - rewrite IH. now destruct (String.index n pat b).
Qed.

Lemma substring_all (n : nat) (b : string) :
  String.length b <= n -> String.substring 0 n b = b.
Proof.
  revert n. induction b as [| x b IH]; intros n Hn.
  - now destruct n.
  - destruct n as [| n]; [simpl in Hn; lia |]. simpl. f_equal. apply IH.
    simpl in Hn. lia.
Qed.

Lemma substring_prefix (b c : string) :
  String.substring 0 (String.length b) (b ++ c) = b.
Proof.
  induction b as [| x b IH]; simpl.
  - now destruct c.
  - now rewrite IH.
Qed.

Lemma substring_middle (a b c : string) :
  String.substring (String.length a) (String.length b) (a ++ b ++ c) = b.
Proof.
  induction a as [| x a IH]; simpl; [apply substring_prefix | exact IH].
Qed.

Fixpoint has_char (c : ascii) (s : string) : bool :=
  match s with
  | EmptyString => false
  | String x s' => (x =? c)%char || has_char c s'
  end.

Lemma has_char_append (c : ascii) (a b : string) :
  has_char c (a ++ b) = has_char c a || has_char c b.
Proof. induction a as [| x a IH]; simpl; [reflexivity |]. now rewrite IH, orb_assoc. Qed.

Lemma prefix_char (c x : ascii) (s : string) :
  String.prefix (String c "") (String x s) = (x =? c)%char.
Proof.
  destruct (x =? c)%char eqn:E.
  - apply Ascii.eqb_eq in E. subst x. apply String.prefix_correct.
    destruct s; reflexivity.
  - destruct (String.prefix (String c "") (String x s)) eqn:P; [| reflexivity].
    apply String.prefix_correct in P. simpl in P. injection P as P _.
    subst x. now rewrite Ascii.eqb_refl in E.
Qed.

(** The first occurrence of a character. *)
Lemma index_char (c : ascii) (t r : string) :
  has_char c t = false ->
  String.index 0 (String c "") (t ++ String c r) = Some (String.length t).
Proof.
  induction t as [| x t IH]; intros H.
  - simpl append. cbn [String.index]. now rewrite prefix_char, Ascii.eqb_refl.
  - simpl in H. apply orb_false_iff in H. destruct H as [Hx Ht].
    simpl append. cbn [String.index]. rewrite prefix_char, Hx, (IH Ht).
    reflexivity.
Qed.

Lemma index_char_none (c : ascii) (t : string) :
  has_char c t = false -> String.index 0 (String c "") t = None.
Proof.
  induction t as [| x t IH]; intros H; [reflexivity |].
  simpl in H. apply orb_false_iff in H. destruct H as [Hx Ht].
  cbn [String.index]. now rewrite prefix_char, Hx, (IH Ht).
Qed.

(** A search finds its pattern at once exactly when the string starts with
    it. *)
Lemma index_here (pat s : string) (x : ascii) :
  String.index 0 pat (String x s) = Some 0
  <-> String.prefix pat (String x s) = true.
Proof.
  cbn [String.index]. destruct (String.prefix pat (String x s)).
  - tauto.
  - split; [| discriminate].
    destruct (String.index 0 pat s); discriminate.
Qed.

Lemma prefix_two (c d x y : ascii) (s : string) :
  String.prefix (String c (String d "")) (String x (String y s))
  = (x =? c)%char && (y =? d)%char.
Proof.
  destruct ((x =? c)%char && (y =? d)%char) eqn:E.
  - apply andb_true_iff in E. destruct E as [E1 E2].
    apply Ascii.eqb_eq in E1, E2. subst. apply String.prefix_correct.
    destruct s; reflexivity.
  - destruct (String.prefix _ _) eqn:P; [| reflexivity].
    apply String.prefix_correct in P. simpl in P. injection P as P1 P2 _.
    subst. now rewrite !Ascii.eqb_refl in E.
Qed.

Lemma prefix_short (c d x : ascii) :
  String.prefix (String c (String d "")) (String x "") = false.
Proof.
  destruct (String.prefix _ _) eqn:P; [| reflexivity].
  apply String.prefix_correct in P. discriminate.
Qed.

(** [split] undoes [join] on pieces that do not hold the separator. *)
Lemma split_plain (sep : ascii) (s : string) :
  has_char sep s = false -> split sep s = [s].
Proof.
  induction s as [| x s IH]; intros H; [reflexivity |].
  simpl in H. apply orb_false_iff in H. destruct H as [Hx Hs].
  simpl. now rewrite Hx, (IH Hs).
Qed.

Lemma split_append (sep : ascii) (a b : string) :
  has_char sep a = false ->
  split sep (a ++ String sep b) = a :: split sep b.
Proof.
  induction a as [| x a IH]; intros H.
  - simpl. now rewrite Ascii.eqb_refl.
  - simpl in H. apply orb_false_iff in H. destruct H as [Hx Ha].
    simpl. now rewrite Hx, (IH Ha).
Qed.

Lemma split_join (sep : ascii) (names : list string) :
  names <> [] -> Forall (fun n => has_char sep n = false) names ->
  split sep (join (String sep "") names) = names.
Proof.
  intros Hne H. induction H as [| n names Hn H IH]; [congruence |].
  destruct names as [| n' names].
  - simpl. now apply split_plain.
  - change (join (String sep "") (n :: n' :: names))
      with (n ++ String sep (join (String sep "") (n' :: names))).
    rewrite split_append by exact Hn. f_equal. apply IH. discriminate.
Qed.

(** What [collapse_slashes] returns has no two slashes in a row. *)
Fixpoint double_slash (s : string) : bool :=
  match s with
  | String c (String c' _ as s') =>
      ((c =? "/")%char && (c' =? "/")%char) || double_slash s'
  | _ => false
  end.

Lemma double_slash_two (c c' : ascii) (s : string) :
  double_slash (String c (String c' s))
  = ((c =? "/")%char && (c' =? "/")%char) || double_slash (String c' s).
Proof. reflexivity. Qed.

Lemma collapse_slashes_two (c c' : ascii) (s : string) :
  collapse_slashes (String c (String c' s))
  = if (c =? "/")%char then
      if (c' =? "/")%char then collapse_slashes (String c' s)
      else String c (collapse_slashes (String c' s))
    else String c (collapse_slashes (String c' s)).
Proof. reflexivity. Qed.

Lemma collapse_slashes_head (s : string) (c : ascii) :
  exists s', collapse_slashes (String c s) = String c s'.
Proof.
  revert c. induction s as [| c' s IH]; intros c.
  - simpl. destruct (c =? "/")%char; now eexists.
  - rewrite collapse_slashes_two.
    destruct (c =? "/")%char eqn:E; [| now eexists].
    destruct (c' =? "/")%char eqn:E'; [| now eexists].
    destruct (IH c') as [s' Hs']. rewrite Hs'.
    apply Ascii.eqb_eq in E, E'. exists s'. congruence.
Qed.

Lemma collapse_slashes_single (s : string) :
  double_slash (collapse_slashes s) = false.
Proof.
  induction s as [| c s IH]; [reflexivity |].
  destruct s as [| c' s].
  - simpl. now destruct (c =? "/")%char.
  - rewrite collapse_slashes_two.
    destruct (collapse_slashes_head s c') as [s' Hs']. rewrite Hs' in IH |- *.
    destruct (c =? "/")%char eqn:E.
    + destruct (c' =? "/")%char eqn:E'; [exact IH |].
      now rewrite double_slash_two, E', andb_false_r.
    + now rewrite double_slash_two, E.
Qed.

Lemma collapse_slashes_plain (s : string) :
  double_slash s = false -> collapse_slashes s = s.
Proof.
  induction s as [| c s IH]; intros H; [reflexivity |].
  destruct s as [| c' s].
  - simpl. now destruct (c =? "/")%char.
  - rewrite double_slash_two in H. apply orb_false_iff in H.
    destruct H as [H1 H2].
    rewrite collapse_slashes_two, (IH H2).
    destruct (c =? "/")%char; [| reflexivity].
    simpl in H1. now rewrite H1.
Qed.

End Strings.

(** ** Templates whose expressions are closed *)

Module UriTemplates.

Import Strings.
#[local] Open Scope string_scope.

(** An expression of a template: [{names}], [{?names}], [{&names}] or
    [{+names}]. *)
Record expression : Type := Expr { operator : string; names : list string }.

Definition source (e : expression) : string :=
  String "{" (operator e ++ join "," (names e) ++ "}").

Definition starts_with_operator (s : string) : bool :=
  match s with
  | String c _ => (c =? "?")%char || (c =? "&")%char || (c =? "+")%char
  | EmptyString => false
  end.

Definition plain_name (n : string) : Prop :=
  has_char "{" n = false /\ has_char "}" n = false /\ has_char "," n = false.

Definition well_formed (e : expression) : Prop :=
  ((operator e = "" /\ starts_with_operator (join "," (names e)) = false)
   \/ operator e = "?" \/ operator e = "&" \/ operator e = "+") /\
  names e <> [] /\ Forall plain_name (names e).

(** A template: pieces of text, each followed by an expression, and the text
    after the last expression. *)
Definition template (segments : list (string * expression)) (rest : string)
    : string :=
  fold_right (fun te acc => fst te ++ source (snd te) ++ acc) rest segments.

Definition plain_text (segments : list (string * expression)) : Prop :=
  Forall (fun te => has_char "{" (fst te) = false /\ well_formed (snd te)) segments.

Section Known.

Variable unescape : string -> string.

(** The names of the parameters. *)
Variable pnames : list string.

(** A name of the template is known when, without its star and unescaped,
    it is the name of a parameter. *)
Definition known (n : string) : bool :=
  existsb (String.eqb (unescape (strip_star n))) pnames.

(** What is left of an expression: the names that are known, or nothing at
    all when none is. *)
Definition expanded (e : expression) : string :=
  match filter known (names e) with
  | [] => ""
  | kept => String "{" (operator e ++ join "," kept ++ "}")
  end.

Definition expansion (segments : list (string * expression)) (rest : string)
    : string :=
  fold_right (fun te acc => fst te ++ expanded (snd te) ++ acc) rest segments.

Lemma array_indexOf_range (l : list value) (x : value) :
  (-1 <= array_indexOf l x)%Z.
Proof.
  induction l as [| y l IH]; simpl; [lia |].
  destruct (strict_eq y x); [lia |].
  destruct (array_indexOf l x =? -1)%Z; lia.
Qed.

Lemma array_indexOf_names (x : string) :
  (array_indexOf (map VStr pnames) (VStr x) =? -1)%Z
  = negb (existsb (String.eqb x) pnames).
Proof.
  induction pnames as [| y l IH]; [reflexivity |].
  simpl. rewrite (String.eqb_sym x y). destruct (y =? x); [reflexivity |].
  simpl. pose proof (array_indexOf_range (map VStr l) (VStr x)) as Hr.
  destruct (array_indexOf (map VStr l) (VStr x) =? -1)%Z eqn:E.
  - now rewrite <- IH.
  - rewrite <- IH. apply Z.eqb_neq in E. apply Z.eqb_neq. lia.
Qed.

Lemma parameterValidator_known (n : string) :
  parameterValidator unescape (map VStr pnames) n = known n.
Proof.
  unfold parameterValidator, known. rewrite array_indexOf_names.
  apply negb_involutive.
Qed.

Lemma filter_known (l : list string) :
  filter (parameterValidator unescape (map VStr pnames)) l = filter known l.
Proof.
  induction l as [| n l IH]; [reflexivity |].
  simpl. now rewrite parameterValidator_known, IH.
Qed.

(** The blocks that the loop collects from the segments. *)
Definition blocks_of (segments : list (string * expression)) : list block :=
  flat_map (fun te =>
              Literal (fst te)
              :: match filter known (names (snd te)) with
                 | [] => []
                 | kept => [Expression (operator (snd te) =? "?")
                                       (operator (snd te) =? "&")
                                       (operator (snd te) =? "+") kept]
                 end)%list
           segments.

Definition body (segments : list (string * expression)) : string :=
  template segments "".

Lemma template_body (segments : list (string * expression)) (rest : string) :
  template segments rest = body segments ++ rest.
Proof.
  unfold body. induction segments as [| [t e] segments IH]; [reflexivity |].
  change (template ((t, e) :: segments) rest)
    with (t ++ source e ++ template segments rest).
  change (template ((t, e) :: segments) "")
    with (t ++ source e ++ template segments "").
  now rewrite IH, !append_assoc.
Qed.

Lemma indexOf_after (a b pat : string) :
  indexOf (a ++ b) pat (Z.of_nat (String.length a))
  = match String.index 0 pat b with
    | Some n => Z.of_nat (String.length a + n)
    | None => (-1)%Z
    end.
Proof.
  unfold indexOf. rewrite Nat2Z.id.
  rewrite <- (Nat.add_0_r (String.length a)) at 1. rewrite index_skip.
  now destruct (String.index 0 pat b).
Qed.

Lemma js_substring_middle (a b c : string) :
  js_substring (a ++ b ++ c) (Z.of_nat (String.length a))
    (Z.of_nat (String.length a + String.length b)) = b.
Proof.
  unfold js_substring. rewrite !length_append.
  set (la := String.length a). set (lb := String.length b).
  set (lc := String.length c).
  replace (Z.min (Z.max 0 (Z.min (Z.of_nat la) (Z.of_nat (la + (lb + lc)))))
             (Z.max 0 (Z.min (Z.of_nat (la + lb)) (Z.of_nat (la + (lb + lc))))))
    with (Z.of_nat la) by lia.
  replace (Z.max (Z.max 0 (Z.min (Z.of_nat la) (Z.of_nat (la + (lb + lc)))))
             (Z.max 0 (Z.min (Z.of_nat (la + lb)) (Z.of_nat (la + (lb + lc))))))
    with (Z.of_nat (la + lb)) by lia.
  replace (Z.of_nat (la + lb) - Z.of_nat la)%Z with (Z.of_nat lb) by lia.
  rewrite !Nat2Z.id. apply substring_middle.
Qed.

(** Whether the template has [pat], a brace and an operator, at the brace
    that the loop has found. *)
Lemma indexOf_operator (a s : string) (c d x y : ascii) :
  (indexOf (a ++ String x (String y s)) (String c (String d ""))
     (Z.of_nat (String.length a)) =? Z.of_nat (String.length a))%Z
  = (x =? c)%char && (y =? d)%char.
Proof.
  rewrite indexOf_after, <- (prefix_two c d x y s).
  destruct (String.prefix (String c (String d "")) (String x (String y s))) eqn:P.
  - apply index_here in P. rewrite P, Nat.add_0_r. apply Z.eqb_refl.
  - destruct (String.index 0 (String c (String d "")) (String x (String y s)))
      as [[| n] |] eqn:E.
    + apply index_here in E. congruence.
    + apply Z.eqb_neq. lia.
    + apply Z.eqb_neq. lia.
Qed.

(** One turn of the loop, with what the turn computes given names. *)
Lemma scan_stop (T : string) (pn : list value) (fuel : nat) (index lastIndex : Z)
    (B : list block) :
  indexOf T "{" index = (-1)%Z ->
  scan unescape T pn (S fuel) index lastIndex B = Ok (B, lastIndex).
Proof. intros H. cbn [scan]. now rewrite H. Qed.

Lemma scan_step (T : string) (pn : list value) (fuel : nat)
    (index lastIndex i close : Z) (q f r : bool) (B : list block) :
  indexOf T "{" index = i -> i <> (-1)%Z ->
  indexOf T "}" i = close ->
  (indexOf T "{?" i =? i)%Z = q ->
  (indexOf T "{&" i =? i)%Z = f ->
  (indexOf T "{+" i =? i)%Z = r ->
  scan unescape T pn (S fuel) index lastIndex B
  = let index' := if q || f || r then (i + 1 + 1)%Z else (i + 1)%Z in
    scan unescape T pn fuel index' (close + 1)%Z
      ((B ++ [Literal (js_substring T lastIndex i)])
       ++ match filter (parameterValidator unescape pn)
                  (split "," (js_substring T index' close)) with
          | [] => []
          | kept => [Expression q f r kept]
          end)%list.
Proof.
  intros Hi Hne Hc Hq Hf Hr. cbn [scan]. rewrite Hi.
  apply Z.eqb_neq in Hne. rewrite Hne, Hc, Hq, Hf, Hr. cbn zeta.
  destruct (filter (parameterValidator unescape pn)
              (split "," (js_substring T (if q || f || r then (i + 1 + 1)%Z
                                          else (i + 1)%Z) close)));
    [now rewrite app_nil_r | reflexivity].
Qed.

Lemma has_char_join (c : ascii) (l : list string) :
  (c =? ",")%char = false -> Forall (fun n => has_char c n = false) l ->
  has_char c (join "," l) = false.
Proof.
  intros Hc H. induction H as [| n l Hn H IH]; [reflexivity |].
  destruct l as [| n' l]; [exact Hn |].
  change (join "," (n :: n' :: l)) with (n ++ String "," (join "," (n' :: l))).
  rewrite has_char_append, Hn. cbn [has_char orb].
  rewrite Ascii.eqb_sym, Hc. exact IH.
Qed.

Lemma second_char (e : expression) (R : string) :
  well_formed e ->
  exists y s,
    operator e ++ join "," (names e) ++ String "}" R = String y s /\
    (y =? "?")%char = (operator e =? "?") /\
    (y =? "&")%char = (operator e =? "&") /\
    (y =? "+")%char = (operator e =? "+").
Proof.
  intros ([[Ho Hs] | [Ho | [Ho | Ho]]] & _); rewrite Ho.
  - cbn [append]. destruct (join "," (names e)) as [| c N] eqn:E.
    + eexists. eexists. split; [reflexivity |]. repeat split; reflexivity.
    + cbn [append]. eexists. eexists. split; [reflexivity |].
      simpl in Hs. apply orb_false_iff in Hs. destruct Hs as [Hs H3].
      apply orb_false_iff in Hs. destruct Hs as [H1 H2].
      rewrite H1, H2, H3. repeat split; reflexivity.
  - eexists. eexists. split; [reflexivity |]. repeat split; reflexivity.
  - eexists. eexists. split; [reflexivity |]. repeat split; reflexivity.
  - eexists. eexists. split; [reflexivity |]. repeat split; reflexivity.
Qed.

Definition flagged (e : expression) : bool :=
  (operator e =? "?") || (operator e =? "&") || (operator e =? "+").

Lemma operator_length (e : expression) :
  well_formed e ->
  String.length (operator e) = (if flagged e then 1%nat else 0%nat) /\
  has_char "{" (operator e) = false /\ has_char "}" (operator e) = false.
Proof.
  intros ([[Ho Hs] | [Ho | [Ho | Ho]]] & _); unfold flagged; rewrite Ho;
    repeat split; reflexivity.
Qed.

Ltac assoc := repeat rewrite append_assoc; cbn [append];
              repeat rewrite append_assoc; reflexivity.

Lemma scan_segments (rest : string) (segments : list (string * expression)) :
  has_char "{" rest = false ->
  plain_text segments ->
  forall (d1 d2 : string) (B : list block) (fuel : nat),
    has_char "{" d2 = false ->
    length segments < fuel ->
    scan unescape (d1 ++ d2 ++ template segments rest) (map VStr pnames) fuel
      (Z.of_nat (String.length d1))
      (Z.of_nat (String.length d1 + String.length d2)) B
    = Ok ((B ++ blocks_of segments)%list,
          Z.of_nat (String.length d1 + String.length d2
                    + String.length (body segments))).
Proof.
  intros Hrest Hsegs. induction Hsegs as [| [t e] segs [Ht He] _ IH];
    intros d1 d2 B fuel Hd2 Hfuel.
  - destruct fuel as [| fuel]; [simpl in Hfuel; lia |].
    rewrite scan_stop.
    + simpl. now rewrite app_nil_r, Nat.add_0_r.
    + cbn [template fold_right]. rewrite indexOf_after.
      rewrite index_char_none; [reflexivity |].
      now rewrite has_char_append, Hd2, Hrest.
  - destruct fuel as [| fuel]; [simpl in Hfuel; lia |].
    simpl fst in Ht. simpl snd in He.
    set (N := join "," (names e)).
    set (R := template segs rest).
    set (A := d1 ++ d2 ++ t).
    set (T := d1 ++ d2 ++ template ((t, e) :: segs) rest).
    destruct (second_char e R He) as (y & s & Hys & Hq & Hf & Hr).
    fold N in Hys.
    destruct (operator_length e He) as (Hlen & Hop1 & Hop2).
    destruct He as (_ & Hne & Hnames).
    assert (HN1 : has_char "{" N = false).
    { apply has_char_join; [reflexivity |].
      eapply Forall_impl; [| exact Hnames]. now intros n (H & _). }
    assert (HN2 : has_char "}" N = false).
    { apply has_char_join; [reflexivity |].
      eapply Forall_impl; [| exact Hnames]. now intros n (_ & H & _). }
    assert (HN3 : Forall (fun n => has_char "," n = false) (names e)).
    { eapply Forall_impl; [| exact Hnames]. now intros n (_ & _ & H). }
    assert (V3 : T = A ++ String "{" (operator e ++ N ++ String "}" R)).
    { subst T A N R. cbn [template fold_right fst snd]. unfold source. assoc. }
    assert (LA : String.length A
                 = (String.length d1 + String.length d2 + String.length t)%nat).
    { subst A. rewrite !length_append. lia. }
    (* the brace *)
    assert (Hi : indexOf T "{" (Z.of_nat (String.length d1))
                 = Z.of_nat (String.length A)).
    { replace T with (d1 ++ ((d2 ++ t)
                             ++ String "{" (operator e ++ N ++ String "}" R)))
        by (rewrite V3; subst A; assoc).
      rewrite indexOf_after, index_char
        by now rewrite has_char_append, Hd2, Ht.
      f_equal. rewrite LA, length_append. lia. }
    (* what follows it *)
    assert (Hc : indexOf T "}" (Z.of_nat (String.length A))
                 = Z.of_nat (String.length A + 1
                             + String.length (operator e) + String.length N)).
    { rewrite V3.
      replace (String "{" (operator e ++ N ++ String "}" R))
        with (String "{" (operator e ++ N) ++ String "}" R) by assoc.
      rewrite indexOf_after, index_char.
      - cbn [String.length]. rewrite length_append. f_equal. lia.
      - cbn [has_char]. now rewrite has_char_append, Hop2, HN2. }
    assert (Hflag : forall c : ascii,
               (indexOf T (String "{" (String c "")) (Z.of_nat (String.length A))
                =? Z.of_nat (String.length A))%Z = (y =? c)%char).
    { intros c. rewrite V3, Hys, indexOf_operator. now rewrite Ascii.eqb_refl. }
    rewrite (scan_step T _ fuel _ _ _ _ _ _ _ B Hi ltac:(lia) Hc
               (Hflag "?"%char) (Hflag "&"%char) (Hflag "+"%char)).
    cbn zeta. rewrite Hq, Hf, Hr.
    set (a := A ++ String "{" (operator e)).
    assert (La : String.length a
                 = (String.length A + 1 + String.length (operator e))%nat).
    { subst a. rewrite length_append. cbn [String.length]. lia. }
    fold (flagged e).
    assert (Hindex : (if flagged e
                      then (Z.of_nat (String.length A) + 1 + 1)%Z
                      else (Z.of_nat (String.length A) + 1)%Z)
                     = Z.of_nat (String.length a)).
    { rewrite La, Hlen. destruct (flagged e); lia. }
    rewrite Hindex.
    assert (V4 : T = a ++ N ++ String "}" R).
    { rewrite V3. subst a. assoc. }
    (* the literal and the names *)
    assert (Hlit : js_substring T (Z.of_nat (String.length d1 + String.length d2))
                     (Z.of_nat (String.length A)) = t).
    { replace T with ((d1 ++ d2) ++ t
                      ++ String "{" (operator e ++ N ++ String "}" R))
        by (rewrite V3; subst A; assoc).
      rewrite <- length_append.
      replace (String.length A) with (String.length (d1 ++ d2) + String.length t)%nat
        by (rewrite LA, length_append; lia).
      apply js_substring_middle. }
    assert (Hset : js_substring T (Z.of_nat (String.length a))
                     (Z.of_nat (String.length A + 1 + String.length (operator e)
                                + String.length N)) = N).
    { rewrite V4, <- La. apply js_substring_middle. }
    rewrite Hlit, Hset. subst N. rewrite split_join by assumption.
    rewrite filter_known.
    (* the rest of the template *)
    set (N := join "," (names e)) in *.
    replace (Z.of_nat (String.length A + 1 + String.length (operator e)
                       + String.length N) + 1)%Z
      with (Z.of_nat (String.length a + String.length (N ++ "}")))
      by (rewrite La, length_append; cbn [String.length]; lia).
    replace T with (a ++ (N ++ "}") ++ template segs rest)
      by (rewrite V4; subst R; assoc).
    rewrite IH; [| now rewrite has_char_append, HN1 | simpl in Hfuel; lia].
    f_equal. f_equal.
    + cbn [blocks_of flat_map fst snd]. fold (blocks_of segs).
      rewrite <- !app_assoc. reflexivity.
    + f_equal. unfold body at 2.
      change (template ((t, e) :: segs) "")
        with (t ++ source e ++ template segs "").
      fold (body segs). unfold source. fold N.
      rewrite La, LA, !length_append. cbn [String.length].
      rewrite !length_append. cbn [String.length]. lia.
Qed.

Lemma join_cons (a : string) (l : list string) : join "" (a :: l) = a ++ join "" l.
Proof.
  destruct l; [symmetry; apply append_nil_r | reflexivity].
Qed.

Lemma join_app (l l' : list string) :
  join "" (l ++ l')%list = join "" l ++ join "" l'.
Proof.
  induction l as [| a l IH]; [reflexivity |].
  simpl app. now rewrite !join_cons, IH, append_assoc.
Qed.

(** The text of a block in the plain output. *)
Definition text_of (b : block) : string :=
  match b with
  | Literal s => s
  | Expression q f r kept =>
      "{" ++ (if q then "?" else "") ++ (if f then "&" else "")
      ++ (if r then "+" else "") ++ join "," kept ++ "}"
  end.

Lemma segment_plain (params pn : list value) (bs : list block) :
  mapM (segment unescape params pn false) bs = Ok (map text_of bs).
Proof.
  induction bs as [| b bs IH]; [reflexivity |].
  cbn [mapM map]. rewrite IH. now destruct b.
Qed.

Lemma operator_flags (e : expression) (x : string) :
  well_formed e ->
  (if operator e =? "?" then "?" else "") ++ (if operator e =? "&" then "&" else "")
  ++ (if operator e =? "+" then "+" else "") ++ x
  = operator e ++ x.
Proof.
  intros ([[Ho Hs] | [Ho | [Ho | Ho]]] & _); rewrite Ho; reflexivity.
Qed.

Lemma blocks_text (segments : list (string * expression)) (rest : string) :
  plain_text segments ->
  join "" (map text_of (blocks_of segments ++ [Literal rest])%list)
  = expansion segments rest.
Proof.
  induction 1 as [| [t e] segs [_ He] _ IH].
  - simpl. reflexivity.
  - simpl snd in He.
    change (blocks_of ((t, e) :: segs))
      with (Literal t
            :: match filter known (names e) with
               | [] => []
               | kept => [Expression (operator e =? "?") (operator e =? "&")
                                     (operator e =? "+") kept]
               end ++ blocks_of segs)%list.
    change (expansion ((t, e) :: segs) rest)
      with (t ++ expanded e ++ expansion segs rest).
    rewrite <- IH. unfold expanded.
    destruct (filter known (names e)) as [| k kept].
    + cbn [app map text_of]. now rewrite join_cons.
    + cbn [app map]. rewrite !join_cons. f_equal. f_equal.
      cbn [text_of]. cbn [append]. f_equal.
      now rewrite (operator_flags e _ He).
Qed.

Lemma template_length (segments : list (string * expression)) (rest : string) :
  length segments <= String.length (template segments rest).
Proof.
  induction segments as [| [t e] segs IH]; [simpl; lia |].
  change (template ((t, e) :: segs) rest)
    with (t ++ source e ++ template segs rest).
  unfold source. rewrite length_append. cbn [append String.length length].
  rewrite length_append. lia.
Qed.

Lemma names_of_parameters (params : list value) :
  Forall2 (fun p n => get p "name" = Ok (VStr n)) params pnames ->
  mapM (fun param => get param "name") params = Ok (map VStr pnames).
Proof.
  intros H. apply mapM_Forall2.
  induction H; constructor; assumption.
Qed.

Lemma js_substring_rest (a b : string) :
  js_substring (a ++ b) (Z.of_nat (String.length a))
    (Z.of_nat (String.length (a ++ b))) = b.
Proof.
  rewrite length_append.
  rewrite <- (append_nil_r b) at 1. apply js_substring_middle.
Qed.

Lemma scan_template (segments : list (string * expression)) (rest : string) :
  plain_text segments -> has_char "{" rest = false ->
  scan unescape (template segments rest) (map VStr pnames)
    (S (String.length (template segments rest))) 0 0 []
  = Ok (blocks_of segments, Z.of_nat (String.length (body segments))).
Proof.
  intros Hs Hr.
  apply (scan_segments rest segments Hr Hs "" "" []
           (S (String.length (template segments rest))) eq_refl).
  pose proof (template_length segments rest). lia.
Qed.

(** X19.  [modifyUriTemplate] without [colorize], on a template whose
    expressions are closed: the text outside the expressions stays; in every
    expression the names that are not names of the given parameters (once
    the star is removed and the name unescaped) are removed; an expression
    of which no name is left is removed with its braces; and in the result
    every run of slashes is one slash. *)
Theorem expressions_keep_known_names (params : list value) (colorize : value)
    (segments : list (string * expression)) (rest : string) :
  Forall2 (fun p n => get p "name" = Ok (VStr n)) params pnames ->
  plain_text segments -> has_char "{" rest = false ->
  truthy colorize = false ->
  modifyUriTemplate unescape (template segments rest) (VArr params) colorize
  = Ok (collapse_slashes (expansion segments rest)).
Proof.
  intros Hp Hs Hr Hc. unfold modifyUriTemplate. cbn [array_from bind].
  rewrite (names_of_parameters params Hp). cbn [bind].
  rewrite (scan_template segments rest Hs Hr). cbn [bind].
  rewrite template_body at 1. rewrite (template_body segments rest) at 1.
  rewrite js_substring_rest, Hc, segment_plain. cbn [bind].
  now rewrite blocks_text.
Qed.

End Known.

(** The example in the source: [/pages/{id}{?verbose}] with the one
    parameter [id]. *)
Lemma expressions_keep_known_names_witness :
  modifyUriTemplate (fun s => s) "/pages/{id}{?verbose}"
    (VArr [parameter "id" (VNum 1)]) VUndefined
  = Ok "/pages/{id}".
Proof.
  refine (expressions_keep_known_names (fun s => s) ["id"]
            [parameter "id" (VNum 1)] VUndefined
            [("/pages/", Expr "" ["id"]); ("", Expr "?" ["verbose"])] ""
            _ _ eq_refl eq_refl).
  - repeat constructor.
  - repeat constructor; try discriminate; left; split; reflexivity.
Defined.

(** X20.  Slashes in what [modifyUriTemplate] returns.  Whatever the
    template, the parameters and the mode, the result has no two slashes in a
    row; and a template without an opening brace is returned as it is, but
    for its runs of slashes, in both modes. *)
Theorem result_has_single_slashes (unescape : string -> string) :
  (forall templateUri parameters colorize out,
     modifyUriTemplate unescape templateUri parameters colorize = Ok out ->
     double_slash out = false) /\
  (forall templateUri parameters colorize params parameterNames,
     has_char "{" templateUri = false ->
     array_from parameters = Ok params ->
     mapM (fun param => get param "name") params = Ok parameterNames ->
     modifyUriTemplate unescape templateUri parameters colorize
     = Ok (collapse_slashes templateUri)) /\
  (forall templateUri colorize,
     has_char "{" templateUri = false -> double_slash templateUri = false ->
     modifyUriTemplate unescape templateUri (VArr []) colorize = Ok templateUri).
Proof.
  assert (Hplain : forall templateUri parameters colorize params parameterNames,
             has_char "{" templateUri = false ->
             array_from parameters = Ok params ->
             mapM (fun param => get param "name") params = Ok parameterNames ->
             modifyUriTemplate unescape templateUri parameters colorize
             = Ok (collapse_slashes templateUri)).
  { intros t parameters colorize params pn Ht Hp Hn.
    unfold modifyUriTemplate. rewrite Hp. cbn [bind]. rewrite Hn. cbn [bind].
    rewrite scan_stop.
    - cbn [bind app mapM segment].
      replace (js_substring t 0 (Z.of_nat (String.length t))) with t.
      + cbn [bind join String.concat]. reflexivity.
      + symmetry. apply (js_substring_rest "" t).
    - unfold indexOf. cbn [Z.to_nat]. now rewrite index_char_none. }
  split; [| split].
  - intros t parameters colorize out E. unfold modifyUriTemplate in E.
    bind_ok E params Ep. bind_ok E pn En. bind_ok E st Es.
    destruct st as [blocks lastIndex]. bind_ok E uri Eu. injection E as <-.
    apply collapse_slashes_single.
  - exact Hplain.
  - intros t colorize Ht Hd.
    rewrite (Hplain t (VArr []) colorize [] []);
      [now rewrite collapse_slashes_plain | exact Ht | reflexivity | reflexivity].
Qed.

(** *** The colorized output *)

Section Colorized.

Variable unescape : string -> string.

(** The parameters: the name of each, and its example when it has one. *)
Variable described : list (string * option string).

Definition describes (p : value) (d : string * option string) : Prop :=
  get p "name" = Ok (VStr (fst d)) /\
  get p "example" = Ok match snd d with
                       | Some s => VStr s
                       | None => VUndefined
                       end.

(** The example of the first parameter with the name [x]. *)
Definition example_of (x : string) : option string :=
  match find (fun d => fst d =? x) described with
  | Some d => snd d
  | None => None
  end.

(** [example || default]. *)
Definition shown (example : option string) (default : string) : string :=
  match example with
  | Some s => if s =? "" then default else s
  | None => default
  end.

(** The span that stands for a name in the colorized output; [assigned]
    says whether the expression is a query ([?]) or a form ([&]). *)
Definition span (assigned : bool) (n : string) : string :=
  let name := strip_star n in
  let example := example_of (unescape name) in
  if assigned then
    "<span class=" ++ quote ++ "hljs-attribute" ++ quote ++ ">" ++ name
    ++ "=</span><span class=" ++ quote ++ "hljs-literal" ++ quote ++ ">"
    ++ shown example "" ++ "</span>"
  else
    "<span class=" ++ quote ++ "hljs-attribute" ++ quote ++ " title="
    ++ quote ++ name ++ quote ++ ">" ++ shown example name ++ "</span>".

Definition highlighted (e : expression) : string :=
  match filter (known unescape (map fst described)) (names e) with
  | [] => ""
  | kept =>
      (if operator e =? "?" then "?" else "")
      ++ (if operator e =? "&" then "&" else "")
      ++ join "&" (map (span ((operator e =? "?") || (operator e =? "&"))) kept)
  end.

Definition highlight_expansion (segments : list (string * expression))
    (rest : string) : string :=
  fold_right (fun te acc => fst te ++ highlighted (snd te) ++ acc) rest segments.

Lemma parameter_found (params : list value) :
  Forall2 describes params described ->
  forall x,
    existsb (String.eqb x) (map fst described) = true ->
    let i := array_indexOf (map VStr (map fst described)) (VStr x) in
    (i <? 0)%Z = false /\
    get (nth (Z.to_nat i) params VUndefined) "example"
    = Ok match example_of x with
         | Some s => VStr s
         | None => VUndefined
         end.
Proof.
  unfold example_of.
  induction 1 as [| p d params ds [Hn He] _ IH]; intros x Hx; [discriminate |].
  cbn [map array_indexOf strict_eq find]. cbn [map existsb] in Hx.
  destruct (fst d =? x) eqn:E.
  - split; [reflexivity |]. exact He.
  - rewrite String.eqb_sym, E in Hx. cbn [orb] in Hx.
    destruct (IH x Hx) as [Hi Hg]. cbv zeta in Hi, Hg |- *.
    set (i := array_indexOf (map VStr (map fst ds)) (VStr x)) in *.
    apply Z.ltb_ge in Hi.
    replace (i =? -1)%Z with false by (symmetry; apply Z.eqb_neq; lia).
    split; [apply Z.ltb_ge; lia |].
    replace (Z.to_nat (i + 1)) with (S (Z.to_nat i)) by lia. exact Hg.
Qed.

Lemma colorized_span (params : list value) (q f : bool) (n : string) :
  Forall2 describes params described ->
  known unescape (map fst described) n = true ->
  colorized unescape params (map VStr (map fst described)) q f n
  = Ok (span (q || f) n).
Proof.
  intros Hp Hk. unfold colorized, known in *.
  destruct (parameter_found params Hp _ Hk) as [Hi Hg]. cbv zeta in Hi, Hg.
  cbv zeta. rewrite Hi, Hg. cbn [bind]. unfold span, shown.
  destruct (q || f); destruct (example_of (unescape (strip_star n))) as [s |];
    cbn [truthy]; try reflexivity; destruct (s =? ""); reflexivity.
Qed.

Lemma colorized_spans (params : list value) (q f : bool) (l : list string) :
  Forall2 describes params described ->
  mapM (colorized unescape params (map VStr (map fst described)) q f)
       (filter (known unescape (map fst described)) l)
  = Ok (map (span (q || f)) (filter (known unescape (map fst described)) l)).
Proof.
  intros Hp. induction l as [| n l IH]; [reflexivity |].
  cbn [filter]. destruct (known unescape (map fst described) n) eqn:Hk;
    [| exact IH].
  cbn [mapM map]. now rewrite (colorized_span params q f n Hp Hk), IH.
Qed.

Lemma mapM_cons {A B : Type} (f : A -> result B) (x : A) (l : list A) :
  mapM f (x :: l) = (y <- f x ;; ys <- mapM f l ;; Ok (y :: ys)).
Proof. reflexivity. Qed.

Lemma colorized_blocks (params : list value)
    (segments : list (string * expression)) (rest : string) :
  Forall2 describes params described ->
  exists pieces,
    mapM (segment unescape params (map VStr (map fst described)) true)
         (blocks_of unescape (map fst described) segments ++ [Literal rest])%list
    = Ok pieces /\
    join "" pieces = highlight_expansion segments rest.
Proof.
  intros Hp. induction segments as [| [t e] segs (pieces & E & Hj)].
  - exists [rest]. split; reflexivity.
  - change (blocks_of unescape (map fst described) ((t, e) :: segs))
      with (Literal t
            :: match filter (known unescape (map fst described)) (names e) with
               | [] => []
               | kept => [Expression (operator e =? "?") (operator e =? "&")
                                     (operator e =? "+") kept]
               end ++ blocks_of unescape (map fst described) segs)%list.
    change (highlight_expansion ((t, e) :: segs) rest)
      with (t ++ highlighted e ++ highlight_expansion segs rest).
    unfold highlighted.
    pose proof (colorized_spans params (operator e =? "?") (operator e =? "&")
                  (names e) Hp) as Hspans.
    destruct (filter (known unescape (map fst described)) (names e))
      as [| k kept].
    + exists (t :: pieces). split.
      * cbn [app]. rewrite mapM_cons. cbn [segment bind]. now rewrite E.
      * now rewrite join_cons, Hj.
    + eexists. split.
      * cbn [app]. rewrite !mapM_cons. cbn [segment bind].
        rewrite Hspans. cbn [bind]. rewrite E. cbn [bind]. reflexivity.
      * rewrite !join_cons, Hj. now rewrite !append_assoc.
Qed.

(** X21.  [modifyUriTemplate] with [colorize], on a template whose
    expressions are closed.  The text outside the expressions stays and the
    braces go; an expression becomes the spans of its known names, joined by
    [&], after a [?] or a [&] when it is a query or a form; a span shows the
    example of the first parameter of that name, and in a path expression
    the name itself when there is no example. *)
Theorem colorized_template (params : list value) (colorize : value)
    (segments : list (string * expression)) (rest : string) :
  Forall2 describes params described ->
  plain_text segments -> has_char "{" rest = false ->
  truthy colorize = true ->
  modifyUriTemplate unescape (template segments rest) (VArr params) colorize
  = Ok (collapse_slashes (highlight_expansion segments rest)).
Proof.
  intros Hp Hs Hr Hc. unfold modifyUriTemplate. cbn [array_from bind].
  rewrite (names_of_parameters (map fst described) params)
    by (clear - Hp; induction Hp as [| p d ps ds [H _] _ IH];
        constructor; assumption).
  cbn [bind]. rewrite (scan_template unescape _ segments rest Hs Hr). cbn [bind].
  rewrite template_body at 1. rewrite (template_body segments rest) at 1.
  rewrite js_substring_rest, Hc.
  destruct (colorized_blocks params segments rest Hp) as (pieces & -> & Hj).
  cbn [bind]. now rewrite Hj.
Qed.

End Colorized.

Lemma colorized_template_witness :
  modifyUriTemplate (fun s => s) "/users/{id}{?page}"
    (VArr [parameter "id" (VStr "42"); parameter "page" VUndefined]) (VBool true)
  = Ok (collapse_slashes
          (highlight_expansion (fun s => s) [("id", Some "42"); ("page", None)]
             [("/users/", Expr "" ["id"]); ("", Expr "?" ["page"])] "")).
Proof.
  refine (colorized_template (fun s => s) [("id", Some "42"); ("page", None)]
            [parameter "id" (VStr "42"); parameter "page" VUndefined] (VBool true)
            [("/users/", Expr "" ["id"]); ("", Expr "?" ["page"])] ""
            _ _ eq_refl eq_refl).
  - repeat constructor.
  - repeat constructor; try discriminate; left; split; reflexivity.
Defined.

End UriTemplates.

(** * The theme: slugs

    [slug(cache, value, unique)] on a value that is a string.  The cache is
    an object literal that is read under names that come from the document,
    so the properties that it inherits from [Object.prototype] count. *)

Module Slugs.

#[local] Open Scope string_scope.

(** [toLowerCase] on a character below 256: the letters [A] to [Z], and the
    capital letters of Latin-1 (all of 192 to 222 but the multiplication
    sign). *)
Definition lower (c : ascii) : ascii :=
  let n := nat_of_ascii c in
  if ((65 <=? n) && (n <=? 90))%nat then ascii_of_nat (n + 32)
  else if ((192 <=? n) && (n <=? 222) && negb (n =? 215))%nat
       then ascii_of_nat (n + 32)
  else c.

Fixpoint toLowerCase (s : string) : string :=
  match s with
  | EmptyString => EmptyString
  | String c s' => String (lower c) (toLowerCase s')
  end.

(** The characters that the first [replace] matches: the space, the tab,
    the newline, the backslash, the angle brackets, the two quotes, the equals
    sign, the colon and the slash. *)
Definition unsafe (c : ascii) : bool :=
  existsb (Nat.eqb (nat_of_ascii c)) [32; 9; 10; 92; 60; 62; 34; 39; 61; 58; 47]%nat.

(** The first [replace]: every such character becomes a dash. *)
Fixpoint dashes (s : string) : string :=
  match s with
  | EmptyString => EmptyString
  | String c s' => String (if unsafe c then "-"%char else c) (dashes s')
  end.

(** The second [replace]: a run of dashes becomes one dash. *)
Fixpoint collapse_dashes (s : string) : string :=
  match s with
  | EmptyString => EmptyString
  | String c s' =>
      if (c =? "-")%char then
        match s' with
        | String c' _ =>
            if (c' =? "-")%char then collapse_dashes s'
            else String c (collapse_dashes s')
        | EmptyString => String c EmptyString
        end
      else String c (collapse_dashes s')
  end.

(** The third [replace]: a dash at the start is removed. *)
Definition drop_dash (s : string) : string :=
  match s with
  | String c s' => if (c =? "-")%char then s' else s
  | EmptyString => s
  end.

Definition sluggify (value : string) : string :=
  drop_dash (collapse_dashes (dashes (toLowerCase value))).

(** [cache[key]] as a condition. *)
Definition taken (cache : obj) (key : string) : bool :=
  if has_key key cache then truthy (lookup key cache) else inherited key.

(** [cache[key] = true]: the assignment to [__proto__] reaches the setter
    that [Object.prototype] has for it, which ignores a boolean. *)
Definition mark (cache : obj) (key : string) : obj :=
  if (key =? "__proto__") && negb (has_key key cache) then cache
  else obj_set cache key (VBool true).

Definition is_digit (c : ascii) : bool :=
  match uint_of_char c (Some Decimal.Nil) with
  | Some _ => true
  | None => false
  end.

(** The match of [/\d+$/]: the string before the digits at the end, and
    those digits. *)
Fixpoint trailing (s : string) : string * string :=
  match s with
  | EmptyString => (EmptyString, EmptyString)
  | String c s' =>
      let '(stem, digits) := trailing s' in
      match stem with
      | EmptyString => if is_digit c then (EmptyString, String c digits)
                       else (String c EmptyString, digits)
      | _ => (String c stem, digits)
      end
  end.

Definition string_of_N (n : N) : string := NilZero.string_of_uint (N.to_uint n).

(** One turn of the [while] loop: the digits at the end are replaced by
    [parseInt(digits) + 1], or [-1] is appended.  The numbers of JavaScript
    count exactly up to [2^53]. *)
Definition bump (sluggified : string) : result string :=
  match trailing sluggified with
  | (_, EmptyString) => Ok (sluggified ++ "-1")
  | (stem, digits) =>
      match NilEmpty.uint_of_string digits with
      | Some d =>
          if (N.of_uint d <? 2 ^ 53)%N
          then Ok (stem ++ string_of_N (N.of_uint d + 1))
          else Unmodelled
      | None => Unmodelled
      end
  end.

Fixpoint unique_loop (fuel : nat) (cache : obj) (sluggified : string)
    : result string :=
  if taken cache sluggified then
    match fuel with
    | O => OutOfFuel
    | S fuel' => next <- bump sluggified ;; unique_loop fuel' cache next
    end
  else Ok sluggified.

(** [slug(cache, value, unique)] for a cache that is an object and a value
    that is the string [text]; the result is the slug and the cache that the
    call leaves.  No two candidates of the loop are equal, so it ends before it
    has tried more of them than the cache and its prototype have names. *)
Definition slug (cache : obj) (text : string) (unique : value)
    : result (string * obj) :=
  let sluggified := sluggify text in
  sluggified <- (if truthy unique
                 then unique_loop (S (length cache + length object_prototype))
                        cache sluggified
                 else Ok sluggified) ;;
  Ok (sluggified, mark cache sluggified).

(** ** What a slug looks like *)

Fixpoint all (P : ascii -> bool) (s : string) : bool :=
  match s with
  | EmptyString => true
  | String c s' => P c && all P s'
  end.

(** A character that the three replacements and [toLowerCase] leave. *)
Definition clean (c : ascii) : bool := negb (unsafe c) && (lower c =? c)%char.

Fixpoint double_dash (s : string) : bool :=
  match s with
  | String c (String c' _ as s') =>
      ((c =? "-")%char && (c' =? "-")%char) || double_dash s'
  | _ => false
  end.

Definition starts_with_dash (s : string) : bool :=
  match s with
  | String c _ => (c =? "-")%char
  | EmptyString => false
  end.

Lemma lower_clean (c : ascii) :
  clean (if unsafe (lower c) then "-"%char else lower c) = true.
Proof.
  destruct c as [[|] [|] [|] [|] [|] [|] [|] [|]]; vm_compute; reflexivity.
Qed.

Lemma dashes_clean (s : string) : all clean (dashes (toLowerCase s)) = true.
Proof.
  induction s as [| c s IH]; [reflexivity |].
  cbn [toLowerCase dashes all]. now rewrite lower_clean, IH.
Qed.

Lemma double_dash_two (c c' : ascii) (s : string) :
  double_dash (String c (String c' s))
  = ((c =? "-")%char && (c' =? "-")%char) || double_dash (String c' s).
Proof. reflexivity. Qed.

Lemma collapse_dashes_two (c c' : ascii) (s : string) :
  collapse_dashes (String c (String c' s))
  = if (c =? "-")%char then
      if (c' =? "-")%char then collapse_dashes (String c' s)
      else String c (collapse_dashes (String c' s))
    else String c (collapse_dashes (String c' s)).
Proof. reflexivity. Qed.

Lemma collapse_dashes_head (s : string) (c : ascii) :
  exists s', collapse_dashes (String c s) = String c s'.
Proof.
  revert c. induction s as [| c' s IH]; intros c.
  - simpl. destruct (c =? "-")%char; now eexists.
  - rewrite collapse_dashes_two.
    destruct (c =? "-")%char eqn:E; [| now eexists].
    destruct (c' =? "-")%char eqn:E'; [| now eexists].
    destruct (IH c') as [s' Hs']. rewrite Hs'.
    apply Ascii.eqb_eq in E, E'. exists s'. congruence.
Qed.

Lemma collapse_dashes_single (s : string) :
  double_dash (collapse_dashes s) = false.
Proof.
  induction s as [| c s IH]; [reflexivity |].
  destruct s as [| c' s].
  - simpl. now destruct (c =? "-")%char.
  - rewrite collapse_dashes_two.
    destruct (collapse_dashes_head s c') as [s' Hs']. rewrite Hs' in IH |- *.
    destruct (c =? "-")%char eqn:E.
    + destruct (c' =? "-")%char eqn:E'; [exact IH |].
      now rewrite double_dash_two, E', andb_false_r.
    + now rewrite double_dash_two, E.
Qed.

Lemma collapse_dashes_plain (s : string) :
  double_dash s = false -> collapse_dashes s = s.
Proof.
  induction s as [| c s IH]; intros H; [reflexivity |].
  destruct s as [| c' s].
  - simpl. now destruct (c =? "-")%char.
  - rewrite double_dash_two in H. apply orb_false_iff in H.
    destruct H as [H1 H2].
    rewrite collapse_dashes_two, (IH H2).
    destruct (c =? "-")%char; [| reflexivity].
    simpl in H1. now rewrite H1.
Qed.

Lemma collapse_dashes_all (P : ascii -> bool) (s : string) :
  all P s = true -> all P (collapse_dashes s) = true.
Proof.
  induction s as [| c s IH]; intros H; [reflexivity |].
  cbn [all] in H. apply andb_true_iff in H. destruct H as [Hc Hs].
  destruct s as [| c' s].
  - simpl. destruct (c =? "-")%char; simpl; now rewrite Hc.
  - rewrite collapse_dashes_two. specialize (IH Hs).
    destruct (c =? "-")%char; [destruct (c' =? "-")%char |];
      try exact IH; cbn [all]; now rewrite Hc, IH.
Qed.

Lemma drop_dash_all (P : ascii -> bool) (s : string) :
  all P s = true -> all P (drop_dash s) = true.
Proof.
  destruct s as [| c s]; [reflexivity |]. intros H. simpl.
  destruct (c =? "-")%char; [| exact H].
  cbn [all] in H. now apply andb_true_iff in H.
Qed.

Lemma drop_dash_double (s : string) :
  double_dash s = false ->
  double_dash (drop_dash s) = false /\ starts_with_dash (drop_dash s) = false.
Proof.
  destruct s as [| c s]; [now split |]. intros H. simpl drop_dash.
  destruct (c =? "-")%char eqn:E.
  - destruct s as [| c' s]; [now split |].
    rewrite double_dash_two, E in H. apply orb_false_iff in H.
    destruct H as [H1 H2]. simpl in H1. split; [exact H2 | exact H1].
  - split; [exact H | exact E].
Qed.

Lemma toLowerCase_clean (s : string) : all clean s = true -> toLowerCase s = s.
Proof.
  induction s as [| c s IH]; [reflexivity |]. cbn [all]. intros H.
  apply andb_true_iff in H. destruct H as [Hc Hs].
  unfold clean in Hc. apply andb_true_iff in Hc. destruct Hc as [_ Hc].
  apply Ascii.eqb_eq in Hc. cbn [toLowerCase]. now rewrite Hc, (IH Hs).
Qed.

Lemma dashes_clean_same (s : string) : all clean s = true -> dashes s = s.
Proof.
  induction s as [| c s IH]; [reflexivity |]. cbn [all]. intros H.
  apply andb_true_iff in H. destruct H as [Hc Hs].
  unfold clean in Hc. apply andb_true_iff in Hc. destruct Hc as [Hc _].
  apply negb_true_iff in Hc. cbn [dashes]. now rewrite Hc, (IH Hs).
Qed.

(** X22.  What [slug] makes of a text before it looks at the cache.  The
    slug has none of the characters that the first replacement removes and
    no capital letter, no two dashes in a row and no dash at the start (one at
    the end stays); making a slug of a slug changes nothing.  Without
    [unique] this is what [slug] returns, whatever the cache holds. *)
Theorem slug_is_clean (text : string) :
  all clean (sluggify text) = true /\
  double_dash (sluggify text) = false /\
  starts_with_dash (sluggify text) = false /\
  sluggify (sluggify text) = sluggify text /\
  forall cache unique,
    truthy unique = false ->
    slug cache text unique = Ok (sluggify text, mark cache (sluggify text)).
Proof.
  assert (Hall : all clean (sluggify text) = true).
  { unfold sluggify. apply drop_dash_all, collapse_dashes_all, dashes_clean. }
  destruct (drop_dash_double (collapse_dashes (dashes (toLowerCase text)))
              (collapse_dashes_single _)) as [Hdd Hstart].
  fold (sluggify text) in Hdd, Hstart.
  repeat split; try assumption.
  - unfold sluggify at 1.
    rewrite (toLowerCase_clean _ Hall), (dashes_clean_same _ Hall),
            (collapse_dashes_plain _ Hdd).
    destruct (sluggify text) as [| c s]; [reflexivity |].
    simpl in Hstart. simpl. now rewrite Hstart.
  - intros cache unique Hu. unfold slug. now rewrite Hu.
Qed.

(** ** Unique slugs *)

(** The names under which a cache can read as taken. *)
Definition names_of (cache : obj) : list string :=
  (obj_keys cache ++ object_prototype)%list.

Lemma taken_In (cache : obj) (key : string) :
  taken cache key = true -> In key (names_of cache).
Proof.
  unfold taken, names_of. intros H. apply in_or_app.
  destruct (has_key key cache) eqn:E.
  - left. now apply has_key_In.
  - right. unfold inherited in H. now apply existsb_eqb_In.
Qed.

Lemma taken_mark (cache : obj) (s key : string) :
  taken cache s = false ->
  mark cache s = obj_set cache s (VBool true) /\
  taken (obj_set cache s (VBool true)) key = (key =? s) || taken cache key.
Proof.
  intros H. split.
  - unfold mark. destruct (s =? "__proto__") eqn:E; [| reflexivity].
    apply String.eqb_eq in E. subst s.
    unfold taken in H. destruct (has_key "__proto__" cache); [reflexivity |].
    discriminate.
  - unfold taken. rewrite has_key_obj_set, lookup_obj_set.
    destruct (key =? s) eqn:E; [reflexivity |]. reflexivity.
Qed.

(** The loop stops at a slug that the cache has not got. *)
Lemma unique_loop_free (cache : obj) (fuel : nat) :
  forall s s', unique_loop fuel cache s = Ok s' -> taken cache s' = false.
Proof.
  induction fuel as [| fuel IH]; intros s s' E; cbn [unique_loop] in E;
    destruct (taken cache s) eqn:Et; try discriminate;
    try (injection E as <-; exact Et).
  bind_ok E next En. eapply IH. exact E.
Qed.

(** *** The candidates of the loop *)

Lemma parsed_digits (s : string) (d : Decimal.uint) :
  NilEmpty.uint_of_string s = Some d -> all is_digit s = true.
Proof.
  revert d. induction s as [| c s IH]; intros d H; [reflexivity |].
  simpl in H. destruct (NilEmpty.uint_of_string s) as [d' |] eqn:E;
    [| discriminate].
  cbn [all]. rewrite (IH d' eq_refl), andb_true_r.
  unfold is_digit. destruct (uint_of_char c (Some Decimal.Nil)) eqn:Ec;
    [reflexivity |].
  destruct c as [[|] [|] [|] [|] [|] [|] [|] [|]]; discriminate.
Qed.

Lemma digits_parse (s : string) :
  all is_digit s = true -> exists d, NilEmpty.uint_of_string s = Some d.
Proof.
  induction s as [| c s IH]; intros H; [now eexists |].
  cbn [all] in H. apply andb_true_iff in H. destruct H as [Hc Hs].
  destruct (IH Hs) as [d Hd]. simpl. rewrite Hd.
  unfold is_digit in Hc.
  destruct c as [[|] [|] [|] [|] [|] [|] [|] [|]]; try discriminate Hc;
    now eexists.
Qed.

Lemma trailing_digits (s : string) :
  all is_digit s = true -> trailing s = ("", s).
Proof.
  induction s as [| c s IH]; intros H; [reflexivity |].
  cbn [all] in H. apply andb_true_iff in H. destruct H as [Hc Hs].
  cbn [trailing]. now rewrite (IH Hs), Hc.
Qed.

Lemma trailing_cons (c : ascii) (s : string) :
  trailing (String c s)
  = let '(stem, digits) := trailing s in
    match stem with
    | EmptyString => if is_digit c then (EmptyString, String c digits)
                     else (String c EmptyString, digits)
    | _ => (String c stem, digits)
    end.
Proof. reflexivity. Qed.

Lemma trailing_spec (s : string) :
  forall stem digits,
    trailing s = (stem, digits) ->
    s = stem ++ digits /\ all is_digit digits = true /\
    trailing stem = (stem, "").
Proof.
  induction s as [| c s IH]; intros stem digits H.
  - injection H as <- <-. now repeat split.
  - cbn [trailing] in H. destruct (trailing s) as [stem' digits'] eqn:E.
    destruct (IH _ _ eq_refl) as (Hs & Hd & Hst).
    destruct stem' as [| x stem'].
    + simpl in Hs. subst digits'. destruct (is_digit c) eqn:Ec.
      * injection H as <- <-. repeat split. cbn [all]. now rewrite Ec, Hd.
      * injection H as <- <-. repeat split; [exact Hd |].
        cbn [trailing]. now rewrite Ec.
    + injection H as <- <-. repeat split.
      * simpl. now rewrite Hs.
      * exact Hd.
      * rewrite trailing_cons. now rewrite Hst.
Qed.

Lemma trailing_append (stem digits : string) :
  trailing stem = (stem, "") -> all is_digit digits = true ->
  trailing (stem ++ digits) = (stem, digits).
Proof.
  induction stem as [| c stem IH]; intros Hs Hd.
  - now apply trailing_digits.
  - cbn [trailing] in Hs. cbn [append trailing].
    destruct (trailing stem) as [stem' digits'] eqn:E.
    destruct stem' as [| x stem'].
    + destruct (is_digit c) eqn:Ec; [discriminate |].
      injection Hs as Hs1 Hs2. subst digits'. symmetry in Hs1.
      destruct (trailing_spec stem _ _ E) as (Hstem & _).
      simpl in Hstem. subst stem. simpl. rewrite (trailing_digits _ Hd).
      rewrite ?Ec. reflexivity.
    + injection Hs as Hs1 Hs2. subst digits'.
      rewrite IH; [now rewrite <- Hs1 | now rewrite Hs1 | exact Hd].
Qed.

Lemma trailing_snoc (s : string) (c : ascii) :
  is_digit c = false ->
  trailing (s ++ String c "") = (s ++ String c "", "").
Proof.
  intros Hc. induction s as [| x s IH].
  - simpl. now rewrite Hc.
  - cbn [append]. rewrite trailing_cons, IH.
    destruct (s ++ String c "") eqn:E; [| reflexivity].
    destruct s; discriminate.
Qed.

Lemma printed (n : N) :
  (0 < n)%N ->
  NilEmpty.uint_of_string (string_of_N n) = Some (N.to_uint n) /\
  string_of_N n <> "".
Proof.
  intros Hn. unfold string_of_N.
  assert (Hnil : N.to_uint n <> Decimal.Nil).
  { intros H. pose proof (DecimalN.Unsigned.of_to n) as Hof.
    rewrite H in Hof. simpl in Hof. lia. }
  split.
  - destruct (N.to_uint n) eqn:E; try contradiction; apply NilEmpty.usu.
  - intros H. pose proof (NilZero.usu _ Hnil) as Hu. now rewrite H in Hu.
Qed.

(** The place of a candidate in the sequence of the loop: one more than the
    number that it ends with, and one when it ends with none. *)
Definition rank (s : string) : N :=
  match trailing s with
  | (_, EmptyString) => 1
  | (_, digits) =>
      match NilEmpty.uint_of_string digits with
      | Some d => N.of_uint d + 1
      | None => 1
      end
  end.

Lemma bump_rank (s : string) :
  (rank s < 2 ^ 53)%N ->
  exists s', bump s = Ok s' /\ rank s' = (rank s + 1)%N.
Proof.
  unfold rank, bump. destruct (trailing s) as [stem digits] eqn:E.
  destruct (trailing_spec s _ _ E) as (Hs & Hd & Hstem).
  destruct digits as [| c digits].
  - intros _. exists (s ++ "-1"). split; [reflexivity |].
    rewrite Strings.append_nil_r in Hs. subst stem.
    replace (s ++ "-1") with ((s ++ "-") ++ "1")
      by (rewrite Strings.append_assoc; reflexivity).
    rewrite trailing_append; [reflexivity | | reflexivity].
    now apply trailing_snoc.
  - destruct (digits_parse _ Hd) as [d Hp]. rewrite Hp. intros Hr.
    replace (N.of_uint d <? 2 ^ 53)%N with true
      by (symmetry; apply N.ltb_lt; lia).
    eexists. split; [reflexivity |].
    destruct (printed (N.of_uint d + 1) ltac:(lia)) as [Hq Hne].
    rewrite trailing_append; [| exact Hstem | exact (parsed_digits _ _ Hq)].
    destruct (string_of_N (N.of_uint d + 1)) eqn:Es; [contradiction |].
    rewrite Hq, DecimalN.Unsigned.of_to. reflexivity.
Qed.

Lemma unique_loop_finds (cache : obj) (fuel : nat) :
  forall (s : string) (tried : list string),
    NoDup tried ->
    (forall x, In x tried -> taken cache x = true /\ (rank x < rank s)%N) ->
    length (names_of cache) < fuel + length tried ->
    (rank s + N.of_nat fuel < 2 ^ 53)%N ->
    exists s', unique_loop fuel cache s = Ok s'.
Proof.
  induction fuel as [| fuel IH]; intros s tried Hnd Htried Hlen Hbound;
    cbn [unique_loop]; destruct (taken cache s) eqn:Et; try now eexists.
  - exfalso.
    assert (Hincl : incl (s :: tried) (names_of cache)).
    { intros x [<- | Hx]; apply taken_In; [exact Et | now apply Htried]. }
    assert (Hnd' : NoDup (s :: tried)).
    { constructor; [| exact Hnd]. intros Hin.
      destruct (Htried _ Hin) as [_ Hr]. lia. }
    pose proof (NoDup_incl_length Hnd' Hincl) as Hl. simpl in Hl, Hlen. lia.
  - destruct (bump_rank s ltac:(lia)) as (s' & -> & Hr). cbn [bind].
    apply (IH s' (s :: tried)).
    + constructor; [| exact Hnd]. intros Hin.
      destruct (Htried _ Hin) as [_ Hlt]. lia.
    + intros x [<- | Hx]; [split; [exact Et | lia] |].
      destruct (Htried _ Hx) as [Ht Hlt]. split; [exact Ht | lia].
    + simpl. lia.
    + lia.
Qed.

(** The candidates of the loop, in closed form: the slug itself, then the
    slug with the number at its end counted up by [i], or with [-i] at its
    end when it ends in no number. *)
Definition counted (s : string) (i : nat) : string :=
  match i with
  | O => s
  | S _ =>
      match trailing s with
      | (_, EmptyString) => s ++ "-" ++ string_of_N (N.of_nat i)
      | (stem, digits) =>
          match NilEmpty.uint_of_string digits with
          | Some d => stem ++ string_of_N (N.of_uint d + N.of_nat i)
          | None => s
          end
      end
  end.

Lemma bump_printed (stem : string) (k : N) :
  trailing stem = (stem, "") -> (0 < k < 2 ^ 53)%N ->
  bump (stem ++ string_of_N k) = Ok (stem ++ string_of_N (k + 1)).
Proof.
  intros Hstem Hk. unfold bump.
  destruct (printed k ltac:(lia)) as [Hq Hne].
  rewrite trailing_append; [| exact Hstem | exact (parsed_digits _ _ Hq)].
  destruct (string_of_N k) eqn:Es; [contradiction |].
  rewrite Hq, DecimalN.Unsigned.of_to.
  replace (k <? 2 ^ 53)%N with true by (symmetry; apply N.ltb_lt; lia).
  reflexivity.
Qed.

Lemma bump_counted (s : string) (i : nat) :
  (rank s + N.of_nat i < 2 ^ 53)%N ->
  bump (counted s i) = Ok (counted s (S i)).
Proof.
  unfold rank. intros Hr.
  destruct (trailing s) as [stem digits] eqn:E.
  destruct (trailing_spec s _ _ E) as (Hs & Hd & Hstem).
  destruct digits as [| c digits].
  - rewrite Strings.append_nil_r in Hs. subst stem.
    destruct i as [| j].
    + unfold counted. rewrite E. cbn [counted]. unfold bump. rewrite E.
      reflexivity.
    + unfold counted. rewrite E.
      change (s ++ "-" ++ string_of_N (N.of_nat (S j)))
        with (s ++ ("-" ++ string_of_N (N.of_nat (S j)))).
      change (s ++ "-" ++ string_of_N (N.of_nat (S (S j))))
        with (s ++ ("-" ++ string_of_N (N.of_nat (S (S j))))).
      rewrite <- !Strings.append_assoc.
      rewrite bump_printed; [| now apply trailing_snoc | lia].
      do 3 f_equal. lia.
  - destruct (digits_parse _ Hd) as [d Hp]. rewrite Hp in Hr.
    destruct i as [| j].
    + unfold counted. rewrite E, Hp. unfold bump. rewrite E, Hp.
      replace (N.of_uint d <? 2 ^ 53)%N with true
        by (symmetry; apply N.ltb_lt; lia).
      reflexivity.
    + unfold counted. rewrite E, Hp.
      rewrite bump_printed; [| exact Hstem | lia].
      do 3 f_equal. lia.
Qed.

(** The loop returns the first candidate that is free. *)
Lemma unique_loop_first (cache : obj) (s0 : string) (fuel : nat) :
  forall (i : nat) (s' : string),
    (rank s0 + N.of_nat i + N.of_nat fuel < 2 ^ 53)%N ->
    unique_loop fuel cache (counted s0 i) = Ok s' ->
    exists n,
      i <= n /\ s' = counted s0 n /\
      forall j, i <= j < n -> taken cache (counted s0 j) = true.
Proof.
  induction fuel as [| fuel IH]; intros i s' Hb E; cbn [unique_loop] in E;
    destruct (taken cache (counted s0 i)) eqn:Et; try discriminate;
    try (injection E as <-; exists i; repeat split; [lia | intros j Hj; lia]).
  rewrite (bump_counted s0 i) in E by lia. cbn [bind] in E.
  destruct (IH (S i) s' ltac:(lia) E) as (n & Hn & Hs & Htaken).
  exists n. repeat split; [lia | exact Hs |].
  intros j Hj. destruct (Nat.eq_dec j i) as [-> | Hne]; [exact Et |].
  apply Htaken. lia.
Qed.

(** X23.  [slug] with [unique] returns a slug that the cache has not got,
    and enters it.  The slug is the first free one in the sequence of the
    text's own slug, then that slug with the number at its end counted up by
    one, by two, and so on ([-1], [-2], ... when it ends in no number): the
    text's own slug when that is free, and otherwise the candidate before
    which every candidate is taken.  The loop ends, since no candidate comes
    twice; the numbers stay below [2^53], where the arithmetic of the source
    is exact. *)
Theorem slug_is_unique (cache : obj) (text : string) (unique : value) :
  truthy unique = true ->
  (rank (sluggify text) + N.of_nat (length cache) + 14 < 2 ^ 53)%N ->
  exists s n,
    slug cache text unique = Ok (s, obj_set cache s (VBool true)) /\
    s = counted (sluggify text) n /\
    (forall j, j < n -> taken cache (counted (sluggify text) j) = true) /\
    taken cache s = false /\
    (taken cache (sluggify text) = false -> s = sluggify text) /\
    forall key, taken (obj_set cache s (VBool true)) key
                = (key =? s) || taken cache key.
Proof.
  intros Hu Hbound. unfold slug. rewrite Hu.
  destruct (unique_loop_finds cache (S (length cache + length object_prototype))
              (sluggify text) [] (NoDup_nil _)) as [s Hs].
  - intros x [].
  - unfold names_of, obj_keys. rewrite length_app, length_map. simpl. lia.
  - simpl length. lia.
  - destruct (unique_loop_first cache (sluggify text)
                (S (length cache + length object_prototype)) 0 s)
      as (n & _ & Hn & Hj); [simpl length; lia | exact Hs |].
    exists s, n. rewrite Hs. cbn [bind].
    pose proof (unique_loop_free _ _ _ _ Hs) as Hfree.
    destruct (taken_mark cache s s Hfree) as [Hmark _]. rewrite Hmark.
    split; [reflexivity |]. split; [exact Hn |].
    split; [intros j Hlt; apply Hj; lia |].
    split; [exact Hfree |]. split.
    + intros Hf. cbn [unique_loop] in Hs. rewrite Hf in Hs. congruence.
    + intros key. now apply taken_mark.
Qed.

(** The cache of a document in which one heading was [Users]. *)
Definition seen_users : obj := [("_nav", VArr []); ("users", VBool true)].

Lemma slug_is_unique_witness :
  exists s n,
    slug seen_users "Users" (VBool true)
    = Ok (s, obj_set seen_users s (VBool true)) /\
    s = counted (sluggify "Users") n /\
    (forall j, j < n -> taken seen_users (counted (sluggify "Users") j) = true) /\
    taken seen_users s = false /\
    (taken seen_users (sluggify "Users") = false -> s = sluggify "Users") /\
    forall key, taken (obj_set seen_users s (VBool true)) key
                = (key =? s) || taken seen_users key.
Proof.
  apply (slug_is_unique seen_users "Users" (VBool true)).
  - reflexivity.
  - vm_compute. reflexivity.
Defined.

Lemma slug_result (cache cache' : obj) (text s : string) (unique : value) :
  truthy unique = true -> slug cache text unique = Ok (s, cache') ->
  taken cache s = false /\ cache' = obj_set cache s (VBool true).
Proof.
  intros Hu E. unfold slug in E. rewrite Hu in E. bind_ok E s' Es.
  injection E as <- <-.
  pose proof (unique_loop_free _ _ _ _ Es) as Hfree.
  split; [exact Hfree |]. now apply taken_mark.
Qed.

(** X24.  Two calls of [slug] with [unique] on the same cache never return
    the same slug, however many slugs are taken in between and whatever the
    two texts are: the identifiers that [decorate] gives to the groups, the
    resources and the actions are pairwise different. *)
Theorem unique_slugs_differ (cache1 cache2 cache cache3 : obj)
    (text1 text2 s1 s2 : string) (unique1 unique2 : value) :
  truthy unique1 = true -> truthy unique2 = true ->
  slug cache1 text1 unique1 = Ok (s1, cache2) ->
  (forall key, taken cache2 key = true -> taken cache key = true) ->
  slug cache text2 unique2 = Ok (s2, cache3) ->
  s1 <> s2 /\
  (forall key, taken cache2 key = true -> taken cache3 key = true).
Proof.
  intros Hu1 Hu2 E1 Hext E2.
  destruct (slug_result _ _ _ _ _ Hu1 E1) as [Hf1 ->].
  destruct (slug_result _ _ _ _ _ Hu2 E2) as [Hf2 ->].
  assert (Ht1 : taken (obj_set cache1 s1 (VBool true)) s1 = true).
  { destruct (taken_mark cache1 s1 s1 Hf1) as [_ ->].
    now rewrite String.eqb_refl. }
  split.
  - intros <-. apply Hext in Ht1. congruence.
  - intros key Hk. destruct (taken_mark cache s2 key Hf2) as [_ ->].
    rewrite (Hext key Hk). apply orb_true_r.
Qed.

Lemma unique_slugs_differ_witness :
  "users" <> "users-1" /\
  (forall key, taken [("_nav", VArr []); ("users", VBool true)] key = true ->
               taken [("_nav", VArr []); ("users", VBool true);
                      ("users-1", VBool true)] key = true).
Proof.
  apply (unique_slugs_differ [("_nav", VArr [])] _ seen_users _
           "Users" "users" "users" "users-1" (VBool true) (VBool true)
           eq_refl eq_refl eq_refl (fun key H => H) eq_refl).
Defined.

End Slugs.
